(** * UsenetStreamer: a shallow embedding of the ranking, triage, cache and
    proxy code, and the properties of its specification.

    Part I embeds the JavaScript sources as Rocq definitions, one module per
    source file.  Part II states and proves the properties.

    Conventions of the embedding:
    - JavaScript numbers that the code uses as byte counts, millisecond
      instants and ranks are integers ([Z]);
    - strings are ASCII strings ([string]); the regular expressions of the
      sources are written out as functions on lists of characters;
    - [undefined]/[null] fields are [None];
    - a [Map] or [Set] keyed by strings is a [gmap]/[gset] when only lookups
      matter and an association list when the iteration order matters;
    - module-level mutable variables are threaded as explicit state. *)

From Stdlib Require Import ZArith Lia List Bool Ascii String.
From stdpp Require Import base option list gmap strings fin_maps sorting.
Import ListNotations.

Set Default Proof Using "Type".

(* ===================================================================== *)
(** * Part I — the embedding                                              *)
(* ===================================================================== *)

(** ** JavaScript string primitives used by the sources *)

Module JsString.

Definition code (c : ascii) : nat := nat_of_ascii c.

Definition is_digit (c : ascii) : bool := (48 <=? code c)%nat && (code c <=? 57)%nat.
Definition is_upper (c : ascii) : bool := (65 <=? code c)%nat && (code c <=? 90)%nat.
Definition is_lower (c : ascii) : bool := (97 <=? code c)%nat && (code c <=? 122)%nat.
Definition is_alnum (c : ascii) : bool := is_digit c || is_upper c || is_lower c.

(** [\w] of a regular expression: letters, digits and the underscore. *)
Definition is_word (c : ascii) : bool := is_alnum c || (code c =? 95)%nat.

(** [\s] and the characters removed by [String.prototype.trim], restricted
    to ASCII: TAB, LF, VT, FF, CR and space. *)
Definition is_ws (c : ascii) : bool :=
  ((9 <=? code c)%nat && (code c <=? 13)%nat) || (code c =? 32)%nat.

Definition lower_char (c : ascii) : ascii :=
  if is_upper c then ascii_of_nat (code c + 32) else c.

Definition chars (s : string) : list ascii := list_ascii_of_string s.
Definition str (l : list ascii) : string := string_of_list_ascii l.

Definition lower_chars (l : list ascii) : list ascii := map lower_char l.

(** [s.toLowerCase()] *)
Definition toLowerCase (s : string) : string := str (lower_chars (chars s)).

Fixpoint drop_ws (l : list ascii) : list ascii :=
  match l with
  | c :: t => if is_ws c then drop_ws t else l
  | [] => []
  end.

Definition trim_chars (l : list ascii) : list ascii :=
  rev (drop_ws (rev (drop_ws l))).

(** [s.trim()] *)
Definition trim (s : string) : string := str (trim_chars (chars s)).

Definition ascii_eqb_ci (a b : ascii) : bool :=
  Ascii.eqb (lower_char a) (lower_char b).

(** [pat] is a prefix of [l]; with [ci] the comparison ignores case, as the
    [i] flag of a regular expression does on ASCII letters. *)
Fixpoint prefix_at (ci : bool) (pat l : list ascii) : bool :=
  match pat, l with
  | [], _ => true
  | p :: pat', c :: l' =>
      (if ci then ascii_eqb_ci p c else Ascii.eqb p c) && prefix_at ci pat' l'
  | _ :: _, [] => false
  end.

(** [s.includes(pat)] on character lists. *)
Fixpoint includes_chars (pat l : list ascii) : bool :=
  prefix_at false pat l ||
  match l with
  | [] => false
  | _ :: t => includes_chars pat t
  end.

Definition includes (s pat : string) : bool := includes_chars (chars pat) (chars s).

(** [s.startsWith(pat)] *)
Definition startsWith (s pat : string) : bool := prefix_at false (chars pat) (chars s).

(** [s.split(sep)] for a one-character separator. *)
Fixpoint split_chars (sep : ascii) (cur : list ascii) (l : list ascii) : list (list ascii) :=
  match l with
  | [] => [rev cur]
  | c :: t => if Ascii.eqb c sep then rev cur :: split_chars sep [] t
              else split_chars sep (c :: cur) t
  end.

Definition split (sep : ascii) (s : string) : list string :=
  map str (split_chars sep [] (chars s)).

(** A global replacement [s.replace(/[class]+/g, ' ')]: every maximal run of
    characters of the class becomes one space. *)
Fixpoint replace_runs (p : ascii -> bool) (inrun : bool) (l : list ascii) : list ascii :=
  match l with
  | [] => []
  | c :: t =>
      if p c then (if inrun then replace_runs p true t else " "%char :: replace_runs p true t)
      else c :: replace_runs p false t
  end.

(** A global replacement [s.replace(/[class]/g, ' ')]: every character of
    the class becomes a space. *)
Definition replace_each (p : ascii -> bool) (l : list ascii) : list ascii :=
  map (fun c => if p c then " "%char else c) l.

(** [s.replace(/\s{2,}/g, ' ')]: a run of two or more white-space characters
    becomes one space, a single white-space character is kept as it is.
    [pending] is the first character of the run being read, [many] tells
    whether the run already has two characters. *)
Definition flush_ws (pending : option ascii) (many : bool) : list ascii :=
  match pending with
  | None => []
  | Some c0 => [if many then " "%char else c0]
  end.

Fixpoint collapse_ws (pending : option ascii) (many : bool) (l : list ascii) : list ascii :=
  match l with
  | [] => flush_ws pending many
  | c :: t =>
      if is_ws c then
        match pending with
        | None => collapse_ws (Some c) false t
        | Some c0 => collapse_ws (Some c0) true t
        end
      else flush_ws pending many ++ c :: collapse_ws None false t
  end.

(** Truthiness of a string: the empty string is falsy. *)
Definition truthy (s : string) : bool := negb (String.eqb s "").

(** [a || b] on optional strings. *)
Definition or_else (a b : option string) : option string :=
  match a with
  | Some s => if truthy s then a else b
  | None => b
  end.

End JsString.

(** ** utils/publishInfo: publish instants (src/unnamed/part_002) *)

Module PublishInfo.
Local Open Scope Z_scope.

Definition MS_PER_DAY : Z := 24 * 60 * 60 * 1000.

(** The raw value of a publish field of a result.  [RawNumber] is a finite
    number or a numeric string, [RawDateString p] is a string that is not
    numeric, with [p] what [Date.parse] makes of it ([None] for [NaN]);
    [RawMissing] is [undefined], [null], a blank string or a non-finite
    number. *)
Inductive rawDate : Type :=
  | RawMissing
  | RawNumber (n : Z)
  | RawDateString (parsed : option Z).

Definition normalizePublishDate (value : rawDate) : option Z :=
  match value with
  | RawMissing => None
  | RawNumber n => Some (if 10 ^ 12 <=? n then n else n * 1000)
  | RawDateString parsed => parsed
  end.

(** The loop over [publishCandidates]: it stops at the first candidate whose
    normalised value is truthy; a final falsy value is turned into [null] by
    [publishDateMs || null]. *)
Fixpoint firstPublishDate (candidates : list rawDate) : option Z :=
  match candidates with
  | [] => None
  | c :: rest =>
      match normalizePublishDate c with
      | Some ms => if ms =? 0 then firstPublishDate rest else Some ms
      | None => firstPublishDate rest
      end
  end.

Definition areReleasesWithinDays (referenceMs candidateMs : option Z) (days : Z) : bool :=
  if days <=? 0 then true
  else match referenceMs, candidateMs with
       | Some r, Some c => Z.abs (r - c) <=? days * MS_PER_DAY
       | _, _ => true
       end.

End PublishInfo.

(** ** utils/parsers: title and indexer-token normalisation (src/unnamed/part_002) *)

Module Parsers.
Import JsString.

Definition ext_suffix (l : list ascii) : bool :=
  let r := rev l in
  prefix_at true (rev (chars ".nzb")) r || prefix_at true (rev (chars ".zip")) r.

(** [raw.replace(/\.(nzb|zip)$/i, '')] *)
Definition strip_ext (l : list ascii) : list ascii :=
  if ext_suffix l then rev (skipn 4 (rev l)) else l.

Definition is_sep (c : ascii) : bool :=
  Ascii.eqb c "." || Ascii.eqb c "_" || Ascii.eqb c "-".
Definition is_quote (c : ascii) : bool :=
  Ascii.eqb c "'" || Ascii.eqb c "034" || Ascii.eqb c "`".
Definition is_bracket (c : ascii) : bool :=
  Ascii.eqb c "(" || Ascii.eqb c ")" || Ascii.eqb c "[" || Ascii.eqb c "]"
  || Ascii.eqb c "{" || Ascii.eqb c "}".
Definition is_other (c : ascii) : bool := negb (is_alnum c || is_ws c).

Definition normalizeReleaseTitle (title : option string) : string :=
  match title with
  | None => ""
  | Some t =>
      let raw := trim_chars (chars t) in
      match raw with
      | [] => ""
      | _ =>
          let working := strip_ext raw in
          let working := replace_runs is_sep false working in
          let working := replace_runs is_quote false working in
          let working := replace_each is_bracket working in
          let working := replace_runs is_other false working in
          let working := collapse_ws None false working in
          str (lower_chars (trim_chars working))
      end
  end.

Definition normalizeIndexerToken (value : option string) : option string :=
  match value with
  | None => None
  | Some v =>
      let token := toLowerCase (trim v) in
      if truthy token then Some token else None
  end.

End Parsers.

(** ** The result objects handled by the ranker *)

Module Result.
Import PublishInfo.

(** The fields of a search result that the ranking code reads.  The publish
    fields other than [publishDateMs] ([publishDate], [publish_date],
    [publishdate], [published], [publishDateUTC], [pubDate], [pubdate],
    [usenetdate], ['usenet-date']) are kept in source order in
    [publishAliases].  [size] is [None] when it is not a finite number. *)
Record nzbResult : Type := {
  title : option string;
  downloadUrl : option string;
  publishDateMs : option Z;
  publishAliases : list rawDate;
  indexerId : option string;
  IndexerId : option string;
  indexer : option string;
  Indexer : option string;
  size : option Z;
  qualityRank : Z;
  resolution : option string;
  language : option string;
  languages : list string
}.

Definition set_publishDateMs (r : nzbResult) (ms : option Z) : nzbResult :=
  {| title := title r; downloadUrl := downloadUrl r; publishDateMs := ms;
     publishAliases := publishAliases r; indexerId := indexerId r;
     IndexerId := IndexerId r; indexer := indexer r; Indexer := Indexer r;
     size := size r; qualityRank := qualityRank r; resolution := resolution r;
     language := language r; languages := languages r |}.

Definition rawOfNumber (v : option Z) : rawDate :=
  match v with
  | Some n => RawNumber n
  | None => RawMissing
  end.

(** [getPublishMetadataFromResult(result).publishDateMs]; the [publishDateIso]
    and [ageDays] members of the metadata are not read by the code embedded
    here and are left out. *)
Definition getPublishMetadataFromResult (result : nzbResult) : option Z :=
  firstPublishDate (rawOfNumber (publishDateMs result) :: publishAliases result).

End Result.

(** ** server.js: deduplication by title and publish window *)

Module Server.
Import JsString PublishInfo Parsers Result.
Local Open Scope Z_scope.

Definition DEDUPE_MAX_PUBLISH_DIFF_DAYS : Z := 14.

(** [PAID_INDEXER_TOKENS] is a module-level [Set]; it is a parameter of the
    functions that read it. *)
Definition isResultFromPaidIndexer (PAID_INDEXER_TOKENS : gset string)
    (result : nzbResult) : bool :=
  if bool_decide (PAID_INDEXER_TOKENS = ∅) then false
  else
    let tokens :=
      omap id [ normalizeIndexerToken (or_else (indexerId result) (IndexerId result));
                normalizeIndexerToken (or_else (indexer result) (Indexer result)) ] in
    existsb (fun token => bool_decide (token ∈ PAID_INDEXER_TOKENS)) tokens.

(** An element of a bucket: [{ publishDateMs, isPaid, result, listIndex }]. *)
Record entry : Type := {
  entryPublishDateMs : option Z;
  isPaid : bool;
  entryResult : nzbResult;
  listIndex : nat
}.

(** The local variables [buckets] and [deduped] of [dedupeResultsByTitle]. *)
Record dedupeState : Type := {
  buckets : gmap string (list entry);
  deduped : list nzbResult
}.

Definition initialState : dedupeState := {| buckets := ∅; deduped := [] |}.

(** The inner [for (const entry of bucket)] loop: the first entry of the
    bucket that lies within the window of the candidate, with its position. *)
Fixpoint findMatchedEntry (bucket : list entry) (candidatePublish : option Z)
    (pos : nat) : option (nat * entry) :=
  match bucket with
  | [] => None
  | e :: rest =>
      if areReleasesWithinDays (entryPublishDateMs e) candidatePublish
           DEDUPE_MAX_PUBLISH_DIFF_DAYS
      then Some (pos, e)
      else findMatchedEntry rest candidatePublish (S pos)
  end.

(** The write-back of the publish metadata into the result object:
    [if (publishMeta.publishDateMs && !result.publishDateMs)
       result.publishDateMs = publishMeta.publishDateMs]. *)
Definition withPublishMetadata (result : nzbResult) : nzbResult :=
  match getPublishMetadataFromResult result with
  | Some ms =>
      match publishDateMs result with
      | Some old => if old =? 0 then set_publishDateMs result (Some ms) else result
      | None => set_publishDateMs result (Some ms)
      end
  | None => result
  end.

(** The assignments made when the candidate takes the place of the matched
    entry: the entry object is updated in place inside its bucket and the
    slot [deduped[matchedEntry.listIndex]] is overwritten. *)
Definition replaceMatched (st : dedupeState) (key : string) (bucket : list entry)
    (pos : nat) (matched : entry) (paid : bool) (candidatePublish : option Z)
    (result : nzbResult) : dedupeState :=
  let updated := {| entryPublishDateMs := candidatePublish; isPaid := paid;
                    entryResult := result; listIndex := listIndex matched |} in
  {| buckets := <[key := <[pos := updated]> bucket]> (buckets st);
     deduped := <[listIndex matched := result]> (deduped st) |}.

(** One iteration of the outer loop of [dedupeResultsByTitle]. *)
Definition dedupeStep (PAID_INDEXER_TOKENS : gset string) (st : dedupeState)
    (result0 : nzbResult) : dedupeState :=
  let candidatePublish := getPublishMetadataFromResult result0 in
  let result := withPublishMetadata result0 in
  let normalizedTitle := normalizeReleaseTitle (title result) in
  if negb (truthy normalizedTitle) then
    {| buckets := buckets st; deduped := deduped st ++ [result] |}
  else
    let bucket := default [] (buckets st !! normalizedTitle) in
    let candidateIsPaid := isResultFromPaidIndexer PAID_INDEXER_TOKENS result in
    match findMatchedEntry bucket candidatePublish 0 with
    | None =>
        let e := {| entryPublishDateMs := candidatePublish; isPaid := candidateIsPaid;
                    entryResult := result; listIndex := length (deduped st) |} in
        {| buckets := <[normalizedTitle := bucket ++ [e]]> (buckets st);
           deduped := deduped st ++ [result] |}
    | Some (pos, matchedEntry) =>
        if candidateIsPaid && negb (isPaid matchedEntry) then
          replaceMatched st normalizedTitle bucket pos matchedEntry true
            candidatePublish result
        else if Bool.eqb candidateIsPaid (isPaid matchedEntry) then
          match candidatePublish, entryPublishDateMs matchedEntry with
          | Some c, None =>
              replaceMatched st normalizedTitle bucket pos matchedEntry
                (isPaid matchedEntry) candidatePublish result
          | Some c, Some existing =>
              if c >? existing then
                replaceMatched st normalizedTitle bucket pos matchedEntry
                  (isPaid matchedEntry) candidatePublish result
              else st
          | None, _ => st
          end
        else st
    end.

Definition dedupeResultsByTitle (PAID_INDEXER_TOKENS : gset string)
    (results : list nzbResult) : list nzbResult :=
  deduped (fold_left (dedupeStep PAID_INDEXER_TOKENS) results initialState).

End Server.

(** *** Vocabulary of the deduplication properties *)

Module DedupeSpec.
Import JsString PublishInfo Parsers Result Server.
Local Open Scope Z_scope.

Definition titleKey (r : nzbResult) : string := normalizeReleaseTitle (title r).
Definition publishOf (r : nzbResult) : option Z := getPublishMetadataFromResult r.
Definition window : Z := DEDUPE_MAX_PUBLISH_DIFF_DAYS * MS_PER_DAY.

(** Both releases have a publish instant and the instants are at most
    fourteen days apart. *)
Definition withinWindow (a b : nzbResult) : Prop :=
  exists pa pb, publishOf a = Some pa /\ publishOf b = Some pb /\
                Z.abs (pa - pb) <= window.

(** Two releases of the same non-empty normalized title both have publish
    instants, more than fourteen days apart. *)
Definition farApart (a b : nzbResult) : Prop :=
  titleKey a = titleKey b -> truthy (titleKey a) = true ->
  exists pa pb, publishOf a = Some pa /\ publishOf b = Some pb /\
                window < Z.abs (pa - pb).

Fixpoint pairwise (R : nzbResult -> nzbResult -> Prop) (l : list nzbResult) : Prop :=
  match l with
  | [] => True
  | a :: t => Forall (R a) t /\ pairwise R t
  end.

(** Every entry of a bucket records the title and the publish instant of a
    release that was already processed. *)
Definition bucketsFrom (processed : list nzbResult) (st : dedupeState) : Prop :=
  forall key bucket e,
    buckets st !! key = Some bucket -> In e bucket ->
    exists r, In r processed /\ titleKey r = key /\ entryPublishDateMs e = publishOf r.

(** Both releases are present in the output of the pass. *)
Definition bothSurvive (PAID : gset string) (results : list nzbResult)
    (a b : nzbResult) : Prop :=
  In (withPublishMetadata a) (dedupeResultsByTitle PAID results) /\
  In (withPublishMetadata b) (dedupeResultsByTitle PAID results).

(** The sentence of the specification on releases within the window, read
    on every input list: of two different releases of the input that share
    a normalized title and publish within fourteen days of each other, only
    one is in the output. *)
Definition windowPairsCollapse (PAID : gset string) (results : list nzbResult) : Prop :=
  forall (i j : nat) a b,
    i <> j -> results !! i = Some a -> results !! j = Some b -> a <> b ->
    titleKey a = titleKey b -> withinWindow a b ->
    ~ bothSurvive PAID results a b.

(** The same sentence for a pair in which a publish instant is missing. *)
Definition undatedPairsCollapse (PAID : gset string) (results : list nzbResult) : Prop :=
  forall (i j : nat) a b,
    i <> j -> results !! i = Some a -> results !! j = Some b -> a <> b ->
    titleKey a = titleKey b -> (publishOf a = None \/ publishOf b = None) ->
    ~ bothSurvive PAID results a b.

(** Sample releases. *)
(** *** Vocabulary of the step law *)

(** The state of the pass when it has read [results]. *)
Definition passState (PAID : gset string) (results : list nzbResult) : dedupeState :=
  fold_left (dedupeStep PAID) results initialState.

(** The current survivors of the title of [c], in their order of creation. *)
Definition survivorsFor (st : dedupeState) (c : nzbResult) : list entry :=
  default [] (buckets st !! titleKey c).

(** The window test of the inner loop, between a survivor and the candidate. *)
Definition passesTest (e : entry) (c : nzbResult) : Prop :=
  areReleasesWithinDays (entryPublishDateMs e) (publishOf c) DEDUPE_MAX_PUBLISH_DIFF_DAYS
  = true.

(** The rule of a merge: the candidate takes the place of the survivor when
    it is from a paid indexer and the survivor is not; when both are of the
    same standing, when it has a publish instant and the survivor has none
    or an earlier one. *)
Definition candidateWins (PAID : gset string) (c : nzbResult) (e : entry) : bool :=
  (isResultFromPaidIndexer PAID c && negb (isPaid e))
  || (Bool.eqb (isResultFromPaidIndexer PAID c) (isPaid e)
      && match publishOf c, entryPublishDateMs e with
         | Some pc, Some pe => pc >? pe
         | Some _, None => true
         | None, _ => false
         end).

(** The entries of the buckets are the survivors: every entry records a
    release that was read, of the title of its bucket, with the standing and
    the publish instant found when it was read, and names the slot of
    [deduped] that holds it; the entries of a bucket stand in the order of
    their slots; and every slot that holds a titled release has its entry. *)
Record tracked (PAID : gset string) (processed : list nzbResult) (st : dedupeState)
    : Prop := {
  tracked_entry : forall key bucket e,
    buckets st !! key = Some bucket -> e ∈ bucket ->
    truthy key = true
    /\ exists r0, r0 ∈ processed /\ titleKey r0 = key
                  /\ entryResult e = withPublishMetadata r0
                  /\ isPaid e = isResultFromPaidIndexer PAID r0
                  /\ entryPublishDateMs e = publishOf r0
                  /\ deduped st !! listIndex e = Some (withPublishMetadata r0);
  tracked_order : forall key bucket,
    buckets st !! key = Some bucket -> StronglySorted lt (listIndex <$> bucket);
  tracked_slots : forall j r,
    deduped st !! j = Some r -> truthy (titleKey r) = true ->
    exists bucket e, buckets st !! titleKey r = Some bucket /\ e ∈ bucket
                     /\ listIndex e = j
}.

Definition sample (t : string) (published : option Z) (ix : string) : nzbResult :=
  {| title := Some t; downloadUrl := None; publishDateMs := published;
     publishAliases := []; indexerId := None; IndexerId := None;
     indexer := Some ix; Indexer := None; size := None; qualityRank := 0;
     resolution := None; language := None; languages := [] |}.

Definition day0 : Z := 1700000000000.
Definition paidTokens : gset string := {[ "paidindexer"%string ]}.

Definition relA : nzbResult := sample "Some.Movie.2023.1080p" (Some day0) "free".
Definition relB : nzbResult := sample "Some Movie 2023 1080p" (Some (day0 + 20 * MS_PER_DAY)) "free".
Definition relC : nzbResult := sample "some_movie_2023_1080p" (Some (day0 + 10 * MS_PER_DAY)) "free".
Definition relFar : nzbResult := sample "Some Movie 2023 1080p" (Some (day0 + 100 * MS_PER_DAY)) "free".
Definition relNear : nzbResult := sample "Some Movie 2023 1080p" (Some (day0 + 3 * MS_PER_DAY)) "PaidIndexer".
Definition relUndatedPaid : nzbResult := sample "Some-Movie-2023-1080p" None " PaidIndexer ".
Definition relUndated : nzbResult := sample "Some-Movie-2023-1080p" None "free".
Definition relBlank1 : nzbResult := sample "..." (Some day0) "free".
Definition relBlank2 : nzbResult := sample "---" None "free".
Definition relBlank3 : nzbResult := sample "___" (Some (day0 + MS_PER_DAY)) "free".

End DedupeSpec.

(** ** utils/helpers.js: sorting of annotated results *)

Module Helpers.
Import JsString Result.
Local Open Scope Z_scope.

(** The [preferredLanguages] argument: an array of strings, a comma-separated
    string, or a falsy value. *)
Inductive preferredInput : Type :=
  | PrefNone
  | PrefArray (entries : list string)
  | PrefString (csv : string).

(** The [forEach] of [normalizePreferredLanguageList]: [seen] holds the
    lower-cased values already kept. *)
Fixpoint collectPreferred (seen : list string) (entries : list string) : list string :=
  match entries with
  | [] => []
  | entry :: rest =>
      let value := trim entry in
      if negb (truthy value) then collectPreferred seen rest
      else
        let key := toLowerCase value in
        if existsb (String.eqb key) seen then collectPreferred seen rest
        else value :: collectPreferred (key :: seen) rest
  end.

Definition normalizePreferredLanguageList (preferredLanguages : preferredInput)
    : list string :=
  match preferredLanguages with
  | PrefNone => []
  | PrefArray entries => collectPreferred [] entries
  | PrefString csv => if truthy csv then collectPreferred [] (split "," csv) else []
  end.

Definition gatherResultLanguages (result : nzbResult) : list string :=
  let collection :=
    match language result with
    | Some l => if truthy l then [l] else []
    | None => []
    end ++ languages result in
  filter (fun lang => truthy lang = true) (map trim collection).

(** The loop over the preferences: for each preference, the first language
    of the result whose lower-cased form equals it. *)
Fixpoint matchPreferences (preferences : list string) (resultLanguages : list string)
    : list string :=
  match preferences with
  | [] => []
  | pref :: rest =>
      match find (fun lang => String.eqb (toLowerCase lang) pref) resultLanguages with
      | Some raw => raw :: matchPreferences rest resultLanguages
      | None => matchPreferences rest resultLanguages
      end
  end.

Definition getPreferredLanguageMatches (result : nzbResult)
    (preferredLanguages : preferredInput) : list string :=
  let preferences := map toLowerCase (normalizePreferredLanguageList preferredLanguages) in
  match preferences with
  | [] => []
  | _ =>
      let resultLanguages := gatherResultLanguages result in
      match resultLanguages with
      | [] => []
      | _ => matchPreferences preferences resultLanguages
      end
  end.

Definition resultMatchesPreferredLanguage (result : nzbResult)
    (preferredLanguages : preferredInput) : bool :=
  (0 <? length (getPreferredLanguageMatches result preferredLanguages))%nat.

Definition finiteSize (r : nzbResult) : Z := default 0 (size r).

Definition compareQualityThenSize (a b : nzbResult) : Z :=
  if negb (qualityRank a =? qualityRank b) then qualityRank b - qualityRank a
  else finiteSize b - finiteSize a.

(** [Array.prototype.sort(compare)].  The sort of the language is stable, and
    for a comparator that is a consistent ordering its result is the stable
    sorted arrangement, which insertion from the right computes. *)
Section ArraySort.
Context {A : Type} (compare : A -> A -> Z).

Fixpoint insertSorted (x : A) (l : list A) : list A :=
  match l with
  | [] => [x]
  | y :: t => if compare x y <=? 0 then x :: y :: t else y :: insertSorted x t
  end.

Definition arraySort (l : list A) : list A := fold_right insertSorted [] l.

End ArraySort.

Definition sortAnnotatedResults (results : list nzbResult) (sortMode : string)
    (preferredLanguages : preferredInput) : list nzbResult :=
  match results with
  | [] => results
  | _ =>
      let normalizedPreferences := normalizePreferredLanguageList preferredLanguages in
      if String.eqb sortMode "language_quality_size"
         && (0 <? length normalizedPreferences)%nat
      then
        let preferred :=
          filter (fun r => resultMatchesPreferredLanguage r (PrefArray normalizedPreferences) = true)
                 results in
        let others :=
          filter (fun r => resultMatchesPreferredLanguage r (PrefArray normalizedPreferences) <> true)
                 results in
        arraySort compareQualityThenSize preferred
          ++ arraySort compareQualityThenSize others
      else arraySort compareQualityThenSize results
  end.

End Helpers.

(** *** Vocabulary of the sorting properties *)

Module SortSpec.
Import JsString Result Helpers.
Local Open Scope Z_scope.

(** Quality score descending, then size descending. *)
Definition qualityThenSizeDesc (a b : nzbResult) : Prop :=
  qualityRank b < qualityRank a
  \/ (qualityRank a = qualityRank b /\ finiteSize b <= finiteSize a).

(** The language set of the result meets the preferred list (names are
    compared without case and without surrounding blanks). *)
Definition languagesIntersect (r : nzbResult) (preferredLanguages : preferredInput) : Prop :=
  exists pref lang,
    In pref (normalizePreferredLanguageList preferredLanguages)
    /\ In lang (gatherResultLanguages r)
    /\ toLowerCase lang = toLowerCase pref.

(** The position, in the preferred list, of the first preferred language
    that the result has. *)
Fixpoint preferenceIndexFrom (preferences : list string) (resultLanguages : list string)
    (i : nat) : option nat :=
  match preferences with
  | [] => None
  | pref :: rest =>
      if existsb (fun lang => String.eqb (toLowerCase lang) (toLowerCase pref)) resultLanguages
      then Some i
      else preferenceIndexFrom rest resultLanguages (S i)
  end.

Definition preferenceIndex (preferredLanguages : preferredInput) (r : nzbResult) : option nat :=
  preferenceIndexFrom (normalizePreferredLanguageList preferredLanguages)
    (gatherResultLanguages r) 0.

(** The sentence of the specification on preferred releases: they come in
    buckets that follow the order of the preferred-language list. *)
Definition mirrorsPreferenceOrder (preferredLanguages : preferredInput)
    (out : list nzbResult) : Prop :=
  forall (i j : nat) a b pa pb,
    (i < j)%nat -> out !! i = Some a -> out !! j = Some b ->
    preferenceIndex preferredLanguages a = Some pa ->
    preferenceIndex preferredLanguages b = Some pb ->
    (pa <= pb)%nat.

Definition annotated (t : string) (rank : Z) (bytes : Z) (langs : list string) : nzbResult :=
  {| title := Some t; downloadUrl := None; publishDateMs := None;
     publishAliases := []; indexerId := None; IndexerId := None;
     indexer := None; Indexer := None; size := Some bytes; qualityRank := rank;
     resolution := None; language := head langs; languages := langs |}.

Definition GB : Z := 1024 * 1024 * 1024.

(** Scenario S2 of the specification. *)
Definition tamil1080 : nzbResult := annotated "Movie.2023.1080p.Tamil.WEB" 7 (4 * GB) ["Tamil"%string].
Definition english2160 : nzbResult := annotated "Movie.2023.2160p.English.WEB" 9 (10 * GB) ["English"%string].
Definition hindi2160 : nzbResult := annotated "Movie.2023.2160p.Hindi.WEB" 9 (12 * GB) ["Hindi"%string].

End SortSpec.

(** ** services/triage/index.js: the decisions of the analyzer *)

Module Triage.
Import JsString.

(** An element of [archiveFindings]; of its members only [status] is read by
    the code embedded here. *)
Record archiveFinding : Type := {
  source : string;
  status : string
}.

(** The object made by [buildDecision]. *)
Record analyzerDecision : Type := {
  decision : string;
  blockers : list string;
  warnings : list string;
  fileCount : option Z;
  nzbIndex : option Z;
  archiveFindings : list archiveFinding
}.

(** A [Set] of strings in insertion order, as [Array.from] lists it. *)
Definition setAdd (x : string) (s : list string) : list string :=
  if existsb (String.eqb x) s then s else s ++ [x].

Definition buildDecision (decision : string) (blockers warnings : list string)
    (fileCount nzbIndex : option Z) (archiveFindings : list archiveFinding)
    : analyzerDecision :=
  {| decision := decision; blockers := blockers; warnings := warnings;
     fileCount := fileCount; nzbIndex := nzbIndex;
     archiveFindings := archiveFindings |}.

(** The two places where [analyzeSingleNzb] returns:
    [const decision = blockers.size === 0 ? 'accept' : 'reject';
     return buildDecision(decision, blockers, warnings, {...})]. *)
Definition concludeAnalysis (blockers warnings : list string)
    (fileCount nzbIndex : option Z) (archiveFindings : list archiveFinding)
    : analyzerDecision :=
  let decision := if (length blockers =? 0)%nat then "accept" else "reject" in
  buildDecision decision blockers warnings fileCount nzbIndex archiveFindings.

(** [buildErrorDecision(err, nzbIndex)], with the optional [code] and
    [message] of the error. *)
Definition buildErrorDecision (errCode errMessage : option string) (nzbIndex : option Z)
    : analyzerDecision :=
  let blockers := ["analysis-error"] in
  let warnings := [] in
  let warnings :=
    match errCode with
    | Some c => if truthy c then setAdd ("code:" ++ c) warnings else warnings
    | None => warnings
    end in
  let warnings :=
    match errMessage with
    | Some m => if truthy m then setAdd m warnings else warnings
    | None => warnings
    end in
  let warnings :=
    if (length warnings =? 0)%nat then setAdd "analysis-failed" warnings else warnings in
  buildDecision "reject" blockers warnings (Some 0%Z) nzbIndex [].

Definition isBlockerStatus (status : string) : bool :=
  existsb (String.eqb status)
    ["rar-compressed"; "rar-encrypted"; "rar-solid"; "rar5-unsupported";
     "rar-nested-archive"; "sevenzip-nested-archive"; "sevenzip-unsupported"].

Definition isMissingStatus (status : string) : bool :=
  existsb (String.eqb status) ["stat-missing"; "body-missing"].

Definition isWarningStatus (status : string) : bool :=
  existsb (String.eqb status)
    ["archive-not-found"; "archive-no-segments"; "rar-insufficient-data";
     "rar-header-not-found"; "sevenzip-insufficient-data"; "io-error";
     "stat-error"; "body-error"; "decode-error"; "missing-filename";
     "sevenzip-untested"].

(** [handleArchiveStatus(status, blockers, warnings)]: the returned flag and
    the two sets after the call. *)
Definition handleArchiveStatus (status : string) (blockers warnings : list string)
    : bool * list string * list string :=
  if String.eqb status "rar-stored" then (true, blockers, warnings)
  else if String.eqb status "sevenzip-stored" then (true, blockers, warnings)
  else if isBlockerStatus status then (false, setAdd status blockers, warnings)
  else if isMissingStatus status then (false, setAdd "missing-articles" blockers, warnings)
  else if isWarningStatus status then (false, blockers, setAdd status warnings)
  else (false, blockers, warnings).

End Triage.

(** ** services/triage/runner.js: the summary of a decision (src/unnamed/part_006) *)

Module TriageRunner.
Import JsString Triage.

(** The object returned by [summarizeDecision]. *)
Record summary : Type := {
  summaryStatus : string;
  summaryBlockers : list string;
  summaryWarnings : list string;
  summaryNzbIndex : option Z;
  summaryFileCount : option Z;
  summaryFindings : list archiveFinding
}.

Definition findingLabel (f : archiveFinding) : string := toLowerCase (status f).

Definition isPositiveLabel (label : string) : bool :=
  String.eqb label "rar-stored" || String.eqb label "sevenzip-stored"
  || String.eqb label "segment-ok".

Definition summarizeDecision (d : analyzerDecision) : summary :=
  let status :=
    if String.eqb (decision d) "accept" && (length (blockers d) =? 0)%nat then
      if existsb (fun f => isPositiveLabel (findingLabel f)) (archiveFindings d)
      then "verified" else "unverified"
    else "blocked" in
  let status :=
    if String.eqb status "unverified" then
      let sevenZipFlag :=
        existsb (fun f => startsWith (findingLabel f) "sevenzip") (archiveFindings d)
        || existsb (fun w => startsWith (toLowerCase w) "sevenzip") (warnings d) in
      if sevenZipFlag then "unverified_7z" else status
    else status in
  {| summaryStatus := status; summaryBlockers := blockers d;
     summaryWarnings := warnings d; summaryNzbIndex := nzbIndex d;
     summaryFileCount := fileCount d; summaryFindings := archiveFindings d |}.

End TriageRunner.

(** *** Vocabulary of the decision-summary properties *)

Module SummarySpec.
Import JsString Triage TriageRunner.

(** The decisions that the analyzer returns: the outcome of an analysis, whose
    findings carry the lower-case status words of the analyzer, or the
    decision made of an exception. *)
Inductive fromAnalyzer : analyzerDecision -> Prop :=
  | from_analysis blockers warnings fileCount nzbIndex findings :
      Forall (fun f => toLowerCase (status f) = status f) findings ->
      fromAnalyzer (concludeAnalysis blockers warnings fileCount nzbIndex findings)
  | from_exception errCode errMessage nzbIndex :
      fromAnalyzer (buildErrorDecision errCode errMessage nzbIndex).

(** At least one archive finding has status [rar-stored], [sevenzip-stored]
    or [segment-ok]. *)
Definition hasPositiveFinding (d : analyzerDecision) : Prop :=
  exists f, In f (archiveFindings d)
            /\ (status f = "rar-stored" \/ status f = "sevenzip-stored"
                \/ status f = "segment-ok")%string.

Definition sevenZipWord (s : string) : Prop := startsWith (toLowerCase s) "sevenzip" = true.

(** Some finding or warning is about 7z. *)
Definition someSevenZipEvidence (d : analyzerDecision) : Prop :=
  (exists f, In f (archiveFindings d) /\ sevenZipWord (status f))
  \/ (exists w, In w (warnings d) /\ sevenZipWord w).

(** There is evidence, and all of it is about 7z. *)
Definition onlySevenZipEvidence (d : analyzerDecision) : Prop :=
  (archiveFindings d <> [] \/ warnings d <> [])
  /\ Forall (fun f => sevenZipWord (status f)) (archiveFindings d)
  /\ Forall sevenZipWord (warnings d).

(** The sentence of the specification for a decision without blockers and
    without positive finding: [unverified_7z] when the only evidence is
    7z-related, [unverified] otherwise. *)
Definition unverifiedAsStated (d : analyzerDecision) : Prop :=
  (onlySevenZipEvidence d -> summaryStatus (summarizeDecision d) = "unverified_7z"%string)
  /\ (~ onlySevenZipEvidence d -> summaryStatus (summarizeDecision d) = "unverified"%string).

(** The analysis of an NZB whose archive is a 7z file that was not found in
    the local archive directories: the local finding, the NNTP finding of the
    skipped 7z body, and the warnings these leave. *)
Definition sevenZipMixed : analyzerDecision :=
  concludeAnalysis []
    ["archive-not-found"; "sevenzip-untested"; "rar-m0-unverified"]%string
    (Some 3%Z) (Some 0%Z)
    [ {| source := "local"; status := "archive-not-found" |};
      {| source := "nntp"; status := "sevenzip-untested" |} ].

(** Scenario S4: a stored RAR whose first segment was checked. *)
Definition storedRar : analyzerDecision :=
  concludeAnalysis [] [] (Some 12%Z) (Some 0%Z)
    [ {| source := "nntp"; status := "rar-stored" |};
      {| source := "nntp-stat"; status := "segment-ok" |} ].

End SummarySpec.

(** ** services/metadata/releaseParser.js: resolution of a release title *)

Module ReleaseParser.
Import JsString.
Local Open Scope Z_scope.

(** What the library [parse-torrent-title] returns for a title; the library
    is not part of the repository and is a parameter of the functions below. *)
Record parsedTitle : Type := {
  parsedResolution : option string;
  parsedQuality : option string;
  parsedSource : option string;
  parsedCodec : option string
}.

Definition RESOLUTION_PREFERENCES : list string :=
  ["4320p"; "2160p"; "1440p"; "1080p"; "720p"; "576p"; "540p"; "480p"; "360p"; "240p"].

(** One alternative of a pattern: a literal word, compared without case, with
    an optional [\b] on either side. *)
Record alternative : Type := {
  boundaryBefore : bool;
  literal : string;
  boundaryAfter : bool
}.

Definition bounded (w : string) : alternative :=
  {| boundaryBefore := true; literal := w; boundaryAfter := true |}.
Definition anywhere (w : string) : alternative :=
  {| boundaryBefore := false; literal := w; boundaryAfter := false |}.
Definition wordEnd (w : string) : alternative :=
  {| boundaryBefore := false; literal := w; boundaryAfter := true |}.

(** The literals begin and end with a word character, so a [\b] in front of
    one holds when the character before is not a word character (or there is
    none), and likewise behind it. *)
Definition notWord (c : option ascii) : bool :=
  match c with
  | Some a => negb (is_word a)
  | None => true
  end.

Definition matchesHere (alt : alternative) (prev : option ascii) (s : list ascii) : bool :=
  (negb (boundaryBefore alt) || notWord prev)
  && prefix_at true (chars (literal alt)) s
  && (negb (boundaryAfter alt)
      || notWord (head (skipn (String.length (literal alt)) s))).

Fixpoint searchFrom (alt : alternative) (prev : option ascii) (s : list ascii) : bool :=
  matchesHere alt prev s ||
  match s with
  | [] => false
  | c :: t => searchFrom alt (Some c) t
  end.

(** [regex.test(title)] for a pattern given by its alternatives. *)
Definition regexTest (alts : list alternative) (title : string) : bool :=
  existsb (fun alt => searchFrom alt None (chars title)) alts.

Definition RESOLUTION_NUMERIC_PATTERNS : list (string * list alternative) :=
  [ ("4320p", [bounded "4320p"]);
    ("2160p", [bounded "2160p"]);
    ("1440p", [bounded "1440p"]);
    ("1080p", [bounded "1080p"; anywhere "fullhd"; anywhere "fhd"]);
    ("720p", [bounded "720p"; wordEnd "hd"]);
    ("576p", [bounded "576p"]);
    ("540p", [bounded "540p"]);
    ("480p", [bounded "480p"; wordEnd "sd"]);
    ("360p", [bounded "360p"]);
    ("240p", [bounded "240p"]) ]%string.

Definition RESOLUTION_SYNONYM_PATTERNS : list (string * list alternative) :=
  [ ("4320p", [bounded "8k"]);
    ("2160p", [bounded "4k"; bounded "uhd"]) ]%string.

(** [QUALITY_SCORE_MAP[label] || 0]: the rank of the label counted from the
    end of [RESOLUTION_PREFERENCES]. *)
Fixpoint scoreIn (labels : list string) (label : string) : Z :=
  match labels with
  | [] => 0
  | l :: rest => if String.eqb l label then Z.of_nat (length labels) else scoreIn rest label
  end.

Definition qualityScoreOf (resolution : option string) : Z :=
  match resolution with
  | Some label => scoreIn RESOLUTION_PREFERENCES label
  | None => 0
  end.

Definition normalizeResolutionLabel (label : option string) : option string :=
  match label with
  | None => None
  | Some l =>
      let value := toLowerCase l in
      if negb (truthy value) then None
      else if includes value "4320" || includes value "8k" then Some "4320p"
      else if includes value "2160" || includes value "4k" || includes value "uhd"
           then Some "2160p"
      else if includes value "1440" then Some "1440p"
      else if includes value "1080" then Some "1080p"
      else if includes value "720" then Some "720p"
      else if includes value "576" then Some "576p"
      else if includes value "540" then Some "540p"
      else if includes value "480" then Some "480p"
      else if includes value "360" then Some "360p"
      else if includes value "240" then Some "240p"
      else None
  end%string.

(** The loops [for (const entry of PATTERNS) if (entry.regex.test(title))
    return entry.label]. *)
Fixpoint firstMatch (patterns : list (string * list alternative)) (title : string)
    : option string :=
  match patterns with
  | [] => None
  | (label, alts) :: rest =>
      if regexTest alts title then Some label else firstMatch rest title
  end.

(** [if (parsed?.field) { const normalized = normalizeResolutionLabel(...);
    if (normalized) return normalized; }] *)
Definition explicitLabel (field : option string) : option string :=
  match field with
  | Some v => if truthy v then normalizeResolutionLabel (Some v) else None
  | None => None
  end.

Definition detectResolution (rawTitle : string) (parsed : parsedTitle) : option string :=
  match explicitLabel (parsedResolution parsed) with
  | Some normalized => Some normalized
  | None =>
      match firstMatch RESOLUTION_NUMERIC_PATTERNS rawTitle with
      | Some label => Some label
      | None =>
          match explicitLabel (parsedQuality parsed) with
          | Some normalized => Some normalized
          | None => firstMatch RESOLUTION_SYNONYM_PATTERNS rawTitle
          end
      end
  end.

(** The object returned by [parseReleaseMetadata].  Its [languages] member,
    computed by [detectLanguages] from the language lexicon, is read by none
    of the properties below and is left out. *)
Record releaseMetadata : Type := {
  metaResolution : option string;
  qualityLabel : option string;
  qualityScore : Z
}.

Definition parseReleaseMetadata (parseTorrentTitle : string -> parsedTitle)
    (title : option string) : releaseMetadata :=
  let rawTitle := default ""%string title in
  let parsed := parseTorrentTitle rawTitle in
  let resolution := detectResolution rawTitle parsed in
  {| metaResolution := resolution;
     qualityLabel := or_else (or_else (parsedQuality parsed) (parsedSource parsed))
                       (parsedCodec parsed);
     qualityScore := qualityScoreOf resolution |}.

End ReleaseParser.

(** *** Vocabulary of the resolution properties *)

Module ResolutionSpec.
Import JsString ReleaseParser.

(** The labels of the specification: the ten resolutions and [unknown]. *)
Definition LABELS_AS_STATED : list string := RESOLUTION_PREFERENCES ++ ["unknown"%string].

(** The sentence of the specification: the detected resolution is one of the
    eleven labels. *)
Definition resolutionLabelled (m : releaseMetadata) : Prop :=
  exists label, In label LABELS_AS_STATED /\ metaResolution m = Some label.

(** A parser that recognises nothing. *)
Definition parsesNothing (_ : string) : parsedTitle :=
  {| parsedResolution := None; parsedQuality := None;
     parsedSource := None; parsedCodec := None |}.

(** The order of detection as the specification words it: the parser result,
    then the numeric labels, then the aliases, else [unknown]. *)
Definition NUMERIC_AS_STATED : list (string * list alternative) :=
  map (fun label => (label, [bounded label])) RESOLUTION_PREFERENCES.

Definition ALIASES_AS_STATED : list (string * list alternative) :=
  [ ("2160p", [bounded "4k"]); ("4320p", [bounded "8k"]); ("2160p", [bounded "uhd"]);
    ("1080p", [anywhere "fullhd"]); ("480p", [wordEnd "sd"]) ]%string.

Definition detectResolutionAsStated (rawTitle : string) (parsed : parsedTitle) : string :=
  match explicitLabel (parsedResolution parsed) with
  | Some normalized => normalized
  | None =>
      match firstMatch NUMERIC_AS_STATED rawTitle with
      | Some label => label
      | None => default "unknown"%string (firstMatch ALIASES_AS_STATED rawTitle)
      end
  end.

End ResolutionSpec.

(** ** cache/streamCache.js: the response cache *)

Module StreamCache.
Import JsString.
Local Open Scope Z_scope.

(** The constants read from the environment when the module is loaded; [raw]
    is the numeric value of the variable, [None] when it is not a number. *)
Definition STREAM_CACHE_TTL_MS (raw : option Z) : Z :=
  match raw with
  | Some r => if 0 <=? r then r * 60 * 1000 else 24 * 60 * 60 * 1000
  | None => 24 * 60 * 60 * 1000
  end.

Definition STREAM_CACHE_MAX_BYTES (raw : option Z) : Z :=
  match raw with
  | Some r => if 0 <? r then r * 1024 * 1024 else 200 * 1024 * 1024
  | None => 200 * 1024 * 1024
  end.

Definition STREAM_CACHE_MAX_ENTRIES : Z := 1000.

Record config : Type := {
  ttlMs : Z;
  maxBytes : Z;
  maxEntries : Z
}.

Definition configFromEnv (rawTtlMinutes rawMaxSizeMb : option Z) : config :=
  {| ttlMs := STREAM_CACHE_TTL_MS rawTtlMinutes;
     maxBytes := STREAM_CACHE_MAX_BYTES rawMaxSizeMb;
     maxEntries := STREAM_CACHE_MAX_ENTRIES |}.

Section Cache.
(** The cached payload and its metadata are opaque to the cache;
    [estimateCacheEntrySize] is the byte length of their JSON text, or [0]
    when they cannot be serialized. *)
Context {Payload Meta : Type}.
Variable estimateCacheEntrySize : Payload -> option Meta -> Z.
Variable cfg : config.

Record cacheEntry : Type := {
  payload : Payload;
  meta : option Meta;
  expiresAt : option Z;
  size : Z
}.

(** The module variables [streamResponseCache] and [streamCacheBytes].  The
    [Map] is kept in its iteration order, which is the order of insertion. *)
Record cacheState : Type := {
  streamResponseCache : list (string * cacheEntry);
  streamCacheBytes : Z
}.

Definition emptyCache : cacheState :=
  {| streamResponseCache := []; streamCacheBytes := 0 |}.

(** [entry.expiresAt && entry.expiresAt <= now] *)
Definition expired (now : Z) (e : cacheEntry) : bool :=
  match expiresAt e with
  | Some t => negb (t =? 0) && (t <=? now)
  | None => false
  end.

Fixpoint mapGet (key : string) (entries : list (string * cacheEntry)) : option cacheEntry :=
  match entries with
  | [] => None
  | (k, e) :: rest => if String.eqb k key then Some e else mapGet key rest
  end.

Fixpoint mapDelete (key : string) (entries : list (string * cacheEntry))
    : list (string * cacheEntry) :=
  match entries with
  | [] => []
  | (k, e) :: rest => if String.eqb k key then mapDelete key rest
                      else (k, e) :: mapDelete key rest
  end.

(** The first loop of [cleanupStreamCache]: expired entries are deleted and
    their sizes are taken off the byte count. *)
Fixpoint removeExpired (now : Z) (entries : list (string * cacheEntry)) (bytes : Z)
    : list (string * cacheEntry) * Z :=
  match entries with
  | [] => ([], bytes)
  | (k, e) :: rest =>
      if expired now e then removeExpired now rest (bytes - size e)
      else let '(kept, bytes') := removeExpired now rest bytes in ((k, e) :: kept, bytes')
  end.

Definition overLimit (bytes : Z) (count : nat) : bool :=
  ((0 <? maxBytes cfg) && (maxBytes cfg <? bytes))
  || ((0 <? maxEntries cfg) && (maxEntries cfg <? Z.of_nat count)).

(** The second loop of [cleanupStreamCache]: while a limit is exceeded the
    oldest key is deleted; the loop breaks when there is no oldest key. *)
Fixpoint evictOldest (entries : list (string * cacheEntry)) (bytes : Z)
    : list (string * cacheEntry) * Z :=
  match entries with
  | [] => ([], bytes)
  | (oldestKey, oldest) :: rest =>
      if overLimit bytes (length entries) then
        if truthy oldestKey then evictOldest rest (bytes - size oldest)
        else (entries, bytes)
      else (entries, bytes)
  end.

Definition cleanupStreamCache (now : Z) (st : cacheState) : cacheState :=
  match streamResponseCache st with
  | [] => st
  | entries =>
      let '(kept, bytes) :=
        if 0 <? ttlMs cfg then removeExpired now entries (streamCacheBytes st)
        else (entries, streamCacheBytes st) in
      let '(kept, bytes) := evictOldest kept bytes in
      {| streamResponseCache := kept; streamCacheBytes := bytes |}
  end.

(** [getStreamCacheEntry(cacheKey)]; [now1] is the clock read by the cleanup
    and [now2] the clock read by the expiry test that follows. *)
Definition getStreamCacheEntry (now1 now2 : Z) (cacheKey : string) (st : cacheState)
    : option cacheEntry * cacheState :=
  if negb (truthy cacheKey) || (maxEntries cfg <=? 0) then (None, st)
  else
    let st := cleanupStreamCache now1 st in
    match mapGet cacheKey (streamResponseCache st) with
    | None => (None, st)
    | Some entry =>
        if expired now2 entry then
          (None, {| streamResponseCache := mapDelete cacheKey (streamResponseCache st);
                    streamCacheBytes := streamCacheBytes st - size entry |})
        else (Some entry, st)
    end.

(** [setStreamCacheEntry(cacheKey, payload, meta)]; [now1] is the clock read
    for [expiresAt] and [now2] the clock read by the cleanup that follows. *)
Definition setStreamCacheEntry (now1 now2 : Z) (cacheKey : string) (p : Payload)
    (m : option Meta) (st : cacheState) : cacheState :=
  if negb (truthy cacheKey) || (maxEntries cfg <=? 0) then st
  else
    let sz := estimateCacheEntrySize p m in
    if (sz <=? 0) || ((0 <? maxBytes cfg) && (maxBytes cfg <? sz)) then st
    else
      let expires := if 0 <? ttlMs cfg then Some (now1 + ttlMs cfg) else None in
      let '(entries, bytes) :=
        match mapGet cacheKey (streamResponseCache st) with
        | Some existing =>
            (mapDelete cacheKey (streamResponseCache st), streamCacheBytes st - size existing)
        | None => (streamResponseCache st, streamCacheBytes st)
        end in
      let entry := {| payload := p; meta := m; expiresAt := expires; size := sz |} in
      cleanupStreamCache now2
        {| streamResponseCache := entries ++ [(cacheKey, entry)];
           streamCacheBytes := bytes + sz |}.

Definition clearStreamResponseCache (st : cacheState) : cacheState := emptyCache.

(** *** Vocabulary of the cache properties *)

Definition sumSizes (entries : list (string * cacheEntry)) : Z :=
  fold_right (fun ke acc => size (snd ke) + acc) 0 entries.

(** The entries that the expiry loop of a cleanup at [now] leaves. *)
Definition survivors (now : Z) (entries : list (string * cacheEntry))
    : list (string * cacheEntry) :=
  if 0 <? ttlMs cfg then filter (fun ke => expired now (snd ke) = false) entries
  else entries.

(** The state handed to the cleanup at the end of an accepted insertion. *)
Definition inserted (now1 : Z) (key : string) (p : Payload) (m : option Meta)
    (st : cacheState) : cacheState :=
  let entry := {| payload := p; meta := m;
                  expiresAt := if 0 <? ttlMs cfg then Some (now1 + ttlMs cfg) else None;
                  size := estimateCacheEntrySize p m |} in
  {| streamResponseCache := mapDelete key (streamResponseCache st) ++ [(key, entry)];
     streamCacheBytes := streamCacheBytes st
                         - (sumSizes (streamResponseCache st)
                            - sumSizes (mapDelete key (streamResponseCache st)))
                         + estimateCacheEntrySize p m |}.

(** The states that the exported functions produce from the empty cache; the
    clock does not run backwards and shows a positive number of
    milliseconds. *)
Inductive reachable : cacheState -> Prop :=
  | reach_empty : reachable emptyCache
  | reach_set st now1 now2 key p m :
      reachable st -> 0 < now1 <= now2 ->
      reachable (setStreamCacheEntry now1 now2 key p m st)
  | reach_get st now1 now2 key :
      reachable st -> 0 < now1 <= now2 ->
      reachable (snd (getStreamCacheEntry now1 now2 key st))
  | reach_cleanup st now :
      reachable st -> 0 < now ->
      reachable (cleanupStreamCache now st)
  | reach_clear st :
      reachable st -> reachable (clearStreamResponseCache st).

(** The bookkeeping invariant of the cache. *)
Record wellFormed (st : cacheState) : Prop := {
  wf_bytes : streamCacheBytes st = sumSizes (streamResponseCache st);
  wf_keys : NoDup (map fst (streamResponseCache st));
  wf_truthy : Forall (fun ke => truthy (fst ke) = true) (streamResponseCache st);
  wf_sizes : Forall (fun ke => 0 < size (snd ke)) (streamResponseCache st);
  wf_expiry : Forall (fun ke => match expiresAt (snd ke) with
                                | Some t => 0 < t /\ 0 < ttlMs cfg
                                | None => ttlMs cfg <= 0
                                end)
                     (streamResponseCache st);
  wf_cap : streamCacheBytes st <= maxBytes cfg;
  wf_count : Z.of_nat (length (streamResponseCache st)) <= maxEntries cfg
}.

End Cache.

Arguments cacheEntry : clear implicits.
Arguments cacheState : clear implicits.

(** A cache of strings measured by their length. *)
Definition textSize (p : string) (m : option string) : Z := Z.of_nat (String.length p).
Definition smallConfig : config := {| ttlMs := 1000; maxBytes := 10; maxEntries := 1000 |}.

(** Three insertions of four bytes each into a cache of ten bytes. *)
Definition cacheOne : cacheState string string :=
  setStreamCacheEntry textSize smallConfig 5 5 "k1" "aaaa"%string None emptyCache.
Definition cacheTwo : cacheState string string :=
  setStreamCacheEntry textSize smallConfig 6 6 "k2" "bbbb"%string None cacheOne.
Definition cacheThree : cacheState string string :=
  setStreamCacheEntry textSize smallConfig 7 7 "k3" "cccc"%string None cacheTwo.

End StreamCache.

(** ** middleware/auth.js: the shared-secret gate *)

Module Auth.
Import JsString.


(** What the middleware does with the request: it hands it on with
    [next()], or it answers itself. *)
Inductive outcome : Type :=
  | CallNext
  | Respond (status : Z) (error : string).












(** *** Vocabulary of the gate property *)



End Auth.

(** ** The ranged file response of the stream proxy (src/unnamed/part_007) *)

Module FileResponse.
Import JsString.
Local Open Scope Z_scope.

(** The result of [safeStat]: whether the path is a regular file, its size
    and its modification time as [toUTCString] prints it. *)
Record fileStats : Type := {
  isFile : bool;
  statSize : Z;
  mtime : string
}.

(** What is written to [res]: the status, the headers that the function
    sets, and the inclusive byte range piped from the file, if any. *)
Record response : Type := {
  statusCode : Z;
  acceptRanges : string;
  lastModified : string;
  contentType : string;
  contentLength : option Z;
  contentRange : option string;
  body : option (Z * Z)
}.

Fixpoint takeDigits (l : list ascii) : list ascii * list ascii :=
  match l with
  | [] => ([], [])
  | c :: t => if is_digit c then let '(ds, rest) := takeDigits t in (c :: ds, rest)
              else ([], l)
  end.

(** [/^bytes=\d*-\d*$/.test(rangeHeader)] and the two [split]s that follow,
    giving [rangeStart] and [rangeEnd]. *)
Definition parseRangeHeader (rangeHeader : string) : option (string * string) :=
  let l := chars rangeHeader in
  if prefix_at false (chars "bytes=") l then
    let '(a, rest) := takeDigits (skipn 6 l) in
    match rest with
    | dash :: rest' =>
        if Ascii.eqb dash "-" then
          let '(b, rest'') := takeDigits rest' in
          match rest'' with
          | [] => Some (str a, str b)
          | _ => None
          end
        else None
    | [] => None
    end
  else None.

(** A Number that holds an integer, and the two Numbers met here for which
    [Number.isFinite] is false. *)
Inductive number : Type :=
  | Finite (v : Z)
  | PosInfinity
  | NaN.

(** The double nearest to a natural number, ties to even, with an exponent
    that knows no bound. *)
Definition roundToDouble (x : Z) : Z :=
  let bits := Z.log2 x + 1 in
  if bits <=? 53 then x
  else
    let e := bits - 53 in
    let q := x / 2 ^ e in
    let r := x mod 2 ^ e in
    let half := 2 ^ (e - 1) in
    if r <? half then q * 2 ^ e
    else if half <? r then (q + 1) * 2 ^ e
    else if Z.even q then q * 2 ^ e else (q + 1) * 2 ^ e.

(** The Number value of a natural number: the nearest double, and [Infinity]
    when the rounding reaches [2 ^ 1024]. *)
Definition numberOf (x : Z) : number :=
  let v := roundToDouble x in
  if v <? 2 ^ 1024 then Finite v else PosInfinity.

(** The natural number that a string of decimal digits spells. *)
Definition digitValue (c : ascii) : Z := Z.of_nat (code c) - 48.

Definition digitsValue (digits : string) : Z :=
  fold_left (fun acc c => 10 * acc + digitValue c) (chars digits) 0.

(** [Number.parseInt(digits, 10)] on a string of decimal digits, which is
    all that the regular expression lets through: [NaN] for the empty
    string, otherwise the Number value of the integer spelled, as V8
    computes it. *)
Definition parseInt (digits : string) : number :=
  match chars digits with
  | [] => NaN
  | _ :: _ => numberOf (digitsValue digits)
  end.

(** The guarded assignment of a bound of the range:
    [if (range) { const parsed = Number.parseInt(range, 10);
       if (Number.isFinite(parsed) && parsed >= 0) bound = parsed; }]. *)
Definition parsedBound (range : string) (bound : Z) : Z :=
  if truthy range then
    match parseInt range with
    | Finite parsed => if 0 <=? parsed then parsed else bound
    | _ => bound
    end
  else bound.

(** The decimal text of a size or offset in a template literal; a Number
    below [10 ^ 21] is printed with all its digits. *)
Fixpoint showPositive (fuel : nat) (n : Z) (acc : list ascii) : list ascii :=
  match fuel with
  | O => acc
  | S fuel' =>
      let digit := ascii_of_nat (Z.to_nat (n mod 10) + 48) in
      if n <? 10 then digit :: acc else showPositive fuel' (n / 10) (digit :: acc)
  end.

Definition showNumber (n : Z) : string :=
  if n <? 0 then str ("-"%char :: showPositive (S (Z.to_nat (Z.log2 (- n)))) (- n) [])
  else str (showPositive (S (Z.to_nat (Z.log2 n))) n []).

Definition baseResponse (stats : fileStats) (status : Z) : response :=
  {| statusCode := status; acceptRanges := "bytes";
     lastModified := mtime stats; contentType := "application/octet-stream";
     contentLength := None; contentRange := None; body := None |}.

(** [streamFileResponse(req, res, absolutePath, emulateHead, ...)]: [None]
    when the function returns [false] without answering. *)
Definition streamFileResponse (rangeHeader : option string) (emulateHead : bool)
    (stats : option fileStats) : option response :=
  match stats with
  | None => None
  | Some stats =>
      if negb (isFile stats) then None
      else
        let totalSize := statSize stats in
        let base := baseResponse stats 200 in
        if emulateHead then
          Some {| statusCode := 200; acceptRanges := acceptRanges base;
                  lastModified := lastModified base; contentType := contentType base;
                  contentLength := Some totalSize; contentRange := None; body := None |}
        else
          let full :=
            Some {| statusCode := 200; acceptRanges := acceptRanges base;
                    lastModified := lastModified base; contentType := contentType base;
                    contentLength := Some totalSize; contentRange := None;
                    body := Some (0, totalSize - 1) |} in
          match rangeHeader with
          | None => full
          | Some header =>
              if negb (truthy header) then full
              else
                match parseRangeHeader header with
                | None => full
                | Some (rangeStart, rangeEnd) =>
                    let start := parsedBound rangeStart 0 in
                    let end_ := parsedBound rangeEnd (totalSize - 1) in
                    let end_ := if negb (truthy rangeEnd) then totalSize - 1 else end_ in
                    if totalSize <=? start then
                      Some {| statusCode := 416; acceptRanges := acceptRanges base;
                              lastModified := lastModified base;
                              contentType := contentType base;
                              contentLength := None;
                              contentRange := Some ("bytes */" ++ showNumber totalSize)%string;
                              body := None |}
                    else
                      let end_ := if (totalSize <=? end_) || (end_ <? start)
                                  then totalSize - 1 else end_ in
                      let chunkSize := end_ - start + 1 in
                      Some {| statusCode := 206; acceptRanges := acceptRanges base;
                              lastModified := lastModified base;
                              contentType := contentType base;
                              contentLength := Some chunkSize;
                              contentRange :=
                                Some ("bytes " ++ showNumber start ++ "-" ++ showNumber end_
                                      ++ "/" ++ showNumber totalSize)%string;
                              body := Some (start, end_) |}
                end
          end
  end.

(** *** Vocabulary of the range properties *)

Definition isDigits (s : string) : Prop := Forall (fun c => is_digit c = true) (chars s).

Definition rangeOf (a b : string) : string := ("bytes=" ++ a ++ "-" ++ b)%string.

Definition sampleFile (size : Z) : fileStats :=
  {| isFile := true; statSize := size; mtime := "Thu, 01 Jan 2026 00:00:00 GMT" |}.

(** The least natural number whose Number value is [Infinity]: half a unit
    in the last place above the largest double. *)
Definition infinityFrom : Z := 2 ^ 1024 - 2 ^ 970.

(** The sentence on a start offset beyond the end of the file, as stated:
    for every string of digits [a] that spells a number of at least the size
    of the file, the answer to [bytes=a-] is 416 with
    [Content-Range: bytes */S]. *)
Definition rangeBeyondEndAsStated (stats : fileStats) : Prop :=
  forall a, isDigits a -> a <> ""%string -> statSize stats <= digitsValue a ->
    exists resp,
      streamFileResponse (Some (rangeOf a "")) false (Some stats) = Some resp
      /\ statusCode resp = 416
      /\ contentRange resp = Some ("bytes */" ++ showNumber (statSize stats))%string.

(** A start offset of 310 digits: a one followed by 309 zeros. *)
Definition hugeStart : string := str ("1"%char :: repeat "0"%char 309).

End FileResponse.

(** ** cache/nzbdavCache.js: the mount-handle cache (src/unnamed/part_006) *)

Module MountCache.
Import JsString.
Local Open Scope Z_scope.

(** What the builder resolves with. *)
Record mountHandle : Type := {
  nzoId : string;
  category : string;
  jobName : string;
  viewPath : string;
  fileSize : Z;
  fileName : string
}.

(** What the builder rejects with; [isNzbdavFailure] marks the failures of
    the mount service itself. *)
Record mountError : Type := {
  isNzbdavFailure : bool;
  message : string
}.

(** An entry of [nzbdavStreamCache].  A pending entry holds the promise of
    the build, named by a number. *)
Inductive cacheEntry : Type :=
  | Ready (data : mountHandle) (expiresAt : option Z)
  | Pending (promise : nat)
  | Failed (error : mountError) (expiresAt : option Z).

(** The variables of the module, [NZBDAV_CACHE_TTL_MS] and the map
    [nzbdavStreamCache], together with what the run time holds: the promises
    of the builds that have not settled, each with the key it was started
    for, the number of promises made so far, and the keys for which the
    builder was called, in order. *)
Record state : Type := {
  NZBDAV_CACHE_TTL_MS : Z;
  nzbdavStreamCache : gmap string cacheEntry;
  inFlight : gmap nat string;
  nextPromise : nat;
  builderCalls : list string
}.

Definition DEFAULT_TTL_MS : Z := 24 * 60 * 60 * 1000.

(** [reloadNzbdavCacheConfig()], with the value of
    [Number(process.env.NZBDAV_CACHE_TTL_MINUTES)] when it is finite, here a
    whole number of minutes. *)
Definition reloadNzbdavCacheConfig (raw : option Z) (st : state) : state :=
  {| NZBDAV_CACHE_TTL_MS :=
       match raw with
       | Some r => if 0 <=? r then r * 60 * 1000 else DEFAULT_TTL_MS
       | None => DEFAULT_TTL_MS
       end;
     nzbdavStreamCache := nzbdavStreamCache st; inFlight := inFlight st;
     nextPromise := nextPromise st; builderCalls := builderCalls st |}.

(** The state when the module has been loaded: the map is empty and
    [reloadNzbdavCacheConfig()] has run once. *)
Definition initialState (raw : option Z) : state :=
  reloadNzbdavCacheConfig raw
    {| NZBDAV_CACHE_TTL_MS := DEFAULT_TTL_MS; nzbdavStreamCache := ∅;
       inFlight := ∅; nextPromise := 0; builderCalls := [] |}.

(** What a caller of [getOrCreateNzbdavStream] gets: the stored data, the
    promise of a build, or the stored error. *)
Inductive outcome : Type :=
  | Returned (data : mountHandle)
  | Awaiting (promise : nat)
  | Thrown (error : mountError).

Definition entryExpiresAt (e : cacheEntry) : option Z :=
  match e with
  | Ready _ t => t
  | Pending _ => None
  | Failed _ t => t
  end.

(** [entry.expiresAt && entry.expiresAt <= now] *)
Definition expired (now : Z) (e : cacheEntry) : bool :=
  match entryExpiresAt e with
  | Some t => negb (t =? 0) && (t <=? now)
  | None => false
  end.

(** [cleanupNzbdavCache()] at the instant [now]. *)
Definition cleanupNzbdavCache (now : Z) (st : state) : state :=
  if NZBDAV_CACHE_TTL_MS st <=? 0 then st
  else
    {| NZBDAV_CACHE_TTL_MS := NZBDAV_CACHE_TTL_MS st;
       nzbdavStreamCache :=
         filter (fun ke => expired now (snd ke) = false) (nzbdavStreamCache st);
       inFlight := inFlight st; nextPromise := nextPromise st;
       builderCalls := builderCalls st |}.

(** [clearNzbdavStreamCache(reason)]: the map is emptied; the builds in
    flight go on. *)
Definition clearNzbdavStreamCache (st : state) : state :=
  {| NZBDAV_CACHE_TTL_MS := NZBDAV_CACHE_TTL_MS st; nzbdavStreamCache := ∅;
     inFlight := inFlight st; nextPromise := nextPromise st;
     builderCalls := builderCalls st |}.

(** [NZBDAV_CACHE_TTL_MS > 0 ? Date.now() + NZBDAV_CACHE_TTL_MS : null] *)
Definition expiryAt (st : state) (now : Z) : option Z :=
  if 0 <? NZBDAV_CACHE_TTL_MS st then Some (now + NZBDAV_CACHE_TTL_MS st) else None.

(** The part of [getOrCreateNzbdavStream] that runs when it is called, up to
    its first [await]: the cleanup, the lookup and, when there is no entry,
    the call of the builder and the storing of the pending entry. *)
Definition getOrCreateNzbdavStream (now : Z) (cacheKey : string) (st : state)
    : outcome * state :=
  let st := cleanupNzbdavCache now st in
  match nzbdavStreamCache st !! cacheKey with
  | Some (Ready data _) => (Returned data, st)
  | Some (Pending promise) => (Awaiting promise, st)
  | Some (Failed error _) => (Thrown error, st)
  | None =>
      let promise := nextPromise st in
      (Awaiting promise,
       {| NZBDAV_CACHE_TTL_MS := NZBDAV_CACHE_TTL_MS st;
          nzbdavStreamCache := <[cacheKey := Pending promise]> (nzbdavStreamCache st);
          inFlight := <[promise := cacheKey]> (inFlight st);
          nextPromise := S promise;
          builderCalls := builderCalls st ++ [cacheKey] |})
  end.

(** The builder has resolved: the rest of the inner async function stores the
    ready entry under the key of the build, whatever the map holds there. *)
Definition builderResolved (now : Z) (promise : nat) (data : mountHandle) (st : state)
    : state :=
  match inFlight st !! promise with
  | Some cacheKey =>
      {| NZBDAV_CACHE_TTL_MS := NZBDAV_CACHE_TTL_MS st;
         nzbdavStreamCache :=
           <[cacheKey := Ready data (expiryAt st now)]> (nzbdavStreamCache st);
         inFlight := delete promise (inFlight st);
         nextPromise := nextPromise st; builderCalls := builderCalls st |}
  | None => st
  end.

(** The builder has rejected: the [catch] of the caller that started it pins
    the failure or deletes the entry of the key, whatever the map holds
    there. *)
Definition builderRejected (now : Z) (promise : nat) (error : mountError) (st : state)
    : state :=
  match inFlight st !! promise with
  | Some cacheKey =>
      {| NZBDAV_CACHE_TTL_MS := NZBDAV_CACHE_TTL_MS st;
         nzbdavStreamCache :=
           if isNzbdavFailure error
           then <[cacheKey := Failed error (expiryAt st now)]> (nzbdavStreamCache st)
           else delete cacheKey (nzbdavStreamCache st);
         inFlight := delete promise (inFlight st);
         nextPromise := nextPromise st; builderCalls := builderCalls st |}
  | None => st
  end.

(** The turns of the event loop that touch the module: the calls of its
    exported functions that change its variables, and the settlements of the
    builds. *)
Inductive event : Type :=
  | Call (now : Z) (cacheKey : string)
  | Resolve (now : Z) (promise : nat) (data : mountHandle)
  | Reject (now : Z) (promise : nat) (error : mountError)
  | Clear
  | Cleanup (now : Z)
  | Reload (raw : option Z).

Definition step (ev : event) (st : state) : option (string * outcome) * state :=
  match ev with
  | Call now cacheKey =>
      let '(out, st') := getOrCreateNzbdavStream now cacheKey st in
      (Some (cacheKey, out), st')
  | Resolve now promise data => (None, builderResolved now promise data st)
  | Reject now promise error => (None, builderRejected now promise error st)
  | Clear => (None, clearNzbdavStreamCache st)
  | Cleanup now => (None, cleanupNzbdavCache now st)
  | Reload raw => (None, reloadNzbdavCacheConfig raw st)
  end.

(** A run of events, with what each call got. *)
Fixpoint run (evs : list event) (st : state) : list (string * outcome) * state :=
  match evs with
  | [] => ([], st)
  | ev :: rest =>
      let '(out, st') := step ev st in
      let '(outs, st'') := run rest st' in
      (match out with Some o => o :: outs | None => outs end, st'')
  end.

(** *** Vocabulary of the single-flight properties *)











End MountCache.

(** ** services/triage/runner.js: the time-boxed run (src/unnamed/part_006) *)

Module TriageRun.
Import JsString Triage TriageRunner.
Local Open Scope Z_scope.

Definition DEFAULT_TIME_BUDGET_MS : Z := 45000.
Definition DEFAULT_MAX_CANDIDATES : Z := 25.
Definition DEFAULT_DOWNLOAD_CONCURRENCY : Z := 8.

(** An element of [selectedCandidates]. *)
Record candidate : Type := {
  downloadUrl : string;
  title : option string;
  normalizedTitle : string;
  indexerId : option string;
  indexerName : option string
}.

(** A value of the decision map.  The publish fields that [attachMetadata]
    copies from the result of the candidate are not read by the code embedded
    here and are left out. *)
Record triageDecision : Type := {
  status : string;
  blockers : list string;
  warnings : list string;
  archiveFindings : list archiveFinding;
  nzbIndex : option Z;
  fileCount : option Z;
  error : option string;
  nzbPayload : option string;
  decisionTitle : option string;
  decisionNormalizedTitle : option string;
  decisionIndexerId : option string;
  decisionIndexerName : option string
}.

(** [attachMetadata(url, decision)] for the candidate that [candidateByUrl]
    holds for the URL. *)
Definition attachMetadata (c : candidate) (d : triageDecision) : triageDecision :=
  {| status := status d; blockers := blockers d; warnings := warnings d;
     archiveFindings := archiveFindings d; nzbIndex := nzbIndex d;
     fileCount := fileCount d; error := error d; nzbPayload := nzbPayload d;
     decisionTitle := or_else (title c) None;
     decisionNormalizedTitle := or_else (Some (normalizedTitle c)) None;
     decisionIndexerId := or_else (indexerId c) None;
     decisionIndexerName := or_else (indexerName c) None |}.

Definition bareDecision (st : string) (bl wa : list string) (err : option string)
    : triageDecision :=
  {| status := st; blockers := bl; warnings := wa; archiveFindings := [];
     nzbIndex := None; fileCount := None; error := err; nzbPayload := None;
     decisionTitle := None; decisionNormalizedTitle := None;
     decisionIndexerId := None; decisionIndexerName := None |}.

Definition makeTimeoutDecision (c : candidate) : triageDecision :=
  attachMetadata c (bareDecision "error" ["triage-error"] ["Triage timed out"] None).

Definition fetchErrorDecision (c : candidate) (message : string) : triageDecision :=
  attachMetadata c (bareDecision "fetch-error" ["fetch-error"] [] (Some message)).

Definition errorDecision (c : candidate) (wa : list string) : triageDecision :=
  attachMetadata c (bareDecision "error" ["triage-error"] wa None).

Definition unevaluatedDecision (c : candidate) (timedOut : bool) : triageDecision :=
  attachMetadata c (bareDecision (if timedOut then "pending" else "skipped") [] [] None).

Definition summarizedDecision (c : candidate) (s : summary) (payload : option string)
    : triageDecision :=
  attachMetadata c
    {| status := summaryStatus s; blockers := summaryBlockers s;
       warnings := summaryWarnings s; archiveFindings := summaryFindings s;
       nzbIndex := summaryNzbIndex s; fileCount := summaryFileCount s;
       error := None; nzbPayload := payload;
       decisionTitle := None; decisionNormalizedTitle := None;
       decisionIndexerId := None; decisionIndexerName := None |}.

(** Where a worker stands between two turns of the event loop: not yet
    started, waiting for the download of a candidate, waiting for the
    analysis of its payload, or returned. *)
Inductive worker : Type :=
  | NotStarted
  | Downloading (index : nat)
  | Analyzing (index : nat) (payload : string)
  | Finished.

(** The variables shared by the workers. *)
Record runState : Type := {
  cursor : nat;
  timedOut : bool;
  decisionMap : gmap string triageDecision;
  evaluatedCount : nat;
  fetchFailures : nat;
  workers : list worker
}.

(** How a download ends: with the text of the payload, or with the message
    of the failure. *)
Inductive downloadResult : Type :=
  | Fetched (payload : string)
  | FetchFailed (message : string).

(** How the awaited [triageTask] ends: with a summary whose first decision is
    present or absent, or with an exception, which carries the code
    [TRIAGE_TIMEOUT] or not. *)
Inductive analysisResult : Type :=
  | Decided (d : analyzerDecision)
  | NoDecision
  | Raised (timeoutCode : bool) (message : option string).

(** The turns of the event loop in which a worker runs. *)
Inductive event : Type :=
  | Start (w : nat) (now : Z)
  | DownloadEnded (w : nat) (now : Z) (result : downloadResult)
  | AnalysisEnded (w : nat) (now : Z) (result : analysisResult).

Definition eventTime (ev : event) : Z :=
  match ev with
  | Start _ now => now
  | DownloadEnded _ now _ => now
  | AnalysisEnded _ now _ => now
  end.

Definition eventWorker (ev : event) : nat :=
  match ev with
  | Start w _ => w
  | DownloadEnded w _ _ => w
  | AnalysisEnded w _ _ => w
  end.

(** [Math.max(1, Math.min(options.downloadConcurrency ?? 8, n))] *)
Definition workerCount (option : option Z) (n : nat) : nat :=
  Z.to_nat (Z.max 1 (Z.min (default DEFAULT_DOWNLOAD_CONCURRENCY option) (Z.of_nat n))).

Section Run.
Variable selectedCandidates : list candidate.
Variable startTs : Z.
Variable timeBudgetMs : Z.
Variable captureNzbPayloads : bool.
Variable downloadConcurrency : nat.

Definition initialState : runState :=
  {| cursor := 0; timedOut := false; decisionMap := ∅; evaluatedCount := 0;
     fetchFailures := 0; workers := replicate downloadConcurrency NotStarted |}.

(** The head of the [while (true)] loop of a worker, run at the clock [now]
    until the worker returns or reaches the [await] of a download.  [rest] is
    the part of [selectedCandidates] from the cursor on. *)
Fixpoint takeNext (now : Z) (rest : list candidate) (cur : nat) (expired : bool)
    (decisions : gmap string triageDecision)
    : worker * nat * bool * gmap string triageDecision :=
  if expired then (Finished, cur, expired, decisions)
  else
    match rest with
    | [] => (Finished, cur, expired, decisions)
    | c :: rest' =>
        if bool_decide (is_Some (decisions !! downloadUrl c)) then
          takeNext now rest' (S cur) expired decisions
        else if timeBudgetMs <=? now - startTs then
          takeNext now rest' (S cur) true
            (<[downloadUrl c := makeTimeoutDecision c]> decisions)
        else (Downloading cur, S cur, expired, decisions)
    end.

Definition loopHead (now : Z) (w : nat) (st : runState) : runState :=
  let '(wk, cur, expired, decisions) :=
    takeNext now (skipn (cursor st) selectedCandidates) (cursor st) (timedOut st)
      (decisionMap st) in
  {| cursor := cur; timedOut := expired; decisionMap := decisions;
     evaluatedCount := evaluatedCount st; fetchFailures := fetchFailures st;
     workers := <[w := wk]> (workers st) |}.

Definition withDecision (c : candidate) (d : triageDecision) (st : runState) : runState :=
  {| cursor := cursor st; timedOut := timedOut st;
     decisionMap := <[downloadUrl c := d]> (decisionMap st);
     evaluatedCount := evaluatedCount st; fetchFailures := fetchFailures st;
     workers := workers st |}.

Definition withTimedOut (st : runState) : runState :=
  {| cursor := cursor st; timedOut := true; decisionMap := decisionMap st;
     evaluatedCount := evaluatedCount st; fetchFailures := fetchFailures st;
     workers := workers st |}.

Definition countFailure (st : runState) : runState :=
  {| cursor := cursor st; timedOut := timedOut st; decisionMap := decisionMap st;
     evaluatedCount := evaluatedCount st; fetchFailures := S (fetchFailures st);
     workers := workers st |}.

Definition countEvaluated (st : runState) : runState :=
  {| cursor := cursor st; timedOut := timedOut st; decisionMap := decisionMap st;
     evaluatedCount := S (evaluatedCount st); fetchFailures := fetchFailures st;
     workers := workers st |}.

Definition setWorker (w : nat) (wk : worker) (st : runState) : runState :=
  {| cursor := cursor st; timedOut := timedOut st; decisionMap := decisionMap st;
     evaluatedCount := evaluatedCount st; fetchFailures := fetchFailures st;
     workers := <[w := wk]> (workers st) |}.

(** The end of a download: a failure, or an empty payload, is recorded as
    [fetch-error] and the worker goes on; with a payload the remaining budget
    is computed, and the analysis is started when some is left. *)
Definition afterDownload (now : Z) (w index : nat) (c : candidate)
    (result : downloadResult) (st : runState) : runState :=
  match result with
  | FetchFailed message =>
      loopHead now w (withDecision c (fetchErrorDecision c message) (countFailure st))
  | Fetched payload =>
      if negb (truthy payload) then
        loopHead now w
          (withDecision c (fetchErrorDecision c "Empty NZB payload") (countFailure st))
      else
        let remaining := timeBudgetMs - (now - startTs) in
        if remaining <=? 0 then
          loopHead now w (withDecision c (makeTimeoutDecision c) (withTimedOut st))
        else setWorker w (Analyzing index payload) st
  end.

(** The end of the awaited analysis. *)
Definition afterAnalysis (now : Z) (w : nat) (c : candidate) (payload : string)
    (result : analysisResult) (st : runState) : runState :=
  match result with
  | Decided d =>
      let summarized := summarizeDecision d in
      let captured :=
        if captureNzbPayloads && String.eqb (summaryStatus summarized) "verified"
        then Some payload else None in
      loopHead now w
        (countEvaluated (withDecision c (summarizedDecision c summarized captured) st))
  | NoDecision =>
      loopHead now w (withDecision c (errorDecision c ["No decision returned"]) st)
  | Raised true _ =>
      loopHead now w (withDecision c (makeTimeoutDecision c) (withTimedOut st))
  | Raised false message =>
      let wa := match message with
                | Some m => if truthy m then [m] else []
                | None => []
                end in
      loopHead now w (withDecision c (errorDecision c wa) st)
  end.

(** One turn of the event loop; [None] when the event is not one that the
    worker is waiting for. *)
Definition step (ev : event) (st : runState) : option runState :=
  match ev with
  | Start w now =>
      match workers st !! w with
      | Some NotStarted => Some (loopHead now w st)
      | _ => None
      end
  | DownloadEnded w now result =>
      match workers st !! w with
      | Some (Downloading index) =>
          match selectedCandidates !! index with
          | Some c => Some (afterDownload now w index c result st)
          | None => None
          end
      | _ => None
      end
  | AnalysisEnded w now result =>
      match workers st !! w with
      | Some (Analyzing index payload) =>
          match selectedCandidates !! index with
          | Some c => Some (afterAnalysis now w c payload result st)
          | None => None
          end
      | _ => None
      end
  end.

Fixpoint run (evs : list event) (st : runState) : option runState :=
  match evs with
  | [] => Some st
  | ev :: rest =>
      match step ev st with
      | Some st' => run rest st'
      | None => None
      end
  end.

Definition allFinished (st : runState) : bool :=
  forallb (fun wk => match wk with Finished => true | _ => false end) (workers st).

(** The [forEach] after [await Promise.all(workers)]. *)
Definition fillUnevaluated (expired : bool) (cs : list candidate)
    (decisions : gmap string triageDecision) : gmap string triageDecision :=
  fold_left
    (fun dm c =>
       if bool_decide (is_Some (dm !! downloadUrl c)) then dm
       else <[downloadUrl c := unevaluatedDecision c expired]> dm)
    cs decisions.

(** The object that [triageAndRank] resolves with. *)
Record triageOutcome : Type := {
  decisions : gmap string triageDecision;
  outcomeTimedOut : bool;
  candidatesConsidered : nat;
  outcomeEvaluatedCount : nat;
  outcomeFetchFailures : nat
}.

Definition finish (st : runState) : triageOutcome :=
  {| decisions := fillUnevaluated (timedOut st) selectedCandidates (decisionMap st);
     outcomeTimedOut := timedOut st;
     candidatesConsidered := length selectedCandidates;
     outcomeEvaluatedCount := evaluatedCount st;
     outcomeFetchFailures := fetchFailures st |}.

(** [triageAndRank] for the workers run in the order of the events: the
    promise is resolved once every worker has returned. *)
Definition triageAndRank (evs : list event) : option triageOutcome :=
  match selectedCandidates with
  | [] => Some {| decisions := ∅; outcomeTimedOut := false; candidatesConsidered := 0;
                  outcomeEvaluatedCount := 0; outcomeFetchFailures := 0 |}
  | _ =>
      match run evs initialState with
      | Some st => if allFinished st then Some (finish st) else None
      | None => None
      end
  end.

(** *** Vocabulary of the time-box properties *)

Definition inFlightWorker (wk : worker) : bool :=
  match wk with
  | Downloading _ | Analyzing _ _ => true
  | _ => false
  end.

(** The work still ahead: three units for each candidate not yet taken, and
    the stages that each worker has left. *)
Definition workerWeight (wk : worker) : nat :=
  match wk with
  | NotStarted => 1
  | Downloading _ => 2
  | Analyzing _ _ => 1
  | Finished => 0
  end.

Definition workLeft (st : runState) : nat :=
  3 * (length selectedCandidates - cursor st)
  + list_sum (map workerWeight (workers st)).

(** The statuses that a worker gives to a candidate it has taken. *)
Definition workerStatus (s : string) : Prop :=
  In s ["verified"; "unverified"; "unverified_7z"; "blocked"; "fetch-error"; "error"]%string.

(** The candidate that a worker is busy with. *)
Definition workerIndex (wk : worker) : option nat :=
  match wk with
  | Downloading i => Some i
  | Analyzing i _ => Some i
  | _ => None
  end.

(** What holds between the turns of the event loop: the cursor stays within
    the list; a candidate before the cursor has a decision given by a worker
    or is the one a worker is busy with; the decision map holds only such
    decisions, for candidates before the cursor; and a worker has returned
    only after the expiry or at the end of the list. *)
Record invariant (st : runState) : Prop := {
  inv_cursor : (cursor st <= length selectedCandidates)%nat;
  inv_taken : forall i c,
    (i < cursor st)%nat -> selectedCandidates !! i = Some c ->
    (exists d, decisionMap st !! downloadUrl c = Some d /\ workerStatus (status d))
    \/ (exists w wk, workers st !! w = Some wk /\ workerIndex wk = Some i);
  inv_keys : forall url d,
    decisionMap st !! url = Some d ->
    workerStatus (status d)
    /\ exists i c, (i < cursor st)%nat /\ selectedCandidates !! i = Some c
                   /\ downloadUrl c = url;
  inv_busy : forall w wk i,
    workers st !! w = Some wk -> workerIndex wk = Some i -> (i < cursor st)%nat;
  inv_finished : forall w,
    workers st !! w = Some Finished ->
    timedOut st = true \/ cursor st = length selectedCandidates
}.

(** The URLs of the candidates that the workers are busy with, and those that
    a worker was busy with at some turn of a run. *)
Definition busyUrls (st : runState) : list string :=
  omap (fun wk => match workerIndex wk with
                  | Some i => option_map downloadUrl (selectedCandidates !! i)
                  | None => None
                  end) (workers st).

Fixpoint touchedUrls (evs : list event) (st : runState) : list string :=
  busyUrls st ++
  match evs with
  | [] => []
  | ev :: rest =>
      match step ev st with
      | Some st' => touchedUrls rest st'
      | None => []
      end
  end.

(** The sentence of the specification: a selected candidate that has not
    been evaluated, here one that no worker was ever busy with, has status
    [pending] or [skipped] in the result. *)
Definition unevaluatedArePending (evs : list event) (out : triageOutcome) : Prop :=
  forall c d,
    In c selectedCandidates ->
    ~ In (downloadUrl c) (touchedUrls evs initialState) ->
    decisions out !! downloadUrl c = Some d ->
    status d = "pending"%string \/ status d = "skipped"%string.

End Run.

Definition cand (url : string) : candidate :=
  {| downloadUrl := url; title := Some url; normalizedTitle := url;
     indexerId := None; indexerName := Some "indexer"%string |}.

Definition threeCandidates : list candidate :=
  [cand "http://a/1.nzb"; cand "http://a/2.nzb"; cand "http://a/3.nzb"].

(** A single worker, a budget of 100 ms from the clock 0: the first download
    fails after 120 ms. *)
Definition lateSchedule : list event :=
  [ Start 0 0; DownloadEnded 0 120 (FetchFailed "timeout of 120ms exceeded") ].

End TriageRun.

(** ** utils/helpers.js: the filters and limits applied before and after the sort *)

Module ResultFilters.
Import JsString Result Helpers.
Local Open Scope Z_scope.

(** [!Number.isFinite(size) || size <= maxSizeBytes] *)
Definition withinMaxSize (cap : Z) (result : nzbResult) : bool :=
  match size result with
  | Some s => s <=? cap
  | None => true
  end.

(** [applyMaxSizeFilter(results, maxSizeBytes)]; [maxSizeBytes] is [None]
    when it is not a finite number. *)
Definition applyMaxSizeFilter (results : list nzbResult) (maxSizeBytes : option Z)
    : list nzbResult :=
  match maxSizeBytes with
  | None => results
  | Some cap =>
      if cap <=? 0 then results
      else filter (fun result => withinMaxSize cap result = true) results
  end.

(** [value === undefined || value === null ? null : String(value).trim().toLowerCase()],
    kept when it is not empty. *)
Definition normalizeAllowedToken (value : option string) : option string :=
  match value with
  | None => None
  | Some v => let token := toLowerCase (trim v) in
              if truthy token then Some token else None
  end.

(** [result?.resolution ? String(result.resolution).trim().toLowerCase() : null] *)
Definition resolutionTokenOf (label : option string) : option string :=
  match label with
  | Some l => if truthy l then Some (toLowerCase (trim l)) else None
  | None => None
  end.

(** The test of the [filter] of [filterByAllowedResolutions]. *)
Definition resolutionAllowed (allowUnknown : bool) (allowedSet : list string)
    (result : nzbResult) : bool :=
  match resolutionTokenOf (resolution result) with
  | None => allowUnknown
  | Some resolutionToken =>
      if negb (truthy resolutionToken) || String.eqb resolutionToken "unknown"
      then allowUnknown
      else match allowedSet with
           | [] => false
           | _ => existsb (String.eqb resolutionToken) allowedSet
           end
  end.

(** [filterByAllowedResolutions(results, allowedResolutions)]; a falsy
    [allowedResolutions] is [None]. *)
Definition filterByAllowedResolutions (results : list nzbResult)
    (allowedResolutions : option (list (option string))) : list nzbResult :=
  match allowedResolutions with
  | None | Some [] => results
  | Some allowed =>
      let normalizedTokens := omap normalizeAllowedToken allowed in
      match normalizedTokens with
      | [] => results
      | _ =>
          let allowUnknown := existsb (String.eqb "unknown") normalizedTokens in
          let allowedSet :=
            filter (fun token => String.eqb token "unknown" = false) normalizedTokens in
          filter (fun result => resolutionAllowed allowUnknown allowedSet result = true)
                 results
      end
  end.

Section Limits.
(** [result?.release?.resolution]: the [release] member is not among the
    fields of [nzbResult] and is read through this function. *)
Variable releaseResolution : nzbResult -> option string.

(** [token || 'unknown'] for the label
    [result?.resolution || result?.release?.resolution || null]. *)
Definition limitToken (result : nzbResult) : string :=
  match resolutionTokenOf (or_else (resolution result) (releaseResolution result)) with
  | Some token => if truthy token then token else "unknown"
  | None => "unknown"
  end.

(** The [filter] of [applyResolutionLimits], with its [counters] map. *)
Fixpoint limitLoop (perQualityLimit : Z) (counters : gmap string Z)
    (results : list nzbResult) : list nzbResult :=
  match results with
  | [] => []
  | result :: rest =>
      let normalized := limitToken result in
      let current := default 0 (counters !! normalized) in
      if perQualityLimit <=? current then limitLoop perQualityLimit counters rest
      else result :: limitLoop perQualityLimit (<[normalized := current + 1]> counters) rest
  end.

(** [applyResolutionLimits(results, perQualityLimit)]; [perQualityLimit] is
    [None] when it is not a finite number. *)
Definition applyResolutionLimits (results : list nzbResult) (perQualityLimit : option Z)
    : list nzbResult :=
  match perQualityLimit with
  | None => results
  | Some limit => if limit <=? 0 then results else limitLoop limit ∅ results
  end.

(** The [options] of [prepareSortedResults]. *)
Record sortOptions : Type := {
  maxSizeBytes : option Z;
  sortMode : string;
  preferredLanguages : preferredInput;
  allowedResolutions : option (list (option string));
  resolutionLimitPerQuality : option Z
}.

Definition prepareSortedResults (results : list nzbResult) (options : sortOptions)
    : list nzbResult :=
  let working := results in
  let working := filterByAllowedResolutions working (allowedResolutions options) in
  let working := applyMaxSizeFilter working (maxSizeBytes options) in
  let working := sortAnnotatedResults working (sortMode options) (preferredLanguages options) in
  applyResolutionLimits working (resolutionLimitPerQuality options).

End Limits.

(** *** Vocabulary of the filter properties *)

(** The release has a known size above the cap. *)
Definition oversized (cap : Z) (result : nzbResult) : Prop :=
  exists s, size result = Some s /\ cap < s.

(** The resolution label of the release, trimmed and in lower case; [None]
    when the release has none or its label is blank or [unknown]. *)
Definition knownResolution (result : nzbResult) : option string :=
  match resolutionTokenOf (resolution result) with
  | Some token => if truthy token && negb (String.eqb token "unknown") then Some token else None
  | None => None
  end.

Definition sizedRelease (t : string) (label : option string) (bytes : option Z) : nzbResult :=
  {| title := Some t; downloadUrl := None; publishDateMs := None;
     publishAliases := []; indexerId := None; IndexerId := None;
     indexer := None; Indexer := None; size := bytes; qualityRank := 0;
     resolution := label; language := None; languages := [] |}.

End ResultFilters.

(** ** utils/helpers.js: triage candidates and the triage title map *)

Module TriageHelpers.
Import JsString Parsers Result Triage TriageRun.
Local Open Scope Z_scope.

Definition triageStatusRank (status : string) : Z :=
  if existsb (String.eqb status) ["blocked"; "fetch-error"; "error"] then 4
  else if String.eqb status "verified" then 3
  else if existsb (String.eqb status) ["unverified_7z"; "unverified"] then 2
  else if existsb (String.eqb status) ["pending"; "skipped"] then 1
  else 0.

(** A value of the title map.  The publish fields, which [triageDecision]
    leaves out, are left out here as well. *)
Record titleEntry : Type := {
  entryStatus : string;
  entryBlockers : list string;
  entryWarnings : list string;
  entryFindings : list archiveFinding;
  entryFileCount : option Z;
  entryNormalizedTitle : string;
  entryTitle : option string;
  sourceDownloadUrl : string
}.

(** [decision.normalizedTitle || normalizeReleaseTitle(decision.title)] *)
Definition decisionTitleKey (d : triageDecision) : string :=
  match decisionNormalizedTitle d with
  | Some t => if truthy t then t else normalizeReleaseTitle (decisionTitle d)
  | None => normalizeReleaseTitle (decisionTitle d)
  end.

(** The decision takes part in the title map: its status is neither empty
    nor [pending] nor [skipped], and it has a title. *)
Definition titleEligible (d : triageDecision) : bool :=
  truthy (TriageRun.status d)
  && negb (String.eqb (TriageRun.status d) "pending")
  && negb (String.eqb (TriageRun.status d) "skipped")
  && truthy (decisionTitleKey d).

Definition titleEntryOf (downloadUrl : string) (d : triageDecision) : titleEntry :=
  {| entryStatus := TriageRun.status d; entryBlockers := TriageRun.blockers d;
     entryWarnings := TriageRun.warnings d;
     entryFindings := TriageRun.archiveFindings d;
     entryFileCount := TriageRun.fileCount d;
     entryNormalizedTitle := decisionTitleKey d;
     entryTitle := or_else (decisionTitle d) None;
     sourceDownloadUrl := downloadUrl |}.

(** The body of the [forEach] of [buildTriageTitleMap]. *)
Definition titleMapStep (titleMap : gmap string titleEntry)
    (item : string * triageDecision) : gmap string titleEntry :=
  let '(downloadUrl, decision) := item in
  if negb (titleEligible decision) then titleMap
  else
    let normalizedTitle := decisionTitleKey decision in
    match titleMap !! normalizedTitle with
    | Some existing =>
        if triageStatusRank (entryStatus existing) <=? triageStatusRank (TriageRun.status decision)
        then <[normalizedTitle := titleEntryOf downloadUrl decision]> titleMap
        else titleMap
    | None => <[normalizedTitle := titleEntryOf downloadUrl decision]> titleMap
    end.

(** [buildTriageTitleMap(decisions)]; the [Map] of decisions is given by its
    entries in iteration order. *)
Definition buildTriageTitleMap (decisions : list (string * triageDecision))
    : gmap string titleEntry :=
  fold_left titleMapStep decisions ∅.

Section Prioritize.
(** [result.normalizedTitle], a member that annotated results carry and that
    is not among the fields of [nzbResult]. *)
Variable normalizedTitleOf : nzbResult -> option string.

(** [result.normalizedTitle || normalizeReleaseTitle(result.title) || result.downloadUrl] *)
Definition candidateKey (result : nzbResult) : option string :=
  or_else (or_else (normalizedTitleOf result) (Some (normalizeReleaseTitle (Result.title result))))
          (Result.downloadUrl result).

(** The loop of [prioritizeTriageCandidates]; [count] is [selected.length]. *)
Fixpoint prioritizeLoop (shouldInclude : option (nzbResult -> bool)) (maxCandidates : Z)
    (seenTitles : gset (option string)) (count : nat) (results : list nzbResult)
    : list nzbResult :=
  match results with
  | [] => []
  | result :: rest =>
      let normalizedTitle := candidateKey result in
      if bool_decide (normalizedTitle ∈ seenTitles)
      then prioritizeLoop shouldInclude maxCandidates seenTitles count rest
      else if match shouldInclude with
              | Some include => negb (include result)
              | None => false
              end
      then prioritizeLoop shouldInclude maxCandidates seenTitles count rest
      else if Z.max 1 maxCandidates <=? Z.of_nat (S count) then [result]
      else result :: prioritizeLoop shouldInclude maxCandidates
                       ({[normalizedTitle]} ∪ seenTitles) (S count) rest
  end.

Definition prioritizeTriageCandidates (results : list nzbResult) (maxCandidates : Z)
    (shouldInclude : option (nzbResult -> bool)) : list nzbResult :=
  prioritizeLoop shouldInclude maxCandidates ∅ 0 results.

(** The result passes the [shouldInclude] test, when there is one. *)
Definition included (shouldInclude : option (nzbResult -> bool)) (r : nzbResult) : Prop :=
  forall include, shouldInclude = Some include -> include r = true.

End Prioritize.

End TriageHelpers.

(** ** services/triage/runner.js: the selection of the candidates
    (src/unnamed/part_006) *)

Module TriageSelect.
Import JsString Parsers Helpers TriageRun.
Local Open Scope Z_scope.

(** [normalizeTitle] of the runner has the text of [normalizeReleaseTitle]
    of utils/parsers. *)
Definition normalizeTitle (title : option string) : string := normalizeReleaseTitle title.

(** An element of the array of [buildCandidates]: the members that
    [candidate] holds, with the size and the position of the result. *)
Record builtCandidate : Type := {
  info : candidate;
  candidateSize : Z;
  candidateIndex : nat
}.

(** The body of the [forEach] of [buildCandidates], from the position
    [index] on; [seen] is the set of the URLs already taken.  [String(...)]
    of an [indexerId] that is [null] is not told apart from a missing one. *)
Fixpoint buildLoop (seen : gset string) (index : nat) (nzbResults : list Result.nzbResult)
    : list builtCandidate :=
  match nzbResults with
  | [] => []
  | result :: rest =>
      match Result.downloadUrl result with
      | Some url =>
          if negb (truthy url) || bool_decide (url ∈ seen)
          then buildLoop seen (S index) rest
          else
            {| info := {| downloadUrl := url;
                          title := Result.title result;
                          normalizedTitle := normalizeTitle (Result.title result);
                          indexerId := Result.indexerId result;
                          indexerName := Result.indexer result |};
               candidateSize := default 0 (Result.size result);
               candidateIndex := index |}
            :: buildLoop ({[url]} ∪ seen) (S index) rest
      | None => buildLoop seen (S index) rest
      end
  end.

Definition buildCandidates (nzbResults : list Result.nzbResult) : list builtCandidate :=
  buildLoop ∅ 0 nzbResults.

(** [normalizeIndexerSet(indexers)]; a value that is not an array is [None]. *)
Definition normalizeIndexerSet (indexers : option (list (option string))) : gset string :=
  match indexers with
  | Some entries => list_to_set (omap normalizeIndexerToken entries)
  | None => ∅
  end.

Definition tokenIn (token : option string) (tokenSet : gset string) : bool :=
  match token with
  | Some t => bool_decide (t ∈ tokenSet)
  | None => false
  end.

Definition candidateMatchesIndexerSet (c : builtCandidate) (tokenSet : gset string) : bool :=
  if bool_decide (tokenSet = ∅) then true
  else tokenIn (normalizeIndexerToken (indexerId (info c))) tokenSet
       || tokenIn (normalizeIndexerToken (indexerName (info c))) tokenSet.

(** The comparators of [rankCandidates]. *)
Definition compareBySizeDelta (preferredSizeBytes : Z) (a b : builtCandidate) : Z :=
  let deltaA := Z.abs (candidateSize a - preferredSizeBytes) in
  let deltaB := Z.abs (candidateSize b - preferredSizeBytes) in
  if negb (deltaA =? deltaB) then deltaA - deltaB
  else candidateSize b - candidateSize a.

Definition compareBySize (a b : builtCandidate) : Z := candidateSize b - candidateSize a.

(** [rankCandidates(candidates, preferredSizeBytes)]; [preferredSizeBytes] is
    [None] when it is not a finite number. *)
Definition rankCandidates (candidates : list builtCandidate) (preferredSizeBytes : option Z)
    : list builtCandidate :=
  match preferredSizeBytes with
  | Some preferred => arraySort (compareBySizeDelta preferred) candidates
  | None => arraySort compareBySize candidates
  end.

(** The [forEach] that fills [uniqueCandidates]. *)
Fixpoint uniqueByTitle (seenTitles : gset string) (candidates : list builtCandidate)
    : list builtCandidate :=
  match candidates with
  | [] => []
  | c :: rest =>
      let titleKey := normalizedTitle (info c) in
      if truthy titleKey then
        if bool_decide (titleKey ∈ seenTitles) then uniqueByTitle seenTitles rest
        else c :: uniqueByTitle ({[titleKey]} ∪ seenTitles) rest
      else c :: uniqueByTitle seenTitles rest
  end.

(** The options of [triageAndRank] that the selection reads. *)
Record selectOptions : Type := {
  preferredSizeBytes : option Z;
  allowedIndexerIds : option (list (option string));
  maxCandidates : option Z;
  downloadConcurrency : option Z
}.

(** [selectedCandidates] of [triageAndRank]. *)
Definition selectCandidates (nzbResults : list Result.nzbResult) (options : selectOptions)
    : list builtCandidate :=
  let allowedIndexerSet := normalizeIndexerSet (allowedIndexerIds options) in
  let maxCandidates := Z.max 1 (default DEFAULT_MAX_CANDIDATES (maxCandidates options)) in
  let builtCandidates := buildCandidates nzbResults in
  let constrainedCandidates :=
    if bool_decide (allowedIndexerSet = ∅) then builtCandidates
    else filter (fun c => candidateMatchesIndexerSet c allowedIndexerSet = true)
                builtCandidates in
  let candidates := rankCandidates constrainedCandidates (preferredSizeBytes options) in
  let uniqueCandidates := uniqueByTitle ∅ candidates in
  take (Z.to_nat (Z.min maxCandidates (Z.of_nat (length uniqueCandidates)))) uniqueCandidates.

Definition selectedCandidates (nzbResults : list Result.nzbResult) (options : selectOptions)
    : list candidate :=
  map info (selectCandidates nzbResults options).

(** *** Vocabulary of the selection properties *)

(** The candidate is made of a result that has its URL, and the URL is not
    empty. *)
Definition builtFrom (nzbResults : list Result.nzbResult) (c : candidate) : Prop :=
  truthy (downloadUrl c) = true
  /\ exists r, In r nzbResults
               /\ Result.downloadUrl r = Some (downloadUrl c)
               /\ title c = Result.title r
               /\ normalizedTitle c = normalizeReleaseTitle (Result.title r)
               /\ indexerId c = Result.indexerId r
               /\ indexerName c = Result.indexer r.

(** The order of [rankCandidates]: nearer to the preferred size first, the
    larger first among candidates at the same distance; without preferred
    size, the larger first. *)
Definition rankedBefore (preferredSizeBytes : option Z) (a b : builtCandidate) : Prop :=
  match preferredSizeBytes with
  | Some preferred =>
      Z.abs (candidateSize a - preferred) < Z.abs (candidateSize b - preferred)
      \/ (Z.abs (candidateSize a - preferred) = Z.abs (candidateSize b - preferred)
          /\ candidateSize b <= candidateSize a)
  | None => candidateSize b <= candidateSize a
  end.

(** The candidate is of one of the allowed indexers. *)
Definition fromAllowedIndexer (tokenSet : gset string) (c : candidate) : Prop :=
  (exists t, normalizeIndexerToken (indexerId c) = Some t /\ t ∈ tokenSet)
  \/ (exists t, normalizeIndexerToken (indexerName c) = Some t /\ t ∈ tokenSet).

Definition urlResult (url : string) (t : string) (bytes : Z) (ix : string)
    : Result.nzbResult :=
  {| Result.title := Some t; Result.downloadUrl := Some url;
     Result.publishDateMs := None; Result.publishAliases := [];
     Result.indexerId := None; Result.IndexerId := None;
     Result.indexer := Some ix; Result.Indexer := None; Result.size := Some bytes;
     Result.qualityRank := 0; Result.resolution := None; Result.language := None;
     Result.languages := [] |}.

End TriageSelect.

(** ** cache/verifiedNzbCache.js: the cache of verified NZB payloads
    (src/unnamed/part_006) *)

Module VerifiedNzbCache.
Import JsString.
Local Open Scope Z_scope.

Definition VERIFIED_NZB_CACHE_TTL_MS (raw : option Z) : Z :=
  match raw with
  | Some r => if 0 <=? r then r * 60 * 1000 else 24 * 60 * 60 * 1000
  | None => 24 * 60 * 60 * 1000
  end.

Definition VERIFIED_NZB_CACHE_MAX_BYTES (raw : option Z) : Z :=
  match raw with
  | Some r => if 0 <? r then r * 1024 * 1024 else 300 * 1024 * 1024
  | None => 300 * 1024 * 1024
  end.

(** [Buffer.from(nzbPayload, 'utf8').length]: a character below 128 takes one
    byte, the others of the 8-bit strings of the embedding take two. *)
Definition utf8Length (s : string) : Z :=
  fold_right (fun c acc => (if (code c <? 128)%nat then 1 else 2) + acc) 0 (chars s).

Record nzbMetadata : Type := {
  metaTitle : option string;
  sizeBytes : option Z;
  fileName : option string
}.

Record verifiedEntry : Type := {
  downloadUrl : string;
  payloadBuffer : string;
  size : Z;
  metadata : nzbMetadata;
  expiresAt : option Z;
  createdAt : Z;
  lastAccess : Z
}.

(** The module variables [verifiedNzbCacheByUrl], in iteration order, and
    [verifiedNzbCacheBytes]. *)
Record cacheState : Type := {
  verifiedNzbCacheByUrl : list (string * verifiedEntry);
  verifiedNzbCacheBytes : Z
}.

Definition emptyCache : cacheState :=
  {| verifiedNzbCacheByUrl := []; verifiedNzbCacheBytes := 0 |}.

Section Cache.
Variable ttlMs : Z.
Variable maxBytes : Z.

(** [entry.expiresAt && entry.expiresAt <= now] *)
Definition expired (now : Z) (e : verifiedEntry) : bool :=
  match expiresAt e with
  | Some t => negb (t =? 0) && (t <=? now)
  | None => false
  end.

Fixpoint mapGet (key : string) (entries : list (string * verifiedEntry))
    : option verifiedEntry :=
  match entries with
  | [] => None
  | (k, e) :: rest => if String.eqb k key then Some e else mapGet key rest
  end.

Fixpoint mapDelete (key : string) (entries : list (string * verifiedEntry))
    : list (string * verifiedEntry) :=
  match entries with
  | [] => []
  | (k, e) :: rest => if String.eqb k key then mapDelete key rest
                      else (k, e) :: mapDelete key rest
  end.

(** [map.set(key, value)]: the value of a key that is present is replaced
    where it stands, a new key goes to the end. *)
Fixpoint mapSet (key : string) (value : verifiedEntry)
    (entries : list (string * verifiedEntry)) : list (string * verifiedEntry) :=
  match entries with
  | [] => [(key, value)]
  | (k, e) :: rest => if String.eqb k key then (k, value) :: rest
                      else (k, e) :: mapSet key value rest
  end.

Fixpoint removeExpired (now : Z) (entries : list (string * verifiedEntry)) (bytes : Z)
    : list (string * verifiedEntry) * Z :=
  match entries with
  | [] => ([], bytes)
  | (k, e) :: rest =>
      if expired now e then removeExpired now rest (bytes - size e)
      else let '(kept, bytes') := removeExpired now rest bytes in ((k, e) :: kept, bytes')
  end.

(** The [while] loop of the cleanup. *)
Fixpoint evictOldest (entries : list (string * verifiedEntry)) (bytes : Z)
    : list (string * verifiedEntry) * Z :=
  match entries with
  | [] => ([], bytes)
  | (oldestKey, oldest) :: rest =>
      if (0 <? maxBytes) && (maxBytes <? bytes) then
        if truthy oldestKey then evictOldest rest (bytes - size oldest)
        else (entries, bytes)
      else (entries, bytes)
  end.

Definition cleanupVerifiedNzbCache (now : Z) (st : cacheState) : cacheState :=
  match verifiedNzbCacheByUrl st with
  | [] => st
  | entries =>
      let '(kept, bytes) :=
        if 0 <? ttlMs then removeExpired now entries (verifiedNzbCacheBytes st)
        else (entries, verifiedNzbCacheBytes st) in
      let '(kept, bytes) := evictOldest kept bytes in
      {| verifiedNzbCacheByUrl := kept; verifiedNzbCacheBytes := bytes |}
  end.

Definition touched (now : Z) (e : verifiedEntry) : verifiedEntry :=
  {| downloadUrl := downloadUrl e; payloadBuffer := payloadBuffer e; size := size e;
     metadata := metadata e; expiresAt := expiresAt e; createdAt := createdAt e;
     lastAccess := now |}.

(** [getVerifiedNzbCacheEntry(downloadUrl)]; the clock is read by the
    cleanup, by the expiry test and for [lastAccess]. *)
Definition getVerifiedNzbCacheEntry (now1 now2 now3 : Z) (url : string) (st : cacheState)
    : option verifiedEntry * cacheState :=
  if negb (truthy url) || (maxBytes <=? 0) then (None, st)
  else
    let st := cleanupVerifiedNzbCache now1 st in
    match mapGet url (verifiedNzbCacheByUrl st) with
    | None => (None, st)
    | Some entry =>
        if expired now2 entry then
          (None, {| verifiedNzbCacheByUrl := mapDelete url (verifiedNzbCacheByUrl st);
                    verifiedNzbCacheBytes := verifiedNzbCacheBytes st - size entry |})
        else
          let entry := touched now3 entry in
          (Some entry,
           {| verifiedNzbCacheByUrl := mapSet url entry (verifiedNzbCacheByUrl st);
              verifiedNzbCacheBytes := verifiedNzbCacheBytes st |})
    end.

(** The members [title], [size] and [fileName] of the [metadata] argument. *)
Definition storedMetadata (metadata : nzbMetadata) : nzbMetadata :=
  {| metaTitle := or_else (metaTitle metadata) None;
     sizeBytes := match sizeBytes metadata with
                  | Some n => if n =? 0 then None else Some n
                  | None => None
                  end;
     fileName := or_else (fileName metadata) None |}.

(** [cacheVerifiedNzbPayload(downloadUrl, nzbPayload, metadata)]; the clock
    is read for [expiresAt], [createdAt], [lastAccess] and by the cleanup. *)
Definition cacheVerifiedNzbPayload (now1 now2 now3 now4 : Z) (url : string)
    (nzbPayload : string) (metadata : nzbMetadata) (st : cacheState) : cacheState :=
  if negb (truthy url) || negb (truthy nzbPayload) then st
  else if maxBytes <=? 0 then st
  else
    let sz := utf8Length nzbPayload in
    if maxBytes <? sz then st
    else
      let expires := if 0 <? ttlMs then Some (now1 + ttlMs) else None in
      let bytes :=
        match mapGet url (verifiedNzbCacheByUrl st) with
        | Some existing => verifiedNzbCacheBytes st - size existing
        | None => verifiedNzbCacheBytes st
        end in
      let entry := {| downloadUrl := url; payloadBuffer := nzbPayload; size := sz;
                      metadata := storedMetadata metadata; expiresAt := expires;
                      createdAt := now2; lastAccess := now3 |} in
      cleanupVerifiedNzbCache now4
        {| verifiedNzbCacheByUrl := mapSet url entry (verifiedNzbCacheByUrl st);
           verifiedNzbCacheBytes := bytes + sz |}.

Definition clearVerifiedNzbCache (st : cacheState) : cacheState := emptyCache.

(** *** Vocabulary of the cache properties *)

Definition sumSizes (entries : list (string * verifiedEntry)) : Z :=
  fold_right (fun ke acc => size (snd ke) + acc) 0 entries.

(** The entries that the expiry loop of a cleanup at [now] leaves. *)
Definition survivors (now : Z) (entries : list (string * verifiedEntry))
    : list (string * verifiedEntry) :=
  if 0 <? ttlMs then filter (fun ke => expired now (snd ke) = false) entries
  else entries.

(** A clock reading that lies before the expiry of an entry stored at
    [stored]. *)
Definition withinTtl (stored now : Z) : Prop := 0 < ttlMs -> now < stored + ttlMs.

(** The states that the exported functions produce from the empty cache. *)
Inductive reachable : cacheState -> Prop :=
  | reach_empty : reachable emptyCache
  | reach_cache st now1 now2 now3 now4 url nzbPayload metadata :
      reachable st ->
      reachable (cacheVerifiedNzbPayload now1 now2 now3 now4 url nzbPayload metadata st)
  | reach_get st now1 now2 now3 url :
      reachable st ->
      reachable (snd (getVerifiedNzbCacheEntry now1 now2 now3 url st))
  | reach_cleanup st now :
      reachable st -> reachable (cleanupVerifiedNzbCache now st)
  | reach_clear st :
      reachable st -> reachable (clearVerifiedNzbCache st).

(** The bookkeeping invariant of the cache. *)
Record wellFormed (st : cacheState) : Prop := {
  wf_bytes : verifiedNzbCacheBytes st = sumSizes (verifiedNzbCacheByUrl st);
  wf_keys : NoDup (map fst (verifiedNzbCacheByUrl st));
  wf_urls : Forall (fun ke => truthy (fst ke) = true /\ downloadUrl (snd ke) = fst ke)
                   (verifiedNzbCacheByUrl st);
  wf_sizes : Forall (fun ke => 0 < size (snd ke) <= maxBytes
                               /\ size (snd ke) = utf8Length (payloadBuffer (snd ke)))
                    (verifiedNzbCacheByUrl st);
  wf_cap : verifiedNzbCacheBytes st <= maxBytes
}.

End Cache.

(** [buildVerifiedNzbFileName(entry, fallbackTitle)] *)
Fixpoint dashRuns (inrun : bool) (l : list ascii) : list ascii :=
  match l with
  | [] => []
  | c :: t =>
      if is_alnum c then c :: dashRuns false t
      else if inrun then dashRuns true t else "-"%char :: dashRuns true t
  end.

Fixpoint dropDashes (l : list ascii) : list ascii :=
  match l with
  | c :: t => if Ascii.eqb c "-" then dropDashes t else l
  | [] => []
  end.

Definition sanitizeFileName (preferred : string) : string :=
  let replaced := dashRuns false (chars preferred) in
  let stripped := rev (dropDashes (rev (dropDashes replaced))) in
  str (firstn 100 stripped).

Definition buildVerifiedNzbFileName (entry : option verifiedEntry)
    (fallbackTitle : option string) : string :=
  let fromMetadata :=
    match entry with
    | Some e => or_else (fileName (metadata e)) (metaTitle (metadata e))
    | None => None
    end in
  let preferred :=
    default "verified-nzb"%string
      (or_else (or_else fromMetadata fallbackTitle) (Some "verified-nzb"%string)) in
  let sanitized := sanitizeFileName preferred in
  if truthy sanitized then sanitized else "verified-nzb"%string.

(** The characters of a safe file name. *)
Definition safeNameChar (c : ascii) : Prop := is_alnum c = true \/ c = "-"%char.

Definition noMetadata : nzbMetadata :=
  {| metaTitle := None; sizeBytes := None; fileName := None |}.

End VerifiedNzbCache.
(** ** server.js: what the deduplication pass keeps, on every input *)

Module DedupeInvariant.
Import JsString PublishInfo Parsers Result Server DedupeSpec.

Section Links.
Variable PAID : gset string.

(** Every entry of every bucket names, by its [listIndex], a slot of
    [deduped] that holds a release of the title of the bucket and of the
    standing that the entry records; the entries of a bucket name different
    slots. *)
Record linked (st : dedupeState) : Prop := {
  link_slot : forall key bucket e,
    buckets st !! key = Some bucket -> e ∈ bucket ->
    exists r, deduped st !! listIndex e = Some r /\ titleKey r = key
              /\ isPaid e = isResultFromPaidIndexer PAID r;
  link_distinct : forall key bucket,
    buckets st !! key = Some bucket -> NoDup (listIndex <$> bucket)
}.

(** The releases read so far and the slots they have left: every slot holds
    a release that was read, the titles of the slots follow the order in
    which the titles were read, every release read has a slot of its title
    (a paid slot if it is paid), and a release without a normalized title
    has its own slot. *)
Record accounted (processed : list nzbResult) (st : dedupeState) : Prop := {
  acc_from : forall r', r' ∈ deduped st ->
    exists r, r ∈ processed /\ r' = withPublishMetadata r;
  acc_order : (titleKey <$> deduped st) `sublist_of` (titleKey <$> processed);
  acc_title : forall r, r ∈ processed ->
    exists r', r' ∈ deduped st /\ titleKey r' = titleKey r
               /\ (isResultFromPaidIndexer PAID r = true ->
                   isResultFromPaidIndexer PAID r' = true);
  acc_untitled : forall r, r ∈ processed -> truthy (titleKey r) = false ->
    withPublishMetadata r ∈ deduped st
}.

(** The three things a step of the pass does to [deduped]: the release is
    appended, or it is dropped in favour of the slot [j] of its title, or it
    is written over that slot. *)
Inductive stepShape (st : dedupeState) (c : nzbResult) (st' : dedupeState) : Prop :=
  | shape_append :
      deduped st' = deduped st ++ [withPublishMetadata c] -> stepShape st c st'
  | shape_drop j r :
      deduped st' = deduped st -> deduped st !! j = Some r ->
      titleKey r = titleKey c -> truthy (titleKey c) = true ->
      (isResultFromPaidIndexer PAID c = true -> isResultFromPaidIndexer PAID r = true) ->
      stepShape st c st'
  | shape_replace j r :
      deduped st' = <[j := withPublishMetadata c]> (deduped st) ->
      deduped st !! j = Some r ->
      titleKey r = titleKey c -> truthy (titleKey c) = true ->
      (isResultFromPaidIndexer PAID r = true -> isResultFromPaidIndexer PAID c = true) ->
      stepShape st c st'.

End Links.

End DedupeInvariant.
(** ** services/triage/runner.js: the counters of a run *)

Module TriageCounters.
Import TriageRun.

(** The number of workers that wait for a download or for an analysis. *)
Definition inFlightCount (st : runState) : nat :=
  list_sum (map (fun wk => if inFlightWorker wk then 1 else 0)%nat (workers st)).

(** A schedule in which both downloads are served: the first payload is
    analysed, the second download fails and the third payload yields no
    decision. *)
Definition mixedSchedule : list event :=
  [ Start 0 0; Start 1 0;
    DownloadEnded 1 10 (FetchFailed "socket hang up");
    DownloadEnded 0 20 (Fetched "<nzb/>");
    DownloadEnded 1 30 (Fetched "<nzb/>");
    AnalysisEnded 0 40 (Decided SummarySpec.storedRar);
    AnalysisEnded 1 50 NoDecision ].

End TriageCounters.
(** ** utils/parsers: paths (src/unnamed/part_002) *)

Module PathParsers.
Import JsString.

Definition is_backslash (c : ascii) : bool := Ascii.eqb c "\".
Definition is_slash (c : ascii) : bool := Ascii.eqb c "/".

(** [pathValue.replace(/\\/g, '/')] *)
Definition slashes (l : list ascii) : list ascii :=
  map (fun c => if is_backslash c then "/"%char else c) l.

Definition normalizeNzbdavPath (pathValue : option string) : string :=
  match pathValue with
  | None => "/"
  | Some p =>
      if negb (truthy p) then "/"
      else
        let normalized := str (slashes (chars p)) in
        if startsWith normalized "/" then normalized else ("/" ++ normalized)%string
  end.

Fixpoint drop_slashes (l : list ascii) : list ascii :=
  match l with
  | c :: t => if is_slash c then drop_slashes t else l
  | [] => []
  end.

(** [url.replace(/\/+$/, '')] *)
Definition stripTrailingSlashes (url : string) : string :=
  str (rev (drop_slashes (rev (chars url)))).

End PathParsers.

(** ** server.js: the strict search phrase *)

Module StrictSearch.
Import JsString.

(** [\s] on the characters up to 255: the white space of ASCII and the
    no-break space. *)
Definition is_space (c : ascii) : bool := is_ws c || (code c =? 160)%nat.

(** The class [[\.\-_:\s]]. *)
Definition is_joint (c : ascii) : bool :=
  Ascii.eqb c "." || Ascii.eqb c "-" || Ascii.eqb c "_" || Ascii.eqb c ":" || is_space c.

(** The characters that the class of the third replacement (not a word
    character, not white space, not in the range 192 to 255) leaves. *)
Definition is_kept (c : ascii) : bool :=
  is_word c || is_space c || (192 <=? code c)%nat.

(** [toLowerCase] on the characters up to 255. *)
Definition lower_latin1 (c : ascii) : ascii :=
  if is_upper c then ascii_of_nat (code c + 32)
  else if (192 <=? code c)%nat && (code c <=? 222)%nat && negb (code c =? 215)%nat
       then ascii_of_nat (code c + 32)
       else c.

(** [text.replace(/&/g, ' and ')] *)
Fixpoint spellAmpersands (l : list ascii) : list ascii :=
  match l with
  | [] => []
  | c :: t =>
      if Ascii.eqb c "&" then chars " and " ++ spellAmpersands t
      else c :: spellAmpersands t
  end.

Fixpoint drop_spaces (l : list ascii) : list ascii :=
  match l with
  | c :: t => if is_space c then drop_spaces t else l
  | [] => []
  end.

Definition sanitizeStrictSearchPhrase (text : option string) : string :=
  match text with
  | None => ""
  | Some t =>
      let working := spellAmpersands (chars t) in
      let working := replace_runs is_joint false working in
      let working := List.filter is_kept working in
      let working := map lower_latin1 working in
      str (rev (drop_spaces (rev (drop_spaces working))))
  end.

(** [s.split(' ').filter(Boolean)] *)
Definition tokensOf (s : string) : list string :=
  List.filter truthy (split " " s).

(** The inner loop: [candidateTokens[i + j] === phraseTokens[j]] for every
    [j], on the candidate tokens from [i] on. *)
Fixpoint matchAt (phraseTokens candidateTokens : list string) : bool :=
  match phraseTokens, candidateTokens with
  | [], _ => true
  | p :: ps, c :: cs => String.eqb c p && matchAt ps cs
  | _ :: _, [] => false
  end.

(** The outer loop, for [i] from [i] up to
    [candidateTokens.length - phraseTokens.length]. *)
Fixpoint scanFrom (fuel i : nat) (phraseTokens candidateTokens : list string) : bool :=
  match fuel with
  | O => false
  | S fuel' =>
      if matchAt phraseTokens (skipn i candidateTokens) then true
      else scanFrom fuel' (S i) phraseTokens candidateTokens
  end.

Definition matchesStrictSearch (title : option string) (strictPhrase : string) : bool :=
  if negb (truthy strictPhrase) then true
  else
    let candidate := sanitizeStrictSearchPhrase title in
    if negb (truthy candidate) then false
    else if String.eqb candidate strictPhrase then true
    else
      let candidateTokens := tokensOf candidate in
      let phraseTokens := tokensOf strictPhrase in
      match phraseTokens with
      | [] => true
      | _ =>
          scanFrom (length candidateTokens + 1 - length phraseTokens) 0
            phraseTokens candidateTokens
      end.

(** The tokens of the phrase stand next to each other, in their order, among
    the tokens of the candidate. *)
Definition tokenRun (phraseTokens candidateTokens : list string) : Prop :=
  exists before after, candidateTokens = before ++ phraseTokens ++ after.

End StrictSearch.

(** ** utils/parsers: the shape of a normalized title *)

Module TitleShape.
Import JsString.

(** A lower-case letter, a digit or a white-space character. *)
Definition titleChar (c : ascii) : Prop := is_lower c || is_digit c || is_ws c = true.

(** No two white-space characters stand next to each other. *)
Fixpoint singleSpaced (l : list ascii) : Prop :=
  match l with
  | a :: (b :: _) as t => (is_ws a = true -> is_ws b = false) /\ singleSpaced t
  | _ => True
  end.

Definition notSpace (c : option ascii) : Prop :=
  match c with
  | Some a => is_ws a = false
  | None => True
  end.

Record normalTitle (l : list ascii) : Prop := {
  nt_chars : Forall titleChar l;
  nt_spaced : singleSpaced l;
  nt_head : notSpace (head l);
  nt_last : notSpace (last l)
}.

End TitleShape.
(** ** services/triage/index.js: reading archive headers and yEnc bodies *)

Module ArchiveInspect.
Import JsString.
Local Open Scope Z_scope.

(** The double nearest to a natural number (ties to even): the result of an
    addition of two such doubles is the sum rounded in this way. *)
Definition toDouble (x : Z) : Z :=
  let bits := Z.log2 x + 1 in
  if bits <=? 53 then x
  else
    let e := bits - 53 in
    let q := x / 2 ^ e in
    let r := x mod 2 ^ e in
    let half := 2 ^ (e - 1) in
    if r <? half then q * 2 ^ e
    else if half <? r then (q + 1) * 2 ^ e
    else if Z.even q then q * 2 ^ e else (q + 1) * 2 ^ e.

(** The loop of [readRar5Vint] on the bytes from [offset + bytes] on; a
    buffer is the list of its bytes. *)
Fixpoint vintFrom (rest : list Z) (result shift : Z) (bytes : nat) : option (Z * nat) :=
  match rest with
  | [] => None
  | b :: rest' =>
      let bytes := S bytes in
      let result := toDouble (result + Z.land b 127 * 2 ^ shift) in
      let shift := shift + 7 in
      if Z.land b 128 =? 0 then Some (result, bytes)
      else if 50 <? shift then None
      else vintFrom rest' result shift bytes
  end.

(** [readRar5Vint(buffer, offset)]: the value and the number of bytes read,
    or [None] for [null]. *)
Definition readRar5Vint (buffer : list Z) (offset : nat) : option (Z * nat) :=
  vintFrom (skipn offset buffer) 0 0 0.

(** The bytes of a variable-length integer: bytes with the high bit set,
    closed by one byte without it. *)
Fixpoint vintShape (l : list Z) : Prop :=
  match l with
  | [] => False
  | [b] => Z.land b 128 = 0
  | b :: t => Z.land b 128 <> 0 /\ vintShape t
  end.

(** The number that the low seven bits of the bytes spell, least significant
    group first. *)
Fixpoint vintValue (l : list Z) : Z :=
  match l with
  | [] => 0
  | b :: t => Z.land b 127 + 128 * vintValue t
  end.

(** *** decodeYencBuffer *)

Inductive decodeResult : Type :=
  | Decoded (out : list Z)
  | DecodeError.

(** [bodyBuffer.toString('binary').split('\r\n')], each line as the bytes of
    its characters. *)
Fixpoint splitCRLF (cur : list Z) (l : list Z) : list (list Z) :=
  match l with
  | [] => [rev cur]
  | a :: t =>
      match t with
      | b :: t' =>
          if (a =? 13) && (b =? 10) then rev cur :: splitCRLF [] t'
          else splitCRLF (a :: cur) t
      | [] => splitCRLF (a :: cur) t
      end
  end.

Definition bytesOf (s : string) : list Z := map (fun c => Z.of_nat (code c)) (chars s).

Fixpoint startsWithBytes (pat line : list Z) : bool :=
  match pat, line with
  | [], _ => true
  | p :: pat', c :: line' => (c =? p) && startsWithBytes pat' line'
  | _ :: _, [] => false
  end.

(** The loop over the bytes of a line: [written] holds the bytes written so
    far, and the flag tells that [writeIndex >= maxBytes] was reached. *)
Fixpoint decodeLine (maxBytes : nat) (src : list Z) (written : list Z) : list Z * bool :=
  match src with
  | [] => (written, false)
  | byte :: rest =>
      if byte =? 61 then
        match rest with
        | [] => (written, false)
        | escaped :: rest' =>
            let byte := Z.land (escaped - 64) 255 in
            let byte := Z.land (byte - 42) 255 in
            let written := written ++ [byte] in
            if (maxBytes <=? length written)%nat then (written, true)
            else decodeLine maxBytes rest' written
        end
      else
        let byte := Z.land (byte - 42) 255 in
        let written := written ++ [byte] in
        if (maxBytes <=? length written)%nat then (written, true)
        else decodeLine maxBytes rest written
  end.

(** The end of the function: nothing written is an error. *)
Definition sliceWritten (written : list Z) : decodeResult :=
  match written with
  | [] => DecodeError
  | _ => Decoded written
  end.

Fixpoint decodeLines (maxBytes : nat) (lines : list (list Z)) (decoding : bool)
    (written : list Z) : decodeResult :=
  match lines with
  | [] => sliceWritten written
  | line :: rest =>
      if negb decoding then
        decodeLines maxBytes rest (startsWithBytes (bytesOf "=ybegin") line) written
      else if startsWithBytes (bytesOf "=ypart") line then
        decodeLines maxBytes rest true written
      else if startsWithBytes (bytesOf "=yend") line then sliceWritten written
      else
        let '(written, full) := decodeLine maxBytes line written in
        if full then Decoded (firstn maxBytes written)
        else decodeLines maxBytes rest true written
  end.

(** [decodeYencBuffer(bodyBuffer, maxBytes)]; [out] is a buffer of
    [maxBytes] bytes, returned whole once it is full. *)
Definition decodeYencBuffer (bodyBuffer : list Z) (maxBytes : nat) : decodeResult :=
  decodeLines maxBytes (splitCRLF [] bodyBuffer) false [].

End ArchiveInspect.
(** ** utils/publishInfo: a result whose publish instant comes from a date
    text *)

Module PublishSamples.
Import JsString PublishInfo Result.
Local Open Scope Z_scope.

(** A result without [publishDateMs] whose [publishDate] text parses to the
    instant [ms]. *)
Definition datedByText (ms : Z) : nzbResult :=
  {| title := Some "Some.Movie.2023.1080p"%string; downloadUrl := None;
     publishDateMs := None; publishAliases := [RawDateString (Some ms)];
     indexerId := None; IndexerId := None; indexer := None; Indexer := None;
     size := None; qualityRank := 0; resolution := None; language := None;
     languages := [] |}.

End PublishSamples.

(* ===================================================================== *)
(** * Part II — properties                                                *)
(* ===================================================================== *)

(** ** Deduplication by title and publish window *)

Module DedupeProofs.
Import JsString PublishInfo Parsers Result Server DedupeSpec.
Local Open Scope Z_scope.

Section Dedupe.
Variable PAID : gset string.

Abbreviation paid := (isResultFromPaidIndexer PAID).

Lemma title_withPublishMetadata r : title (withPublishMetadata r) = title r.
Proof.
  unfold withPublishMetadata.
  destruct (getPublishMetadataFromResult r); [|reflexivity].
  destruct (publishDateMs r) as [old|]; [|reflexivity].
  destruct (old =? 0); reflexivity.
Qed.

Lemma paid_withPublishMetadata r : paid (withPublishMetadata r) = paid r.
Proof.
  unfold withPublishMetadata.
  destruct (getPublishMetadataFromResult r); [|reflexivity].
  destruct (publishDateMs r) as [old|]; [|reflexivity].
  destruct (old =? 0); reflexivity.
Qed.

Lemma within_missing_l c days : areReleasesWithinDays None c days = true.
Proof. unfold areReleasesWithinDays. destruct (days <=? 0); reflexivity. Qed.

Lemma within_missing_r r days : areReleasesWithinDays r None days = true.
Proof. unfold areReleasesWithinDays. destruct (days <=? 0), r; reflexivity. Qed.

Lemma within_dated r c :
  areReleasesWithinDays (Some r) (Some c) DEDUPE_MAX_PUBLISH_DIFF_DAYS
  = (Z.abs (r - c) <=? window).
Proof. reflexivity. Qed.

(** The state after the first release of a non-empty title. *)
Lemma dedupeStep_first a :
  truthy (titleKey a) = true ->
  dedupeStep PAID initialState a =
  {| buckets := {[ titleKey a :=
                   [ {| entryPublishDateMs := publishOf a; isPaid := paid a;
                        entryResult := withPublishMetadata a; listIndex := 0 |} ] ]};
     deduped := [withPublishMetadata a] |}.
Proof.
  unfold titleKey, publishOf. intros Hk. unfold dedupeStep.
  rewrite title_withPublishMetadata, Hk. cbn [negb].
  cbn [initialState buckets deduped]. rewrite lookup_empty. cbn.
  rewrite paid_withPublishMetadata. reflexivity.
Qed.

(** The releases that survive a two-element input whose second release
    matches the entry of the first. *)
Lemma dedupe_pair_matched a b :
  truthy (titleKey a) = true ->
  titleKey a = titleKey b ->
  areReleasesWithinDays (publishOf a) (publishOf b) DEDUPE_MAX_PUBLISH_DIFF_DAYS = true ->
  dedupeResultsByTitle PAID [a; b] =
  [ withPublishMetadata
      (if paid b && negb (paid a) then b
       else if Bool.eqb (paid b) (paid a) then
         match publishOf b, publishOf a with
         | Some c, None => b
         | Some c, Some e => if c >? e then b else a
         | None, _ => a
         end
       else a) ].
Proof.
  intros Hk Heq Hw. unfold dedupeResultsByTitle. cbn [fold_left].
  rewrite dedupeStep_first by exact Hk.
  unfold titleKey, publishOf in *.
  unfold dedupeStep. rewrite title_withPublishMetadata, <- Heq, Hk. cbn [negb].
  cbn [buckets deduped]. rewrite lookup_singleton_eq. cbn [default from_option id findMatchedEntry].
  cbn [entryPublishDateMs]. rewrite Hw. cbn [isPaid].
  rewrite paid_withPublishMetadata.
  destruct (paid b), (paid a); cbn [andb negb Bool.eqb entryPublishDateMs];
    try reflexivity;
    destruct (getPublishMetadataFromResult b) as [c|],
             (getPublishMetadataFromResult a) as [e|]; try reflexivity;
    destruct (c >? e); reflexivity.
Qed.

(** *** Releases far apart are never matched *)

Lemma findMatchedEntry_none bucket cp :
  (forall e, In e bucket ->
     areReleasesWithinDays (entryPublishDateMs e) cp DEDUPE_MAX_PUBLISH_DIFF_DAYS = false) ->
  forall pos, findMatchedEntry bucket cp pos = None.
Proof.
  induction bucket as [|e rest IH]; intros Hall pos; [reflexivity|].
  cbn [findMatchedEntry]. rewrite (Hall e) by (left; reflexivity).
  apply IH. intros e' He'. apply Hall. right; exact He'.
Qed.

Lemma dedupeStep_far processed st c :
  bucketsFrom processed st ->
  Forall (fun r => farApart r c) processed ->
  deduped (dedupeStep PAID st c) = deduped st ++ [withPublishMetadata c]
  /\ bucketsFrom (processed ++ [c]) (dedupeStep PAID st c).
Proof.
  unfold bucketsFrom, farApart, titleKey, publishOf.
  intros Hinv Hfar. unfold dedupeStep.
  rewrite title_withPublishMetadata.
  destruct (truthy (normalizeReleaseTitle (title c))) eqn:Hk; cbn [negb].
  - assert (Hnone : forall pos,
              findMatchedEntry (default [] (buckets st !! normalizeReleaseTitle (title c)))
                (getPublishMetadataFromResult c) pos = None).
    { apply findMatchedEntry_none. intros e He.
      destruct (buckets st !! normalizeReleaseTitle (title c)) as [bucket|] eqn:Hb; [|destruct He].
      cbn [default from_option id] in He.
      destruct (Hinv _ _ _ Hb He) as (r & Hr & Hkey & Hpub).
      rewrite Forall_forall in Hfar. specialize (Hfar r).
      destruct Hfar as (pa & pb & Hpa & Hpb & Hgap).
      { apply list_elem_of_In. exact Hr. }
      { exact Hkey. }
      { rewrite Hkey. exact Hk. }
      rewrite Hpub, Hpa, Hpb, within_dated. apply Z.leb_gt. exact Hgap. }
    rewrite Hnone. cbn [deduped buckets]. split; [reflexivity|].
    intros key bucket e Hb He. cbn [buckets] in Hb.
    destruct (decide (normalizeReleaseTitle (title c) = key)) as [<-|Hne].
    + rewrite lookup_insert_eq in Hb. injection Hb as <-.
      apply in_app_or in He. destruct He as [He|He].
      * destruct (buckets st !! normalizeReleaseTitle (title c)) as [bucket0|] eqn:Hb0; [|destruct He].
        destruct (Hinv _ _ _ Hb0 He) as (r & Hr & Hkey & Hpub).
        exists r. split; [apply in_or_app; left; exact Hr|]. split; assumption.
      * destruct He as [<-|[]]. exists c.
        split; [apply in_or_app; right; left; reflexivity|]. split; reflexivity.
    + rewrite lookup_insert_ne in Hb by exact Hne.
      destruct (Hinv _ _ _ Hb He) as (r & Hr & Hkey & Hpub).
      exists r. split; [apply in_or_app; left; exact Hr|]. split; assumption.
  - cbn [deduped buckets]. split; [reflexivity|].
    intros key bucket e Hb He. cbn [buckets] in Hb.
    destruct (Hinv _ _ _ Hb He) as (r & Hr & Hkey & Hpub).
    exists r. split; [apply in_or_app; left; exact Hr|]. split; assumption.
Qed.

Lemma dedupe_fold_far rest : forall processed st,
  bucketsFrom processed st ->
  Forall (fun r => Forall (farApart r) rest) processed ->
  pairwise farApart rest ->
  deduped (fold_left (dedupeStep PAID) rest st)
  = deduped st ++ map withPublishMetadata rest.
Proof.
  induction rest as [|c rest IH]; intros processed st Hinv Hold Hpw.
  - cbn. rewrite app_nil_r. reflexivity.
  - cbn [fold_left map]. destruct Hpw as [Hc Hpw].
    destruct (dedupeStep_far processed st c Hinv) as [Hd Hinv'].
    { eapply Forall_impl; [exact Hold|]. intros r Hr. cbn in Hr.
      apply Forall_cons in Hr. tauto. }
    rewrite (IH (processed ++ [c]) _ Hinv').
    + rewrite Hd, <- app_assoc. reflexivity.
    + apply Forall_app. split.
      * eapply Forall_impl; [exact Hold|]. intros r Hr. cbn in Hr.
        apply Forall_cons in Hr. tauto.
      * apply Forall_cons. split; [exact Hc|apply Forall_nil; exact I].
    + exact Hpw.
Qed.

Lemma dedupe_far results :
  pairwise farApart results ->
  dedupeResultsByTitle PAID results = map withPublishMetadata results.
Proof.
  intros Hpw. unfold dedupeResultsByTitle.
  rewrite (dedupe_fold_far results [] initialState); [reflexivity| |apply Forall_nil; exact I|exact Hpw].
  intros key bucket e Hb. cbn in Hb. rewrite lookup_empty in Hb. discriminate.
Qed.

(** *** A removal happens only on a match *)

Lemma findMatchedEntry_some bucket cp : forall pos i e,
  findMatchedEntry bucket cp pos = Some (i, e) ->
  areReleasesWithinDays (entryPublishDateMs e) cp DEDUPE_MAX_PUBLISH_DIFF_DAYS = true.
Proof.
  induction bucket as [|e0 rest IH]; intros pos i e H; [discriminate|].
  cbn [findMatchedEntry] in H.
  destruct (areReleasesWithinDays (entryPublishDateMs e0) cp DEDUPE_MAX_PUBLISH_DIFF_DAYS) eqn:Hw.
  - injection H as _ <-. exact Hw.
  - eapply IH; exact H.
Qed.

Lemma dedupeStep_cases st c :
  deduped (dedupeStep PAID st c) = deduped st ++ [withPublishMetadata c]
  \/ exists pos e,
       findMatchedEntry (default [] (buckets st !! titleKey c)) (publishOf c) 0 = Some (pos, e)
       /\ (forall pe pc, entryPublishDateMs e = Some pe -> publishOf c = Some pc ->
                         Z.abs (pe - pc) <= window)
       /\ (deduped (dedupeStep PAID st c) = deduped st
           \/ deduped (dedupeStep PAID st c)
              = <[listIndex e := withPublishMetadata c]> (deduped st)).
Proof.
  unfold titleKey, publishOf, dedupeStep. rewrite title_withPublishMetadata.
  destruct (truthy (normalizeReleaseTitle (title c))); cbn [negb]; [|left; reflexivity].
  destruct (findMatchedEntry _ _ 0) as [[pos e]|] eqn:Hm; [|left; reflexivity].
  right. exists pos, e. split; [reflexivity|]. split.
  - intros pe pc Hpe Hpc. apply findMatchedEntry_some in Hm.
    rewrite Hpe, Hpc, within_dated in Hm. apply Z.leb_le. exact Hm.
  - destruct (paid (withPublishMetadata c) && negb (isPaid e)); [right; reflexivity|].
    destruct (Bool.eqb _ _); [|left; reflexivity].
    destruct (getPublishMetadataFromResult c) as [pc|]; [|left; reflexivity].
    destruct (entryPublishDateMs e) as [pe|]; [|right; reflexivity].
    destruct (pc >? pe); [right; reflexivity|left; reflexivity].
Qed.

(** *** The step law: what every step of the pass does, on every input *)

Lemma titleKey_withPublishMetadata r : titleKey (withPublishMetadata r) = titleKey r.
Proof. unfold titleKey. rewrite title_withPublishMetadata. reflexivity. Qed.

Lemma findMatchedEntry_first bucket cp : forall pos0 pos e,
  findMatchedEntry bucket cp pos0 = Some (pos, e) ->
  exists i, pos = (pos0 + i)%nat /\ bucket !! i = Some e
    /\ areReleasesWithinDays (entryPublishDateMs e) cp DEDUPE_MAX_PUBLISH_DIFF_DAYS = true
    /\ forall j e', (j < i)%nat -> bucket !! j = Some e' ->
         areReleasesWithinDays (entryPublishDateMs e') cp DEDUPE_MAX_PUBLISH_DIFF_DAYS
         = false.
Proof.
  induction bucket as [|e0 rest IH]; intros pos0 pos e H; [discriminate|].
  cbn [findMatchedEntry] in H.
  destruct (areReleasesWithinDays (entryPublishDateMs e0) cp DEDUPE_MAX_PUBLISH_DIFF_DAYS)
    eqn:Hw.
  - injection H as <- <-. exists 0%nat. split; [lia|]. split; [reflexivity|].
    split; [exact Hw|]. intros j e' Hj. lia.
  - destruct (IH _ _ _ H) as (i & -> & Hi & Hpass & Hbefore).
    exists (S i). split; [lia|]. split; [exact Hi|]. split; [exact Hpass|].
    intros [|j] e' Hj He'.
    + cbn in He'. injection He' as <-. exact Hw.
    + cbn in He'. apply (Hbefore j e'); [lia|exact He'].
Qed.

Lemma findMatchedEntry_all_fail bucket cp : forall pos0,
  findMatchedEntry bucket cp pos0 = None ->
  Forall (fun e => areReleasesWithinDays (entryPublishDateMs e) cp
                     DEDUPE_MAX_PUBLISH_DIFF_DAYS = false) bucket.
Proof.
  induction bucket as [|e0 rest IH]; intros pos0 H; [constructor|].
  cbn [findMatchedEntry] in H.
  destruct (areReleasesWithinDays (entryPublishDateMs e0) cp DEDUPE_MAX_PUBLISH_DIFF_DAYS)
    eqn:Hw; [discriminate|].
  constructor; [exact Hw|apply (IH _ H)].
Qed.

(** The entry that a step makes for a candidate that matches no survivor. *)
Lemma dedupeStep_rule st c :
  truthy (titleKey c) = true ->
  dedupeStep PAID st c =
  match findMatchedEntry (survivorsFor st c) (publishOf c) 0 with
  | None =>
      {| buckets :=
           <[titleKey c :=
               survivorsFor st c
               ++ [ {| entryPublishDateMs := publishOf c; isPaid := paid c;
                       entryResult := withPublishMetadata c;
                       listIndex := length (deduped st) |} ]]> (buckets st);
         deduped := deduped st ++ [withPublishMetadata c] |}
  | Some (pos, e) =>
      if candidateWins PAID c e
      then replaceMatched st (titleKey c) (survivorsFor st c) pos e (paid c) (publishOf c)
             (withPublishMetadata c)
      else st
  end.
Proof.
  intros Hk. unfold dedupeStep, survivorsFor, candidateWins, publishOf.
  rewrite title_withPublishMetadata. fold (titleKey c). rewrite Hk. cbn [negb].
  rewrite paid_withPublishMetadata.
  destruct (findMatchedEntry _ _ 0) as [[pos e]|]; [|reflexivity].
  destruct (paid c), (isPaid e) eqn:He; cbn [andb negb orb Bool.eqb]; try reflexivity;
    destruct (getPublishMetadataFromResult c) as [pc|]; try reflexivity;
    destruct (entryPublishDateMs e) as [pe|]; try reflexivity;
    destruct (pc >? pe); reflexivity.
Qed.

Lemma sorted_lt_NoDup (l : list nat) : StronglySorted lt l -> NoDup l.
Proof.
  induction 1 as [|a l _ IH Ha]; [constructor|].
  apply NoDup_cons. split; [|exact IH].
  intros Hin. rewrite Forall_forall in Ha. specialize (Ha a Hin). lia.
Qed.

Lemma tracked_initial : tracked PAID [] initialState.
Proof.
  split; cbn [initialState buckets deduped].
  - intros key bucket e H. rewrite lookup_empty in H. discriminate.
  - intros key bucket H. rewrite lookup_empty in H. discriminate.
  - intros j r H. rewrite lookup_nil in H. discriminate.
Qed.

Lemma tracked_more processed c st :
  tracked PAID processed st -> tracked PAID (processed ++ [c]) st.
Proof.
  intros [Hentry Horder Hslots]. split; [|exact Horder|exact Hslots].
  intros key bucket e Hb He.
  destruct (Hentry _ _ _ Hb He) as (Ht & r0 & Hr0 & H). split; [exact Ht|].
  exists r0. split; [apply elem_of_app; left; exact Hr0|exact H].
Qed.

Lemma replaceMatched_tracked processed st c bucket pos m :
  tracked PAID processed st ->
  truthy (titleKey c) = true ->
  buckets st !! titleKey c = Some bucket -> bucket !! pos = Some m ->
  tracked PAID (processed ++ [c])
    (replaceMatched st (titleKey c) bucket pos m (paid c) (publishOf c)
       (withPublishMetadata c)).
Proof.
  intros [Hentry Horder Hslots] Hk Hb Hpos. unfold replaceMatched.
  destruct (Hentry _ _ m Hb (list_elem_of_lookup_2 _ _ _ Hpos))
    as (_ & rm & _ & Hkm & _ & _ & _ & Hrm).
  assert (Hlt : (listIndex m < length (deduped st))%nat)
    by (eapply lookup_lt_Some; exact Hrm).
  assert (Hposlt : (pos < length bucket)%nat) by (eapply lookup_lt_Some; exact Hpos).
  pose proof (sorted_lt_NoDup _ (Horder _ _ Hb)) as Hnd.
  assert (Hother : forall i e, i <> pos -> bucket !! i = Some e ->
                               listIndex e <> listIndex m).
  { intros i e Hne Hi Heq. apply Hne.
    eapply (NoDup_lookup (listIndex <$> bucket)); [exact Hnd| |].
    - rewrite list_lookup_fmap, Hi. reflexivity.
    - rewrite list_lookup_fmap, Hpos. cbn. rewrite Heq. reflexivity. }
  split; cbn [buckets deduped].
  - intros key bucket' e Hb' He.
    destruct (decide (key = titleKey c)) as [-> | Hne].
    + rewrite lookup_insert_eq in Hb'. injection Hb' as <-. split; [exact Hk|].
      apply list_elem_of_lookup in He. destruct He as (i & Hi).
      destruct (decide (i = pos)) as [-> | Hip].
      * rewrite list_lookup_insert_eq in Hi by exact Hposlt. injection Hi as <-.
        cbn [listIndex isPaid entryResult entryPublishDateMs]. exists c.
        split; [apply elem_of_app; right; apply list_elem_of_singleton; reflexivity|].
        split; [reflexivity|]. split; [reflexivity|]. split; [reflexivity|].
        split; [reflexivity|]. apply list_lookup_insert_eq. exact Hlt.
      * rewrite list_lookup_insert_ne in Hi by congruence.
        destruct (Hentry _ _ e Hb (list_elem_of_lookup_2 _ _ _ Hi))
          as (_ & r0 & Hr0 & H1 & H2 & H3 & H4 & H5).
        exists r0. split; [apply elem_of_app; left; exact Hr0|].
        split; [exact H1|]. split; [exact H2|]. split; [exact H3|]. split; [exact H4|].
        rewrite list_lookup_insert_ne; [exact H5|].
        intros Heq. apply (Hother i e Hip Hi). symmetry. exact Heq.
    + rewrite lookup_insert_ne in Hb' by congruence.
      destruct (Hentry _ _ e Hb' He) as (Ht & r0 & Hr0 & H1 & H2 & H3 & H4 & H5).
      split; [exact Ht|].
      exists r0. split; [apply elem_of_app; left; exact Hr0|].
      split; [exact H1|]. split; [exact H2|]. split; [exact H3|]. split; [exact H4|].
      rewrite list_lookup_insert_ne; [exact H5|].
      intros Heq. rewrite Heq in Hrm. rewrite Hrm in H5. injection H5 as H5.
      apply Hne. rewrite <- H1, <- Hkm, <- (titleKey_withPublishMetadata r0),
        <- (titleKey_withPublishMetadata rm), H5. reflexivity.
  - intros key bucket' Hb'.
    destruct (decide (key = titleKey c)) as [-> | Hne].
    + rewrite lookup_insert_eq in Hb'. injection Hb' as <-.
      rewrite list_fmap_insert. cbn [listIndex].
      rewrite list_insert_id; [apply (Horder _ _ Hb)|].
      rewrite list_lookup_fmap, Hpos. reflexivity.
    + rewrite lookup_insert_ne in Hb' by congruence. apply (Horder _ _ Hb').
  - intros j r Hj Ht.
    destruct (decide (j = listIndex m)) as [-> | Hjm].
    + rewrite list_lookup_insert_eq in Hj by exact Hlt. injection Hj as <-.
      rewrite titleKey_withPublishMetadata, lookup_insert_eq.
      eexists _, _. split; [reflexivity|]. split.
      * apply (list_elem_of_lookup_2 _ pos). apply list_lookup_insert_eq. exact Hposlt.
      * reflexivity.
    + rewrite list_lookup_insert_ne in Hj by congruence.
      destruct (Hslots _ _ Hj Ht) as (bucket' & e & Hb' & He & Hidx).
      destruct (decide (titleKey r = titleKey c)) as [Heq | Hne].
      * rewrite Heq in *. rewrite Hb in Hb'. injection Hb' as <-.
        rewrite lookup_insert_eq.
        apply list_elem_of_lookup in He. destruct He as (i & Hi).
        assert (Hip : i <> pos).
        { intros ->. rewrite Hpos in Hi. injection Hi as <-. congruence. }
        eexists _, e. split; [reflexivity|]. split; [|exact Hidx].
        apply (list_elem_of_lookup_2 _ i). rewrite list_lookup_insert_ne by congruence.
        exact Hi.
      * rewrite lookup_insert_ne by congruence. exists bucket', e. auto.
Qed.

(** One step of the pass keeps the entries in step with the survivors. *)
Lemma dedupeStep_tracked processed st c :
  tracked PAID processed st -> tracked PAID (processed ++ [c]) (dedupeStep PAID st c).
Proof.
  intros Htr. pose proof Htr as [Hentry Horder Hslots].
  destruct (truthy (titleKey c)) eqn:Hk.
  2:{ unfold dedupeStep. rewrite title_withPublishMetadata. fold (titleKey c).
      rewrite Hk. cbn [negb]. split; cbn [buckets deduped].
      - intros key bucket e Hb He.
        destruct (Hentry _ _ _ Hb He) as (Ht & r0 & Hr0 & H1 & H2 & H3 & H4 & H5).
        split; [exact Ht|]. exists r0. split; [apply elem_of_app; left; exact Hr0|].
        split; [exact H1|]. split; [exact H2|]. split; [exact H3|]. split; [exact H4|].
        apply lookup_app_l_Some. exact H5.
      - exact Horder.
      - intros j r Hj Ht. apply lookup_snoc_Some in Hj.
        destruct Hj as [(_ & Hj) | (_ & <-)]; [apply (Hslots _ _ Hj Ht)|].
        rewrite titleKey_withPublishMetadata in Ht. congruence. }
  rewrite (dedupeStep_rule st c Hk).
  destruct (findMatchedEntry (survivorsFor st c) (publishOf c) 0) as [[pos m]|] eqn:Hm.
  - destruct (findMatchedEntry_first _ _ _ _ _ Hm) as (i & -> & Hpos & _). cbn [Nat.add] in *.
    destruct (candidateWins PAID c m); [|apply tracked_more; exact Htr].
    unfold survivorsFor in *.
    destruct (buckets st !! titleKey c) as [bucket|] eqn:Hb; cbn [default] in *;
      [|rewrite lookup_nil in Hpos; discriminate].
    apply replaceMatched_tracked; assumption.
  - assert (Hold : forall e, e ∈ survivorsFor st c ->
                     exists bucket, buckets st !! titleKey c = Some bucket /\ e ∈ bucket).
    { intros e He. unfold survivorsFor in He.
      destruct (buckets st !! titleKey c) as [bucket|]; cbn [default] in He;
        [exists bucket; auto|apply elem_of_nil in He; destruct He]. }
    split; cbn [buckets deduped].
    + intros key bucket e Hb He.
      destruct (decide (key = titleKey c)) as [-> | Hne].
      * rewrite lookup_insert_eq in Hb. injection Hb as <-. split; [exact Hk|].
        apply elem_of_app in He. destruct He as [He | He].
        -- destruct (Hold e He) as (bucket & Hb & Hin).
           destruct (Hentry _ _ _ Hb Hin) as (_ & r0 & Hr0 & H1 & H2 & H3 & H4 & H5).
           exists r0. split; [apply elem_of_app; left; exact Hr0|].
           split; [exact H1|]. split; [exact H2|]. split; [exact H3|]. split; [exact H4|].
           apply lookup_app_l_Some. exact H5.
        -- apply list_elem_of_singleton in He. subst e.
           cbn [listIndex isPaid entryResult entryPublishDateMs]. exists c.
           split; [apply elem_of_app; right; apply list_elem_of_singleton; reflexivity|].
           split; [reflexivity|]. split; [reflexivity|]. split; [reflexivity|].
           split; [reflexivity|]. apply lookup_snoc_Some. right. split; reflexivity.
      * rewrite lookup_insert_ne in Hb by congruence.
        destruct (Hentry _ _ _ Hb He) as (Ht & r0 & Hr0 & H1 & H2 & H3 & H4 & H5).
        split; [exact Ht|]. exists r0. split; [apply elem_of_app; left; exact Hr0|].
        split; [exact H1|]. split; [exact H2|]. split; [exact H3|]. split; [exact H4|].
        apply lookup_app_l_Some. exact H5.
    + intros key bucket Hb.
      destruct (decide (key = titleKey c)) as [-> | Hne].
      * rewrite lookup_insert_eq in Hb. injection Hb as <-.
        rewrite fmap_app. cbn [fmap list_fmap listIndex].
        apply StronglySorted_app_2.
        -- intros x1 x2 Hx1 Hx2. apply list_elem_of_singleton in Hx2. subst x2.
           apply list_elem_of_fmap in Hx1. destruct Hx1 as (e & -> & He).
           destruct (Hold e He) as (bucket & Hb & Hin).
           destruct (Hentry _ _ _ Hb Hin) as (_ & r0 & _ & _ & _ & _ & _ & H5).
           eapply lookup_lt_Some. exact H5.
        -- unfold survivorsFor. destruct (buckets st !! titleKey c) as [bucket|] eqn:Hb;
             cbn [default]; [apply (Horder _ _ Hb)|constructor].
        -- repeat constructor.
      * rewrite lookup_insert_ne in Hb by congruence. apply (Horder _ _ Hb).
    + intros j r Hj Ht. apply lookup_snoc_Some in Hj.
      destruct Hj as [(_ & Hj) | (-> & <-)].
      * destruct (Hslots _ _ Hj Ht) as (bucket & e & Hb & He & Hidx).
        destruct (decide (titleKey r = titleKey c)) as [Heq | Hne].
        -- rewrite Heq in *. rewrite lookup_insert_eq.
           eexists _, e. split; [reflexivity|]. split; [|exact Hidx].
           apply elem_of_app. left. unfold survivorsFor. rewrite Hb. exact He.
        -- rewrite lookup_insert_ne by congruence. exists bucket, e. auto.
      * rewrite titleKey_withPublishMetadata, lookup_insert_eq.
        eexists _, _. split; [reflexivity|]. split.
        -- apply elem_of_app. right. apply list_elem_of_singleton. reflexivity.
        -- reflexivity.
Qed.

Lemma passState_snoc results c :
  passState PAID (results ++ [c]) = dedupeStep PAID (passState PAID results) c.
Proof. unfold passState. rewrite fold_left_app. reflexivity. Qed.

Lemma passState_tracked results : tracked PAID results (passState PAID results).
Proof.
  induction results as [|c results IH] using rev_ind; [apply tracked_initial|].
  rewrite passState_snoc. apply dedupeStep_tracked. exact IH.
Qed.

Lemma dedupe_snoc results c :
  dedupeResultsByTitle PAID (results ++ [c])
  = deduped (dedupeStep PAID (passState PAID results) c).
Proof. unfold dedupeResultsByTitle. fold (passState PAID (results ++ [c])).
  rewrite passState_snoc. reflexivity. Qed.

(** The window test, read on the two instants. *)
Lemma passesTest_iff e c :
  passesTest e c
  <-> match entryPublishDateMs e, publishOf c with
      | Some pe, Some pc => Z.abs (pe - pc) <= window
      | _, _ => True
      end.
Proof.
  unfold passesTest. destruct (entryPublishDateMs e) as [pe|], (publishOf c) as [pc|].
  - rewrite within_dated. apply Z.leb_le.
  - rewrite within_missing_r. tauto.
  - rewrite within_missing_l. tauto.
  - rewrite within_missing_l. tauto.
Qed.

(** The law of a step, on the state that the pass has reached after any
    list of releases. *)
Lemma dedupe_step_law results c :
  truthy (titleKey c) = true ->
  let st := passState PAID results in
  match findMatchedEntry (survivorsFor st c) (publishOf c) 0 with
  | None =>
      Forall (fun e => ~ passesTest e c) (survivorsFor st c)
      /\ dedupeResultsByTitle PAID (results ++ [c])
         = dedupeResultsByTitle PAID results ++ [withPublishMetadata c]
  | Some (pos, e) =>
      survivorsFor st c !! pos = Some e
      /\ passesTest e c
      /\ (forall i e', (i < pos)%nat -> survivorsFor st c !! i = Some e' ->
                       ~ passesTest e' c)
      /\ dedupeResultsByTitle PAID (results ++ [c])
         = if candidateWins PAID c e
           then <[listIndex e := withPublishMetadata c]> (dedupeResultsByTitle PAID results)
           else dedupeResultsByTitle PAID results
  end.
Proof.
  intros Hk st. rewrite dedupe_snoc. fold st. rewrite (dedupeStep_rule st c Hk).
  change (dedupeResultsByTitle PAID results) with (deduped st).
  destruct (findMatchedEntry (survivorsFor st c) (publishOf c) 0) as [[pos e]|] eqn:Hm.
  - destruct (findMatchedEntry_first _ _ _ _ _ Hm) as (i & -> & Hpos & Hpass & Hbefore).
    cbn [Nat.add]. split; [exact Hpos|]. split; [exact Hpass|]. split.
    + intros j e' Hj He' Hp. unfold passesTest in Hp.
      rewrite (Hbefore j e' Hj He') in Hp. discriminate.
    + destruct (candidateWins PAID c e); reflexivity.
  - split; [|reflexivity].
    eapply Forall_impl; [apply (findMatchedEntry_all_fail _ _ _ Hm)|].
    intros e He Hp. unfold passesTest in Hp. congruence.
Qed.

Lemma dedupe_untitled results c :
  truthy (titleKey c) = false ->
  dedupeResultsByTitle PAID (results ++ [c])
  = dedupeResultsByTitle PAID results ++ [withPublishMetadata c].
Proof.
  intros Hk. rewrite dedupe_snoc. unfold dedupeStep.
  rewrite title_withPublishMetadata. fold (titleKey c). rewrite Hk. reflexivity.
Qed.

(** The converse of [findMatchedEntry_first]: the scan stops at the first
    entry that passes the window test. *)
Lemma findMatchedEntry_at bucket cp : forall pos0 i e,
  bucket !! i = Some e ->
  areReleasesWithinDays (entryPublishDateMs e) cp DEDUPE_MAX_PUBLISH_DIFF_DAYS = true ->
  (forall j e', (j < i)%nat -> bucket !! j = Some e' ->
     areReleasesWithinDays (entryPublishDateMs e') cp DEDUPE_MAX_PUBLISH_DIFF_DAYS
     <> true) ->
  findMatchedEntry bucket cp pos0 = Some ((pos0 + i)%nat, e).
Proof.
  induction bucket as [|e0 rest IH]; intros pos0 i e Hi Hp Hb; [discriminate|].
  cbn [findMatchedEntry]. destruct i as [|i].
  - cbn in Hi. injection Hi as ->. rewrite Hp. do 2 f_equal. lia.
  - destruct (areReleasesWithinDays (entryPublishDateMs e0) cp
                DEDUPE_MAX_PUBLISH_DIFF_DAYS) eqn:Hw.
    + exfalso. apply (Hb 0%nat e0); [lia|reflexivity|exact Hw].
    + rewrite (IH (S pos0) i e Hi Hp).
      * do 2 f_equal. lia.
      * intros j e' Hj He'. apply (Hb (S j) e'); [lia|exact He'].
Qed.

(** The step of the pass, given the first survivor that passes the test. *)
Lemma dedupe_step_at results c pos e :
  truthy (titleKey c) = true ->
  survivorsFor (passState PAID results) c !! pos = Some e ->
  passesTest e c ->
  (forall i e', (i < pos)%nat ->
     survivorsFor (passState PAID results) c !! i = Some e' -> ~ passesTest e' c) ->
  dedupeResultsByTitle PAID (results ++ [c])
  = if candidateWins PAID c e
    then <[listIndex e := withPublishMetadata c]> (dedupeResultsByTitle PAID results)
    else dedupeResultsByTitle PAID results.
Proof.
  intros Hk Hpos Hp Hb.
  pose proof (dedupe_step_law results c Hk) as Hlaw. cbv zeta in Hlaw.
  rewrite (findMatchedEntry_at _ _ 0%nat pos e Hpos Hp) in Hlaw.
  - cbn [Nat.add] in Hlaw. apply Hlaw.
  - intros j e' Hj He'. apply (Hb j e' Hj He').
Qed.

(** A candidate that passes the test against some survivor of its title is
    merged: the output does not grow. *)
Lemma dedupe_match_merges results c e :
  truthy (titleKey c) = true ->
  e ∈ survivorsFor (passState PAID results) c ->
  passesTest e c ->
  length (dedupeResultsByTitle PAID (results ++ [c]))
  = length (dedupeResultsByTitle PAID results).
Proof.
  intros Hk He Hp.
  pose proof (dedupe_step_law results c Hk) as Hlaw. cbv zeta in Hlaw.
  destruct (findMatchedEntry (survivorsFor (passState PAID results) c) (publishOf c) 0)
    as [[pos e1]|].
  - destruct Hlaw as (_ & _ & _ & ->).
    destruct (candidateWins PAID c e1); [apply length_insert|reflexivity].
  - destruct Hlaw as (Hall & _). rewrite Forall_forall in Hall.
    exfalso. apply (Hall e He Hp).
Qed.

(** The rule that decides a merge, read on the two releases. *)
Lemma candidateWins_iff c e :
  candidateWins PAID c e = true
  <-> (paid c = true /\ isPaid e = false)
      \/ (paid c = isPaid e
          /\ exists pc, publishOf c = Some pc
                        /\ forall pe, entryPublishDateMs e = Some pe -> pe < pc).
Proof.
  unfold candidateWins. split.
  - intros H. apply orb_true_iff in H. destruct H as [H|H];
      apply andb_true_iff in H; destruct H as [H1 H2].
    + left. split; [exact H1|]. destruct (isPaid e); [discriminate|reflexivity].
    + right. split; [apply Bool.eqb_prop; exact H1|].
      destruct (publishOf c) as [pc|]; [|discriminate].
      exists pc. split; [reflexivity|].
      intros pe Hpe. rewrite Hpe in H2. apply Z.gtb_lt in H2. exact H2.
  - intros [[H1 H2] | [H1 (pc & Hpc & H)]].
    + rewrite H1, H2. reflexivity.
    + rewrite H1, Bool.eqb_reflx, Hpc. cbn [andb].
      destruct (entryPublishDateMs e) as [pe|]; [|apply orb_true_r].
      specialize (H pe eq_refl).
      replace (pc >? pe) with true by (symmetry; apply Z.gtb_lt; exact H).
      apply orb_true_r.
Qed.

(** The law of a step without the scan: the candidate is appended when no
    survivor of its title passes the test, and is otherwise merged with the
    first one that does. *)
Lemma dedupe_step_first results c :
  truthy (titleKey c) = true ->
  (Forall (fun e => ~ passesTest e c) (survivorsFor (passState PAID results) c)
   /\ dedupeResultsByTitle PAID (results ++ [c])
      = dedupeResultsByTitle PAID results ++ [withPublishMetadata c])
  \/ exists pos e,
       survivorsFor (passState PAID results) c !! pos = Some e
       /\ passesTest e c
       /\ (forall i e', (i < pos)%nat ->
             survivorsFor (passState PAID results) c !! i = Some e' ->
             ~ passesTest e' c)
       /\ dedupeResultsByTitle PAID (results ++ [c])
          = if candidateWins PAID c e
            then <[listIndex e := withPublishMetadata c]>
                   (dedupeResultsByTitle PAID results)
            else dedupeResultsByTitle PAID results.
Proof.
  intros Hk.
  pose proof (dedupe_step_law results c Hk) as Hlaw. cbv zeta in Hlaw.
  destruct (findMatchedEntry (survivorsFor (passState PAID results) c) (publishOf c) 0)
    as [[pos e]|].
  - right. exists pos, e. exact Hlaw.
  - left. exact Hlaw.
Qed.

End Dedupe.

(** [C1] (as amended).  A release is compared only with the current
    survivors of its normalized title, in their order of creation, and is
    merged with the first one whose publish instant is missing or at most
    fourteen days from its own; a release whose title normalizes to the
    empty string is compared with nothing:
    - in every step of the pass the candidate is either appended, or dropped,
      or written over the matched survivor, and a dated candidate is never
      matched with a dated survivor more than fourteen days away;
    - a list whose same-titled releases are pairwise dated and more than
      fourteen days apart loses nothing;
    - of two releases that make up the whole input, share a non-empty
      normalized title and publish within fourteen days of each other,
      exactly one survives: the paid one when exactly one is paid, otherwise
      the one with the later publish instant (the first on equal instants);
    - after any list of releases, the entries kept under a normalized title
      are the survivors of that title: each stands for a processed release
      of that title, which sits in the output at the entry's index, with its
      paid flag and publish instant, and every titled release of the output
      has its entry;
    - the window test between a survivor and a candidate fails only when both
      are dated and more than fourteen days apart;
    - the candidate wins a merge exactly when it is paid and the survivor is
      not, or when both have the same standing, the candidate is dated and
      the survivor is undated or strictly older;
    - after any list of releases, a titled candidate that passes the test
      against no survivor of its title is appended; otherwise it is merged
      with the first survivor that passes the test: it takes the survivor's
      place in the output when it wins, and is dropped when it does not;
    - so a candidate that passes the test against some survivor of its title
      never lengthens the output;
    - an untitled candidate is always appended;
    - fourteen days are 1209600000 milliseconds. *)
Theorem C1_dedupe_window_merge (PAID : gset string) :
  (forall st c,
     deduped (dedupeStep PAID st c) = deduped st ++ [withPublishMetadata c]
     \/ exists pos e,
          findMatchedEntry (default [] (buckets st !! titleKey c)) (publishOf c) 0
            = Some (pos, e)
          /\ (forall pe pc, entryPublishDateMs e = Some pe -> publishOf c = Some pc ->
                            Z.abs (pe - pc) <= window)
          /\ (deduped (dedupeStep PAID st c) = deduped st
              \/ deduped (dedupeStep PAID st c)
                 = <[listIndex e := withPublishMetadata c]> (deduped st)))
  /\ (forall results,
        pairwise farApart results ->
        dedupeResultsByTitle PAID results = map withPublishMetadata results)
  /\ (forall a b pa pb,
        truthy (titleKey a) = true -> titleKey a = titleKey b ->
        publishOf a = Some pa -> publishOf b = Some pb ->
        Z.abs (pa - pb) <= window ->
        exists w,
          dedupeResultsByTitle PAID [a; b] = [withPublishMetadata w]
          /\ (w = a \/ w = b)
          /\ (isResultFromPaidIndexer PAID a = true ->
              isResultFromPaidIndexer PAID b = false -> w = a)
          /\ (isResultFromPaidIndexer PAID a = false ->
              isResultFromPaidIndexer PAID b = true -> w = b)
          /\ (isResultFromPaidIndexer PAID a = isResultFromPaidIndexer PAID b ->
              pa < pb -> w = b)
          /\ (isResultFromPaidIndexer PAID a = isResultFromPaidIndexer PAID b ->
              pb <= pa -> w = a))
  /\ (forall results, tracked PAID results (passState PAID results))
  /\ (forall e c,
        passesTest e c
        <-> match entryPublishDateMs e, publishOf c with
            | Some pe, Some pc => Z.abs (pe - pc) <= window
            | _, _ => True
            end)
  /\ (forall c e,
        candidateWins PAID c e = true
        <-> (isResultFromPaidIndexer PAID c = true /\ isPaid e = false)
            \/ (isResultFromPaidIndexer PAID c = isPaid e
                /\ exists pc, publishOf c = Some pc
                              /\ forall pe, entryPublishDateMs e = Some pe -> pe < pc))
  /\ (forall results c,
        truthy (titleKey c) = true ->
        (Forall (fun e => ~ passesTest e c) (survivorsFor (passState PAID results) c)
         /\ dedupeResultsByTitle PAID (results ++ [c])
            = dedupeResultsByTitle PAID results ++ [withPublishMetadata c])
        \/ exists pos e,
             survivorsFor (passState PAID results) c !! pos = Some e
             /\ passesTest e c
             /\ (forall i e', (i < pos)%nat ->
                   survivorsFor (passState PAID results) c !! i = Some e' ->
                   ~ passesTest e' c)
             /\ dedupeResultsByTitle PAID (results ++ [c])
                = if candidateWins PAID c e
                  then <[listIndex e := withPublishMetadata c]>
                         (dedupeResultsByTitle PAID results)
                  else dedupeResultsByTitle PAID results)
  /\ (forall results c e,
        truthy (titleKey c) = true ->
        e ∈ survivorsFor (passState PAID results) c ->
        passesTest e c ->
        length (dedupeResultsByTitle PAID (results ++ [c]))
        = length (dedupeResultsByTitle PAID results))
  /\ (forall results c,
        truthy (titleKey c) = false ->
        dedupeResultsByTitle PAID (results ++ [c])
        = dedupeResultsByTitle PAID results ++ [withPublishMetadata c])
  /\ window = 14 * 24 * 60 * 60 * 1000.
Proof.
  split; [apply dedupeStep_cases|]. split; [apply dedupe_far|].
  split.
  { intros a b pa pb Hk Heq Hpa Hpb Hgap.
    assert (Hw : areReleasesWithinDays (publishOf a) (publishOf b)
                   DEDUPE_MAX_PUBLISH_DIFF_DAYS = true).
    { rewrite Hpa, Hpb, within_dated. apply Z.leb_le. exact Hgap. }
    rewrite (dedupe_pair_matched PAID a b Hk Heq Hw), Hpa, Hpb.
    eexists. split; [reflexivity|].
    destruct (isResultFromPaidIndexer PAID a), (isResultFromPaidIndexer PAID b);
      cbn [andb negb Bool.eqb];
      destruct (pb >? pa) eqn:Hc;
      repeat split; intros; try discriminate; auto; exfalso; lia. }
  split; [apply passState_tracked|].
  split; [apply passesTest_iff|].
  split; [apply candidateWins_iff|].
  split; [apply dedupe_step_first|].
  split; [apply dedupe_match_merges|].
  split; [apply dedupe_untitled|reflexivity].
Qed.

(** An input of two same-titled releases three days apart, one of them from
    a paid indexer (scenario S3); an input of two releases a hundred days
    apart; and a third release that falls ten days after the first survivor
    and ten days before the second: it is merged with the first, whose place
    it takes as the newer of two free releases. *)
Lemma C1_dedupe_window_merge_witness :
  dedupeResultsByTitle paidTokens [relA; relFar] = map withPublishMetadata [relA; relFar]
  /\ dedupeResultsByTitle paidTokens [relA; relNear] = [withPublishMetadata relNear]
  /\ dedupeResultsByTitle paidTokens [relA; relB; relC]
     = <[0%nat := withPublishMetadata relC]> (dedupeResultsByTitle paidTokens [relA; relB])
  /\ length (dedupeResultsByTitle paidTokens [relA; relB; relC]) = 2%nat.
Proof.
  destruct (C1_dedupe_window_merge paidTokens)
    as (_ & Hfar & Hpair & _ & _ & Hwins & Hstep & Hmerge & _).
  split; [|split; [|split]].
  - apply Hfar. split; [|split; [constructor|exact I]].
    constructor; [|constructor].
    intros _ _. exists day0, (day0 + 100 * MS_PER_DAY).
    split; [reflexivity|]. split; reflexivity.
  - destruct (Hpair relA relNear day0 (day0 + 3 * MS_PER_DAY))
      as (w & Hout & _ & _ & Hpaid & _).
    + reflexivity.
    + reflexivity.
    + reflexivity.
    + reflexivity.
    + vm_compute. discriminate.
    + rewrite Hout, (Hpaid eq_refl eq_refl). reflexivity.
  - destruct (Hstep [relA; relB] relC eq_refl)
      as [(Hall & _) | (pos & e & Hpos & _ & Hbefore & Hout)].
    + exfalso. rewrite Forall_forall in Hall.
      apply (Hall {| entryPublishDateMs := Some day0; isPaid := false;
                     entryResult := withPublishMetadata relA; listIndex := 0 |}).
      * vm_compute. left.
      * vm_compute. reflexivity.
    + change ([relA; relB; relC]) with ([relA; relB] ++ [relC]). rewrite Hout.
      destruct pos as [|pos].
      * vm_compute in Hpos. injection Hpos as <-. reflexivity.
      * exfalso.
        apply (Hbefore 0%nat {| entryPublishDateMs := Some day0; isPaid := false;
                                entryResult := withPublishMetadata relA;
                                listIndex := 0 |}).
        -- lia.
        -- vm_compute. reflexivity.
        -- vm_compute. reflexivity.
  - change ([relA; relB; relC]) with ([relA; relB] ++ [relC]).
    rewrite (Hmerge [relA; relB] relC
               {| entryPublishDateMs := Some day0; isPaid := false;
                  entryResult := withPublishMetadata relA; listIndex := 0 |}).
    + reflexivity.
    + reflexivity.
    + vm_compute. left.
    + vm_compute. reflexivity.
Defined.

(** The sentence of [C1] on releases within the window does not hold on every
    input list: in [relA; relB; relC] the third release replaces the first,
    and the output keeps [relC] and [relB], ten days apart; and two releases
    whose titles normalize to the empty string are never compared. *)
Lemma C1_window_pairs_counterexample :
  ~ windowPairsCollapse paidTokens [relA; relB; relC]
  /\ dedupeResultsByTitle paidTokens [relA; relB; relC]
     = [withPublishMetadata relC; withPublishMetadata relB]
  /\ ~ windowPairsCollapse paidTokens [relBlank1; relBlank3].
Proof.
  split; [|split].
  - intros H. apply (H 1%nat 2%nat relB relC); try reflexivity.
    + discriminate.
    + intros E. vm_compute in E. discriminate E.
    + exists (day0 + 20 * MS_PER_DAY), (day0 + 10 * MS_PER_DAY).
      repeat split. vm_compute. discriminate.
    + split; vm_compute; auto.
  - reflexivity.
  - intros H. apply (H 0%nat 1%nat relBlank1 relBlank3); try reflexivity.
    + discriminate.
    + intros E. vm_compute in E. discriminate E.
    + exists day0, (day0 + MS_PER_DAY). repeat split. vm_compute. discriminate.
    + split; vm_compute; auto.
Qed.

(** [C10] (as amended).  The window test holds as soon as one of the two
    instants is missing, so a release without a publish instant is compared
    with the first current survivor of its normalized title, and a release
    that meets a survivor without a publish instant is merged with it or with
    an earlier survivor that passes the test:
    - when the whole input is two releases that share a non-empty normalized
      title and one of them has no publish instant, exactly one survives: the
      paid one when exactly one is paid; otherwise the second when it has an
      instant, and the first when the second has none;
    - after any list of releases, the entries kept under a normalized title
      are the survivors of that title: each stands for a processed release
      of that title, which sits in the output at the entry's index, with its
      paid flag and publish instant;
    - after any list of releases, a titled candidate without a publish
      instant is merged with the first survivor of its title, whatever the
      instant of that survivor: it takes the survivor's place when it is paid
      and the survivor is not, and is dropped otherwise; the later survivors
      of the title are left alone; when the title has no survivor the
      candidate is appended;
    - after any list of releases, a titled candidate that meets a survivor of
      its title without a publish instant, while every earlier survivor of
      the title fails the window test, is merged with that survivor: it takes
      its place when it is paid and the survivor is not, or when both have
      the same standing and the candidate is dated, and is dropped otherwise;
    - so a candidate is never appended when it has no publish instant and its
      title has a survivor, or when a survivor of its title has none;
    - in general, after any list of releases, a titled candidate that passes
      the test against no survivor of its title is appended, and is
      otherwise merged with the first survivor that passes the test: it
      takes the survivor's place when it wins, that is when it is paid and
      the survivor is not, or when both have the same standing, the
      candidate is dated and the survivor is undated or strictly older, and
      it is dropped when it does not win. *)
Theorem C10_undated_pair_collapses (PAID : gset string) :
  (forall x days, areReleasesWithinDays None x days = true
                  /\ areReleasesWithinDays x None days = true)
  /\ (forall a b,
        truthy (titleKey a) = true -> titleKey a = titleKey b ->
        publishOf a = None \/ publishOf b = None ->
        exists w,
          dedupeResultsByTitle PAID [a; b] = [withPublishMetadata w]
          /\ (w = a \/ w = b)
          /\ (isResultFromPaidIndexer PAID a = true ->
              isResultFromPaidIndexer PAID b = false -> w = a)
          /\ (isResultFromPaidIndexer PAID a = false ->
              isResultFromPaidIndexer PAID b = true -> w = b)
          /\ (isResultFromPaidIndexer PAID a = isResultFromPaidIndexer PAID b ->
              publishOf b <> None -> w = b)
          /\ (isResultFromPaidIndexer PAID a = isResultFromPaidIndexer PAID b ->
              publishOf b = None -> w = a))
  /\ (forall results, tracked PAID results (passState PAID results))
  /\ (forall results c e0 rest,
        truthy (titleKey c) = true -> publishOf c = None ->
        survivorsFor (passState PAID results) c = e0 :: rest ->
        dedupeResultsByTitle PAID (results ++ [c])
        = if isResultFromPaidIndexer PAID c && negb (isPaid e0)
          then <[listIndex e0 := withPublishMetadata c]>
                 (dedupeResultsByTitle PAID results)
          else dedupeResultsByTitle PAID results)
  /\ (forall results c,
        truthy (titleKey c) = true ->
        survivorsFor (passState PAID results) c = [] ->
        dedupeResultsByTitle PAID (results ++ [c])
        = dedupeResultsByTitle PAID results ++ [withPublishMetadata c])
  /\ (forall results c pos e,
        truthy (titleKey c) = true ->
        survivorsFor (passState PAID results) c !! pos = Some e ->
        entryPublishDateMs e = None ->
        (forall i e', (i < pos)%nat ->
           survivorsFor (passState PAID results) c !! i = Some e' ->
           ~ passesTest e' c) ->
        dedupeResultsByTitle PAID (results ++ [c])
        = if (isResultFromPaidIndexer PAID c && negb (isPaid e))
             || (Bool.eqb (isResultFromPaidIndexer PAID c) (isPaid e)
                 && match publishOf c with Some _ => true | None => false end)
          then <[listIndex e := withPublishMetadata c]>
                 (dedupeResultsByTitle PAID results)
          else dedupeResultsByTitle PAID results)
  /\ (forall results c e,
        truthy (titleKey c) = true ->
        e ∈ survivorsFor (passState PAID results) c ->
        publishOf c = None \/ entryPublishDateMs e = None ->
        length (dedupeResultsByTitle PAID (results ++ [c]))
        = length (dedupeResultsByTitle PAID results))
  /\ (forall e c,
        entryPublishDateMs e = None \/ publishOf c = None -> passesTest e c)
  /\ (forall results c,
        truthy (titleKey c) = true ->
        (Forall (fun e => ~ passesTest e c) (survivorsFor (passState PAID results) c)
         /\ dedupeResultsByTitle PAID (results ++ [c])
            = dedupeResultsByTitle PAID results ++ [withPublishMetadata c])
        \/ exists pos e,
             survivorsFor (passState PAID results) c !! pos = Some e
             /\ passesTest e c
             /\ (forall i e', (i < pos)%nat ->
                   survivorsFor (passState PAID results) c !! i = Some e' ->
                   ~ passesTest e' c)
             /\ dedupeResultsByTitle PAID (results ++ [c])
                = if candidateWins PAID c e
                  then <[listIndex e := withPublishMetadata c]>
                         (dedupeResultsByTitle PAID results)
                  else dedupeResultsByTitle PAID results)
  /\ (forall c e,
        candidateWins PAID c e = true
        <-> (isResultFromPaidIndexer PAID c = true /\ isPaid e = false)
            \/ (isResultFromPaidIndexer PAID c = isPaid e
                /\ exists pc, publishOf c = Some pc
                              /\ forall pe, entryPublishDateMs e = Some pe -> pe < pc)).
Proof.
  split.
  { intros x days. split; [apply within_missing_l|apply within_missing_r]. }
  split.
  { intros a b Hk Heq Hnone.
    assert (Hw : areReleasesWithinDays (publishOf a) (publishOf b)
                   DEDUPE_MAX_PUBLISH_DIFF_DAYS = true).
    { destruct Hnone as [-> | ->]; [apply within_missing_l|apply within_missing_r]. }
    rewrite (dedupe_pair_matched PAID a b Hk Heq Hw).
    eexists. split; [reflexivity|].
    destruct (publishOf a) as [pa|], (publishOf b) as [pb|];
      destruct (isResultFromPaidIndexer PAID a), (isResultFromPaidIndexer PAID b);
      cbn [andb negb Bool.eqb];
      destruct Hnone as [Hn | Hn]; try discriminate Hn;
      repeat split; intros; try discriminate; try congruence; auto. }
  split; [apply passState_tracked|].
  split.
  { intros results c e0 rest Hk Hc Hs.
    rewrite (dedupe_step_at PAID results c 0%nat e0 Hk).
    - unfold candidateWins. rewrite Hc, andb_false_r, orb_false_r. reflexivity.
    - rewrite Hs. reflexivity.
    - unfold passesTest. rewrite Hc. apply within_missing_r.
    - intros i e' Hi. lia. }
  split.
  { intros results c Hk Hs.
    pose proof (dedupe_step_law PAID results c Hk) as Hlaw. cbv zeta in Hlaw.
    rewrite Hs in Hlaw. cbn [findMatchedEntry] in Hlaw. apply Hlaw. }
  split.
  { intros results c pos e Hk Hpos He Hbefore.
    rewrite (dedupe_step_at PAID results c pos e Hk Hpos).
    - unfold candidateWins. rewrite He.
      destruct (publishOf c); reflexivity.
    - unfold passesTest. rewrite He. apply within_missing_l.
    - exact Hbefore. }
  split.
  { intros results c e Hk He Hnone.
    apply (dedupe_match_merges PAID results c e Hk He).
    unfold passesTest.
    destruct Hnone as [-> | ->]; [apply within_missing_r|apply within_missing_l]. }
  split.
  { intros e c Hnone. unfold passesTest.
    destruct Hnone as [-> | ->]; [apply within_missing_l|apply within_missing_r]. }
  split; [apply dedupe_step_first|apply candidateWins_iff].
Qed.

(** An undated paid release removes a dated free one, and a dated release
    removes an undated one of the same standing; after two survivors of the
    same title a hundred days apart, an undated paid release takes the place
    of the first and leaves the second; and a dated release that meets an
    undated survivor takes its place. *)
Lemma C10_undated_pair_collapses_witness :
  dedupeResultsByTitle paidTokens [relFar; relUndatedPaid] = [withPublishMetadata relUndatedPaid]
  /\ dedupeResultsByTitle paidTokens [relUndated; relFar] = [withPublishMetadata relFar]
  /\ dedupeResultsByTitle paidTokens [relA; relFar; relUndatedPaid]
     = <[0%nat := withPublishMetadata relUndatedPaid]>
         (dedupeResultsByTitle paidTokens [relA; relFar])
  /\ dedupeResultsByTitle paidTokens [relUndated; relA]
     = <[0%nat := withPublishMetadata relA]> (dedupeResultsByTitle paidTokens [relUndated])
  /\ length (dedupeResultsByTitle paidTokens [relA; relFar; relUndated]) = 2%nat.
Proof.
  destruct (C10_undated_pair_collapses paidTokens)
    as (_ & Hpair & _ & Hfirst & _ & Hmeets & Hmerge & _).
  split; [|split; [|split; [|split]]].
  - destruct (Hpair relFar relUndatedPaid) as (w & Hout & _ & _ & Hpaid & _).
    + reflexivity.
    + reflexivity.
    + right. reflexivity.
    + rewrite Hout, (Hpaid eq_refl eq_refl). reflexivity.
  - destruct (Hpair relUndated relFar) as (w & Hout & _ & _ & _ & Hdated & _).
    + reflexivity.
    + reflexivity.
    + left. reflexivity.
    + rewrite Hout, (Hdated eq_refl); [reflexivity|discriminate].
  - change ([relA; relFar; relUndatedPaid]) with ([relA; relFar] ++ [relUndatedPaid]).
    rewrite (Hfirst [relA; relFar] relUndatedPaid
               {| entryPublishDateMs := Some day0; isPaid := false;
                  entryResult := withPublishMetadata relA; listIndex := 0 |}
               [ {| entryPublishDateMs := Some (day0 + 100 * MS_PER_DAY); isPaid := false;
                    entryResult := withPublishMetadata relFar; listIndex := 1 |} ]).
    + reflexivity.
    + reflexivity.
    + reflexivity.
    + vm_compute. reflexivity.
  - change ([relUndated; relA]) with ([relUndated] ++ [relA]).
    rewrite (Hmeets [relUndated] relA 0%nat
               {| entryPublishDateMs := None; isPaid := false;
                  entryResult := withPublishMetadata relUndated; listIndex := 0 |}).
    + reflexivity.
    + reflexivity.
    + vm_compute. reflexivity.
    + reflexivity.
    + intros i e' Hi. lia.
  - change ([relA; relFar; relUndated]) with ([relA; relFar] ++ [relUndated]).
    rewrite (Hmerge [relA; relFar] relUndated
               {| entryPublishDateMs := Some day0; isPaid := false;
                  entryResult := withPublishMetadata relA; listIndex := 0 |}).
    + reflexivity.
    + reflexivity.
    + vm_compute. left.
    + left. reflexivity.
Defined.

(** The sentence of [C10] does not hold for every pair of an input list: in
    [relA; relFar; relUndatedPaid] the undated release is merged with the
    first survivor only, and the output keeps it next to [relFar], which has
    the same normalized title; and two releases whose titles normalize to the
    empty string are never compared. *)
Lemma C10_undated_pairs_counterexample :
  ~ undatedPairsCollapse paidTokens [relA; relFar; relUndatedPaid]
  /\ dedupeResultsByTitle paidTokens [relA; relFar; relUndatedPaid]
     = [withPublishMetadata relUndatedPaid; withPublishMetadata relFar]
  /\ ~ undatedPairsCollapse paidTokens [relBlank1; relBlank2].
Proof.
  split; [|split].
  - intros H. apply (H 1%nat 2%nat relFar relUndatedPaid); try reflexivity.
    + discriminate.
    + intros E. vm_compute in E. discriminate E.
    + right. reflexivity.
    + split; vm_compute; auto.
  - reflexivity.
  - intros H. apply (H 0%nat 1%nat relBlank1 relBlank2); try reflexivity.
    + discriminate.
    + intros E. vm_compute in E. discriminate E.
    + right. reflexivity.
    + split; vm_compute; auto.
Qed.

End DedupeProofs.

(** ** Sorting of annotated results *)

Module SortProofs.
Import JsString Result Helpers SortSpec.
Local Open Scope Z_scope.

(** *** [Array.prototype.sort] as a stable insertion *)

Section ArraySortFacts.
Context {A : Type} (compare : A -> A -> Z).
Let le (a b : A) : Prop := compare a b <= 0.
Hypothesis le_total : forall a b, le a b \/ le b a.
Hypothesis le_trans : forall a b c, le a b -> le b c -> le a c.

Lemma insertSorted_perm x l : Permutation (insertSorted compare x l) (x :: l).
Proof.
  induction l as [|y t IH]; cbn [insertSorted]; [reflexivity|].
  destruct (compare x y <=? 0); [reflexivity|].
  rewrite IH. apply perm_swap.
Qed.

Lemma arraySort_perm l : Permutation (arraySort compare l) l.
Proof.
  induction l as [|x t IH]; cbn; [reflexivity|].
  rewrite insertSorted_perm. constructor. exact IH.
Qed.

Lemma insertSorted_sorted x l :
  StronglySorted le l -> StronglySorted le (insertSorted compare x l).
Proof using le_total le_trans.
  induction l as [|y t IH]; intros Hs; cbn [insertSorted].
  - constructor; constructor.
  - apply StronglySorted_inv in Hs. destruct Hs as [Ht Hy].
    destruct (compare x y <=? 0) eqn:Hc.
    + apply Z.leb_le in Hc. constructor.
      * constructor; assumption.
      * constructor; [exact Hc|].
        eapply Forall_impl; [exact Hy|]. intros z Hz. eapply le_trans; [exact Hc|exact Hz].
    + apply Z.leb_gt in Hc. constructor; [apply IH; exact Ht|].
      rewrite (insertSorted_perm x t). constructor; [|exact Hy].
      destruct (le_total y x) as [H|H]; [exact H|]. unfold le in H. lia.
Qed.

Lemma arraySort_sorted l : StronglySorted le (arraySort compare l).
Proof using le_total le_trans.
  induction l as [|x t IH]; cbn; [constructor|].
  apply insertSorted_sorted. exact IH.
Qed.

End ArraySortFacts.

Lemma compare_le_iff a b : compareQualityThenSize a b <= 0 <-> qualityThenSizeDesc a b.
Proof.
  unfold compareQualityThenSize, qualityThenSizeDesc.
  destruct (qualityRank a =? qualityRank b) eqn:Hq; cbn [negb].
  - apply Z.eqb_eq in Hq. lia.
  - apply Z.eqb_neq in Hq. lia.
Qed.

Lemma StronglySorted_weaken {A} (R S : A -> A -> Prop) l :
  (forall a b, R a b -> S a b) -> StronglySorted R l -> StronglySorted S l.
Proof.
  intros HRS Hs. induction Hs as [|x l Hl IH Hx]; constructor; [exact IH|].
  eapply Forall_impl; [exact Hx|]. intros y. apply HRS.
Qed.

Lemma qualityThenSize_sorted l :
  StronglySorted qualityThenSizeDesc (arraySort compareQualityThenSize l).
Proof.
  eapply StronglySorted_weaken; [|apply arraySort_sorted].
  - intros a b H. apply compare_le_iff. exact H.
  - intros a b. rewrite !compare_le_iff. unfold qualityThenSizeDesc. lia.
  - intros a b c. rewrite !compare_le_iff. unfold qualityThenSizeDesc. lia.
Qed.

(** *** Trimming is idempotent *)

Lemma drop_ws_head l :
  drop_ws l = [] \/ exists c t, drop_ws l = c :: t /\ is_ws c = false.
Proof.
  induction l as [|c t IH]; [left; reflexivity|].
  cbn [drop_ws]. destruct (is_ws c) eqn:Hc; [exact IH|].
  right. exists c, t. split; [reflexivity|exact Hc].
Qed.

Lemma drop_ws_idem l : drop_ws (drop_ws l) = drop_ws l.
Proof.
  destruct (drop_ws_head l) as [-> | (c & t & -> & Hc)]; [reflexivity|].
  cbn [drop_ws]. rewrite Hc. reflexivity.
Qed.

Lemma drop_ws_snoc l c : is_ws c = false -> drop_ws (l ++ [c]) = drop_ws l ++ [c].
Proof.
  intros Hc. induction l as [|x t IH]; cbn [drop_ws app].
  - rewrite Hc. reflexivity.
  - destruct (is_ws x); [exact IH|reflexivity].
Qed.

Lemma trim_chars_cons c t :
  is_ws c = false -> trim_chars (c :: t) = c :: rev (drop_ws (rev t)).
Proof.
  intros Hc. unfold trim_chars. cbn [drop_ws]. rewrite Hc. cbn [rev].
  rewrite (drop_ws_snoc _ _ Hc), rev_app_distr. reflexivity.
Qed.

Lemma trim_chars_idem l : trim_chars (trim_chars l) = trim_chars l.
Proof.
  assert (Hd : trim_chars l = trim_chars (drop_ws l)).
  { unfold trim_chars. rewrite drop_ws_idem. reflexivity. }
  rewrite Hd.
  destruct (drop_ws_head l) as [-> | (c & t & -> & Hc)]; [reflexivity|].
  rewrite (trim_chars_cons c t Hc), (trim_chars_cons c _ Hc).
  rewrite rev_involutive, drop_ws_idem. reflexivity.
Qed.

Lemma chars_str l : chars (str l) = l.
Proof. apply list_ascii_of_string_of_list_ascii. Qed.

Lemma trim_idem s : trim (trim s) = trim s.
Proof. unfold trim. rewrite chars_str, trim_chars_idem. reflexivity. Qed.

(** *** The preferred-language test *)

Lemma collectPreferred_elem entries : forall seen v,
  In v (collectPreferred seen entries) ->
  exists e, In e entries /\ v = trim e /\ truthy v = true.
Proof.
  induction entries as [|e0 rest IH]; intros seen v Hv; [destruct Hv|].
  cbn [collectPreferred] in Hv.
  destruct (truthy (trim e0)) eqn:Ht; cbn [negb] in Hv.
  - destruct (existsb _ seen).
    + destruct (IH _ _ Hv) as (e & He & Hve & Htv). exists e. split; [right; exact He|]. split; assumption.
    + destruct Hv as [<- | Hv].
      * exists e0. split; [left; reflexivity|]. split; [reflexivity|exact Ht].
      * destruct (IH _ _ Hv) as (e & He & Hve & Htv). exists e. split; [right; exact He|]. split; assumption.
  - destruct (IH _ _ Hv) as (e & He & Hve & Htv). exists e. split; [right; exact He|]. split; assumption.
Qed.

Lemma collectPreferred_cover entries : forall seen e,
  In e entries -> truthy (trim e) = true ->
  In (toLowerCase (trim e)) seen
  \/ exists v, In v (collectPreferred seen entries) /\ toLowerCase v = toLowerCase (trim e).
Proof.
  induction entries as [|e0 rest IH]; intros seen e He Ht; [destruct He|].
  cbn [collectPreferred].
  destruct (truthy (trim e0)) eqn:Ht0; cbn [negb].
  - destruct (existsb (String.eqb (toLowerCase (trim e0))) seen) eqn:Hseen.
    + destruct He as [-> | He].
      * left. apply existsb_exists in Hseen. destruct Hseen as (k & Hk & Heq).
        apply String.eqb_eq in Heq. rewrite Heq. exact Hk.
      * exact (IH seen e He Ht).
    + destruct He as [-> | He].
      * right. exists (trim e). split; [left; reflexivity|reflexivity].
      * destruct (IH (toLowerCase (trim e0) :: seen) e He Ht) as [[Hk | Hk] | (v & Hv & Hlow)].
        -- right. exists (trim e0). split; [left; reflexivity|exact Hk].
        -- left. exact Hk.
        -- right. exists v. split; [right; exact Hv|exact Hlow].
  - destruct He as [-> | He]; [rewrite Ht in Ht0; discriminate|].
    exact (IH seen e He Ht).
Qed.

Lemma normalize_elem prefs v :
  In v (normalizePreferredLanguageList prefs) -> trim v = v /\ truthy v = true.
Proof.
  intros Hv.
  assert (H : exists e, v = trim e /\ truthy v = true).
  { destruct prefs as [|entries|csv]; cbn [normalizePreferredLanguageList] in Hv.
    - destruct Hv.
    - destruct (collectPreferred_elem _ _ _ Hv) as (e & _ & H1 & H2). eauto.
    - destruct (truthy csv); [|destruct Hv].
      destruct (collectPreferred_elem _ _ _ Hv) as (e & _ & H1 & H2). eauto. }
  destruct H as (e & -> & Ht). split; [apply trim_idem|exact Ht].
Qed.

(** Normalising a normalised list keeps the same languages. *)
Lemma normalize_twice prefs x :
  (exists v, In v (normalizePreferredLanguageList
                     (PrefArray (normalizePreferredLanguageList prefs)))
             /\ toLowerCase v = x)
  <-> (exists v, In v (normalizePreferredLanguageList prefs) /\ toLowerCase v = x).
Proof.
  cbn [normalizePreferredLanguageList]. split.
  - intros (v & Hv & Hx).
    destruct (collectPreferred_elem _ _ _ Hv) as (n & Hn & Hvn & _).
    destruct (normalize_elem prefs n Hn) as [Htrim _].
    exists n. split; [exact Hn|]. rewrite <- Htrim, <- Hvn. exact Hx.
  - intros (n & Hn & Hx).
    destruct (normalize_elem prefs n Hn) as [Htrim Htruthy].
    destruct (collectPreferred_cover _ [] n Hn) as [[] | (v & Hv & Hlow)].
    { rewrite Htrim. exact Htruthy. }
    exists v. split; [exact Hv|]. rewrite Hlow, Htrim. exact Hx.
Qed.

Lemma matchPreferences_nonempty preferences resultLanguages :
  (0 < length (matchPreferences preferences resultLanguages))%nat
  <-> exists pref lang, In pref preferences /\ In lang resultLanguages
                        /\ toLowerCase lang = pref.
Proof.
  induction preferences as [|p rest IH]; cbn [matchPreferences].
  - split; [cbn; lia|]. intros (pref & lang & [] & _).
  - destruct (find _ resultLanguages) as [raw|] eqn:Hf.
    + split; [|cbn; lia]. intros _.
      apply find_some in Hf. destruct Hf as [Hin Heq]. apply String.eqb_eq in Heq.
      exists p, raw. split; [left; reflexivity|]. split; assumption.
    + rewrite IH. split.
      * intros (pref & lang & Hp & Hl & Heq). exists pref, lang.
        split; [right; exact Hp|]. split; assumption.
      * intros (pref & lang & [<- | Hp] & Hl & Heq).
        -- pose proof (find_none _ _ Hf lang Hl) as Hno. cbn in Hno.
           apply String.eqb_neq in Hno. contradiction.
        -- exists pref, lang. split; [exact Hp|]. split; assumption.
Qed.

Lemma matches_unfold r prefs :
  getPreferredLanguageMatches r prefs
  = matchPreferences (map toLowerCase (normalizePreferredLanguageList prefs))
      (gatherResultLanguages r).
Proof.
  unfold getPreferredLanguageMatches.
  destruct (map toLowerCase (normalizePreferredLanguageList prefs)) as [|p ps] eqn:Hp;
    [reflexivity|].
  destruct (gatherResultLanguages r) as [|l ls]; [|reflexivity].
  clear Hp. generalize (p :: ps). intros q. induction q as [|a q IH]; [reflexivity|exact IH].
Qed.

Lemma resultMatches_iff r prefs :
  resultMatchesPreferredLanguage r (PrefArray (normalizePreferredLanguageList prefs)) = true
  <-> languagesIntersect r prefs.
Proof.
  unfold resultMatchesPreferredLanguage, languagesIntersect.
  rewrite Nat.ltb_lt, matches_unfold, matchPreferences_nonempty. split.
  - intros (pref & lang & Hp & Hl & Heq).
    apply in_map_iff in Hp. destruct Hp as (v & Hv & Hin).
    destruct (proj1 (normalize_twice prefs pref)) as (n & Hn & Hlow); [eauto|].
    exists n, lang. split; [exact Hn|]. split; [exact Hl|]. congruence.
  - intros (n & lang & Hn & Hl & Heq).
    destruct (proj2 (normalize_twice prefs (toLowerCase n))) as (v & Hv & Hlow); [eauto|].
    exists (toLowerCase n), lang. split; [|split; [exact Hl|exact Heq]].
    apply in_map_iff. exists v. split; assumption.
Qed.

(** [C3] (as amended).  In sort mode [language_quality_size] with a
    non-empty preferred-language list, the sorted list is the releases whose
    languages meet the preferred list followed by the other releases; each
    of the two groups is ordered by quality score descending, then size
    descending.  The preferred releases form a single group: the position of
    the matched language in the preferred list plays no part in the order. *)
Theorem C3_language_quality_size_order (results : list nzbResult)
    (preferredLanguages : preferredInput) :
  normalizePreferredLanguageList preferredLanguages <> [] ->
  exists preferred others,
    sortAnnotatedResults results "language_quality_size" preferredLanguages
      = preferred ++ others
    /\ Permutation (preferred ++ others) results
    /\ Forall (fun r => languagesIntersect r preferredLanguages) preferred
    /\ Forall (fun r => ~ languagesIntersect r preferredLanguages) others
    /\ StronglySorted qualityThenSizeDesc preferred
    /\ StronglySorted qualityThenSizeDesc others.
Proof.
  intros Hne. destruct results as [|r0 rest].
  { exists [], []. repeat split; constructor. }
  unfold sortAnnotatedResults.
  destruct (normalizePreferredLanguageList preferredLanguages) as [|p ps] eqn:Hp;
    [contradiction|].
  cbn [String.eqb Ascii.eqb Bool.eqb andb length Nat.ltb Nat.leb]. rewrite <- Hp.
  set (P := fun r => resultMatchesPreferredLanguage r
                       (PrefArray (normalizePreferredLanguageList preferredLanguages)) = true).
  eexists _, _. split; [reflexivity|]. split; [|split; [|split; [|split]]].
  - rewrite !arraySort_perm. apply (filter_app_complement P).
  - apply Forall_forall. intros x Hx. apply resultMatches_iff.
    apply list_elem_of_In in Hx. apply (Permutation_in _ (arraySort_perm _ _)) in Hx.
    apply list_elem_of_In, list_elem_of_filter in Hx. apply Hx.
  - apply Forall_forall. intros x Hx. rewrite <- resultMatches_iff.
    apply list_elem_of_In in Hx. apply (Permutation_in _ (arraySort_perm _ _)) in Hx.
    apply list_elem_of_In, list_elem_of_filter in Hx. apply Hx.
  - apply qualityThenSize_sorted.
  - apply qualityThenSize_sorted.
Qed.

(** Scenario S2: with [Tamil] preferred, the 1080p Tamil release comes before
    the 2160p English one. *)
Lemma C3_language_quality_size_order_witness :
  normalizePreferredLanguageList (PrefString "Tamil") <> []
  /\ sortAnnotatedResults [english2160; tamil1080] "language_quality_size" (PrefString "Tamil")
     = [tamil1080; english2160]
  /\ exists preferred others,
       sortAnnotatedResults [english2160; tamil1080] "language_quality_size" (PrefString "Tamil")
         = preferred ++ others
       /\ Permutation (preferred ++ others) [english2160; tamil1080]
       /\ Forall (fun r => languagesIntersect r (PrefString "Tamil")) preferred
       /\ Forall (fun r => ~ languagesIntersect r (PrefString "Tamil")) others
       /\ StronglySorted qualityThenSizeDesc preferred
       /\ StronglySorted qualityThenSizeDesc others.
Proof.
  split; [vm_compute; discriminate|]. split; [reflexivity|].
  apply C3_language_quality_size_order. vm_compute. discriminate.
Defined.

(** The preferred releases are not arranged after the order of the
    preferred-language list: with [Tamil, Hindi] preferred, the 2160p Hindi
    release comes before the 1080p Tamil one. *)
Lemma C3_preference_order_counterexample :
  sortAnnotatedResults [tamil1080; hindi2160] "language_quality_size" (PrefString "Tamil,Hindi")
    = [hindi2160; tamil1080]
  /\ ~ mirrorsPreferenceOrder (PrefString "Tamil,Hindi")
         (sortAnnotatedResults [tamil1080; hindi2160] "language_quality_size"
            (PrefString "Tamil,Hindi")).
Proof.
  split; [reflexivity|].
  intros H. specialize (H 0%nat 1%nat hindi2160 tamil1080 1%nat 0%nat).
  assert (Habs : (1 <= 0)%nat); [|lia].
  apply H; [lia|reflexivity..].
Qed.

End SortProofs.

(** ** The summary of a triage decision *)

Module SummaryProofs.
Import JsString Triage TriageRunner SummarySpec.

Lemma positive_findings_iff findings :
  Forall (fun f => toLowerCase (status f) = status f) findings ->
  existsb (fun f => isPositiveLabel (findingLabel f)) findings = true
  <-> exists f, In f findings
                /\ (status f = "rar-stored" \/ status f = "sevenzip-stored"
                    \/ status f = "segment-ok")%string.
Proof.
  intros Hlow. rewrite existsb_exists. split; intros (f & Hf & H); exists f; (split; [exact Hf|]).
  - rewrite Forall_forall in Hlow. specialize (Hlow f (proj2 (list_elem_of_In _ _) Hf)).
    unfold isPositiveLabel, findingLabel in H. rewrite Hlow in H.
    rewrite !orb_true_iff, !String.eqb_eq in H. tauto.
  - unfold isPositiveLabel, findingLabel.
    destruct H as [-> | [-> | ->]]; reflexivity.
Qed.

Lemma sevenZipFlag_iff d :
  existsb (fun f => startsWith (findingLabel f) "sevenzip") (archiveFindings d)
  || existsb (fun w => startsWith (toLowerCase w) "sevenzip") (warnings d) = true
  <-> someSevenZipEvidence d.
Proof.
  unfold someSevenZipEvidence, sevenZipWord, findingLabel.
  rewrite orb_true_iff, !existsb_exists. reflexivity.
Qed.

(** The status computed by [summarizeDecision], case by case. *)
Lemma summaryStatus_cases d :
  summaryStatus (summarizeDecision d) =
  if String.eqb (decision d) "accept" && (length (blockers d) =? 0)%nat then
    if existsb (fun f => isPositiveLabel (findingLabel f)) (archiveFindings d)
    then "verified"
    else if existsb (fun f => startsWith (findingLabel f) "sevenzip") (archiveFindings d)
            || existsb (fun w => startsWith (toLowerCase w) "sevenzip") (warnings d)
         then "unverified_7z" else "unverified"
  else "blocked".
Proof.
  unfold summarizeDecision. cbn [summaryStatus].
  destruct (String.eqb (decision d) "accept" && (length (blockers d) =? 0)%nat);
    [|reflexivity].
  destruct (existsb (fun f => isPositiveLabel (findingLabel f)) (archiveFindings d));
    [reflexivity|].
  cbn [String.eqb Ascii.eqb Bool.eqb]. reflexivity.
Qed.

Lemma blocked_by_blockers d :
  blockers d <> [] -> summaryStatus (summarizeDecision d) = "blocked"%string.
Proof.
  intros Hb. rewrite summaryStatus_cases.
  destruct (blockers d) as [|b bs]; [contradiction|].
  cbn [length Nat.eqb]. rewrite andb_false_r. reflexivity.
Qed.

(** The decisions of the analyzer accept exactly when nothing blocks, and
    their findings carry lower-case statuses. *)
Lemma fromAnalyzer_inv d :
  fromAnalyzer d ->
  (String.eqb (decision d) "accept" = (length (blockers d) =? 0)%nat)
  /\ Forall (fun f => toLowerCase (status f) = status f) (archiveFindings d).
Proof.
  intros [bl wa fc ix fs Hlow | code msg ix].
  - cbn. split; [|exact Hlow]. destruct (length bl =? 0)%nat; reflexivity.
  - cbn. split; [reflexivity|constructor].
Qed.

(** [C2] (as amended).  For every decision of the analyzer: the status is
    [verified] exactly when the decision is accept and a finding has status
    [rar-stored], [sevenzip-stored] or [segment-ok]; any blocker gives
    [blocked]; without blocker and without positive finding the status is
    [unverified_7z] when at least one finding or warning is 7z-related,
    whatever the other evidence, and [unverified] when none is. *)
Theorem C2_summarized_status (d : analyzerDecision) :
  fromAnalyzer d ->
  (summaryStatus (summarizeDecision d) = "verified"%string
   <-> decision d = "accept"%string /\ hasPositiveFinding d)
  /\ (blockers d <> [] -> summaryStatus (summarizeDecision d) = "blocked"%string)
  /\ (blockers d = [] -> ~ hasPositiveFinding d ->
      (someSevenZipEvidence d
       /\ summaryStatus (summarizeDecision d) = "unverified_7z"%string)
      \/ (~ someSevenZipEvidence d
          /\ summaryStatus (summarizeDecision d) = "unverified"%string))
  /\ (blockers d = [] -> ~ hasPositiveFinding d -> onlySevenZipEvidence d ->
      summaryStatus (summarizeDecision d) = "unverified_7z"%string).
Proof.
  intros Hd. destruct (fromAnalyzer_inv d Hd) as [Hacc Hlow].
  pose proof (positive_findings_iff _ Hlow) as Hpos.
  pose proof (sevenZipFlag_iff d) as H7.
  fold (hasPositiveFinding d) in Hpos.
  rewrite summaryStatus_cases.
  assert (Hdec : decision d = "accept"%string <-> blockers d = []).
  { rewrite <- String.eqb_eq, Hacc, Nat.eqb_eq. apply length_zero_iff_nil. }
  destruct (existsb (fun f => isPositiveLabel (findingLabel f)) (archiveFindings d)) eqn:HP;
    destruct (existsb (fun f => startsWith (findingLabel f) "sevenzip") (archiveFindings d)
              || existsb (fun w => startsWith (toLowerCase w) "sevenzip") (warnings d)) eqn:HQ;
    rewrite Hacc, andb_diag;
    destruct (blockers d) as [|b bs] eqn:Hb; cbn [length Nat.eqb];
    (split; [|split; [|split]]);
    try (intros; reflexivity); try (intros; congruence).
  all: try (split; [intros _|reflexivity]; split; [apply Hdec; reflexivity|apply Hpos; reflexivity]).
  all: try (split; [discriminate|intros [Ha _]; apply Hdec in Ha; discriminate]).
  all: try (intros _ Hno; exfalso; apply Hno, Hpos; reflexivity).
  all: try (split; [discriminate|intros [_ Hp]; apply Hpos in Hp; discriminate]).
  - intros _ _. left. split; [apply H7; reflexivity|reflexivity].
  - intros _ _. right. split; [|reflexivity]. intros H. apply H7 in H. discriminate.
  - intros _ _ (Hsome & Hf & Hw). exfalso.
    assert (Hs : someSevenZipEvidence d).
    { unfold someSevenZipEvidence.
      destruct (archiveFindings d) as [|f fs].
      - destruct (warnings d) as [|w ws]; [destruct Hsome; contradiction|].
        right. exists w. split; [left; reflexivity|]. apply Forall_cons in Hw. apply Hw.
      - left. exists f. split; [left; reflexivity|]. apply Forall_cons in Hf. apply Hf. }
    apply H7 in Hs. discriminate.
Qed.

(** Scenario S4: a stored RAR with a checked segment is [verified]. *)
Lemma C2_summarized_status_witness :
  fromAnalyzer storedRar
  /\ summaryStatus (summarizeDecision storedRar) = "verified"%string
  /\ decision storedRar = "accept"%string /\ hasPositiveFinding storedRar.
Proof.
  assert (H : fromAnalyzer storedRar).
  { apply from_analysis. repeat constructor. }
  split; [exact H|]. split; [reflexivity|].
  apply (proj1 (C2_summarized_status storedRar H)). reflexivity.
Defined.

(** The upgrade to [unverified_7z] does not wait for the evidence to be 7z
    only: the decision [sevenZipMixed] has a finding and two warnings that
    are not about 7z, and its status is [unverified_7z]. *)
Lemma C2_only_7z_counterexample :
  fromAnalyzer sevenZipMixed
  /\ blockers sevenZipMixed = [] /\ ~ hasPositiveFinding sevenZipMixed
  /\ ~ onlySevenZipEvidence sevenZipMixed
  /\ summaryStatus (summarizeDecision sevenZipMixed) = "unverified_7z"%string
  /\ ~ unverifiedAsStated sevenZipMixed.
Proof.
  assert (Hnot : ~ onlySevenZipEvidence sevenZipMixed).
  { intros (_ & Hf & _). apply Forall_cons in Hf. destruct Hf as [Hf _].
    vm_compute in Hf. discriminate. }
  split; [apply from_analysis; repeat constructor|].
  split; [reflexivity|]. split.
  { intros (f & [<- | [<- | []]] & [H | [H | H]]); discriminate. }
  split; [exact Hnot|]. split; [reflexivity|].
  intros [_ H]. specialize (H Hnot). vm_compute in H. discriminate.
Qed.

End SummaryProofs.

(** ** Resolution detection *)

Module ResolutionProofs.
Import JsString ReleaseParser ResolutionSpec.

Lemma normalizeResolutionLabel_closed label l :
  normalizeResolutionLabel label = Some l -> In l RESOLUTION_PREFERENCES.
Proof.
  unfold normalizeResolutionLabel. destruct label as [v|]; [|discriminate].
  repeat match goal with
         | |- context [if ?b then _ else _] => destruct b
         end;
    intros H; try discriminate; injection H as <-; cbn; tauto.
Qed.

Lemma explicitLabel_closed field l :
  explicitLabel field = Some l -> In l RESOLUTION_PREFERENCES.
Proof.
  unfold explicitLabel. destruct field as [v|]; [|discriminate].
  destruct (truthy v); [|discriminate]. apply normalizeResolutionLabel_closed.
Qed.

Lemma firstMatch_label patterns title l :
  firstMatch patterns title = Some l -> In l (map fst patterns).
Proof.
  induction patterns as [|[label alts] rest IH]; [discriminate|].
  cbn [firstMatch map fst]. destruct (regexTest alts title).
  - intros H. injection H as <-. left. reflexivity.
  - intros H. right. apply IH. exact H.
Qed.

Lemma table_labels_closed l :
  In l (map fst RESOLUTION_NUMERIC_PATTERNS) \/ In l (map fst RESOLUTION_SYNONYM_PATTERNS) ->
  In l RESOLUTION_PREFERENCES.
Proof. cbn. intuition (subst; tauto). Qed.

Lemma detectResolution_closed rawTitle parsed l :
  detectResolution rawTitle parsed = Some l -> In l RESOLUTION_PREFERENCES.
Proof.
  unfold detectResolution.
  destruct (explicitLabel (parsedResolution parsed)) as [a|] eqn:H1.
  { intros H. injection H as <-. eapply explicitLabel_closed. exact H1. }
  destruct (firstMatch RESOLUTION_NUMERIC_PATTERNS rawTitle) as [b|] eqn:H2.
  { intros H. injection H as <-. apply table_labels_closed. left.
    eapply firstMatch_label. exact H2. }
  destruct (explicitLabel (parsedQuality parsed)) as [c|] eqn:H3.
  { intros H. injection H as <-. eapply explicitLabel_closed. exact H3. }
  intros H. apply table_labels_closed. right. eapply firstMatch_label. exact H.
Qed.

(** A word that ends in [hd] at a word boundary is found by the [720p]
    pattern, so a title with the word [uhd] never reaches the alias table. *)
Lemma uhd_here_hd_next prev c t :
  matchesHere (bounded "uhd") prev (c :: t) = true ->
  matchesHere (wordEnd "hd") (Some c) t = true.
Proof.
  unfold matchesHere.
  cbn [boundaryBefore boundaryAfter literal bounded wordEnd negb orb andb String.length skipn
       chars list_ascii_of_string prefix_at].
  destruct t as [|h [|d rest]];
    cbn [prefix_at skipn]; rewrite ?andb_false_r; try discriminate.
  intros H. apply andb_true_iff in H. destruct H as [H Hafter].
  apply andb_true_iff in H. destruct H as [_ H].
  apply andb_true_iff in H. destruct H as [_ H].
  rewrite H. exact Hafter.
Qed.

Lemma uhd_found_as_hd s : forall prev prev',
  searchFrom (bounded "uhd") prev s = true ->
  searchFrom (wordEnd "hd") prev' s = true.
Proof.
  induction s as [|c t IH]; intros prev prev' H.
  - unfold searchFrom, matchesHere in H. cbn in H.
    rewrite andb_false_r in H. discriminate.
  - cbn [searchFrom] in H |- *. apply orb_true_iff in H. apply orb_true_iff. right.
    destruct H as [H | H].
    + apply uhd_here_hd_next in H.
      destruct t as [|h t']; cbn [searchFrom]; rewrite H; reflexivity.
    + eapply IH. exact H.
Qed.

Lemma uhd_alias_unreachable title :
  regexTest [bounded "uhd"] title = true ->
  firstMatch RESOLUTION_NUMERIC_PATTERNS title <> None.
Proof.
  unfold regexTest at 1. cbn [existsb]. rewrite orb_false_r. intros H.
  apply (uhd_found_as_hd _ None None) in H.
  assert (H720 : regexTest [bounded "720p"; wordEnd "hd"] title = true).
  { unfold regexTest. cbn [existsb]. rewrite H. rewrite orb_true_l, orb_true_r.
    reflexivity. }
  unfold RESOLUTION_NUMERIC_PATTERNS. cbn [firstMatch].
  do 4 (match goal with
        | |- context [if ?b then _ else _] => destruct b; [discriminate|]
        end).
  rewrite H720. discriminate.
Qed.

Lemma regexTest_app a b title :
  regexTest (a ++ b) title = regexTest a title || regexTest b title.
Proof. unfold regexTest. apply existsb_app. Qed.

(** [C4] (as amended).  For every title, whatever the title parser returns,
    the detected resolution is one of the ten labels or absent ([null]);
    detection takes the parser's resolution first, then the first matching
    row of the pattern table (where [fullhd] and [fhd] stand with [1080p]
    and a word ending in [sd] with [480p]), then the parser's quality field,
    then the aliases [8k] and [4k]; when nothing matches the resolution is
    absent. *)
Theorem C4_resolution_detection (parseTorrentTitle : string -> parsedTitle)
    (title : option string) :
  let rawTitle := default ""%string title in
  let parsed := parseTorrentTitle rawTitle in
  let r := metaResolution (parseReleaseMetadata parseTorrentTitle title) in
  (r = None \/ exists label, In label RESOLUTION_PREFERENCES /\ r = Some label)
  /\ (forall l, explicitLabel (parsedResolution parsed) = Some l -> r = Some l)
  /\ (explicitLabel (parsedResolution parsed) = None ->
      (forall l, firstMatch RESOLUTION_NUMERIC_PATTERNS rawTitle = Some l -> r = Some l)
      /\ (firstMatch (firstn 3 RESOLUTION_NUMERIC_PATTERNS) rawTitle = None ->
          regexTest [anywhere "fullhd"; anywhere "fhd"] rawTitle = true ->
          r = Some "1080p"%string)
      /\ (firstMatch (firstn 7 RESOLUTION_NUMERIC_PATTERNS) rawTitle = None ->
          regexTest [wordEnd "sd"] rawTitle = true ->
          r = Some "480p"%string)
      /\ (firstMatch RESOLUTION_NUMERIC_PATTERNS rawTitle = None ->
          (forall l, explicitLabel (parsedQuality parsed) = Some l -> r = Some l)
          /\ (explicitLabel (parsedQuality parsed) = None ->
              (regexTest [bounded "8k"] rawTitle = true -> r = Some "4320p"%string)
              /\ (regexTest [bounded "8k"] rawTitle = false ->
                  regexTest [bounded "4k"] rawTitle = true -> r = Some "2160p"%string)
              /\ (firstMatch RESOLUTION_SYNONYM_PATTERNS rawTitle = None -> r = None)))).
Proof.
  cbn zeta. unfold parseReleaseMetadata. cbn [metaResolution].
  set (rawTitle := default ""%string title).
  set (parsed := parseTorrentTitle rawTitle).
  split.
  { destruct (detectResolution rawTitle parsed) as [l|] eqn:H; [|left; reflexivity].
    right. exists l. split; [|reflexivity]. eapply detectResolution_closed. exact H. }
  unfold detectResolution. split.
  { intros l ->. reflexivity. }
  intros ->. split; [intros l ->; reflexivity|]. split; [|split].
  - unfold RESOLUTION_NUMERIC_PATTERNS. cbn [firstn firstMatch].
    destruct (regexTest [bounded "4320p"] rawTitle); [discriminate|].
    destruct (regexTest [bounded "2160p"] rawTitle); [discriminate|].
    destruct (regexTest [bounded "1440p"] rawTitle); [discriminate|].
    intros _ H.
    change [bounded "1080p"; anywhere "fullhd"; anywhere "fhd"]
      with ([bounded "1080p"] ++ [anywhere "fullhd"; anywhere "fhd"]).
    rewrite regexTest_app, H, orb_true_r. reflexivity.
  - unfold RESOLUTION_NUMERIC_PATTERNS. cbn [firstn firstMatch].
    repeat match goal with
           | |- context [if ?b then _ else _] =>
               lazymatch b with
               | regexTest [bounded "480p"; wordEnd "sd"] rawTitle => fail
               | _ => destruct b; [discriminate|]
               end
           end.
    intros _ H.
    change [bounded "480p"; wordEnd "sd"] with ([bounded "480p"] ++ [wordEnd "sd"]).
    rewrite regexTest_app, H, orb_true_r. reflexivity.
  - intros ->. split; [intros l ->; reflexivity|]. intros ->.
    unfold RESOLUTION_SYNONYM_PATTERNS. cbn [firstMatch].
    split; [intros ->; reflexivity|]. split.
    + intros -> H.
      change [bounded "4k"; bounded "uhd"] with ([bounded "4k"] ++ [bounded "uhd"]).
      rewrite regexTest_app, H. reflexivity.
    + intros H. exact H.
Qed.

(** A title with the word [4K] and nothing else to go by is [2160p]. *)
Lemma C4_resolution_detection_witness :
  explicitLabel (parsedResolution (parsesNothing "Movie.2023.4K.x265")) = None
  /\ firstMatch RESOLUTION_NUMERIC_PATTERNS "Movie.2023.4K.x265" = None
  /\ regexTest [bounded "4k"] "Movie.2023.4K.x265" = true
  /\ metaResolution (parseReleaseMetadata parsesNothing (Some "Movie.2023.4K.x265"%string))
     = Some "2160p"%string.
Proof.
  split; [reflexivity|]. split; [reflexivity|]. split; [reflexivity|].
  destruct (C4_resolution_detection parsesNothing (Some "Movie.2023.4K.x265"%string))
    as (_ & _ & H).
  destruct (H eq_refl) as (_ & _ & _ & H').
  destruct (H' eq_refl) as (_ & H'').
  destruct (H'' eq_refl) as (_ & H4k & _).
  apply H4k; reflexivity.
Defined.

(** The detected resolution is not always one of the eleven labels: a title
    without any resolution word has no resolution at all, not [unknown].  And
    the order is not the stated one: [fullhd] is tried with the numeric
    labels, before [720p]. *)
Lemma C4_unknown_label_counterexample :
  ~ resolutionLabelled (parseReleaseMetadata parsesNothing (Some "Movie.2023.x265"%string))
  /\ metaResolution (parseReleaseMetadata parsesNothing (Some "Movie.2023.x265"%string)) = None
  /\ detectResolution "Movie.720p.FullHD" (parsesNothing "") = Some "1080p"%string
  /\ detectResolutionAsStated "Movie.720p.FullHD" (parsesNothing "") = "720p"%string.
Proof.
  split; [|split; [reflexivity|split; reflexivity]].
  intros (label & _ & H). vm_compute in H. discriminate.
Qed.

(** The alias [uhd] is shadowed by the [720p] row of the pattern table. *)
Example uhd_title_detected_as_720p :
  detectResolution "Movie.2023.UHD.x265" (parsesNothing "") = Some "720p"%string
  /\ detectResolutionAsStated "Movie.2023.UHD.x265" (parsesNothing "") = "2160p"%string.
Proof. split; reflexivity. Qed.

End ResolutionProofs.

(** ** The response cache *)

Module StreamCacheProofs.
Import JsString StreamCache.
Local Open Scope Z_scope.

Section CacheFacts.
Context {Payload Meta : Type}.
Variable estimateCacheEntrySize : Payload -> option Meta -> Z.
Variable cfg : config.
Hypothesis max_bytes_pos : 0 < maxBytes cfg.
Hypothesis max_entries_pos : 0 < maxEntries cfg.
Hypothesis ttl_nonneg : 0 <= ttlMs cfg.

Abbreviation entries := (list (string * cacheEntry Payload Meta)).
Abbreviation state := (cacheState Payload Meta).

Lemma sumSizes_cons x (l : entries) : sumSizes (x :: l) = size (snd x) + sumSizes l.
Proof. reflexivity. Qed.

Lemma sumSizes_nil : sumSizes ([] : entries) = 0.
Proof. reflexivity. Qed.

Lemma sumSizes_app (a b : entries) : sumSizes (a ++ b) = sumSizes a + sumSizes b.
Proof.
  induction a as [|x a IH]; cbn [app]; rewrite ?sumSizes_cons, ?sumSizes_nil; lia.
Qed.

Lemma sublist_map_fst (a b : entries) :
  a `sublist_of` b -> map fst a `sublist_of` map fst b.
Proof. induction 1; cbn; constructor; assumption. Qed.

Lemma sublist_Forall_keep (P : string * cacheEntry Payload Meta -> Prop) (a b : entries) :
  a `sublist_of` b -> Forall P b -> Forall P a.
Proof.
  intros Hs Hb. rewrite Forall_forall in Hb |- *.
  intros x Hx. apply Hb. eapply elem_of_sublist; eassumption.
Qed.

(** *** The map operations *)

Lemma mapGet_In key (l : entries) e : mapGet key l = Some e -> In (key, e) l.
Proof.
  induction l as [|[k e0] rest IH]; [discriminate|]. cbn [mapGet].
  destruct (String.eqb k key) eqn:Hk.
  - apply String.eqb_eq in Hk. intros H. injection H as <-. subst. left. reflexivity.
  - intros H. right. apply IH. exact H.
Qed.

Lemma mapGet_None_notin key (l : entries) : mapGet key l = None -> ~ In key (map fst l).
Proof.
  induction l as [|[k e0] rest IH]; [intros _ []|]. cbn [mapGet map fst].
  destruct (String.eqb k key) eqn:Hk; [discriminate|].
  apply String.eqb_neq in Hk. intros H [Heq | Hin]; [contradiction|]. exact (IH H Hin).
Qed.

Lemma mapDelete_sublist key (l : entries) : mapDelete key l `sublist_of` l.
Proof.
  induction l as [|[k e0] rest IH]; cbn [mapDelete]; [constructor|].
  destruct (String.eqb k key); constructor; exact IH.
Qed.

Lemma mapDelete_notin key (l : entries) : ~ In key (map fst (mapDelete key l)).
Proof.
  induction l as [|[k e0] rest IH]; cbn [mapDelete]; [intros []|].
  destruct (String.eqb k key) eqn:Hk; [exact IH|].
  apply String.eqb_neq in Hk. cbn. intros [Heq | Hin]; [contradiction|]. exact (IH Hin).
Qed.

Lemma mapDelete_absent key (l : entries) :
  ~ In key (map fst l) -> mapDelete key l = l.
Proof.
  induction l as [|[k e0] rest IH]; [reflexivity|]. cbn [mapDelete map fst].
  intros Hn. destruct (String.eqb k key) eqn:Hk.
  - apply String.eqb_eq in Hk. exfalso. apply Hn. left. exact Hk.
  - f_equal. apply IH. intros Hin. apply Hn. right. exact Hin.
Qed.

Lemma mapDelete_sum key (l : entries) e :
  NoDup (map fst l) -> mapGet key l = Some e ->
  sumSizes (mapDelete key l) = sumSizes l - size e.
Proof.
  induction l as [|[k e0] rest IH]; [discriminate|]. cbn [mapGet mapDelete map fst].
  intros Hnd Hget. apply NoDup_cons in Hnd. destruct Hnd as [Hnotin Hnd].
  destruct (String.eqb k key) eqn:Hk.
  - apply String.eqb_eq in Hk. injection Hget as <-. subst k.
    rewrite mapDelete_absent.
    + rewrite sumSizes_cons. cbn [snd]. lia.
    + intros Hin. apply Hnotin. apply list_elem_of_In. exact Hin.
  - rewrite !sumSizes_cons, (IH Hnd Hget). lia.
Qed.

Lemma mapGet_after_delete_other key k (l : entries) :
  k <> key -> mapGet k (mapDelete key l) = mapGet k l.
Proof.
  intros Hne. induction l as [|[k0 e0] rest IH]; [reflexivity|]. cbn [mapDelete mapGet].
  destruct (String.eqb k0 key) eqn:Hk0.
  - apply String.eqb_eq in Hk0. subst k0.
    destruct (String.eqb key k) eqn:Hkk; [apply String.eqb_eq in Hkk; congruence|exact IH].
  - cbn [mapGet]. destruct (String.eqb k0 k); [reflexivity|exact IH].
Qed.

(** *** The two loops of the cleanup *)

Lemma removeExpired_spec now (l : entries) : forall bytes,
  fst (removeExpired now l bytes) `sublist_of` l
  /\ snd (removeExpired now l bytes) - sumSizes (fst (removeExpired now l bytes))
     = bytes - sumSizes l
  /\ Forall (fun ke => expired now (snd ke) = false) (fst (removeExpired now l bytes)).
Proof.
  induction l as [|[k e] rest IH]; intros bytes; cbn [removeExpired].
  - cbn [fst snd]. split; [constructor|]. split; [lia|constructor].
  - destruct (expired now e) eqn:He.
    + destruct (IH (bytes - size e)) as (Hs & Hb & Hf).
      split; [constructor; exact Hs|]. split; [|exact Hf].
      rewrite sumSizes_cons. cbn [snd]. lia.
    + destruct (IH bytes) as (Hs & Hb & Hf).
      destruct (removeExpired now rest bytes) as [kept bytes'] eqn:Hr. cbn [fst snd] in *.
      split; [constructor; exact Hs|]. split.
      * rewrite !sumSizes_cons. cbn [snd]. lia.
      * constructor; [exact He|exact Hf].
Qed.

Lemma removeExpired_keeps now (l : entries) : forall bytes,
  Forall (fun ke => expired now (snd ke) = false) l ->
  fst (removeExpired now l bytes) = l.
Proof.
  induction l as [|[k e] rest IH]; intros bytes Hf; [reflexivity|].
  apply Forall_cons in Hf. destruct Hf as [He Hf]. cbn [snd] in He.
  cbn [removeExpired]. rewrite He. specialize (IH bytes Hf).
  destruct (removeExpired now rest bytes) as [kept bytes']. cbn [fst] in *. congruence.
Qed.

(** Eviction takes a prefix of the map away: the oldest entries go first. *)
Lemma evictOldest_suffix (l : entries) : forall bytes,
  exists evicted,
    l = evicted ++ fst (evictOldest cfg l bytes)
    /\ snd (evictOldest cfg l bytes) = bytes - sumSizes evicted.
Proof.
  induction l as [|[k e] rest IH]; intros bytes; cbn [evictOldest].
  - exists []. cbn [fst snd app]. rewrite sumSizes_nil. split; [reflexivity|lia].
  - destruct (overLimit cfg bytes (length ((k, e) :: rest))).
    + destruct (truthy k).
      * destruct (IH (bytes - size e)) as (ev & Hl & Hb).
        exists ((k, e) :: ev). split; [cbn [app]; congruence|].
        rewrite Hb, sumSizes_cons. cbn [snd]. lia.
      * exists []. cbn [fst snd app]. rewrite sumSizes_nil. split; [reflexivity|lia].
    + exists []. cbn [fst snd app]. rewrite sumSizes_nil. split; [reflexivity|lia].
Qed.

Lemma evictOldest_sublist (l : entries) bytes : fst (evictOldest cfg l bytes) `sublist_of` l.
Proof.
  destruct (evictOldest_suffix l bytes) as (ev & Hl & _).
  rewrite Hl at 2. apply sublist_inserts_l. reflexivity.
Qed.

Lemma overLimit_false bytes count :
  overLimit cfg bytes count = false ->
  bytes <= maxBytes cfg /\ Z.of_nat count <= maxEntries cfg.
Proof using max_bytes_pos max_entries_pos.
  unfold overLimit. intros H. apply orb_false_iff in H. destruct H as [H1 H2].
  apply andb_false_iff in H1. apply andb_false_iff in H2.
  rewrite !Z.ltb_ge in H1, H2. lia.
Qed.

(** After the eviction loop both limits hold. *)
Lemma evictOldest_within (l : entries) : forall bytes,
  bytes = sumSizes l ->
  Forall (fun ke => truthy (fst ke) = true) l ->
  snd (evictOldest cfg l bytes) <= maxBytes cfg
  /\ Z.of_nat (length (fst (evictOldest cfg l bytes))) <= maxEntries cfg.
Proof using max_bytes_pos max_entries_pos.
  induction l as [|[k e] rest IH]; intros bytes Hb Ht; cbn [evictOldest].
  - cbn [fst snd length]. rewrite sumSizes_nil in Hb. lia.
  - apply Forall_cons in Ht. destruct Ht as [Hk Ht]. cbn [fst] in Hk.
    destruct (overLimit cfg bytes (length ((k, e) :: rest))) eqn:Ho.
    + rewrite Hk. apply IH; [|exact Ht]. rewrite sumSizes_cons in Hb. cbn [snd] in Hb. lia.
    + apply overLimit_false in Ho. cbn [fst snd]. exact Ho.
Qed.

(** The entry at the end of the map is not evicted when it fits the cap. *)
Lemma evictOldest_keeps_last (pre : entries) x : forall bytes,
  bytes = sumSizes (pre ++ [x]) ->
  size (snd x) <= maxBytes cfg ->
  exists pre', fst (evictOldest cfg (pre ++ [x]) bytes) = pre' ++ [x].
Proof using max_bytes_pos max_entries_pos.
  induction pre as [|[k e] rest IH]; intros bytes Hb Hx.
  - cbn [app] in Hb |- *. cbn [evictOldest]. destruct x as [kx ex]. cbn [snd] in Hx.
    assert (Ho : overLimit cfg bytes (length [(kx, ex)]) = false).
    { unfold overLimit. rewrite sumSizes_cons, sumSizes_nil in Hb. cbn [snd length] in *.
      apply orb_false_iff. split; apply andb_false_iff; right; apply Z.ltb_ge; lia. }
    rewrite Ho. exists []. reflexivity.
  - cbn [app evictOldest].
    destruct (overLimit cfg bytes _).
    + destruct (truthy k).
      * apply IH; [|exact Hx]. cbn [app] in Hb. rewrite sumSizes_cons in Hb.
        cbn [snd] in Hb. lia.
      * exists ((k, e) :: rest). reflexivity.
    + exists ((k, e) :: rest). reflexivity.
Qed.

Lemma removeExpired_filter now (l : entries) : forall bytes,
  fst (removeExpired now l bytes) = filter (fun ke => expired now (snd ke) = false) l.
Proof.
  induction l as [|[k e] rest IH]; intros bytes; [reflexivity|].
  cbn [removeExpired]. rewrite filter_cons. cbn [snd].
  destruct (expired now e) eqn:He.
  - rewrite decide_False by discriminate. apply IH.
  - rewrite decide_True by reflexivity. specialize (IH bytes).
    destruct (removeExpired now rest bytes) as [kept b]. cbn [fst] in *. congruence.
Qed.

(** The cleanup, with its early return folded in. *)
Lemma cleanup_unfold now (st : state) :
  cleanupStreamCache cfg now st =
  let kept := survivors cfg now (streamResponseCache st) in
  let bytes := streamCacheBytes st
               - (sumSizes (streamResponseCache st) - sumSizes kept) in
  {| streamResponseCache := fst (evictOldest cfg kept bytes);
     streamCacheBytes := snd (evictOldest cfg kept bytes) |}.
Proof.
  unfold cleanupStreamCache, survivors. destruct st as [l b]. cbn [streamResponseCache streamCacheBytes].
  destruct l as [|x l].
  - destruct (0 <? ttlMs cfg); rewrite ?filter_nil; cbn [evictOldest fst snd];
      rewrite sumSizes_nil; f_equal; lia.
  - destruct (0 <? ttlMs cfg).
    + destruct (removeExpired_spec now (x :: l) b) as (_ & Hb & _).
      rewrite <- (removeExpired_filter now (x :: l) b).
      destruct (removeExpired now (x :: l) b) as [kept bytes]. cbn [fst snd] in *.
      replace (b - (sumSizes (x :: l) - sumSizes kept)) with bytes by lia.
      destruct (evictOldest cfg kept bytes). reflexivity.
    + replace (b - (sumSizes (x :: l) - sumSizes (x :: l))) with b by lia.
      destruct (evictOldest cfg (x :: l) b). reflexivity.
Qed.

Lemma survivors_sublist now (l : entries) : survivors cfg now l `sublist_of` l.
Proof. unfold survivors. destruct (0 <? ttlMs cfg); [apply sublist_filter|reflexivity]. Qed.

Abbreviation expiryShape :=
  (fun ke : string * cacheEntry Payload Meta =>
     match expiresAt (snd ke) with
     | Some t => 0 < t /\ 0 < ttlMs cfg
     | None => ttlMs cfg <= 0
     end).

(** A cleanup establishes the limits from the bookkeeping alone. *)
Lemma cleanup_wellFormed now (st : state) :
  streamCacheBytes st = sumSizes (streamResponseCache st) ->
  NoDup (map fst (streamResponseCache st)) ->
  Forall (fun ke => truthy (fst ke) = true) (streamResponseCache st) ->
  Forall (fun ke => 0 < size (snd ke)) (streamResponseCache st) ->
  Forall expiryShape (streamResponseCache st) ->
  wellFormed cfg (cleanupStreamCache cfg now st).
Proof using max_bytes_pos max_entries_pos.
  intros Hb Hnd Ht Hs He. rewrite cleanup_unfold. cbn zeta.
  set (kept := survivors cfg now (streamResponseCache st)).
  assert (Hk : kept `sublist_of` streamResponseCache st) by apply survivors_sublist.
  set (bytes := streamCacheBytes st - (sumSizes (streamResponseCache st) - sumSizes kept)).
  assert (Hbytes : bytes = sumSizes kept) by (unfold bytes; lia).
  pose proof (evictOldest_sublist kept bytes) as Hsub.
  destruct (evictOldest_suffix kept bytes) as (ev & Hl & Hsnd).
  assert (Hsub' : fst (evictOldest cfg kept bytes) `sublist_of` streamResponseCache st)
    by (etransitivity; eassumption).
  destruct (evictOldest_within kept bytes Hbytes) as [Hcap Hcount].
  { eapply sublist_Forall_keep; eassumption. }
  constructor; cbn [streamResponseCache streamCacheBytes].
  - pose proof (f_equal sumSizes Hl) as Hsum. rewrite sumSizes_app in Hsum. lia.
  - eapply sublist_NoDup; [exact Hnd|]. apply sublist_map_fst. exact Hsub'.
  - eapply sublist_Forall_keep; eassumption.
  - eapply sublist_Forall_keep; eassumption.
  - eapply sublist_Forall_keep; eassumption.
  - exact Hcap.
  - exact Hcount.
Qed.

Lemma cleanup_preserves now (st : state) :
  wellFormed cfg st -> wellFormed cfg (cleanupStreamCache cfg now st).
Proof using max_bytes_pos max_entries_pos.
  intros [Hb Hnd Ht Hs He _ _]. apply cleanup_wellFormed; assumption.
Qed.

Lemma cleanup_sublist now (st : state) :
  streamResponseCache (cleanupStreamCache cfg now st) `sublist_of` streamResponseCache st.
Proof.
  rewrite cleanup_unfold. cbn zeta. cbn [streamResponseCache].
  etransitivity; [apply evictOldest_sublist|apply survivors_sublist].
Qed.

Lemma get_preserves now1 now2 key (st : state) :
  wellFormed cfg st -> wellFormed cfg (snd (getStreamCacheEntry cfg now1 now2 key st)).
Proof using max_bytes_pos max_entries_pos.
  intros Hwf. unfold getStreamCacheEntry.
  destruct (negb (truthy key) || (maxEntries cfg <=? 0)); [exact Hwf|].
  pose proof (cleanup_preserves now1 st Hwf) as Hwf1.
  set (st1 := cleanupStreamCache cfg now1 st) in *.
  destruct (mapGet key (streamResponseCache st1)) as [e|] eqn:Hget; [|exact Hwf1].
  destruct (expired now2 e); [|exact Hwf1]. cbn [snd].
  destruct Hwf1 as [Hb Hnd Ht Hs He Hcap Hcount].
  pose proof (mapDelete_sublist key (streamResponseCache st1)) as Hsub.
  assert (Hpos : 0 < size e).
  { rewrite Forall_forall in Hs. apply (Hs (key, e)).
    apply list_elem_of_In, mapGet_In. exact Hget. }
  constructor; cbn [streamResponseCache streamCacheBytes].
  - rewrite (mapDelete_sum key _ e Hnd Hget). lia.
  - eapply sublist_NoDup; [exact Hnd|]. apply sublist_map_fst. exact Hsub.
  - eapply sublist_Forall_keep; eassumption.
  - eapply sublist_Forall_keep; eassumption.
  - eapply sublist_Forall_keep; eassumption.
  - lia.
  - apply sublist_length in Hsub. lia.
Qed.

(** *** Insertion *)

Lemma set_rejected now1 now2 key p m (st : state) :
  truthy key = false \/ estimateCacheEntrySize p m <= 0
  \/ maxBytes cfg < estimateCacheEntrySize p m ->
  setStreamCacheEntry estimateCacheEntrySize cfg now1 now2 key p m st = st.
Proof using max_bytes_pos.
  intros H. unfold setStreamCacheEntry.
  destruct (truthy key); cbn [negb orb]; [|reflexivity].
  destruct (maxEntries cfg <=? 0); [reflexivity|].
  destruct H as [H | [H | H]]; [discriminate| |].
  - apply Z.leb_le in H. rewrite H. reflexivity.
  - assert (H1 : (0 <? maxBytes cfg) = true) by (apply Z.ltb_lt; lia).
    apply Z.ltb_lt in H. rewrite H1, H, orb_true_r. reflexivity.
Qed.

Lemma set_accepted now1 now2 key p m (st : state) :
  wellFormed cfg st ->
  truthy key = true -> 0 < estimateCacheEntrySize p m <= maxBytes cfg ->
  setStreamCacheEntry estimateCacheEntrySize cfg now1 now2 key p m st
  = cleanupStreamCache cfg now2 (inserted estimateCacheEntrySize cfg now1 key p m st).
Proof using max_entries_pos.
  intros [Hb Hnd _ _ _ _ _] Hk Hsz. unfold setStreamCacheEntry, inserted.
  rewrite Hk. cbn [negb orb].
  assert (H1 : (maxEntries cfg <=? 0) = false) by (apply Z.leb_gt; lia).
  assert (H2 : (estimateCacheEntrySize p m <=? 0) = false) by (apply Z.leb_gt; lia).
  assert (H3 : (maxBytes cfg <? estimateCacheEntrySize p m) = false) by (apply Z.ltb_ge; lia).
  rewrite H1, H2, H3, andb_false_r. cbn [orb].
  destruct (mapGet key (streamResponseCache st)) as [existing|] eqn:Hget.
  - rewrite (mapDelete_sum key _ existing Hnd Hget). do 2 f_equal. lia.
  - rewrite (mapDelete_absent key _ (mapGet_None_notin key _ Hget)). do 2 f_equal. lia.
Qed.

Lemma inserted_bookkeeping now1 key p m (st : state) :
  wellFormed cfg st -> 0 < now1 ->
  truthy key = true -> 0 < estimateCacheEntrySize p m ->
  let st' := inserted estimateCacheEntrySize cfg now1 key p m st in
  streamCacheBytes st' = sumSizes (streamResponseCache st')
  /\ NoDup (map fst (streamResponseCache st'))
  /\ Forall (fun ke => truthy (fst ke) = true) (streamResponseCache st')
  /\ Forall (fun ke => 0 < size (snd ke)) (streamResponseCache st')
  /\ Forall expiryShape (streamResponseCache st').
Proof using ttl_nonneg.
  intros [Hb Hnd Ht Hs He _ _] Hnow Hk Hsz. cbn zeta. unfold inserted.
  cbn [streamResponseCache streamCacheBytes].
  pose proof (mapDelete_sublist key (streamResponseCache st)) as Hsub.
  split; [|split; [|split; [|split]]].
  - rewrite sumSizes_app, sumSizes_cons, sumSizes_nil. cbn [snd size]. lia.
  - rewrite map_app. cbn [map fst]. apply NoDup_app. split; [|split].
    + eapply sublist_NoDup; [exact Hnd|]. apply sublist_map_fst. exact Hsub.
    + intros x Hx Hx'. apply list_elem_of_In in Hx.
      apply list_elem_of_In in Hx'. destruct Hx' as [<- | []].
      exact (mapDelete_notin key _ Hx).
    + apply NoDup_singleton.
  - apply Forall_app. split; [eapply sublist_Forall_keep; eassumption|].
    apply Forall_cons. split; [exact Hk|constructor].
  - apply Forall_app. split; [eapply sublist_Forall_keep; eassumption|].
    apply Forall_cons. split; [exact Hsz|constructor].
  - apply Forall_app. split; [eapply sublist_Forall_keep; eassumption|].
    apply Forall_cons. split; [|constructor]. cbn [snd expiresAt].
    destruct (0 <? ttlMs cfg) eqn:Httl.
    + apply Z.ltb_lt in Httl. lia.
    + apply Z.ltb_ge in Httl. exact Httl.
Qed.

Lemma set_preserves now1 now2 key p m (st : state) :
  wellFormed cfg st -> 0 < now1 ->
  wellFormed cfg (setStreamCacheEntry estimateCacheEntrySize cfg now1 now2 key p m st).
Proof using max_bytes_pos max_entries_pos ttl_nonneg.
  intros Hwf Hnow.
  destruct (truthy key) eqn:Hk; [|rewrite set_rejected; [exact Hwf|left; exact Hk]].
  destruct (Z_le_gt_dec (estimateCacheEntrySize p m) 0) as [Hle|Hgt];
    [rewrite set_rejected; [exact Hwf|right; left; exact Hle]|].
  destruct (Z_lt_le_dec (maxBytes cfg) (estimateCacheEntrySize p m)) as [Hbig|Hfit];
    [rewrite set_rejected; [exact Hwf|right; right; exact Hbig]|].
  rewrite (set_accepted now1 now2 key p m st Hwf Hk) by lia.
  destruct (inserted_bookkeeping now1 key p m st Hwf Hnow Hk) as (H1 & H2 & H3 & H4 & H5);
    [lia|].
  apply cleanup_wellFormed; assumption.
Qed.

Lemma emptyCache_wellFormed : wellFormed cfg (emptyCache : state).
Proof using max_bytes_pos max_entries_pos.
  constructor; cbn; try constructor; lia.
Qed.

Lemma reachable_wellFormed (st : state) :
  reachable estimateCacheEntrySize cfg st -> wellFormed cfg st.
Proof using max_bytes_pos max_entries_pos ttl_nonneg.
  induction 1 as [|st now1 now2 key p m _ IH Hnow|st now1 now2 key _ IH Hnow
                  |st now _ IH Hnow|st _ IH].
  - apply emptyCache_wellFormed.
  - apply set_preserves; [exact IH|lia].
  - apply get_preserves. exact IH.
  - apply cleanup_preserves. exact IH.
  - apply emptyCache_wellFormed.
Qed.

(** *** Lookups *)

Lemma mapGet_sublist key (a b : entries) e :
  a `sublist_of` b -> NoDup (map fst b) ->
  mapGet key a = Some e -> mapGet key b = Some e.
Proof.
  induction 1 as [|[k x] a b Hsub IH|[k x] a b Hsub IH]; intros Hnd Hget.
  - discriminate.
  - cbn [mapGet map fst] in *. apply NoDup_cons in Hnd. destruct Hnd as [_ Hnd].
    destruct (String.eqb k key); [exact Hget|]. apply IH; assumption.
  - cbn [mapGet map fst] in *. apply NoDup_cons in Hnd. destruct Hnd as [Hnotin Hnd].
    destruct (String.eqb k key) eqn:Hk; [|apply IH; assumption].
    apply String.eqb_eq in Hk. subst k. exfalso. apply Hnotin.
    apply mapGet_In in Hget.
    apply (elem_of_sublist (map fst a)); [|apply sublist_map_fst; exact Hsub].
    apply list_elem_of_In. apply in_map_iff. exists (key, e). split; [reflexivity|exact Hget].
Qed.

Lemma mapGet_app_last key (pre : entries) e :
  ~ In key (map fst pre) -> mapGet key (pre ++ [(key, e)]) = Some e.
Proof.
  induction pre as [|[k x] rest IH]; intros Hn; cbn [app mapGet].
  - rewrite String.eqb_refl. reflexivity.
  - cbn [map fst] in Hn. destruct (String.eqb k key) eqn:Hk.
    + apply String.eqb_eq in Hk. exfalso. apply Hn. left. exact Hk.
    + apply IH. intros Hin. apply Hn. right. exact Hin.
Qed.

(** A lookup of an entry at or after its expiry instant is a miss. *)
Lemma get_expired_miss now1 now2 key (st : state) e t :
  wellFormed cfg st ->
  mapGet key (streamResponseCache st) = Some e ->
  expiresAt e = Some t -> t <= now2 ->
  fst (getStreamCacheEntry cfg now1 now2 key st) = None.
Proof using max_bytes_pos max_entries_pos.
  intros Hwf Hget Hexp Hpast. unfold getStreamCacheEntry.
  destruct (negb (truthy key) || (maxEntries cfg <=? 0)); [reflexivity|].
  destruct (mapGet key (streamResponseCache (cleanupStreamCache cfg now1 st)))
    as [e1|] eqn:Hget1; [|reflexivity].
  apply (mapGet_sublist key _ _ e1 (cleanup_sublist now1 st) (wf_keys _ _ Hwf)) in Hget1.
  assert (e1 = e) by congruence. subst e1.
  assert (Hpos : 0 < t).
  { pose proof (wf_expiry _ _ Hwf) as He. rewrite Forall_forall in He.
    specialize (He (key, e)). cbn [snd] in He. rewrite Hexp in He. apply He.
    apply list_elem_of_In, mapGet_In. exact Hget. }
  unfold expired. rewrite Hexp.
  assert (H1 : (t =? 0) = false) by (apply Z.eqb_neq; lia).
  assert (H2 : (t <=? now2) = true) by (apply Z.leb_le; lia).
  rewrite H1, H2. reflexivity.
Qed.

(** A hit is an entry that has not reached its expiry instant. *)
Lemma get_hit_fresh now1 now2 key (st : state) e :
  fst (getStreamCacheEntry cfg now1 now2 key st) = Some e ->
  expired now2 e = false.
Proof.
  unfold getStreamCacheEntry.
  destruct (negb (truthy key) || (maxEntries cfg <=? 0)); [discriminate|].
  destruct (mapGet key _) as [e1|]; [|discriminate].
  destruct (expired now2 e1) eqn:He; [discriminate|].
  cbn [fst]. intros H. injection H as <-. exact He.
Qed.

(** *** The insertion keeps the new entry and evicts the oldest ones *)

Lemma survivors_app_fresh now (l : entries) x :
  expired now (snd x) = false ->
  survivors cfg now (l ++ [x]) = survivors cfg now l ++ [x].
Proof.
  intros Hx. unfold survivors. destruct (0 <? ttlMs cfg); [|reflexivity].
  rewrite filter_app, filter_cons, decide_True by exact Hx. reflexivity.
Qed.

Lemma set_fifo now1 now2 key p m (st : state) :
  wellFormed cfg st -> 0 < now1 ->
  truthy key = true -> 0 < estimateCacheEntrySize p m <= maxBytes cfg ->
  now2 < now1 + ttlMs cfg \/ ttlMs cfg = 0 ->
  let entry := {| payload := p; meta := m;
                  expiresAt := if 0 <? ttlMs cfg then Some (now1 + ttlMs cfg) else None;
                  size := estimateCacheEntrySize p m |} in
  exists evicted kept,
    survivors cfg now2 (mapDelete key (streamResponseCache st)) = evicted ++ kept
    /\ streamResponseCache
         (setStreamCacheEntry estimateCacheEntrySize cfg now1 now2 key p m st)
       = kept ++ [(key, entry)].
Proof using max_bytes_pos max_entries_pos ttl_nonneg.
  intros Hwf Hnow Hk Hsz Hfresh entry.
  rewrite (set_accepted now1 now2 key p m st Hwf Hk Hsz), cleanup_unfold. cbn zeta.
  destruct (inserted_bookkeeping now1 key p m st Hwf Hnow Hk) as (Hb & _); [lia|].
  cbn zeta in Hb. revert Hb.
  unfold inserted. cbn [streamResponseCache streamCacheBytes]. fold entry.
  intros Hb.
  assert (Hnot : expired now2 (snd (key, entry)) = false).
  { unfold expired, entry. cbn [snd expiresAt].
    destruct (0 <? ttlMs cfg) eqn:Httl; [|reflexivity].
    apply Z.ltb_lt in Httl.
    assert (H : (now1 + ttlMs cfg <=? now2) = false) by (apply Z.leb_gt; lia).
    rewrite H, andb_false_r. reflexivity. }
  rewrite (survivors_app_fresh now2 _ _ Hnot).
  set (kept0 := survivors cfg now2 (mapDelete key (streamResponseCache st))).
  set (bytes := _ - _).
  assert (Hbytes : bytes = sumSizes (kept0 ++ [(key, entry)])).
  { unfold bytes. rewrite Hb. lia. }
  destruct (evictOldest_keeps_last kept0 (key, entry) bytes Hbytes) as (pre' & Hpre);
    [unfold entry; cbn [snd size]; lia|].
  destruct (evictOldest_suffix (kept0 ++ [(key, entry)]) bytes) as (ev & Hl & _).
  rewrite Hpre in Hl. rewrite app_assoc in Hl. apply app_inj_tail in Hl.
  destruct Hl as [Hl _]. exists ev, pre'. split; [exact Hl|]. cbn [streamResponseCache]. exact Hpre.
Qed.

(** [C6].  In every state that the cache can reach, with a positive byte cap:
    - the byte count is the sum of the stored sizes and never exceeds the cap,
      and the entry count never exceeds its limit;
    - a lookup of an entry at or after its expiry instant is a miss;
    - an insertion whose estimated size exceeds the cap changes nothing;
    - an accepted insertion keeps the new entry, as the newest one, and evicts
      a prefix of the older unexpired entries, that is the oldest ones in
      insertion order; the new entry expires [ttlMs] after its insertion, and
      every lookup from then on is a miss. *)
Theorem C6_response_cache_laws (st : state) :
  reachable estimateCacheEntrySize cfg st ->
  (streamCacheBytes st = sumSizes (streamResponseCache st)
   /\ streamCacheBytes st <= maxBytes cfg
   /\ Z.of_nat (length (streamResponseCache st)) <= maxEntries cfg)
  /\ (forall now1 now2 key e t,
        mapGet key (streamResponseCache st) = Some e ->
        expiresAt e = Some t -> t <= now2 ->
        fst (getStreamCacheEntry cfg now1 now2 key st) = None)
  /\ (forall now1 now2 key p m,
        maxBytes cfg < estimateCacheEntrySize p m ->
        setStreamCacheEntry estimateCacheEntrySize cfg now1 now2 key p m st = st)
  /\ (forall now1 now2 key p m,
        0 < now1 <= now2 -> truthy key = true ->
        0 < estimateCacheEntrySize p m <= maxBytes cfg ->
        now2 < now1 + ttlMs cfg \/ ttlMs cfg = 0 ->
        let entry := {| payload := p; meta := m;
                        expiresAt := if 0 <? ttlMs cfg then Some (now1 + ttlMs cfg)
                                     else None;
                        size := estimateCacheEntrySize p m |} in
        let st' := setStreamCacheEntry estimateCacheEntrySize cfg now1 now2 key p m st in
        (exists evicted kept,
           survivors cfg now2 (mapDelete key (streamResponseCache st)) = evicted ++ kept
           /\ streamResponseCache st' = kept ++ [(key, entry)])
        /\ (forall n1 n2, 0 < ttlMs cfg -> now1 + ttlMs cfg <= n2 ->
                          fst (getStreamCacheEntry cfg n1 n2 key st') = None)).
Proof using max_bytes_pos max_entries_pos ttl_nonneg.
  intros Hreach. pose proof (reachable_wellFormed st Hreach) as Hwf.
  split; [|split; [|split]].
  - destruct Hwf. repeat split; assumption.
  - intros now1 now2 key e t. apply get_expired_miss. exact Hwf.
  - intros now1 now2 key p m Hbig. apply set_rejected. right. right. exact Hbig.
  - intros now1 now2 key p m Hnow Hk Hsz Hfresh entry st'.
    destruct (set_fifo now1 now2 key p m st Hwf) as (ev & kept & Hsurv & Hcache);
      [lia|exact Hk|exact Hsz|exact Hfresh|].
    fold entry in Hcache. fold st' in Hcache.
    split; [exists ev, kept; split; assumption|].
    intros n1 n2 Httl Hpast.
    assert (Hwf' : wellFormed cfg st') by (apply set_preserves; [exact Hwf|lia]).
    apply (get_expired_miss n1 n2 key st' entry (now1 + ttlMs cfg) Hwf').
    + rewrite Hcache. apply mapGet_app_last.
      pose proof (wf_keys _ _ Hwf') as Hnd. rewrite Hcache, map_app in Hnd.
      apply NoDup_app in Hnd. destruct Hnd as (_ & Hdisj & _).
      intros Hin. apply (Hdisj key); [apply list_elem_of_In; exact Hin|].
      cbn. left.
    + unfold entry. cbn [expiresAt].
      assert (H : (0 <? ttlMs cfg) = true) by (apply Z.ltb_lt; exact Httl).
      rewrite H. reflexivity.
    + exact Hpast.
Qed.

End CacheFacts.

(** The constants read from the environment are within the ranges that the
    laws above require. *)
Lemma configFromEnv_valid rawTtl rawMax :
  0 < maxBytes (configFromEnv rawTtl rawMax)
  /\ 0 < maxEntries (configFromEnv rawTtl rawMax)
  /\ 0 <= ttlMs (configFromEnv rawTtl rawMax).
Proof.
  unfold configFromEnv, STREAM_CACHE_MAX_BYTES, STREAM_CACHE_TTL_MS, STREAM_CACHE_MAX_ENTRIES.
  cbn [maxBytes maxEntries ttlMs].
  split; [|split].
  - destruct rawMax as [r|]; [|lia]. destruct (0 <? r) eqn:H; [|lia]. apply Z.ltb_lt in H. lia.
  - lia.
  - destruct rawTtl as [r|]; [|lia]. destruct (0 <=? r) eqn:H; [|lia]. apply Z.leb_le in H. lia.
Qed.

(** After three insertions of four bytes into a cache of ten bytes the oldest
    entry is gone and the count is within the cap. *)
Lemma C6_response_cache_laws_witness :
  reachable textSize smallConfig cacheThree
  /\ map fst (streamResponseCache cacheThree) = ["k2"; "k3"]%string
  /\ streamCacheBytes cacheThree = sumSizes (streamResponseCache cacheThree)
  /\ streamCacheBytes cacheThree <= maxBytes smallConfig.
Proof.
  assert (Hreach : reachable textSize smallConfig cacheThree).
  { unfold cacheThree, cacheTwo, cacheOne.
    repeat (apply reach_set; [|lia]). apply reach_empty. }
  split; [exact Hreach|]. split; [reflexivity|].
  assert (H1 : 0 < maxBytes smallConfig) by (cbn; lia).
  assert (H2 : 0 < maxEntries smallConfig) by (cbn; lia).
  assert (H3 : 0 <= ttlMs smallConfig) by (cbn; lia).
  destruct (C6_response_cache_laws textSize smallConfig H1 H2 H3 cacheThree Hreach)
    as ((Hsum & Hcap & _) & _).
  split; assumption.
Defined.

End StreamCacheProofs.

(** ** Ranged file responses *)

Module FileResponseProofs.
Import JsString FileResponse.
Local Open Scope Z_scope.

Lemma chars_app (s1 s2 : string) : chars (String.append s1 s2) = chars s1 ++ chars s2.
Proof.
  unfold chars. induction s1 as [|c s1 IH]; simpl; [reflexivity|]. f_equal. exact IH.
Qed.

Lemma str_chars s : str (chars s) = s.
Proof. apply string_of_list_ascii_of_string. Qed.

Lemma takeDigits_all (ds rest : list ascii) :
  Forall (fun c => is_digit c = true) ds ->
  match rest with
  | [] => True
  | c :: _ => is_digit c = false
  end ->
  takeDigits (ds ++ rest) = (ds, rest).
Proof.
  intros Hd Hr. induction Hd as [|c ds Hc Hd IH]; cbn [app takeDigits].
  - destruct rest as [|c t]; [reflexivity|]. cbn [takeDigits]. rewrite Hr. reflexivity.
  - rewrite Hc, IH. reflexivity.
Qed.

Lemma parseRangeHeader_rangeOf a b :
  isDigits a -> isDigits b -> parseRangeHeader (rangeOf a b) = Some (a, b).
Proof.
  intros Ha Hb. unfold parseRangeHeader, rangeOf.
  rewrite !chars_app.
  change (chars "bytes=" ++ chars a ++ chars "-" ++ chars b)
    with (chars "bytes=" ++ (chars a ++ "-"%char :: chars b)).
  change (prefix_at false (chars "bytes=") (chars "bytes=" ++ ?l)) with true.
  cbn [chars list_ascii_of_string app prefix_at Ascii.eqb Bool.eqb andb skipn].
  fold (chars a). fold (chars b). rewrite drop_0.
  rewrite (takeDigits_all (chars a) ("-"%char :: chars b) Ha) by reflexivity.
  cbn [Ascii.eqb Bool.eqb].
  pose proof (takeDigits_all (chars b) [] Hb I) as H. rewrite app_nil_r in H. rewrite H.
  rewrite !str_chars. reflexivity.
Qed.

Lemma truthy_rangeOf a b : truthy (rangeOf a b) = true.
Proof. reflexivity. Qed.

Lemma truthy_nonempty s : s <> ""%string -> truthy s = true.
Proof. destruct s; [contradiction|reflexivity]. Qed.

Lemma roundToDouble_exact x : 0 <= x < 2 ^ 53 -> roundToDouble x = x.
Proof.
  intros Hx. unfold roundToDouble.
  assert (H : (Z.log2 x + 1 <=? 53) = true).
  { apply Z.leb_le. destruct (Z.eq_dec x 0) as [-> | Hne]; [cbn; lia|].
    assert (Z.log2 x < 53) by (apply Z.log2_lt_pow2; lia). lia. }
  rewrite H. reflexivity.
Qed.

(** The shape of the rounding of a number of more than 53 bits. *)
Lemma roundToDouble_shape x :
  2 ^ 53 <= x ->
  exists q r half,
    0 < half /\ x = q * (2 * half) + r /\ 0 <= r < 2 * half
    /\ 2 ^ 52 <= q < 2 ^ 53
    /\ 2 ^ (Z.log2 x + 1) = 2 ^ 53 * (2 * half)
    /\ roundToDouble x
       = if r <? half then q * (2 * half)
         else if half <? r then (q + 1) * (2 * half)
         else if Z.even q then q * (2 * half) else (q + 1) * (2 * half).
Proof.
  intros Hx.
  assert (Hpos : 0 < x) by (pose proof (Z.pow_pos_nonneg 2 53); lia).
  assert (HL : 53 <= Z.log2 x) by (apply Z.log2_le_pow2; lia).
  destruct (Z.log2_spec x Hpos) as [Hlo Hhi].
  set (L := Z.log2 x) in *.
  set (half := 2 ^ (L - 53)).
  assert (Hhalf : 0 < half) by (apply Z.pow_pos_nonneg; lia).
  assert (HP : 2 ^ (L + 1 - 53) = 2 * half).
  { unfold half. replace (L + 1 - 53) with (1 + (L - 53)) by lia.
    rewrite Z.pow_add_r by lia. reflexivity. }
  assert (HLp : 2 ^ L = 2 ^ 52 * (2 * half)).
  { rewrite <- HP, <- Z.pow_add_r by lia. f_equal. lia. }
  assert (HL1 : 2 ^ (L + 1) = 2 ^ 53 * (2 * half)).
  { rewrite <- HP, <- Z.pow_add_r by lia. f_equal. lia. }
  exists (x / (2 * half)), (x mod (2 * half)), half.
  pose proof (Z.div_mod x (2 * half) ltac:(lia)) as Hdm.
  pose proof (Z.mod_pos_bound x (2 * half) ltac:(lia)) as Hmod.
  split; [exact Hhalf|]. split; [lia|]. split; [exact Hmod|]. split.
  - split.
    + apply Z.div_le_lower_bound; [lia|]. rewrite Z.mul_comm, <- HLp. exact Hlo.
    + apply Z.div_lt_upper_bound; [lia|]. rewrite Z.mul_comm, <- HL1.
      replace (L + 1) with (Z.succ L) by lia. exact Hhi.
  - split; [exact HL1|].
    unfold roundToDouble. fold L.
    assert (Hb : (L + 1 <=? 53) = false) by (apply Z.leb_gt; lia).
    rewrite Hb. cbv zeta. rewrite HP.
    replace (L + 1 - 53 - 1) with (L - 53) by lia. fold half. reflexivity.
Qed.

Lemma roundToDouble_large x : 2 ^ 53 <= x -> 2 ^ 53 <= roundToDouble x.
Proof.
  intros Hx.
  destruct (roundToDouble_shape x Hx) as (q & r & half & Hh & Hxq & Hr & Hq & _ & ->).
  assert (H1 : 2 ^ 52 * (2 * half) <= q * (2 * half))
    by (apply Z.mul_le_mono_nonneg_r; lia).
  assert (H2 : 2 ^ 52 * (2 * half) <= (q + 1) * (2 * half))
    by (apply Z.mul_le_mono_nonneg_r; lia).
  assert (H3 : 2 ^ 53 <= 2 ^ 52 * (2 * half)).
  { change (2 ^ 53) with (2 ^ 52 * 2). apply Z.mul_le_mono_nonneg_l; lia. }
  destruct (r <? half); [lia|]. destruct (half <? r); [lia|].
  destruct (Z.even q); lia.
Qed.

Lemma numberOf_exact x : 0 <= x < 2 ^ 53 -> numberOf x = Finite x.
Proof.
  intros Hx. unfold numberOf. rewrite (roundToDouble_exact x Hx). cbv zeta.
  assert (H : (x <? 2 ^ 1024) = true).
  { apply Z.ltb_lt. assert (2 ^ 53 <= 2 ^ 1024) by (apply Z.pow_le_mono_r; lia). lia. }
  rewrite H. reflexivity.
Qed.

Lemma numberOf_finite x :
  2 ^ 53 <= x < infinityFrom -> exists v, numberOf x = Finite v /\ 2 ^ 53 <= v.
Proof.
  intros [Hlo Hhi]. exists (roundToDouble x). split; [|apply roundToDouble_large; exact Hlo].
  unfold numberOf. cbv zeta.
  assert (H : (roundToDouble x <? 2 ^ 1024) = true); [|rewrite H; reflexivity].
  apply Z.ltb_lt.
  assert (Hpos : 0 < x) by (pose proof (Z.pow_pos_nonneg 2 53); lia).
  assert (HL : Z.log2 x < 1024).
  { apply Z.log2_lt_pow2; [exact Hpos|]. unfold infinityFrom in Hhi.
    pose proof (Z.pow_pos_nonneg 2 970). lia. }
  destruct (roundToDouble_shape x Hlo) as (q & r & half & Hh & Hxq & Hr & Hq & HL1 & ->).
  assert (Hup : (q + 1) * (2 * half) <= 2 ^ 53 * (2 * half))
    by (apply Z.mul_le_mono_nonneg_r; lia).
  assert (Hdown : q * (2 * half) < (q + 1) * (2 * half)) by lia.
  destruct (Z_lt_le_dec (Z.log2 x + 1) 1024) as [Hs | Hs].
  - assert (2 ^ (Z.log2 x + 1) < 2 ^ 1024) by (apply Z.pow_lt_mono_r; lia).
    destruct (r <? half); [lia|]. destruct (half <? r); [lia|].
    destruct (Z.even q); lia.
  - replace (Z.log2 x + 1) with 1024 in HL1 by lia.
    assert (Hhalf : half = 2 ^ 970).
    { change (2 ^ 1024) with (2 ^ 53 * (2 * 2 ^ 970)) in HL1.
      apply Z.mul_reg_l in HL1; [lia|]. discriminate. }
    unfold infinityFrom in Hhi. rewrite HL1 in Hhi |- *. rewrite <- Hhalf in Hhi.
    destruct (Z_lt_le_dec q (2 ^ 53 - 1)) as [Hq1 | Hq1].
    + assert ((q + 1) * (2 * half) <= (2 ^ 53 - 1) * (2 * half))
        by (apply Z.mul_le_mono_nonneg_r; lia).
      destruct (r <? half); [lia|]. destruct (half <? r); [lia|].
      destruct (Z.even q); lia.
    + assert (Hqe : q = 2 ^ 53 - 1) by lia. subst q.
      assert (Hrh : (r <? half) = true) by (apply Z.ltb_lt; lia).
      rewrite Hrh. lia.
Qed.

Lemma numberOf_infinite x : infinityFrom <= x -> numberOf x = PosInfinity.
Proof.
  intros Hx. unfold numberOf. cbv zeta.
  assert (H : (roundToDouble x <? 2 ^ 1024) = false); [|rewrite H; reflexivity].
  apply Z.ltb_ge.
  assert (Hb : 2 ^ 1023 <= infinityFrom).
  { unfold infinityFrom. change (2 ^ 1024) with (2 ^ 1023 + 2 ^ 53 * 2 ^ 970).
    assert (2 ^ 970 <= 2 ^ 53 * 2 ^ 970); [|lia].
    pose proof (Z.pow_pos_nonneg 2 970). lia. }
  assert (Hlo : 2 ^ 53 <= x).
  { assert (2 ^ 53 <= 2 ^ 1023) by (apply Z.pow_le_mono_r; lia). lia. }
  assert (HL : 1023 <= Z.log2 x).
  { apply Z.log2_le_pow2; [|lia]. pose proof (Z.pow_pos_nonneg 2 1023). lia. }
  destruct (roundToDouble_shape x Hlo) as (q & r & half & Hh & Hxq & Hr & Hq & HL1 & ->).
  assert (Hdn : 2 ^ 52 * (2 * half) <= q * (2 * half))
    by (apply Z.mul_le_mono_nonneg_r; lia).
  destruct (Z_lt_le_dec 1023 (Z.log2 x)) as [Hs | Hs].
  - assert (H1 : 2 ^ 1024 <= 2 ^ Z.log2 x) by (apply Z.pow_le_mono_r; lia).
    assert (H2 : 2 ^ (Z.log2 x + 1) = 2 * 2 ^ Z.log2 x).
    { replace (Z.log2 x + 1) with (1 + Z.log2 x) by lia.
      rewrite Z.pow_add_r by lia. reflexivity. }
    assert (H3 : 2 ^ 53 * (2 * half) = 2 * (2 ^ 52 * (2 * half))).
    { change (2 ^ 53) with (2 * 2 ^ 52). ring. }
    destruct (r <? half); [lia|]. destruct (half <? r); [lia|].
    destruct (Z.even q); lia.
  - replace (Z.log2 x + 1) with 1024 in HL1 by lia.
    assert (Hhalf : half = 2 ^ 970).
    { change (2 ^ 1024) with (2 ^ 53 * (2 * 2 ^ 970)) in HL1.
      apply Z.mul_reg_l in HL1; [lia|]. discriminate. }
    unfold infinityFrom in Hx. rewrite HL1 in Hx |- *. rewrite <- Hhalf in Hx.
    destruct (Z_lt_le_dec q (2 ^ 53 - 1)) as [Hq1 | Hq1].
    + exfalso.
      assert (q * (2 * half) <= (2 ^ 53 - 2) * (2 * half))
        by (apply Z.mul_le_mono_nonneg_r; lia).
      lia.
    + assert (Hqe : q = 2 ^ 53 - 1) by lia. subst q.
      assert (Hrh : (r <? half) = false) by (apply Z.ltb_ge; lia).
      rewrite Hrh. change (Z.even (2 ^ 53 - 1)) with false.
      replace (2 ^ 53 - 1 + 1) with (2 ^ 53) by lia.
      destruct (half <? r); lia.
Qed.

Lemma digitValue_range c : is_digit c = true -> 0 <= digitValue c <= 9.
Proof.
  unfold is_digit, digitValue. intros H. apply andb_true_iff in H.
  destruct H as [H1 H2]. apply Nat.leb_le in H1, H2. lia.
Qed.

Lemma digitsValue_nonneg s : isDigits s -> 0 <= digitsValue s.
Proof.
  unfold isDigits, digitsValue.
  assert (H : forall l acc, Forall (fun c => is_digit c = true) l -> 0 <= acc ->
            0 <= fold_left (fun acc c => 10 * acc + digitValue c) l acc).
  { induction l as [|c l IH]; intros acc Hl Hacc; [exact Hacc|].
    inversion Hl as [|? ? Hc Hl']; subst. cbn [fold_left]. apply IH; [exact Hl'|].
    pose proof (digitValue_range c Hc). lia. }
  intros Hs. apply H; [exact Hs|lia].
Qed.

Lemma parseInt_nonempty s : s <> ""%string -> parseInt s = numberOf (digitsValue s).
Proof. destruct s; [contradiction|reflexivity]. Qed.

(** The four cases of a bound: none given, spelled exactly, rounded, and
    out of the range of the doubles. *)
Lemma parsedBound_empty bound : parsedBound "" bound = bound.
Proof. reflexivity. Qed.

Lemma parsedBound_exact s bound :
  isDigits s -> s <> ""%string -> digitsValue s < 2 ^ 53 ->
  parsedBound s bound = digitsValue s.
Proof.
  intros Hs Hne Hlt. pose proof (digitsValue_nonneg s Hs) as H0.
  unfold parsedBound. rewrite (truthy_nonempty s Hne), (parseInt_nonempty s Hne).
  rewrite numberOf_exact by lia.
  assert (H : (0 <=? digitsValue s) = true) by (apply Z.leb_le; lia).
  rewrite H. reflexivity.
Qed.

Lemma parsedBound_rounded s bound :
  s <> ""%string -> 2 ^ 53 <= digitsValue s < infinityFrom ->
  2 ^ 53 <= parsedBound s bound.
Proof.
  intros Hne Hr. unfold parsedBound.
  rewrite (truthy_nonempty s Hne), (parseInt_nonempty s Hne).
  destruct (numberOf_finite _ Hr) as (v & -> & Hv).
  assert (H : (0 <=? v) = true).
  { apply Z.leb_le. pose proof (Z.pow_pos_nonneg 2 53). lia. }
  rewrite H. exact Hv.
Qed.

Lemma parsedBound_overflow s bound :
  s <> ""%string -> infinityFrom <= digitsValue s -> parsedBound s bound = bound.
Proof.
  intros Hne Hr. unfold parsedBound.
  rewrite (truthy_nonempty s Hne), (parseInt_nonempty s Hne), (numberOf_infinite _ Hr).
  reflexivity.
Qed.

(** The response to a well-formed range header. *)
Lemma streamFileResponse_range stats a b :
  isFile stats = true -> isDigits a -> isDigits b ->
  streamFileResponse (Some (rangeOf a b)) false (Some stats) =
  let totalSize := statSize stats in
  let start := parsedBound a 0 in
  let end0 := if negb (truthy b) then totalSize - 1
              else parsedBound b (totalSize - 1) in
  if totalSize <=? start then
    Some {| statusCode := 416; acceptRanges := "bytes"; lastModified := mtime stats;
            contentType := "application/octet-stream"; contentLength := None;
            contentRange := Some ("bytes */" ++ showNumber totalSize)%string;
            body := None |}
  else
    let end_ := if (totalSize <=? end0) || (end0 <? start) then totalSize - 1 else end0 in
    Some {| statusCode := 206; acceptRanges := "bytes"; lastModified := mtime stats;
            contentType := "application/octet-stream";
            contentLength := Some (end_ - start + 1);
            contentRange := Some ("bytes " ++ showNumber start ++ "-" ++ showNumber end_
                                  ++ "/" ++ showNumber totalSize)%string;
            body := Some (start, end_) |}.
Proof.
  intros Hf Ha Hb. unfold streamFileResponse.
  rewrite Hf, truthy_rangeOf, (parseRangeHeader_rangeOf a b Ha Hb).
  reflexivity.
Qed.

(** The end of the range served for a start offset inside the file. *)
Lemma served_end S b start :
  isDigits b -> 0 <= start < S -> S < 2 ^ 53 ->
  (let end0 := if negb (truthy b) then S - 1 else parsedBound b (S - 1) in
   if (S <=? end0) || (end0 <? start) then S - 1 else end0)
  = if negb (truthy b) || (S <=? digitsValue b) || (digitsValue b <? start)
    then S - 1 else digitsValue b.
Proof.
  intros Hb Hs HS. cbv zeta.
  destruct (String.string_dec b "") as [-> | Hne].
  { cbn [truthy String.eqb negb orb].
    assert (H1 : (S <=? S - 1) = false) by (apply Z.leb_gt; lia).
    assert (H2 : (S - 1 <? start) = false) by (apply Z.ltb_ge; lia).
    rewrite H1, H2. reflexivity. }
  rewrite (truthy_nonempty b Hne). cbn [negb orb].
  destruct (Z_lt_le_dec (digitsValue b) (2 ^ 53)) as [Hsmall | Hbig].
  { rewrite (parsedBound_exact b _ Hb Hne Hsmall). reflexivity. }
  assert (Hge : (S <=? digitsValue b) = true) by (apply Z.leb_le; lia).
  rewrite Hge. cbn [orb].
  destruct (Z_lt_le_dec (digitsValue b) infinityFrom) as [Hfin | Hinf].
  - pose proof (parsedBound_rounded b (S - 1) Hne (conj Hbig Hfin)) as Hr.
    assert (H1 : (S <=? parsedBound b (S - 1)) = true) by (apply Z.leb_le; lia).
    rewrite H1. reflexivity.
  - rewrite (parsedBound_overflow b _ Hne Hinf).
    assert (H1 : (S <=? S - 1) = false) by (apply Z.leb_gt; lia).
    assert (H2 : (S - 1 <? start) = false) by (apply Z.ltb_ge; lia).
    rewrite H1, H2. reflexivity.
Qed.

(** [C8] (as amended).  For a GET over a regular file of a size [S] below
    [2 ^ 53] with the header [Range: bytes=a-b], where [a] spells the
    number [A]:
    - when [A >= S] and [A] has a finite Number value, that is
      [A < 2 ^ 1024 - 2 ^ 970], the response is 416 with
      [Content-Range: bytes */S];
    - when [A < S], an empty [b] means up to the last byte of the file;
    - [bytes=0-0] on a file that is not empty gives 206, the single byte at
      offset 0, [Content-Range: bytes 0-0/S] and [Content-Length: 1];
    - when [A < S], the range served ends at the number that [b] spells, or
      at the last byte of the file when [b] is empty, spells a number of at
      least [S], or spells a number below [A];
    - when [A] has no finite Number value, the start offset is ignored: the
      response is the one to [bytes=-b], so for an empty [b] and a file that
      is not empty it is 206 with the whole file. *)
Theorem C8_range_requests (stats : fileStats) (a b : string) :
  isFile stats = true -> isDigits a -> isDigits b -> a <> ""%string ->
  0 <= statSize stats < 2 ^ 53 ->
  let S := statSize stats in
  let r := streamFileResponse (Some (rangeOf a b)) false (Some stats) in
  (S <= digitsValue a < infinityFrom ->
   exists resp, r = Some resp /\ statusCode resp = 416
                /\ contentRange resp = Some ("bytes */" ++ showNumber S)%string
                /\ contentLength resp = None
                /\ body resp = None)
  /\ (digitsValue a < S -> b = ""%string ->
      exists resp, r = Some resp /\ statusCode resp = 206
                   /\ body resp = Some (digitsValue a, S - 1)
                   /\ contentLength resp = Some (S - digitsValue a)
                   /\ contentRange resp
                      = Some ("bytes " ++ showNumber (digitsValue a) ++ "-"
                              ++ showNumber (S - 1) ++ "/" ++ showNumber S)%string)
  /\ (a = "0"%string -> b = "0"%string -> 0 < S ->
      exists resp, r = Some resp /\ statusCode resp = 206
                   /\ body resp = Some (0, 0)
                   /\ contentLength resp = Some 1
                   /\ contentRange resp = Some ("bytes 0-0/" ++ showNumber S)%string)
  /\ (digitsValue a < S ->
      let last := if negb (truthy b) || (S <=? digitsValue b)
                     || (digitsValue b <? digitsValue a)
                  then S - 1 else digitsValue b in
      exists resp, r = Some resp /\ statusCode resp = 206
                   /\ body resp = Some (digitsValue a, last)
                   /\ contentLength resp = Some (last - digitsValue a + 1)
                   /\ contentRange resp
                      = Some ("bytes " ++ showNumber (digitsValue a) ++ "-"
                              ++ showNumber last ++ "/" ++ showNumber S)%string)
  /\ (infinityFrom <= digitsValue a ->
      r = streamFileResponse (Some (rangeOf "" b)) false (Some stats)
      /\ (b = ""%string -> 0 < S ->
          exists resp, r = Some resp /\ statusCode resp = 206
                       /\ body resp = Some (0, S - 1)
                       /\ contentLength resp = Some S
                       /\ contentRange resp
                          = Some ("bytes 0-" ++ showNumber (S - 1) ++ "/"
                                  ++ showNumber S)%string)).
Proof.
  intros Hf Ha Hb Hne HS S r. unfold r. fold S in HS.
  pose proof (digitsValue_nonneg a Ha) as Ha0.
  assert (Hin : digitsValue a < S ->
          streamFileResponse (Some (rangeOf a b)) false (Some stats) =
          let last := if negb (truthy b) || (S <=? digitsValue b)
                         || (digitsValue b <? digitsValue a)
                      then S - 1 else digitsValue b in
          Some {| statusCode := 206; acceptRanges := "bytes"; lastModified := mtime stats;
                  contentType := "application/octet-stream";
                  contentLength := Some (last - digitsValue a + 1);
                  contentRange :=
                    Some ("bytes " ++ showNumber (digitsValue a) ++ "-" ++ showNumber last
                          ++ "/" ++ showNumber S)%string;
                  body := Some (digitsValue a, last) |}).
  { intros Hlt.
    rewrite (streamFileResponse_range stats a b Hf Ha Hb). cbv zeta. fold S.
    rewrite (parsedBound_exact a 0 Ha Hne) by lia.
    assert (H1 : (S <=? digitsValue a) = false) by (apply Z.leb_gt; lia).
    rewrite H1.
    pose proof (served_end S b (digitsValue a) Hb ltac:(lia) ltac:(lia)) as He.
    cbv zeta in He. rewrite He. reflexivity. }
  split; [|split; [|split; [|split]]].
  - intros [Hge Hfin].
    rewrite (streamFileResponse_range stats a b Hf Ha Hb). cbv zeta. fold S.
    assert (Hstart : S <= parsedBound a 0).
    { destruct (Z_lt_le_dec (digitsValue a) (2 ^ 53)) as [Hsmall | Hbig].
      - rewrite (parsedBound_exact a 0 Ha Hne Hsmall). exact Hge.
      - pose proof (parsedBound_rounded a 0 Hne (conj Hbig Hfin)). lia. }
    apply Z.leb_le in Hstart. rewrite Hstart.
    eexists. split; [reflexivity|]. cbn. repeat split.
  - intros Hlt ->. rewrite (Hin Hlt). cbv zeta. cbn [truthy String.eqb negb orb].
    eexists. split; [reflexivity|]. cbn [statusCode body contentLength contentRange].
    repeat split. f_equal. lia.
  - intros -> -> Hpos. rewrite Hin by exact Hpos. cbv zeta.
    change (digitsValue "0") with 0.
    cbn [truthy String.eqb Ascii.eqb Bool.eqb negb orb].
    assert (H1 : (S <=? 0) = false) by (apply Z.leb_gt; lia).
    rewrite H1. cbn [orb Z.ltb Z.compare].
    eexists. split; [reflexivity|]. repeat split.
  - intros Hlt. rewrite (Hin Hlt). cbv zeta.
    eexists. split; [reflexivity|]. repeat split.
  - intros Hinf.
    assert (Hsame : streamFileResponse (Some (rangeOf a b)) false (Some stats)
                    = streamFileResponse (Some (rangeOf "" b)) false (Some stats)).
    { rewrite (streamFileResponse_range stats a b Hf Ha Hb).
      rewrite (streamFileResponse_range stats "" b Hf ltac:(constructor) Hb).
      cbv zeta. rewrite (parsedBound_overflow a 0 Hne Hinf), parsedBound_empty.
      reflexivity. }
    split; [exact Hsame|].
    intros -> Hpos. rewrite Hsame.
    rewrite (streamFileResponse_range stats "" "" Hf ltac:(constructor) ltac:(constructor)).
    cbv zeta. fold S. rewrite parsedBound_empty.
    cbn [truthy String.eqb negb].
    assert (H1 : (S <=? 0) = false) by (apply Z.leb_gt; lia).
    assert (H2 : (S <=? S - 1) = false) by (apply Z.leb_gt; lia).
    assert (H3 : (S - 1 <? 0) = false) by (apply Z.ltb_ge; lia).
    rewrite H1, H2, H3. cbn [orb].
    eexists. split; [reflexivity|]. cbn [statusCode body contentLength contentRange].
    repeat split. f_equal. lia.
Qed.

Lemma isDigits_hugeStart : isDigits hugeStart.
Proof.
  unfold isDigits, hugeStart, chars, str.
  rewrite list_ascii_of_string_of_list_ascii.
  assert (H : forall n, Forall (fun c => is_digit c = true) (repeat "0"%char n)).
  { induction n as [|n IH]; cbn [repeat]; constructor; [reflexivity|exact IH]. }
  constructor; [reflexivity|apply H].
Qed.

Lemma hugeStart_nonempty : hugeStart <> ""%string.
Proof. intros E. vm_compute in E. discriminate E. Qed.

(** A request beyond the end of a file of 5000 bytes, the request for the
    first byte, scenario S6, and a request whose start offset has 310
    digits. *)
Lemma C8_range_requests_witness :
  (exists resp, streamFileResponse (Some "bytes=5000-"%string) false (Some (sampleFile 5000))
                = Some resp
                /\ statusCode resp = 416
                /\ contentRange resp = Some "bytes */5000"%string)
  /\ (exists resp, streamFileResponse (Some "bytes=0-0"%string) false (Some (sampleFile 5000))
                   = Some resp
                   /\ statusCode resp = 206 /\ body resp = Some (0, 0)
                   /\ contentLength resp = Some 1
                   /\ contentRange resp = Some "bytes 0-0/5000"%string)
  /\ (exists resp, streamFileResponse (Some "bytes=100-199"%string) false
                     (Some (sampleFile 5000))
                   = Some resp
                   /\ statusCode resp = 206 /\ body resp = Some (100, 199)
                   /\ contentLength resp = Some 100
                   /\ contentRange resp = Some "bytes 100-199/5000"%string)
  /\ (exists resp, streamFileResponse (Some "bytes=4000-"%string) false
                     (Some (sampleFile 5000))
                   = Some resp
                   /\ statusCode resp = 206 /\ body resp = Some (4000, 4999)
                   /\ contentRange resp = Some "bytes 4000-4999/5000"%string)
  /\ (exists resp, streamFileResponse (Some (rangeOf hugeStart "")) false
                     (Some (sampleFile 5000))
                   = Some resp
                   /\ statusCode resp = 206 /\ body resp = Some (0, 4999)
                   /\ contentRange resp = Some "bytes 0-4999/5000"%string).
Proof.
  assert (Hsize : 0 <= statSize (sampleFile 5000) < 2 ^ 53)
    by (split; [discriminate|reflexivity]).
  split; [|split; [|split; [|split]]].
  - destruct (C8_range_requests (sampleFile 5000) "5000" "") as (H416 & _).
    + reflexivity.
    + repeat constructor.
    + constructor.
    + discriminate.
    + exact Hsize.
    + destruct H416 as (resp & Hr & Hs & Hc & _).
      * split; [vm_compute; discriminate|reflexivity].
      * exists resp. split; [exact Hr|]. split; [exact Hs|exact Hc].
  - destruct (C8_range_requests (sampleFile 5000) "0" "0") as (_ & _ & H00 & _).
    + reflexivity.
    + repeat constructor.
    + repeat constructor.
    + discriminate.
    + exact Hsize.
    + destruct H00 as (resp & Hr & Hs & Hb & Hl & Hc); [reflexivity|reflexivity|reflexivity|].
      exists resp. repeat split; assumption.
  - destruct (C8_range_requests (sampleFile 5000) "100" "199") as (_ & _ & _ & Hin & _).
    + reflexivity.
    + repeat constructor.
    + repeat constructor.
    + discriminate.
    + exact Hsize.
    + destruct Hin as (resp & Hr & Hs & Hb & Hl & Hc); [reflexivity|].
      exists resp. repeat split; assumption.
  - destruct (C8_range_requests (sampleFile 5000) "4000" "") as (_ & Heof & _).
    + reflexivity.
    + repeat constructor.
    + constructor.
    + discriminate.
    + exact Hsize.
    + destruct Heof as (resp & Hr & Hs & Hb & _ & Hc); [reflexivity|reflexivity|].
      exists resp. repeat split; assumption.
  - destruct (C8_range_requests (sampleFile 5000) hugeStart "") as (_ & _ & _ & _ & Hover).
    + reflexivity.
    + exact isDigits_hugeStart.
    + constructor.
    + exact hugeStart_nonempty.
    + exact Hsize.
    + destruct Hover as (_ & Hwhole); [vm_compute; discriminate|].
      destruct Hwhole as (resp & Hr & Hs & Hb & _ & Hc); [reflexivity|reflexivity|].
      exists resp. repeat split; assumption.
Defined.

(** The sentence of [C8] on a start offset beyond the end of the file does
    not hold for every string of digits: the Number value of a one followed
    by 309 zeros is [Infinity], the guard [Number.isFinite] leaves the start
    at 0, and the whole file of 5000 bytes is served with status 206. *)
Lemma C8_overflowing_start_counterexample :
  ~ rangeBeyondEndAsStated (sampleFile 5000)
  /\ statSize (sampleFile 5000) <= digitsValue hugeStart
  /\ parseInt hugeStart = PosInfinity
  /\ streamFileResponse (Some (rangeOf hugeStart "")) false (Some (sampleFile 5000))
     = Some {| statusCode := 206; acceptRanges := "bytes";
               lastModified := mtime (sampleFile 5000);
               contentType := "application/octet-stream";
               contentLength := Some 5000;
               contentRange := Some "bytes 0-4999/5000"%string;
               body := Some (0, 4999) |}.
Proof.
  assert (Hout : streamFileResponse (Some (rangeOf hugeStart "")) false
                   (Some (sampleFile 5000))
                 = Some {| statusCode := 206; acceptRanges := "bytes";
                           lastModified := mtime (sampleFile 5000);
                           contentType := "application/octet-stream";
                           contentLength := Some 5000;
                           contentRange := Some "bytes 0-4999/5000"%string;
                           body := Some (0, 4999) |})
    by (vm_compute; reflexivity).
  split; [|split; [|split]].
  - intros H. destruct (H hugeStart) as (resp & Hr & Hs & _).
    + exact isDigits_hugeStart.
    + exact hugeStart_nonempty.
    + vm_compute. discriminate.
    + rewrite Hout in Hr. injection Hr as <-. discriminate Hs.
  - vm_compute. discriminate.
  - vm_compute. reflexivity.
  - exact Hout.
Qed.

(** Scenario S6, and the empty file, for which [bytes=0-0] is out of range. *)
Example range_100_199 :
  streamFileResponse (Some "bytes=100-199"%string) false (Some (sampleFile 5000))
  = Some {| statusCode := 206; acceptRanges := "bytes";
            lastModified := mtime (sampleFile 5000);
            contentType := "application/octet-stream";
            contentLength := Some 100;
            contentRange := Some "bytes 100-199/5000"%string;
            body := Some (100, 199) |}.
Proof. vm_compute. reflexivity. Qed.

Example range_0_0_empty_file :
  exists resp, streamFileResponse (Some "bytes=0-0"%string) false (Some (sampleFile 0))
               = Some resp /\ statusCode resp = 416.
Proof. eexists. split; vm_compute; reflexivity. Qed.

End FileResponseProofs.

(** ** The shared-secret gate *)

Module AuthProofs.
Import JsString Auth.






End AuthProofs.

(** ** The mount-handle cache *)

Module MountCacheProofs.
Import JsString MountCache.
Local Open Scope Z_scope.

Abbreviation cacheOf := nzbdavStreamCache.
Abbreviation ttlOf := NZBDAV_CACHE_TTL_MS.
Abbreviation cleanup := cleanupNzbdavCache.
Abbreviation getOrCreate := getOrCreateNzbdavStream.

(** *** The cleanup *)










(** *** A call *)





(** *** The promises in flight *)






(** *** Without a clearing of the map, the promises in flight stay with
    their pending entries *)








(** *** While a build is pending *)





(** *** The stored entries and their time *)





End MountCacheProofs.

(** ** The time-boxed triage run *)

Module TriageRunProofs.
Import JsString Triage TriageRunner TriageRun.
Local Open Scope Z_scope.

Section RunFacts.
Variable selectedCandidates : list candidate.
Variable startTs : Z.
Variable timeBudgetMs : Z.
Variable captureNzbPayloads : bool.
Variable downloadConcurrency : nat.

Abbreviation n := (length selectedCandidates).
Abbreviation takeNext' := (takeNext startTs timeBudgetMs).
Abbreviation loopHead' := (loopHead selectedCandidates startTs timeBudgetMs).
Abbreviation step' := (step selectedCandidates startTs timeBudgetMs captureNzbPayloads).
Abbreviation run' := (run selectedCandidates startTs timeBudgetMs captureNzbPayloads).
Abbreviation invariant' := (invariant selectedCandidates).
Abbreviation workLeft' := (workLeft selectedCandidates).

Lemma drop_cons_inv (l : list candidate) cur c rest :
  drop cur l = c :: rest ->
  l !! cur = Some c /\ drop (S cur) l = rest /\ (cur < length l)%nat.
Proof.
  intros H.
  assert (Hc : l !! cur = Some c).
  { pose proof (lookup_drop l cur 0) as Hl. rewrite H in Hl. cbn in Hl.
    rewrite Nat.add_0_r in Hl. congruence. }
  split; [exact Hc|]. split.
  - rewrite (drop_S _ _ _ Hc) in H. congruence.
  - apply lookup_lt_Some in Hc. exact Hc.
Qed.

Lemma status_timeout c : workerStatus (status (makeTimeoutDecision c)).
Proof. cbn. tauto. Qed.

(** What the head of the loop does, from the cursor [cur] on. *)
Lemma takeNext_spec now rest : forall cur expired dm,
  rest = drop cur selectedCandidates -> (cur <= n)%nat ->
  let r := takeNext' now rest cur expired dm in
  let wk := r.1.1.1 in let cur' := r.1.1.2 in let expired' := r.1.2 in let dm' := r.2 in
  (cur <= cur' <= n)%nat
  /\ ((wk = Finished /\ (expired' = true \/ cur' = n))
      \/ (wk = Downloading (cur' - 1) /\ (cur < cur')%nat /\ expired = false
          /\ expired' = false /\ (timeBudgetMs <=? now - startTs) = false))
  /\ (expired = true -> expired' = true /\ cur' = cur /\ dm' = dm)
  /\ (forall url d, dm !! url = Some d -> dm' !! url = Some d)
  /\ (forall url d, dm' !! url = Some d ->
        dm !! url = Some d
        \/ exists i c, (cur <= i < cur')%nat /\ selectedCandidates !! i = Some c
                       /\ url = downloadUrl c /\ d = makeTimeoutDecision c)
  /\ (forall i c, (cur <= i < cur')%nat -> selectedCandidates !! i = Some c ->
        is_Some (dm' !! downloadUrl c) \/ wk = Downloading i)
  /\ (expired = false -> expired' = true ->
        exists i c, (cur <= i < cur')%nat /\ selectedCandidates !! i = Some c
                    /\ dm' !! downloadUrl c = Some (makeTimeoutDecision c)).
Proof.
  induction rest as [|c rest IH]; intros cur expired dm Hrest Hcur.
  - cbn [takeNext]. destruct expired; cbn [fst snd].
    + split; [lia|]. split; [left; split; [reflexivity|left; reflexivity]|].
      split; [auto|]. split; [auto|]. split; [auto|]. split; [lia|discriminate].
    + assert (cur = n).
      { pose proof (length_drop selectedCandidates cur) as Hlen.
        rewrite <- Hrest in Hlen. cbn [length] in Hlen. lia. }
      split; [lia|]. split; [left; split; [reflexivity|right; assumption]|].
      split; [discriminate|]. split; [auto|]. split; [auto|]. split; [lia|discriminate].
  - symmetry in Hrest. apply drop_cons_inv in Hrest. destruct Hrest as (Hc & Hrest & Hlt).
    cbn [takeNext]. destruct expired.
    { cbn [fst snd]. split; [lia|]. split; [left; split; [reflexivity|left; reflexivity]|].
      split; [auto|]. split; [auto|]. split; [auto|]. split; [lia|discriminate]. }
    destruct (bool_decide (is_Some (dm !! downloadUrl c))) eqn:Hhas.
    + apply bool_decide_eq_true in Hhas.
      specialize (IH (S cur) false dm (eq_sym Hrest) ltac:(lia)). cbn zeta in IH.
      destruct (takeNext' now rest (S cur) false dm) as [[[wk cur'] expired'] dm'].
      cbn [fst snd] in *.
      destruct IH as (Hrange & Hwk & _ & Hext & Hnew & Hcov & Hflip).
      split; [lia|]. split.
      { destruct Hwk as [Hwk | (Hwk & H1 & H2 & H3 & H4)]; [left; exact Hwk|].
        right. repeat split; try assumption; lia. }
      split; [discriminate|]. split; [exact Hext|]. split.
      { intros url d Hd. destruct (Hnew url d Hd) as [H | (i & c' & Hi & Hrest')];
          [left; exact H|].
        right. exists i, c'. split; [lia|exact Hrest']. }
      split.
      { intros i c' Hi Hc'. destruct (decide (i = cur)) as [->|Hne].
        - left. rewrite Hc in Hc'. injection Hc' as <-.
          destruct Hhas as [d Hd]. exists d. apply Hext. exact Hd.
        - apply Hcov; [lia|exact Hc']. }
      intros _ He. destruct (Hflip eq_refl He) as (i & c' & Hi & Hrest').
      exists i, c'. split; [lia|exact Hrest'].
    + destruct (timeBudgetMs <=? now - startTs) eqn:Hdead.
      * destruct rest as [|c2 rest2]; cbn [takeNext fst snd].
        all: split; [lia|].
        all: split; [left; split; [reflexivity|left; reflexivity]|].
        all: split; [discriminate|].
        all: split;
          [intros url d Hd; rewrite lookup_insert_ne; [exact Hd|];
           intros <-; apply bool_decide_eq_false in Hhas; apply Hhas; eauto|].
        all: split;
          [intros url d Hd; destruct (decide (downloadUrl c = url)) as [<-|Hne];
           [rewrite lookup_insert_eq in Hd; injection Hd as <-; right;
            exists cur, c; repeat split; [lia|lia|exact Hc]
           |rewrite lookup_insert_ne in Hd by exact Hne; left; exact Hd]|].
        all: split;
          [intros i c' Hi Hc'; assert (i = cur) by lia; subst i;
           rewrite Hc in Hc'; injection Hc' as <-; left;
           rewrite lookup_insert_eq; eauto|].
        all: intros _ _; exists cur, c; split; [lia|]; split; [exact Hc|];
          apply lookup_insert_eq.
      * cbn [fst snd]. split; [lia|]. split.
        { right. replace (S cur - 1)%nat with cur by lia.
          repeat split; try reflexivity; lia. }
        split; [discriminate|]. split; [auto|]. split; [auto|]. split.
        { intros i c' Hi Hc'. right. f_equal. lia. }
        discriminate.
Qed.

Lemma weight_insert (ws : list worker) : forall w old new,
  ws !! w = Some old ->
  (list_sum (map workerWeight (<[w := new]> ws)) + workerWeight old
   = list_sum (map workerWeight ws) + workerWeight new)%nat.
Proof.
  induction ws as [|x ws IH]; intros w old new Hw; [discriminate|].
  destruct w as [|w]; simpl in Hw |- *.
  - injection Hw as ->. unfold list_sum. simpl. lia.
  - specialize (IH w old new Hw). unfold list_sum in IH |- *. simpl. lia.
Qed.

(** The invariant after the head of the loop, for a worker [w] whose slot is
    about to be overwritten. *)
Lemma loopHead_invariant now w (st : runState) old :
  workers st !! w = Some old ->
  (cursor st <= n)%nat ->
  (forall i c, (i < cursor st)%nat -> selectedCandidates !! i = Some c ->
     (exists d, decisionMap st !! downloadUrl c = Some d /\ workerStatus (status d))
     \/ (exists w' wk, w' <> w /\ workers st !! w' = Some wk /\ workerIndex wk = Some i)) ->
  (forall url d, decisionMap st !! url = Some d ->
     workerStatus (status d)
     /\ exists i c, (i < cursor st)%nat /\ selectedCandidates !! i = Some c
                    /\ downloadUrl c = url) ->
  (forall w' wk i, w' <> w -> workers st !! w' = Some wk -> workerIndex wk = Some i ->
     (i < cursor st)%nat) ->
  (forall w', w' <> w -> workers st !! w' = Some Finished ->
     timedOut st = true \/ cursor st = n) ->
  invariant' (loopHead' now w st).
Proof.
  intros Hw Hcur Htaken Hkeys Hbusy Hfin. unfold loopHead.
  pose proof (takeNext_spec now _ (cursor st) (timedOut st) (decisionMap st) eq_refl Hcur)
    as Hspec. cbn zeta in Hspec.
  destruct (takeNext' now (drop (cursor st) selectedCandidates) (cursor st) (timedOut st)
              (decisionMap st)) as [[[wk cur'] expired'] dm'].
  cbn [fst snd] in Hspec.
  destruct Hspec as (Hrange & Hwk & Hmono & Hext & Hnew & Hcov & _).
  assert (Hlen : (w < length (workers st))%nat) by (eapply lookup_lt_Some; exact Hw).
  assert (Hstatus : forall url d, dm' !! url = Some d -> workerStatus (status d)).
  { intros url d Hd. destruct (Hnew url d Hd) as [H | (i & c & _ & _ & _ & ->)].
    - apply (Hkeys url d H).
    - apply status_timeout. }
  constructor; cbn [cursor timedOut decisionMap workers].
  - lia.
  - intros i c Hi Hc. destruct (decide (i < cursor st)%nat) as [Hlt|Hge].
    + destruct (Htaken i c Hlt Hc) as [(d & Hd & Hs) | (w' & wk' & Hne & Hw' & Hidx)].
      * left. exists d. split; [apply Hext; exact Hd|exact Hs].
      * right. exists w', wk'. split; [|exact Hidx].
        rewrite list_lookup_insert_ne by congruence. exact Hw'.
    + destruct (Hcov i c ltac:(lia) Hc) as [[d Hd] | ->].
      * left. exists d. split; [exact Hd|]. eapply Hstatus. exact Hd.
      * right. exists w, (Downloading i). split; [|reflexivity].
        apply list_lookup_insert_eq. exact Hlen.
  - intros url d Hd. split; [eapply Hstatus; exact Hd|].
    destruct (Hnew url d Hd) as [H | (i & c & Hi & Hc & -> & _)].
    + destruct (Hkeys url d H) as (_ & i & c & Hi & Hc & Hu).
      exists i, c. split; [lia|]. split; assumption.
    + exists i, c. split; [lia|]. split; [exact Hc|reflexivity].
  - intros w' wk' i Hw' Hidx. destruct (decide (w' = w)) as [->|Hne].
    + rewrite list_lookup_insert_eq in Hw' by exact Hlen. injection Hw' as <-.
      destruct Hwk as [[-> _] | (-> & Hlt & _)]; [discriminate|].
      cbn in Hidx. injection Hidx as <-. lia.
    + rewrite list_lookup_insert_ne in Hw' by congruence.
      pose proof (Hbusy w' wk' i Hne Hw' Hidx). lia.
  - intros w' Hw'. destruct (decide (w' = w)) as [->|Hne].
    + rewrite list_lookup_insert_eq in Hw' by exact Hlen. injection Hw' as ->.
      destruct Hwk as [[_ H] | (H & _)]; [exact H|discriminate].
    + rewrite list_lookup_insert_ne in Hw' by congruence.
      destruct (Hfin w' Hne Hw') as [Ht | Hc].
      * left. apply Hmono. exact Ht.
      * right. lia.
Qed.

(** The work left after the head of the loop. *)
Lemma loopHead_workLeft now w (st : runState) old :
  workers st !! w = Some old -> (cursor st <= n)%nat ->
  (workLeft' (loopHead' now w st) + workerWeight old <= workLeft' st)%nat.
Proof.
  intros Hw Hcur. unfold loopHead, workLeft.
  pose proof (takeNext_spec now _ (cursor st) (timedOut st) (decisionMap st) eq_refl Hcur)
    as Hspec. cbn zeta in Hspec.
  destruct (takeNext' now (drop (cursor st) selectedCandidates) (cursor st) (timedOut st)
              (decisionMap st)) as [[[wk cur'] expired'] dm'].
  cbn [fst snd] in Hspec. destruct Hspec as (Hrange & Hwk & _).
  cbn [cursor workers]. pose proof (weight_insert (workers st) w old wk Hw) as Hsum.
  destruct Hwk as [[-> _] | (-> & Hlt & _)]; cbn [workerWeight] in Hsum; lia.
Qed.

(** After the expiry the head of the loop starts no download, once the run
    is marked as timed out it takes no candidate, and it marks the run as
    timed out only together with a timeout decision. *)
Lemma loopHead_after_expiry now w (st : runState) :
  (cursor st <= n)%nat ->
  (timeBudgetMs <= now - startTs \/ timedOut st = true ->
   workers (loopHead' now w st) = <[w := Finished]> (workers st))
  /\ (timedOut st = true ->
      cursor (loopHead' now w st) = cursor st /\ timedOut (loopHead' now w st) = true)
  /\ (forall url d, decisionMap st !! url = Some d ->
      decisionMap (loopHead' now w st) !! url = Some d)
  /\ (timedOut st = false -> timedOut (loopHead' now w st) = true ->
      exists c, c ∈ selectedCandidates
        /\ decisionMap (loopHead' now w st) !! downloadUrl c = Some (makeTimeoutDecision c))
  /\ length (workers (loopHead' now w st)) = length (workers st).
Proof.
  intros Hcur. unfold loopHead.
  pose proof (takeNext_spec now _ (cursor st) (timedOut st) (decisionMap st) eq_refl Hcur)
    as Hspec. cbn zeta in Hspec.
  destruct (takeNext' now (drop (cursor st) selectedCandidates) (cursor st) (timedOut st)
              (decisionMap st)) as [[[wk cur'] expired'] dm'].
  cbn [fst snd] in Hspec.
  destruct Hspec as (_ & Hwk & Hmono & Hext & _ & _ & Hflip).
  cbn [cursor timedOut decisionMap workers]. repeat split.
  - intros Hexp. f_equal.
    destruct Hwk as [[-> _] | (_ & _ & Hfalse & _ & Hdead)]; [reflexivity|].
    destruct Hexp as [Hexp | Hexp]; [|congruence].
    apply Z.leb_gt in Hdead. lia.
  - destruct (Hmono H) as (_ & -> & _). reflexivity.
  - apply Hmono. exact H.
  - exact Hext.
  - intros Hf Ht. destruct (Hflip Hf Ht) as (i & c & _ & Hc & Hd).
    exists c. split; [|exact Hd]. eapply list_elem_of_lookup_2. exact Hc.
  - apply length_insert.
Qed.

(** A worker that settles the candidate it was busy with and goes back to
    the head of the loop. *)
Lemma settle_invariant now w (st st2 : runState) old index c d :
  invariant' st ->
  workers st !! w = Some old -> workerIndex old = Some index ->
  selectedCandidates !! index = Some c ->
  workerStatus (status d) ->
  cursor st2 = cursor st -> workers st2 = workers st ->
  decisionMap st2 = <[downloadUrl c := d]> (decisionMap st) ->
  (timedOut st = true -> timedOut st2 = true) ->
  invariant' (loopHead' now w st2).
Proof.
  intros [Icur Itaken Ikeys Ibusy Ifin] Hw Hidx Hc Hd Hcur Hws Hdm Ht.
  apply (loopHead_invariant now w st2 old); rewrite ?Hcur, ?Hws, ?Hdm.
  - exact Hw.
  - exact Icur.
  - intros i c' Hi Hc'.
    destruct (Itaken i c' Hi Hc') as [(d' & Hd' & Hs) | (w' & wk' & Hw' & Hidx')].
    + left. destruct (decide (downloadUrl c = downloadUrl c')) as [He|Hne].
      * exists d. rewrite He, lookup_insert_eq. split; [reflexivity|exact Hd].
      * exists d'. rewrite lookup_insert_ne by exact Hne. split; assumption.
    + destruct (decide (w' = w)) as [->|Hne].
      * left. rewrite Hw in Hw'. injection Hw' as <-.
        rewrite Hidx in Hidx'. injection Hidx' as <-.
        rewrite Hc in Hc'. injection Hc' as <-.
        exists d. rewrite lookup_insert_eq. split; [reflexivity|exact Hd].
      * right. exists w', wk'. repeat split; assumption.
  - intros url d' Hd'. destruct (decide (downloadUrl c = url)) as [<-|Hne].
    + rewrite lookup_insert_eq in Hd'. injection Hd' as <-. split; [exact Hd|].
      exists index, c. split; [eapply Ibusy; eassumption|]. split; [exact Hc|reflexivity].
    + rewrite lookup_insert_ne in Hd' by exact Hne. apply Ikeys. exact Hd'.
  - intros w' wk' i _ Hw' Hi. eapply Ibusy; eassumption.
  - intros w' _ Hw'. destruct (Ifin w' Hw') as [H|H]; [left; apply Ht; exact H|right; exact H].
Qed.

Lemma setWorker_invariant w (st : runState) index payload :
  invariant' st -> workers st !! w = Some (Downloading index) ->
  invariant' (setWorker w (Analyzing index payload) st).
Proof.
  intros [Icur Itaken Ikeys Ibusy Ifin] Hw.
  assert (Hlen : (w < length (workers st))%nat) by (eapply lookup_lt_Some; exact Hw).
  constructor; cbn [setWorker cursor timedOut decisionMap workers].
  - exact Icur.
  - intros i c Hi Hc. destruct (Itaken i c Hi Hc) as [H | (w' & wk' & Hw' & Hidx')];
      [left; exact H|]. right. destruct (decide (w' = w)) as [->|Hne].
    + rewrite Hw in Hw'. injection Hw' as <-. cbn in Hidx'. injection Hidx' as <-.
      exists w, (Analyzing index payload). split; [|reflexivity].
      apply list_lookup_insert_eq. exact Hlen.
    + exists w', wk'. split; [|exact Hidx'].
      rewrite list_lookup_insert_ne by congruence. exact Hw'.
  - exact Ikeys.
  - intros w' wk' i Hw' Hi. destruct (decide (w' = w)) as [->|Hne].
    + rewrite list_lookup_insert_eq in Hw' by exact Hlen. injection Hw' as <-.
      cbn in Hi. injection Hi as <-. apply (Ibusy w (Downloading index) index Hw eq_refl).
    + rewrite list_lookup_insert_ne in Hw' by congruence. eapply Ibusy; eassumption.
  - intros w' Hw'. destruct (decide (w' = w)) as [->|Hne].
    + rewrite list_lookup_insert_eq in Hw' by exact Hlen. discriminate.
    + rewrite list_lookup_insert_ne in Hw' by congruence. apply (Ifin w' Hw').
Qed.

Lemma status_fetchError c message : workerStatus (status (fetchErrorDecision c message)).
Proof. cbn. tauto. Qed.

Lemma status_error c wa : workerStatus (status (errorDecision c wa)).
Proof. cbn. tauto. Qed.

Lemma status_summarized c d payload :
  workerStatus (status (summarizedDecision c (summarizeDecision d) payload)).
Proof.
  cbn [summarizedDecision attachMetadata status]. rewrite SummaryProofs.summaryStatus_cases.
  unfold workerStatus.
  repeat match goal with |- context [if ?b then _ else _] => destruct b end;
    cbn; tauto.
Qed.

Lemma workerStatus_not_unevaluated s :
  workerStatus s -> s <> "pending"%string /\ s <> "skipped"%string.
Proof.
  unfold workerStatus. cbn. intros [<-|[<-|[<-|[<-|[<-|[<-|[]]]]]]]; split; discriminate.
Qed.

(** Each turn of the event loop keeps the invariant. *)
Lemma step_invariant ev (st st' : runState) :
  invariant' st -> step' ev st = Some st' -> invariant' st'.
Proof.
  intros Hinv Hstep. destruct ev as [w now | w now result | w now result];
    cbn [step] in Hstep.
  - destruct (workers st !! w) as [[| | |]|] eqn:Hw; try discriminate.
    injection Hstep as <-. destruct Hinv as [Icur Itaken Ikeys Ibusy Ifin].
    apply (loopHead_invariant now w st NotStarted Hw Icur).
    + intros i c Hi Hc.
      destruct (Itaken i c Hi Hc) as [H | (w' & wk' & Hw' & Hidx')]; [left; exact H|].
      right. exists w', wk'. split; [|split; assumption].
      intros ->. rewrite Hw in Hw'. injection Hw' as <-. discriminate.
    + exact Ikeys.
    + intros w' wk' i _ Hw' Hi. eapply Ibusy; eassumption.
    + intros w' _ Hw'. apply (Ifin w' Hw').
  - destruct (workers st !! w) as [[|index|index payload|]|] eqn:Hw; try discriminate.
    destruct (selectedCandidates !! index) as [c|] eqn:Hc; [|discriminate].
    injection Hstep as <-. unfold afterDownload.
    destruct result as [payload|message].
    + destruct (negb (truthy payload)).
      * apply (settle_invariant now w st _ (Downloading index) index c
                 (fetchErrorDecision c "Empty NZB payload") Hinv Hw eq_refl Hc);
          [apply status_fetchError|reflexivity|reflexivity|reflexivity|auto].
      * cbn zeta. destruct (timeBudgetMs - (now - startTs) <=? 0).
        -- apply (settle_invariant now w st _ (Downloading index) index c
                    (makeTimeoutDecision c) Hinv Hw eq_refl Hc);
             [apply status_timeout|reflexivity|reflexivity|reflexivity|auto].
        -- apply setWorker_invariant; assumption.
    + apply (settle_invariant now w st _ (Downloading index) index c
               (fetchErrorDecision c message) Hinv Hw eq_refl Hc);
        [apply status_fetchError|reflexivity|reflexivity|reflexivity|auto].
  - destruct (workers st !! w) as [[|index|index payload|]|] eqn:Hw; try discriminate.
    destruct (selectedCandidates !! index) as [c|] eqn:Hc; [|discriminate].
    injection Hstep as <-. unfold afterAnalysis.
    destruct result as [d| |[|] message]; cbn zeta;
      (eapply settle_invariant with (old := Analyzing index payload) (index := index) (c := c);
       [exact Hinv|exact Hw|reflexivity|exact Hc| |reflexivity|reflexivity|reflexivity|auto]).
    + apply status_summarized.
    + apply status_error.
    + apply status_timeout.
    + apply status_error.
Qed.

Lemma settle_workLeft now w (st st2 : runState) old :
  workers st !! w = Some old -> (cursor st <= n)%nat ->
  cursor st2 = cursor st -> workers st2 = workers st ->
  (workLeft' (loopHead' now w st2) + workerWeight old <= workLeft' st)%nat.
Proof.
  intros Hw Hcur Hc2 Hw2. rewrite <- Hw2 in Hw. rewrite <- Hc2 in Hcur.
  pose proof (loopHead_workLeft now w st2 old Hw Hcur) as H.
  unfold workLeft in H |- *. rewrite Hc2, Hw2 in H. exact H.
Qed.

(** Each turn of the event loop uses up some of the work left. *)
Lemma step_workLeft ev (st st' : runState) :
  invariant' st -> step' ev st = Some st' -> (workLeft' st' < workLeft' st)%nat.
Proof.
  intros Hinv Hstep. pose proof (inv_cursor _ _ Hinv) as Hcur.
  destruct ev as [w now | w now result | w now result]; cbn [step] in Hstep.
  - destruct (workers st !! w) as [[| | |]|] eqn:Hw; try discriminate.
    injection Hstep as <-.
    pose proof (loopHead_workLeft now w st NotStarted Hw Hcur) as H.
    cbn [workerWeight] in H. lia.
  - destruct (workers st !! w) as [[|index|index payload|]|] eqn:Hw; try discriminate.
    destruct (selectedCandidates !! index) as [c|] eqn:Hc; [|discriminate].
    injection Hstep as <-. unfold afterDownload.
    destruct result as [payload|message].
    + destruct (negb (truthy payload)).
      * pose proof (settle_workLeft now w st
          (withDecision c (fetchErrorDecision c "Empty NZB payload") (countFailure st))
          _ Hw Hcur eq_refl eq_refl) as H. cbn [workerWeight] in H. lia.
      * cbn zeta. destruct (timeBudgetMs - (now - startTs) <=? 0).
        -- pose proof (settle_workLeft now w st
             (withDecision c (makeTimeoutDecision c) (withTimedOut st))
             _ Hw Hcur eq_refl eq_refl) as H. cbn [workerWeight] in H. lia.
        -- unfold workLeft, setWorker. cbn [cursor workers].
           pose proof (weight_insert (workers st) w _ (Analyzing index payload) Hw) as H.
           cbn [workerWeight] in H. lia.
    + pose proof (settle_workLeft now w st
        (withDecision c (fetchErrorDecision c message) (countFailure st))
        _ Hw Hcur eq_refl eq_refl) as H. cbn [workerWeight] in H. lia.
  - destruct (workers st !! w) as [[|index|index payload|]|] eqn:Hw; try discriminate.
    destruct (selectedCandidates !! index) as [c|] eqn:Hc; [|discriminate].
    injection Hstep as <-. unfold afterAnalysis.
    destruct result as [d| |[|] message]; cbn zeta;
      match goal with
      | |- (workLeft' (loopHead' now w ?st2) < _)%nat =>
          pose proof (settle_workLeft now w st st2 _ Hw Hcur eq_refl eq_refl) as H
      end; cbn [workerWeight] in H; lia.
Qed.

(** What a turn of the event loop does to the workers, to the cursor and to
    the flag: after the expiry the worker of the turn returns and no other
    slot changes; once the run is marked as timed out no candidate is taken;
    and the run is marked as timed out only together with a timeout decision
    for a selected candidate. *)
Lemma step_after_expiry ev (st st' : runState) :
  invariant' st -> step' ev st = Some st' ->
  (timeBudgetMs <= eventTime ev - startTs ->
   workers st' = <[eventWorker ev := Finished]> (workers st))
  /\ (timedOut st = true -> cursor st' = cursor st /\ timedOut st' = true)
  /\ (timedOut st = false -> timedOut st' = true ->
      exists c, c ∈ selectedCandidates
        /\ decisionMap st' !! downloadUrl c = Some (makeTimeoutDecision c))
  /\ length (workers st') = length (workers st).
Proof.
  intros Hinv Hstep. pose proof (inv_cursor _ _ Hinv) as Hcur.
  assert (Hhead : forall now w st2 c,
    cursor st2 = cursor st -> workers st2 = workers st ->
    (timedOut st = true -> timedOut st2 = true) ->
    (timedOut st2 = true -> timedOut st = false ->
     c ∈ selectedCandidates
     /\ decisionMap st2 !! downloadUrl c = Some (makeTimeoutDecision c)) ->
    (timeBudgetMs <= now - startTs ->
     workers (loopHead' now w st2) = <[w := Finished]> (workers st))
    /\ (timedOut st = true ->
        cursor (loopHead' now w st2) = cursor st /\ timedOut (loopHead' now w st2) = true)
    /\ (timedOut st = false -> timedOut (loopHead' now w st2) = true ->
        exists c, c ∈ selectedCandidates
          /\ decisionMap (loopHead' now w st2) !! downloadUrl c
             = Some (makeTimeoutDecision c))
    /\ length (workers (loopHead' now w st2)) = length (workers st)).
  { intros now w st2 c Hc2 Hw2 Ht2 Hmark. rewrite <- Hc2 in Hcur.
    destruct (loopHead_after_expiry now w st2 Hcur) as (Hfin & Hkeep & Hext & Hflip & Hlen).
    rewrite Hw2, Hc2 in *. repeat split.
    - intros Hexp. apply Hfin. left. exact Hexp.
    - apply Hkeep. apply Ht2. exact H.
    - apply Hkeep. apply Ht2. exact H.
    - intros Hf Ht. destruct (timedOut st2) eqn:Hflag.
      + destruct (Hmark eq_refl Hf) as (Hin & Hd). exists c. split; [exact Hin|].
        apply Hext. exact Hd.
      + apply Hflip; [reflexivity|exact Ht].
    - exact Hlen. }
  destruct ev as [w now | w now result | w now result];
    cbn [step eventTime eventWorker] in Hstep |- *.
  - destruct (workers st !! w) as [[| | |]|] eqn:Hw; try discriminate.
    injection Hstep as <-.
    destruct (selectedCandidates) as [|c0 cs] eqn:Hsel.
    + rewrite <- Hsel in *.
      destruct (loopHead_after_expiry now w st Hcur) as (Hfin & Hkeep & _ & Hflip & Hlen).
      repeat split; auto.
      * apply Hkeep. exact H.
      * apply Hkeep. exact H.
    + rewrite <- Hsel in *. apply (Hhead now w st c0); auto. congruence.
  - destruct (workers st !! w) as [[|index|index payload|]|] eqn:Hw; try discriminate.
    destruct (selectedCandidates !! index) as [c|] eqn:Hc; [|discriminate].
    injection Hstep as <-. unfold afterDownload.
    assert (Hin : c ∈ selectedCandidates) by (eapply list_elem_of_lookup_2; exact Hc).
    destruct result as [payload|message].
    + destruct (negb (truthy payload)).
      * apply (Hhead now w _ c); cbn; auto. congruence.
      * cbn zeta. destruct (timeBudgetMs - (now - startTs) <=? 0) eqn:Hrem.
        -- apply (Hhead now w _ c); cbn; auto. intros _ _. split; [exact Hin|].
           apply lookup_insert_eq.
        -- apply Z.leb_gt in Hrem. cbn [setWorker cursor timedOut decisionMap workers].
           repeat split; try congruence; try lia. apply length_insert.
    + apply (Hhead now w _ c); cbn; auto. congruence.
  - destruct (workers st !! w) as [[|index|index payload|]|] eqn:Hw; try discriminate.
    destruct (selectedCandidates !! index) as [c|] eqn:Hc; [|discriminate].
    injection Hstep as <-. unfold afterAnalysis.
    assert (Hin : c ∈ selectedCandidates) by (eapply list_elem_of_lookup_2; exact Hc).
    destruct result as [d| |[|] message]; cbn zeta;
      apply (Hhead now w _ c); cbn; auto; try congruence.
    intros _ _. split; [exact Hin|]. apply lookup_insert_eq.
Qed.

(** The event that a worker waits for is accepted, at any time and with any
    result. *)
Lemma step_enabled (st : runState) w wk :
  invariant' st -> workers st !! w = Some wk ->
  match wk with
  | NotStarted => forall now, is_Some (step' (Start w now) st)
  | Downloading _ => forall now result, is_Some (step' (DownloadEnded w now result) st)
  | Analyzing _ _ => forall now result, is_Some (step' (AnalysisEnded w now result) st)
  | Finished => True
  end.
Proof.
  intros Hinv Hw. destruct wk as [|index|index payload|]; [| | |exact I].
  - intros now. cbn [step]. rewrite Hw. eexists. reflexivity.
  - intros now result. cbn [step]. rewrite Hw.
    pose proof (inv_busy _ _ Hinv w _ index Hw eq_refl) as Hlt.
    pose proof (inv_cursor _ _ Hinv) as Hcur.
    destruct (lookup_lt_is_Some_2 selectedCandidates index ltac:(lia)) as [c ->].
    eexists. reflexivity.
  - intros now result. cbn [step]. rewrite Hw.
    pose proof (inv_busy _ _ Hinv w _ index Hw eq_refl) as Hlt.
    pose proof (inv_cursor _ _ Hinv) as Hcur.
    destruct (lookup_lt_is_Some_2 selectedCandidates index ltac:(lia)) as [c ->].
    eexists. reflexivity.
Qed.

(** A run keeps the invariant and the number of workers, and is no longer
    than the work that was left. *)
Lemma run_invariant evs : forall st st' : runState,
  invariant' st -> run' evs st = Some st' ->
  invariant' st'
  /\ (length evs + workLeft' st' <= workLeft' st)%nat
  /\ length (workers st') = length (workers st).
Proof.
  induction evs as [|ev evs IH]; intros st st' Hinv Hrun; cbn [run] in Hrun.
  - injection Hrun as <-. cbn [length]. split; [exact Hinv|]. split; [lia|reflexivity].
  - destruct (step' ev st) as [st1|] eqn:Hstep; [|discriminate].
    pose proof (step_invariant ev st st1 Hinv Hstep) as Hinv1.
    pose proof (step_workLeft ev st st1 Hinv Hstep) as Hless.
    destruct (step_after_expiry ev st st1 Hinv Hstep) as (_ & _ & _ & Hlen).
    destruct (IH st1 st' Hinv1 Hrun) as (Hinv' & Hwork & Hlen').
    cbn [length]. split; [exact Hinv'|]. split; [lia|congruence].
Qed.

Lemma initial_invariant : invariant' (initialState downloadConcurrency).
Proof.
  constructor; cbn [initialState cursor timedOut decisionMap workers].
  - lia.
  - intros i c Hi. lia.
  - intros url d Hd. rewrite lookup_empty in Hd. discriminate.
  - intros w wk i Hw Hi. apply lookup_replicate in Hw. destruct Hw as [-> _]. discriminate.
  - intros w Hw. apply lookup_replicate in Hw. destruct Hw as [Hw _]. discriminate.
Qed.

Lemma initial_workLeft :
  workLeft' (initialState downloadConcurrency) = (3 * n + downloadConcurrency)%nat.
Proof.
  unfold workLeft. cbn [initialState cursor workers]. rewrite Nat.sub_0_r. f_equal.
  induction downloadConcurrency as [|k IH]; [reflexivity|].
  cbn [replicate map]. change (list_sum (?x :: ?l)) with (x + list_sum l)%nat.
  rewrite IH. reflexivity.
Qed.

Lemma allFinished_lookup (st : runState) w wk :
  allFinished st = true -> workers st !! w = Some wk -> wk = Finished.
Proof.
  unfold allFinished. intros Hall Hw. rewrite forallb_forall in Hall.
  assert (Hin : In wk (workers st)).
  { apply list_elem_of_In. eapply list_elem_of_lookup_2. exact Hw. }
  specialize (Hall wk Hin). destruct wk; try discriminate. reflexivity.
Qed.

(** The [forEach] that closes the run keeps the decisions made and gives one
    to every candidate left without. *)
Lemma fillUnevaluated_keeps expired cs : forall dm url d,
  dm !! url = Some d -> fillUnevaluated expired cs dm !! url = Some d.
Proof.
  unfold fillUnevaluated.
  induction cs as [|c cs IH]; intros dm url d Hd; cbn [fold_left]; [exact Hd|].
  apply IH. destruct (bool_decide (is_Some (dm !! downloadUrl c))) eqn:Hhas; [exact Hd|].
  apply bool_decide_eq_false in Hhas.
  destruct (decide (downloadUrl c = url)) as [<-|Hne].
  - exfalso. apply Hhas. eexists. exact Hd.
  - rewrite lookup_insert_ne by exact Hne. exact Hd.
Qed.

Lemma fillUnevaluated_fills expired cs : forall dm c,
  NoDup (map downloadUrl cs) -> c ∈ cs -> dm !! downloadUrl c = None ->
  fillUnevaluated expired cs dm !! downloadUrl c = Some (unevaluatedDecision c expired).
Proof.
  induction cs as [|c0 cs IH]; intros dm c Hnd Hin Hnone.
  - apply elem_of_nil in Hin. destruct Hin.
  - cbn [map] in Hnd. apply NoDup_cons in Hnd. destruct Hnd as [Hfresh Hnd].
    apply elem_of_cons in Hin. unfold fillUnevaluated. cbn [fold_left].
    fold (fillUnevaluated expired cs). destruct Hin as [->|Hin].
    + apply fillUnevaluated_keeps.
      destruct (bool_decide (is_Some (dm !! downloadUrl c0))) eqn:Hhas.
      * apply bool_decide_eq_true in Hhas. rewrite Hnone in Hhas.
        destruct Hhas as [? Hhas]. discriminate.
      * apply lookup_insert_eq.
    + assert (Hne : downloadUrl c0 <> downloadUrl c).
      { intros He. apply Hfresh. rewrite He. apply list_elem_of_fmap.
        exists c. split; [reflexivity|exact Hin]. }
      apply IH; [exact Hnd|exact Hin|].
      destruct (bool_decide (is_Some (dm !! downloadUrl c0))); [exact Hnone|].
      rewrite lookup_insert_ne by exact Hne. exact Hnone.
Qed.

Lemma triageAndRank_finish evs (st : runState) :
  selectedCandidates <> [] ->
  run' evs (initialState downloadConcurrency) = Some st -> allFinished st = true ->
  triageAndRank selectedCandidates startTs timeBudgetMs captureNzbPayloads
    downloadConcurrency evs = Some (finish selectedCandidates st).
Proof.
  intros Hne Hrun Hall. unfold triageAndRank. rewrite Hrun, Hall.
  destruct selectedCandidates; [contradiction|reflexivity].
Qed.

(** [C5] (as amended).  The selected candidates hold distinct URLs, which
    [buildCandidates] sees to, and there is at least one worker.  Then for
    every run of the workers, that is every sequence of turns of the event
    loop from the initial state:
    - the run has at most [3 * n + downloadConcurrency] turns, for [n]
      selected candidates;
    - a worker that waits for a download or for an analysis is resumed when
      that ends, at any time and however it ends (a result, a failure, the
      timeout of the analysis): no such end raises out of the run;
    - in a turn at or after the expiry of the budget the worker of the turn
      returns and no other worker changes, so that no download and no analysis
      is started; once the run is marked as timed out no candidate is taken;
      and the run is marked as timed out only in a turn that leaves, for a
      selected candidate, the timeout decision: status [error], blocker
      [triage-error], warning [Triage timed out];
    - once every worker has returned, [triageAndRank] returns a decision map
      that holds a decision for every selected candidate: a candidate that a
      worker has taken holds one of [verified], [unverified], [unverified_7z],
      [blocked], [fetch-error], [error]; a candidate that no worker has taken
      holds the [pending] decision, and the run is then marked as timed out. *)
Theorem C5_triage_time_budget (evs : list event) (st : runState) :
  NoDup (map downloadUrl selectedCandidates) ->
  (0 < downloadConcurrency)%nat ->
  run' evs (initialState downloadConcurrency) = Some st ->
  (length evs + workLeft' st <= 3 * n + downloadConcurrency)%nat
  /\ (forall w wk, workers st !! w = Some wk ->
      match wk with
      | NotStarted => forall now, is_Some (step' (Start w now) st)
      | Downloading _ => forall now result, is_Some (step' (DownloadEnded w now result) st)
      | Analyzing _ _ => forall now result, is_Some (step' (AnalysisEnded w now result) st)
      | Finished => True
      end)
  /\ (forall ev st', step' ev st = Some st' ->
      (timeBudgetMs <= eventTime ev - startTs ->
       workers st' = <[eventWorker ev := Finished]> (workers st))
      /\ (timedOut st = true -> cursor st' = cursor st /\ timedOut st' = true)
      /\ (timedOut st = false -> timedOut st' = true ->
          exists c, c ∈ selectedCandidates
            /\ decisionMap st' !! downloadUrl c = Some (makeTimeoutDecision c)))
  /\ (allFinished st = true ->
      exists out,
        triageAndRank selectedCandidates startTs timeBudgetMs captureNzbPayloads
          downloadConcurrency evs = Some out
        /\ forall i c, selectedCandidates !! i = Some c ->
           exists d, decisions out !! downloadUrl c = Some d
             /\ if decide (i < cursor st)%nat then workerStatus (status d)
                else outcomeTimedOut out = true /\ d = unevaluatedDecision c true).
Proof.
  intros Hnd Hpos Hrun.
  destruct (run_invariant evs _ st initial_invariant Hrun) as (Hinv & Hwork & Hlen).
  rewrite initial_workLeft in Hwork. cbn [initialState workers] in Hlen.
  rewrite length_replicate in Hlen.
  split; [exact Hwork|]. split; [intros w wk; apply step_enabled; exact Hinv|]. split.
  { intros ev st' Hstep.
    destruct (step_after_expiry ev st st' Hinv Hstep) as (H1 & H2 & H3 & _).
    split; [exact H1|]. split; [exact H2|exact H3]. }
  intros Hall.
  destruct (decide (selectedCandidates = [])) as [Hnil|Hne].
  { eexists. split.
    - unfold triageAndRank. rewrite Hnil. reflexivity.
    - intros i c Hc. rewrite Hnil in Hc. discriminate. }
  exists (finish selectedCandidates st). split; [apply triageAndRank_finish; assumption|].
  intros i c Hc. cbn [finish decisions outcomeTimedOut].
  destruct (decide (i < cursor st)%nat) as [Hlt|Hge].
  - destruct (inv_taken _ _ Hinv i c Hlt Hc) as [(d & Hd & Hs) | (w & wk & Hw & Hidx)].
    + exists d. split; [apply fillUnevaluated_keeps; exact Hd|exact Hs].
    + rewrite (allFinished_lookup st w wk Hall Hw) in Hidx. discriminate.
  - assert (Hexpired : timedOut st = true).
    { destruct (lookup_lt_is_Some_2 (workers st) 0%nat ltac:(lia)) as [wk Hw].
      pose proof (allFinished_lookup st _ wk Hall Hw) as ->.
      destruct (inv_finished _ _ Hinv _ Hw) as [Ht|Hend]; [exact Ht|].
      apply lookup_lt_Some in Hc. lia. }
    assert (Hnone : decisionMap st !! downloadUrl c = None).
    { destruct (decisionMap st !! downloadUrl c) as [d|] eqn:Hd; [|reflexivity].
      destruct (inv_keys _ _ Hinv _ d Hd) as (_ & j & c' & Hj & Hc' & Hurl).
      exfalso. apply Hge.
      assert (i = j); [|lia].
      apply (NoDup_lookup _ i j (downloadUrl c) Hnd); rewrite list_lookup_fmap.
      - rewrite Hc. reflexivity.
      - rewrite Hc', <- Hurl. reflexivity. }
    exists (unevaluatedDecision c true). rewrite Hexpired. split; [|split; reflexivity].
    apply fillUnevaluated_fills; [exact Hnd| |exact Hnone].
    eapply list_elem_of_lookup_2. exact Hc.
Qed.

End RunFacts.

Lemma workerCount_pos option k : (0 < workerCount option k)%nat.
Proof. unfold workerCount. lia. Qed.

(** The late schedule: the download of the first candidate fails after the
    expiry; the second is taken at the head of the loop and holds the timeout
    decision; the third is left as [pending]. *)
Lemma C5_triage_time_budget_witness :
  NoDup (map downloadUrl threeCandidates)
  /\ exists out,
       triageAndRank threeCandidates 0 100 false 1 lateSchedule = Some out
       /\ forall i c, threeCandidates !! i = Some c ->
          exists d, decisions out !! downloadUrl c = Some d
            /\ if decide (i < 2)%nat then workerStatus (status d)
               else outcomeTimedOut out = true /\ d = unevaluatedDecision c true.
Proof.
  assert (Hnd : NoDup (map downloadUrl threeCandidates)).
  { cbn. repeat (apply NoDup_cons; split;
      [rewrite ?elem_of_cons, elem_of_nil; intuition discriminate|]).
    apply NoDup_nil_2. }
  split; [exact Hnd|].
  destruct (run threeCandidates 0 100 false lateSchedule (initialState 1)) as [st|] eqn:Hrun;
    [|vm_compute in Hrun; discriminate].
  destruct (C5_triage_time_budget threeCandidates 0 100 false 1 lateSchedule st Hnd
              ltac:(lia) Hrun) as (_ & _ & _ & Hres).
  vm_compute in Hrun. injection Hrun as <-.
  apply Hres. reflexivity.
Defined.

(** The sentence of the specification fails on the late schedule: the
    second candidate was never downloaded nor analysed, and its decision has
    the status [error]. *)
Lemma C5_unevaluated_pending_counterexample :
  exists out,
    triageAndRank threeCandidates 0 100 false 1 lateSchedule = Some out
    /\ ~ unevaluatedArePending threeCandidates 0 100 false 1 lateSchedule out.
Proof.
  eexists. split; [vm_compute; reflexivity|].
  intros H.
  destruct (H (cand "http://a/2.nzb") (makeTimeoutDecision (cand "http://a/2.nzb")))
    as [Hs|Hs]; try discriminate Hs.
  - cbn. tauto.
  - vm_compute. intros [Hx|[]]. discriminate Hx.
  - vm_compute. reflexivity.
Qed.

End TriageRunProofs.

(** ** The filters and limits of the ranker *)

Module ResultFilterProofs.
Import JsString Result Helpers SortSpec ResultFilters.
Local Open Scope Z_scope.

Lemma withinMaxSize_iff cap r : withinMaxSize cap r = true <-> ~ oversized cap r.
Proof.
  unfold withinMaxSize, oversized. destruct (size r) as [s|].
  - rewrite Z.leb_le. split.
    + intros Hle (s' & Hs & Hlt). injection Hs as <-. lia.
    + intros Hno. destruct (Z.le_gt_cases s cap) as [H|H]; [exact H|].
      exfalso. apply Hno. exists s. split; [reflexivity|lia].
  - split; [intros _ (s & Hs & _); discriminate|reflexivity].
Qed.

Lemma applyMaxSizeFilter_sublist results maxSizeBytes :
  sublist (applyMaxSizeFilter results maxSizeBytes) results.
Proof.
  unfold applyMaxSizeFilter. destruct maxSizeBytes as [cap|]; [|reflexivity].
  destruct (cap <=? 0); [reflexivity|]. apply sublist_filter.
Qed.

Lemma applyMaxSizeFilter_In results cap r :
  0 < cap ->
  In r (applyMaxSizeFilter results (Some cap)) <-> In r results /\ ~ oversized cap r.
Proof.
  intros Hpos. unfold applyMaxSizeFilter.
  assert (H : (cap <=? 0) = false) by (apply Z.leb_gt; exact Hpos). rewrite H.
  rewrite <- list_elem_of_In, list_elem_of_filter, withinMaxSize_iff, list_elem_of_In. tauto.
Qed.

(** [applyMaxSizeFilter] keeps the order of the results, never drops a
    release whose size is unknown, keeps of the others exactly those not
    above a positive cap, and does nothing without such a cap. *)
Theorem applyMaxSizeFilter_spec (results : list nzbResult) (maxSizeBytes : option Z) :
  let out := applyMaxSizeFilter results maxSizeBytes in
  sublist out results
  /\ (forall r, In r results -> size r = None -> In r out)
  /\ (forall cap, maxSizeBytes = Some cap -> 0 < cap ->
      forall r, In r out <-> In r results /\ ~ oversized cap r)
  /\ (maxSizeBytes = None \/ (exists cap, maxSizeBytes = Some cap /\ cap <= 0) ->
      out = results).
Proof.
  cbn zeta. split; [apply applyMaxSizeFilter_sublist|]. split; [|split].
  - intros r Hin Hsize. unfold applyMaxSizeFilter.
    destruct maxSizeBytes as [cap|]; [|exact Hin].
    destruct (cap <=? 0); [exact Hin|].
    apply list_elem_of_In, list_elem_of_filter. split; [|apply list_elem_of_In; exact Hin].
    unfold withinMaxSize. rewrite Hsize. reflexivity.
  - intros cap -> Hpos r. apply applyMaxSizeFilter_In. exact Hpos.
  - unfold applyMaxSizeFilter. intros [-> | (cap & -> & Hle)]; [reflexivity|].
    apply Z.leb_le in Hle. rewrite Hle. reflexivity.
Qed.

Lemma existsb_eqb_In (t : string) (l : list string) :
  existsb (String.eqb t) l = true <-> In t l.
Proof.
  rewrite existsb_exists. split.
  - intros (x & Hx & Heq). apply String.eqb_eq in Heq. subst x. exact Hx.
  - intros H. exists t. split; [exact H|apply String.eqb_refl].
Qed.

Lemma resolutionAllowed_iff (tokens : list string) (r : nzbResult) :
  resolutionAllowed (existsb (String.eqb "unknown") tokens)
    (filter (fun token => String.eqb token "unknown" = false) tokens) r = true
  <-> match knownResolution r with
      | Some t => In t tokens
      | None => In "unknown"%string tokens
      end.
Proof.
  unfold resolutionAllowed, knownResolution.
  destruct (resolutionTokenOf (resolution r)) as [t|]; [|apply existsb_eqb_In].
  destruct (truthy t); cbn [negb orb andb]; [|apply existsb_eqb_In].
  destruct (String.eqb t "unknown") eqn:Hu; cbn [negb]; [apply existsb_eqb_In|].
  set (allowedSet := filter _ tokens).
  assert (Hset : In t allowedSet <-> In t tokens).
  { unfold allowedSet. rewrite <- !list_elem_of_In, list_elem_of_filter. tauto. }
  rewrite <- Hset, <- existsb_eqb_In. destruct allowedSet; [|reflexivity].
  cbn. tauto.
Qed.

Lemma filterByAllowedResolutions_sublist results allowedResolutions :
  sublist (filterByAllowedResolutions results allowedResolutions) results.
Proof.
  unfold filterByAllowedResolutions.
  destruct allowedResolutions as [[|a allowed]|]; try reflexivity.
  destruct (omap normalizeAllowedToken (a :: allowed)); [reflexivity|apply sublist_filter].
Qed.

Lemma filterByAllowedResolutions_In results allowedResolutions r :
  omap normalizeAllowedToken (default [] allowedResolutions) <> [] ->
  In r (filterByAllowedResolutions results allowedResolutions)
  <-> In r results
      /\ match knownResolution r with
         | Some t => In t (omap normalizeAllowedToken (default [] allowedResolutions))
         | None => In "unknown"%string
                     (omap normalizeAllowedToken (default [] allowedResolutions))
         end.
Proof.
  unfold filterByAllowedResolutions.
  destruct allowedResolutions as [[|a allowed]|]; cbn [default from_option id];
    try (intros H; contradiction H; reflexivity).
  destruct (omap normalizeAllowedToken (a :: allowed)) as [|t tokens] eqn:Ht;
    [intros H; contradiction H; reflexivity|]. intros _.
  rewrite <- list_elem_of_In, list_elem_of_filter, resolutionAllowed_iff, list_elem_of_In.
  tauto.
Qed.

(** [filterByAllowedResolutions] does nothing when the list of allowed
    resolutions is missing or holds no token; otherwise it keeps the order
    and keeps exactly the releases whose resolution label, trimmed and in
    lower case, is one of the tokens, a release without label (or with the
    label [unknown]) counting as [unknown]. *)
Theorem filterByAllowedResolutions_spec (results : list nzbResult)
    (allowedResolutions : option (list (option string))) :
  let tokens := omap normalizeAllowedToken (default [] allowedResolutions) in
  let out := filterByAllowedResolutions results allowedResolutions in
  sublist out results
  /\ (tokens = [] -> out = results)
  /\ (tokens <> [] ->
      forall r, In r out <->
        In r results /\ match knownResolution r with
                        | Some t => In t tokens
                        | None => In "unknown"%string tokens
                        end).
Proof.
  cbn zeta. split; [apply filterByAllowedResolutions_sublist|]. split.
  - unfold filterByAllowedResolutions.
    destruct allowedResolutions as [[|a allowed]|]; cbn [default from_option id];
      try reflexivity.
    intros ->. reflexivity.
  - intros Hne r. apply filterByAllowedResolutions_In. exact Hne.
Qed.

Section LimitFacts.
Variable releaseResolution : nzbResult -> option string.

Abbreviation tokenOf := (limitToken releaseResolution).

Lemma limitLoop_sublist limit results : forall counters,
  sublist (limitLoop releaseResolution limit counters results) results.
Proof.
  induction results as [|r rest IH]; intros counters; cbn [limitLoop]; [reflexivity|].
  destruct (limit <=? _); [apply sublist_cons, IH|apply sublist_skip, IH].
Qed.

(** Of each resolution the loop keeps the first results, as many as the
    counter of the resolution leaves room for. *)
Lemma limitLoop_take limit t results : forall counters,
  filter (fun r => tokenOf r = t) (limitLoop releaseResolution limit counters results)
  = take (Z.to_nat (limit - default 0 (counters !! t)))
         (filter (fun r => tokenOf r = t) results).
Proof.
  induction results as [|r rest IH]; intros counters; cbn [limitLoop].
  - rewrite filter_nil, take_nil. reflexivity.
  - destruct (limit <=? default 0 (counters !! tokenOf r)) eqn:Hfull.
    + apply Z.leb_le in Hfull. rewrite IH.
      destruct (decide (tokenOf r = t)) as [Heq|Hne].
      * rewrite (filter_cons_True _ r rest Heq). rewrite <- Heq.
        replace (Z.to_nat _) with 0%nat by lia. reflexivity.
      * rewrite (filter_cons_False _ r rest Hne). reflexivity.
    + apply Z.leb_gt in Hfull.
      destruct (decide (tokenOf r = t)) as [Heq|Hne].
      * rewrite !(filter_cons_True _ r _ Heq), IH. rewrite <- Heq, lookup_insert_eq.
        cbn [default from_option id].
        replace (Z.to_nat (limit - default 0 (counters !! tokenOf r)))
          with (S (Z.to_nat (limit - (default 0 (counters !! tokenOf r) + 1)))) by lia.
        reflexivity.
      * rewrite !(filter_cons_False _ r _ Hne), IH.
        rewrite lookup_insert_ne by exact Hne. reflexivity.
Qed.

Lemma applyResolutionLimits_sublist results perQualityLimit :
  sublist (applyResolutionLimits releaseResolution results perQualityLimit) results.
Proof.
  unfold applyResolutionLimits. destruct perQualityLimit as [limit|]; [|reflexivity].
  destruct (limit <=? 0); [reflexivity|apply limitLoop_sublist].
Qed.

Lemma applyResolutionLimits_take results limit t :
  0 < limit ->
  filter (fun r => tokenOf r = t) (applyResolutionLimits releaseResolution results (Some limit))
  = take (Z.to_nat limit) (filter (fun r => tokenOf r = t) results).
Proof.
  intros Hpos. unfold applyResolutionLimits.
  assert (H : (limit <=? 0) = false) by (apply Z.leb_gt; exact Hpos). rewrite H.
  rewrite limitLoop_take, lookup_empty. cbn [default from_option id].
  rewrite Z.sub_0_r. reflexivity.
Qed.

(** With a positive limit [applyResolutionLimits] keeps the order of the
    results and, of each resolution token, exactly the first [limit] results;
    a release without resolution counts under the token [unknown]. *)
Theorem applyResolutionLimits_first (results : list nzbResult) (limit : Z) :
  0 < limit ->
  let out := applyResolutionLimits releaseResolution results (Some limit) in
  sublist out results
  /\ forall t, filter (fun r => tokenOf r = t) out
               = take (Z.to_nat limit) (filter (fun r => tokenOf r = t) results).
Proof.
  intros Hpos. cbn zeta. split; [apply applyResolutionLimits_sublist|].
  intros t. apply applyResolutionLimits_take. exact Hpos.
Qed.

End LimitFacts.

(** Two releases of 1080p and one without resolution, limited to one per
    resolution: the second 1080p release goes. *)
Lemma applyResolutionLimits_first_witness :
  let results := [ sizedRelease "A.1080p" (Some "1080p"%string) (Some 10);
                   sizedRelease "B.1080p" (Some " 1080P "%string) (Some 20);
                   sizedRelease "C" None None ] in
  applyResolutionLimits (fun _ => None) results (Some 1)
    = [ sizedRelease "A.1080p" (Some "1080p"%string) (Some 10); sizedRelease "C" None None ]
  /\ filter (fun r => limitToken (fun _ => None) r = "1080p"%string)
       (applyResolutionLimits (fun _ => None) results (Some 1))
     = [ sizedRelease "A.1080p" (Some "1080p"%string) (Some 10) ].
Proof.
  intros results. split; [reflexivity|].
  destruct (applyResolutionLimits_first (fun _ => None) results 1 ltac:(lia)) as [_ H].
  rewrite H. reflexivity.
Defined.

Lemma sortAnnotatedResults_perm results sortMode prefs :
  Permutation (sortAnnotatedResults results sortMode prefs) results.
Proof.
  unfold sortAnnotatedResults. destruct results as [|r0 rest]; [reflexivity|].
  destruct (String.eqb sortMode "language_quality_size" && _).
  - rewrite !SortProofs.arraySort_perm. apply filter_app_complement.
  - apply SortProofs.arraySort_perm.
Qed.

Lemma sortAnnotatedResults_sorted results sortMode prefs :
  sortMode <> "language_quality_size"%string \/ normalizePreferredLanguageList prefs = [] ->
  StronglySorted qualityThenSizeDesc (sortAnnotatedResults results sortMode prefs).
Proof.
  intros Hmode.
  unfold sortAnnotatedResults. destruct results as [|r0 rest]; [constructor|].
  assert (Hoff : String.eqb sortMode "language_quality_size"
                 && (0 <? length (normalizePreferredLanguageList prefs))%nat = false).
  { destruct Hmode as [Hm | Hp].
    - apply String.eqb_neq in Hm. rewrite Hm. reflexivity.
    - rewrite Hp. apply andb_false_r. }
  rewrite Hoff. apply SortProofs.qualityThenSize_sorted.
Qed.

Lemma StronglySorted_sublist {A} (R : A -> A -> Prop) (l k : list A) :
  sublist l k -> StronglySorted R k -> StronglySorted R l.
Proof.
  intros Hsub. induction Hsub as [|x l k Hsub IH|x l k Hsub IH]; intros Hs.
  - constructor.
  - apply StronglySorted_inv in Hs. destruct Hs as [Hk Hx]. constructor; [apply IH, Hk|].
    eapply Forall_forall. intros y Hy. rewrite Forall_forall in Hx. apply Hx.
    eapply elem_of_sublist; [exact Hy|exact Hsub].
  - apply StronglySorted_inv in Hs. apply IH, Hs.
Qed.

(** In the default sort mode, and in every mode when no language is
    preferred, [sortAnnotatedResults] returns the releases it was given,
    ordered by quality score descending and then size descending. *)
Theorem sortAnnotatedResults_default (results : list nzbResult) (sortMode : string)
    (prefs : preferredInput) :
  sortMode <> "language_quality_size"%string \/ normalizePreferredLanguageList prefs = [] ->
  let out := sortAnnotatedResults results sortMode prefs in
  Permutation out results /\ StronglySorted qualityThenSizeDesc out.
Proof.
  intros Hmode. cbn zeta. split; [apply sortAnnotatedResults_perm|].
  apply sortAnnotatedResults_sorted. exact Hmode.
Qed.

Lemma sortAnnotatedResults_default_witness :
  sortAnnotatedResults [tamil1080; hindi2160; english2160] "quality_then_size"
    (PrefString "Tamil")
  = [hindi2160; english2160; tamil1080]
  /\ StronglySorted qualityThenSizeDesc
       (sortAnnotatedResults [tamil1080; hindi2160; english2160] "quality_then_size"
          (PrefString "Tamil")).
Proof.
  split; [reflexivity|].
  apply (sortAnnotatedResults_default [tamil1080; hindi2160; english2160]
           "quality_then_size" (PrefString "Tamil")).
  left. discriminate.
Defined.

Section PrepareFacts.
Variable releaseResolution : nzbResult -> option string.

(** [prepareSortedResults] only removes and reorders: what it returns is,
    as a multiset, part of its input.  Every release it returns passes the
    resolution whitelist and the size cap that are set, no resolution token
    has more releases than the limit that is set, and outside the language
    mode the result is ordered by quality score and then size. *)
Theorem prepareSortedResults_spec (results : list nzbResult) (options : sortOptions) :
  let out := prepareSortedResults releaseResolution results options in
  out ⊆+ results
  /\ (forall cap, maxSizeBytes options = Some cap -> 0 < cap ->
      Forall (fun r => ~ oversized cap r) out)
  /\ (let tokens := omap normalizeAllowedToken (default [] (allowedResolutions options)) in
      tokens <> [] ->
      Forall (fun r => match knownResolution r with
                       | Some t => In t tokens
                       | None => In "unknown"%string tokens
                       end) out)
  /\ (forall limit, resolutionLimitPerQuality options = Some limit -> 0 < limit ->
      forall t, (length (filter (fun r => limitToken releaseResolution r = t) out)
                 <= Z.to_nat limit)%nat)
  /\ (sortMode options <> "language_quality_size"%string
      \/ normalizePreferredLanguageList (preferredLanguages options) = [] ->
      StronglySorted qualityThenSizeDesc out).
Proof.
  cbn zeta. unfold prepareSortedResults.
  set (w1 := filterByAllowedResolutions results (allowedResolutions options)).
  set (w2 := applyMaxSizeFilter w1 (maxSizeBytes options)).
  set (w3 := sortAnnotatedResults w2 (sortMode options) (preferredLanguages options)).
  set (out := applyResolutionLimits releaseResolution w3 (resolutionLimitPerQuality options)).
  pose proof (filterByAllowedResolutions_sublist results (allowedResolutions options)) as Hs1.
  fold w1 in Hs1.
  pose proof (applyMaxSizeFilter_sublist w1 (maxSizeBytes options)) as Hs2. fold w2 in Hs2.
  pose proof (sortAnnotatedResults_perm w2 (sortMode options) (preferredLanguages options))
    as Hp3. fold w3 in Hp3.
  pose proof (applyResolutionLimits_sublist releaseResolution w3
                (resolutionLimitPerQuality options)) as Hs4. fold out in Hs4.
  assert (Hin2 : forall r, In r out -> In r w2).
  { intros r Hr. apply list_elem_of_In. rewrite <- Hp3. apply list_elem_of_In in Hr.
    eapply elem_of_sublist; [exact Hr|exact Hs4]. }
  split; [|split; [|split; [|split]]].
  - etransitivity; [apply sublist_submseteq, Hs4|].
    etransitivity; [apply Permutation_submseteq, Hp3|].
    etransitivity; apply sublist_submseteq; eassumption.
  - intros cap Hcap Hpos. apply Forall_forall. intros r Hr.
    apply list_elem_of_In, Hin2 in Hr. unfold w2 in Hr. rewrite Hcap in Hr.
    apply applyMaxSizeFilter_In in Hr; [apply Hr|exact Hpos].
  - intros Htokens. apply Forall_forall. intros r Hr.
    apply list_elem_of_In, Hin2 in Hr.
    assert (Hr1 : In r w1).
    { apply list_elem_of_In. eapply elem_of_sublist; [|exact Hs2].
      apply list_elem_of_In. exact Hr. }
    apply filterByAllowedResolutions_In in Hr1; [apply Hr1|exact Htokens].
  - intros limit Hlimit Hpos t. unfold out. rewrite Hlimit.
    rewrite applyResolutionLimits_take by exact Hpos. rewrite length_take. lia.
  - intros Hmode. apply (StronglySorted_sublist _ out w3 Hs4).
    apply sortAnnotatedResults_sorted. exact Hmode.
Qed.

End PrepareFacts.

End ResultFilterProofs.

(** ** Triage candidates and the triage title map *)

Module TriageHelperProofs.
Import JsString Parsers Result Triage TriageRun TriageHelpers.
Local Open Scope Z_scope.

Section PrioritizeFacts.
Variable normalizedTitleOf : nzbResult -> option string.
Variable shouldInclude : option (nzbResult -> bool).
Variable maxCandidates : Z.

Abbreviation keyOf := (candidateKey normalizedTitleOf).
Abbreviation loop := (prioritizeLoop normalizedTitleOf shouldInclude maxCandidates).

Abbreviation included := (TriageHelpers.included shouldInclude).

Lemma excluded_iff r :
  match shouldInclude with
  | Some include => negb (include r)
  | None => false
  end = false <-> included r.
Proof.
  unfold TriageHelpers.included. destruct shouldInclude as [f|].
  - rewrite negb_false_iff. split.
    + intros H include [= <-]. exact H.
    + intros H. apply H. reflexivity.
  - split; [intros _ include Hf; discriminate|reflexivity].
Qed.

Lemma prioritizeLoop_facts results : forall seen count,
  Z.of_nat count < Z.max 1 maxCandidates ->
  let out := loop seen count results in
  sublist out results
  /\ NoDup (map keyOf out)
  /\ Forall (fun r => keyOf r ∉ seen) out
  /\ Z.of_nat (count + length out) <= Z.max 1 maxCandidates
  /\ Forall included out
  /\ (Z.of_nat (count + length out) < Z.max 1 maxCandidates ->
      forall r, In r results -> included r ->
                keyOf r ∈ seen \/ In (keyOf r) (map keyOf out)).
Proof.
  induction results as [|r rest IH]; intros seen count Hroom; cbn zeta.
  - cbn [prioritizeLoop map length].
    split; [reflexivity|]. split; [constructor|]. split; [constructor|].
    split; [lia|]. split; [constructor|]. intros _ x [].
  - cbn [prioritizeLoop].
    destruct (bool_decide (keyOf r ∈ seen)) eqn:Hseen.
    { apply bool_decide_eq_true in Hseen.
      destruct (IH seen count Hroom) as (Hs & Hnd & Hfresh & Hlen & Hinc & Hall).
      split; [apply sublist_cons; exact Hs|]. do 4 (split; [assumption|]).
      intros Hlt x [<- | Hx] Hx'; [left; exact Hseen|]. apply Hall; assumption. }
    apply bool_decide_eq_false in Hseen.
    destruct (match shouldInclude with Some include => negb (include r) | None => false end)
      eqn:Hex.
    { destruct (IH seen count Hroom) as (Hs & Hnd & Hfresh & Hlen & Hinc & Hall).
      split; [apply sublist_cons; exact Hs|]. do 4 (split; [assumption|]).
      intros Hlt x [<- | Hx] Hx'.
      - apply excluded_iff in Hx'. congruence.
      - apply Hall; assumption. }
    apply excluded_iff in Hex.
    destruct (Z.max 1 maxCandidates <=? Z.of_nat (S count)) eqn:Hfull.
    + apply Z.leb_le in Hfull. cbn [map length].
      split; [apply sublist_skip, sublist_nil_l|].
      split; [apply NoDup_singleton|].
      split; [constructor; [exact Hseen|constructor]|].
      split; [lia|].
      split; [constructor; [exact Hex|constructor]|].
      intros Hlt. lia.
    + apply Z.leb_gt in Hfull.
      destruct (IH ({[keyOf r]} ∪ seen) (S count) Hfull)
        as (Hs & Hnd & Hfresh & Hlen & Hinc & Hall).
      cbn [map length].
      split; [apply sublist_skip; exact Hs|]. split.
      { apply NoDup_cons. split; [|exact Hnd].
        intros Hin. apply list_elem_of_fmap in Hin. destruct Hin as (x & Hkx & Hx).
        rewrite Forall_forall in Hfresh. apply (Hfresh x Hx). rewrite <- Hkx.
        apply elem_of_union_l, elem_of_singleton. reflexivity. }
      split.
      { constructor; [exact Hseen|]. eapply Forall_impl; [exact Hfresh|].
        intros x Hx Hin. apply Hx. apply elem_of_union_r. exact Hin. }
      split; [lia|]. split; [constructor; assumption|].
      intros Hlt x [<- | Hx] Hx'; [right; left; reflexivity|].
      destruct (Hall ltac:(lia) x Hx Hx') as [Hin | Hin].
      * apply elem_of_union in Hin. destruct Hin as [Hin | Hin]; [|left; exact Hin].
        apply elem_of_singleton in Hin. right. left. symmetry. exact Hin.
      * right. right. exact Hin.
Qed.

(** [prioritizeTriageCandidates] picks the results in order, at most
    [max(1, maxCandidates)] of them, one per title key, and only results
    that [shouldInclude] accepts; when it stops short of the maximum, every
    accepted result has its title key among the picked ones. *)
Theorem prioritizeTriageCandidates_spec (results : list nzbResult) :
  let out := prioritizeTriageCandidates normalizedTitleOf results maxCandidates
               shouldInclude in
  sublist out results
  /\ NoDup (map keyOf out)
  /\ Z.of_nat (length out) <= Z.max 1 maxCandidates
  /\ Forall included out
  /\ (Z.of_nat (length out) < Z.max 1 maxCandidates ->
      forall r, In r results -> included r -> In (keyOf r) (map keyOf out)).
Proof.
  cbn zeta. unfold prioritizeTriageCandidates.
  destruct (prioritizeLoop_facts results ∅ 0%nat ltac:(lia))
    as (Hs & Hnd & _ & Hlen & Hinc & Hall).
  split; [exact Hs|]. split; [exact Hnd|]. split; [exact Hlen|]. split; [exact Hinc|].
  intros Hlt r Hr Hr'. destruct (Hall Hlt r Hr Hr') as [Hin | Hin]; [|exact Hin].
  apply elem_of_empty in Hin. destruct Hin.
Qed.

End PrioritizeFacts.

(** *** The title map *)

Lemma rank_bounds s : 0 <= triageStatusRank s <= 4.
Proof.
  unfold triageStatusRank.
  repeat match goal with |- context [if ?b then _ else _] => destruct b end; lia.
Qed.

Lemma rank_top s :
  triageStatusRank s = 4 <-> In s ["blocked"; "fetch-error"; "error"]%string.
Proof.
  unfold triageStatusRank.
  destruct (existsb (String.eqb s) ["blocked"; "fetch-error"; "error"]) eqn:H.
  - split; [intros _|reflexivity]. apply existsb_exists in H.
    destruct H as (x & Hx & Heq). apply String.eqb_eq in Heq. subst x. exact Hx.
  - split.
    + repeat match goal with |- context [if ?b then _ else _] => destruct b end; lia.
    + intros Hin. assert (existsb (String.eqb s) ["blocked"; "fetch-error"; "error"] = true);
        [|congruence].
      apply existsb_exists. exists s. split; [exact Hin|apply String.eqb_refl].
Qed.

(** What holds of the map after the decisions [ds] have been visited. *)
Lemma titleMap_invariant ds : forall seen (m : gmap string titleEntry),
  (forall t e, m !! t = Some e ->
     exists url d, In (url, d) seen /\ titleEligible d = true
                   /\ decisionTitleKey d = t /\ e = titleEntryOf url d) ->
  (forall url d, In (url, d) seen -> titleEligible d = true ->
     exists e, m !! decisionTitleKey d = Some e
               /\ triageStatusRank (TriageRun.status d) <= triageStatusRank (entryStatus e)) ->
  let m' := fold_left titleMapStep ds m in
  (forall t e, m' !! t = Some e ->
     exists url d, In (url, d) (seen ++ ds) /\ titleEligible d = true
                   /\ decisionTitleKey d = t /\ e = titleEntryOf url d)
  /\ (forall url d, In (url, d) (seen ++ ds) -> titleEligible d = true ->
      exists e, m' !! decisionTitleKey d = Some e
                /\ triageStatusRank (TriageRun.status d) <= triageStatusRank (entryStatus e)).
Proof.
  induction ds as [|[url d] ds IH]; intros seen m Hfrom Hcover; cbn zeta.
  - cbn [fold_left]. rewrite app_nil_r. split; assumption.
  - cbn [fold_left].
    replace (seen ++ (url, d) :: ds) with ((seen ++ [(url, d)]) ++ ds)
      by (rewrite <- app_assoc; reflexivity).
    apply IH; unfold titleMapStep.
    + intros t e. destruct (titleEligible d) eqn:Hel; cbn [negb].
      * assert (Hnew : forall t e,
            <[decisionTitleKey d := titleEntryOf url d]> m !! t = Some e ->
            exists url' d', In (url', d') (seen ++ [(url, d)]) /\ titleEligible d' = true
                            /\ decisionTitleKey d' = t /\ e = titleEntryOf url' d').
        { intros t' e' Hl. destruct (decide (decisionTitleKey d = t')) as [<-|Hne].
          - rewrite lookup_insert_eq in Hl. injection Hl as <-. exists url, d.
            split; [apply in_or_app; right; left; reflexivity|]. auto.
          - rewrite lookup_insert_ne in Hl by exact Hne.
            destruct (Hfrom t' e' Hl) as (u & d' & Hin & H).
            exists u, d'. split; [apply in_or_app; left; exact Hin|exact H]. }
        destruct (m !! decisionTitleKey d) as [e0|] eqn:He0; [|apply Hnew].
        destruct (_ <=? _); [apply Hnew|].
        intros Hl. destruct (Hfrom t e Hl) as (u & d' & Hin & H).
        exists u, d'. split; [apply in_or_app; left; exact Hin|exact H].
      * intros Hl. destruct (Hfrom t e Hl) as (u & d' & Hin & H).
        exists u, d'. split; [apply in_or_app; left; exact Hin|exact H].
    + intros u d' Hin Hel'. apply in_app_or in Hin.
      destruct (titleEligible d) eqn:Hel; cbn [negb].
      * destruct (m !! decisionTitleKey d) as [e0|] eqn:He0.
        -- destruct (triageStatusRank (entryStatus e0) <=? triageStatusRank (TriageRun.status d))
             eqn:Hrank.
           ++ apply Z.leb_le in Hrank. destruct Hin as [Hin | [[= <- <-] | []]].
              ** destruct (Hcover u d' Hin Hel') as (e & He & Hle).
                 destruct (decide (decisionTitleKey d = decisionTitleKey d')) as [Heq|Hne].
                 --- rewrite <- Heq, lookup_insert_eq. eexists. split; [reflexivity|].
                     cbn [titleEntryOf entryStatus]. rewrite <- Heq, He0 in He.
                     injection He as <-. lia.
                 --- rewrite lookup_insert_ne by exact Hne. exists e. split; assumption.
              ** rewrite lookup_insert_eq. eexists. split; [reflexivity|].
                 cbn [titleEntryOf entryStatus]. lia.
           ++ apply Z.leb_gt in Hrank. destruct Hin as [Hin | [[= <- <-] | []]].
              ** apply (Hcover u d' Hin Hel').
              ** exists e0. split; [exact He0|lia].
        -- destruct Hin as [Hin | [[= <- <-] | []]].
           ++ destruct (Hcover u d' Hin Hel') as (e & He & Hle).
              destruct (decide (decisionTitleKey d = decisionTitleKey d')) as [Heq|Hne].
              ** rewrite <- Heq, He0 in He. discriminate.
              ** rewrite lookup_insert_ne by exact Hne. exists e. split; assumption.
           ++ rewrite lookup_insert_eq. eexists. split; [reflexivity|].
              cbn [titleEntryOf entryStatus]. lia.
      * destruct Hin as [Hin | [[= <- <-] | []]]; [apply (Hcover u d' Hin Hel')|congruence].
Qed.

(** Every entry of the title map is made of a decision of its title that has
    a status other than [pending] and [skipped]; every such decision has its
    title in the map, under a status that ranks at least as high; so a title
    with a [blocked], [fetch-error] or [error] decision never shows
    [verified]. *)
Theorem buildTriageTitleMap_spec (decisions : list (string * triageDecision)) :
  let titleMap := buildTriageTitleMap decisions in
  (forall t e, titleMap !! t = Some e ->
     entryNormalizedTitle e = t /\ truthy t = true
     /\ ~ In (entryStatus e) [""; "pending"; "skipped"]%string
     /\ exists d, In (sourceDownloadUrl e, d) decisions
                  /\ e = titleEntryOf (sourceDownloadUrl e) d)
  /\ (forall url d, In (url, d) decisions -> titleEligible d = true ->
      exists e, titleMap !! decisionTitleKey d = Some e
                /\ triageStatusRank (TriageRun.status d) <= triageStatusRank (entryStatus e))
  /\ (forall url d, In (url, d) decisions -> titleEligible d = true ->
      In (TriageRun.status d) ["blocked"; "fetch-error"; "error"]%string ->
      exists e, titleMap !! decisionTitleKey d = Some e
                /\ In (entryStatus e) ["blocked"; "fetch-error"; "error"]%string).
Proof.
  cbn zeta. unfold buildTriageTitleMap.
  destruct (titleMap_invariant decisions [] ∅) as [Hfrom Hcover].
  { intros t e Hl. rewrite lookup_empty in Hl. discriminate. }
  { intros url d []. }
  cbn [app] in Hfrom, Hcover. split; [|split].
  - intros t e Hl. destruct (Hfrom t e Hl) as (url & d & Hin & Hel & Hkey & ->).
    cbn [titleEntryOf entryNormalizedTitle entryStatus sourceDownloadUrl].
    unfold titleEligible in Hel. apply andb_prop in Hel. destruct Hel as [Hel Ht].
    apply andb_prop in Hel. destruct Hel as [Hel Hs].
    apply andb_prop in Hel. destruct Hel as [Hst Hp].
    split; [exact Hkey|]. split; [rewrite <- Hkey; exact Ht|]. split.
    + intros [H | [H | [H | []]]]; rewrite <- H in *; discriminate.
    + exists d. split; [exact Hin|reflexivity].
  - exact Hcover.
  - intros url d Hin Hel Htop. destruct (Hcover url d Hin Hel) as (e & He & Hle).
    exists e. split; [exact He|]. apply rank_top. apply rank_top in Htop.
    pose proof (rank_bounds (entryStatus e)). lia.
Qed.

End TriageHelperProofs.

(** ** The selection of the triage candidates *)

Module TriageSelectProofs.
Import JsString Parsers Helpers TriageRun TriageSelect.
Local Open Scope Z_scope.

Abbreviation urlOf := (fun c : builtCandidate => downloadUrl (info c)).
Abbreviation titleOf := (fun c : builtCandidate => normalizedTitle (info c)).

Lemma buildLoop_facts nzbResults : forall seen index,
  let out := buildLoop seen index nzbResults in
  NoDup (map urlOf out)
  /\ Forall (fun c => urlOf c ∉ seen) out
  /\ Forall (fun c => builtFrom nzbResults (info c)) out.
Proof.
  induction nzbResults as [|r rest IH]; intros seen index; cbn zeta; cbn [buildLoop].
  - split; [constructor|]. split; constructor.
  - assert (Hweak : forall l, Forall (fun c => builtFrom rest (info c)) l ->
                              Forall (fun c => builtFrom (r :: rest) (info c)) l).
    { intros l Hl. eapply Forall_impl; [exact Hl|]. intros c (Ht & r' & Hin & H).
      split; [exact Ht|]. exists r'. split; [right; exact Hin|exact H]. }
    destruct (Result.downloadUrl r) as [url|] eqn:Hurl.
    + destruct (negb (truthy url) || bool_decide (url ∈ seen)) eqn:Hskip.
      * destruct (IH seen (S index)) as (Hnd & Hfresh & Hfrom).
        split; [exact Hnd|]. split; [exact Hfresh|apply Hweak; exact Hfrom].
      * apply orb_false_elim in Hskip. destruct Hskip as [Ht Hseen].
        apply negb_false_iff in Ht. apply bool_decide_eq_false in Hseen.
        destruct (IH ({[url]} ∪ seen) (S index)) as (Hnd & Hfresh & Hfrom).
        cbn [map info downloadUrl]. split; [|split].
        -- apply NoDup_cons. split; [|exact Hnd]. intros Hin.
           apply list_elem_of_fmap in Hin. destruct Hin as (c & Hc & Hin).
           rewrite Forall_forall in Hfresh. apply (Hfresh c Hin). rewrite <- Hc.
           apply elem_of_union_l, elem_of_singleton. reflexivity.
        -- constructor; [exact Hseen|]. eapply Forall_impl; [exact Hfresh|].
           intros c Hc Hin. apply Hc, elem_of_union_r, Hin.
        -- constructor; [|apply Hweak; exact Hfrom].
           split; [exact Ht|]. exists r. cbn. split; [left; reflexivity|].
           split; [exact Hurl|]. repeat split.
    + destruct (IH seen (S index)) as (Hnd & Hfresh & Hfrom).
      split; [exact Hnd|]. split; [exact Hfresh|apply Hweak; exact Hfrom].
Qed.

(** Every result with a URL is represented among the built candidates. *)
Lemma buildLoop_covers nzbResults : forall seen index r url,
  In r nzbResults -> Result.downloadUrl r = Some url -> truthy url = true ->
  url ∈ seen \/ In url (map urlOf (buildLoop seen index nzbResults)).
Proof.
  induction nzbResults as [|r0 rest IH]; intros seen index r url Hin Hurl Ht; [destruct Hin|].
  cbn [buildLoop]. destruct Hin as [-> | Hin].
  - rewrite Hurl, Ht. cbn [negb orb].
    destruct (bool_decide (url ∈ seen)) eqn:Hseen.
    + left. apply bool_decide_eq_true in Hseen. exact Hseen.
    + right. left. reflexivity.
  - destruct (Result.downloadUrl r0) as [url0|]; [|apply (IH seen _ r url Hin Hurl Ht)].
    destruct (negb (truthy url0) || bool_decide (url0 ∈ seen));
      [apply (IH seen _ r url Hin Hurl Ht)|].
    destruct (IH ({[url0]} ∪ seen) (S index) r url Hin Hurl Ht) as [Hs | Hs].
    + apply elem_of_union in Hs. destruct Hs as [Hs | Hs]; [|left; exact Hs].
      apply elem_of_singleton in Hs. right. left. cbn. symmetry. exact Hs.
    + right. right. exact Hs.
Qed.

Lemma filter_sublist_mono {A} (P : A -> Prop) `{!forall x, Decision (P x)} (l k : list A) :
  sublist l k -> sublist (filter P l) (filter P k).
Proof.
  intros Hsub. induction Hsub as [|x l k Hsub IH|x l k Hsub IH]; [constructor| |].
  - destruct (decide (P x)) as [Hx|Hx].
    + rewrite !(filter_cons_True P x) by exact Hx. apply sublist_skip, IH.
    + rewrite !(filter_cons_False P x) by exact Hx. exact IH.
  - destruct (decide (P x)) as [Hx|Hx].
    + rewrite (filter_cons_True P x) by exact Hx. apply sublist_cons, IH.
    + rewrite (filter_cons_False P x) by exact Hx. exact IH.
Qed.

(** [buildCandidates] makes one candidate for each URL of the results: the
    URLs of the candidates are distinct and not empty, each candidate is
    made of a result that has its URL, and every result with a URL has its
    URL among the candidates. *)
Theorem buildCandidates_spec (nzbResults : list Result.nzbResult) :
  let built := buildCandidates nzbResults in
  NoDup (map urlOf built)
  /\ Forall (fun c => builtFrom nzbResults (info c)) built
  /\ (forall r url, In r nzbResults -> Result.downloadUrl r = Some url ->
                    truthy url = true -> In url (map urlOf built)).
Proof.
  cbn zeta. unfold buildCandidates.
  destruct (buildLoop_facts nzbResults ∅ 0%nat) as (Hnd & _ & Hfrom).
  split; [exact Hnd|]. split; [exact Hfrom|]. intros r url Hin Hurl Ht.
  destruct (buildLoop_covers nzbResults ∅ 0%nat r url Hin Hurl Ht) as [H | H]; [|exact H].
  apply elem_of_empty in H. destruct H.
Qed.

(** [rankCandidates] returns the candidates it was given, the nearest to the
    preferred size first and the larger first among equals; without a
    preferred size, the largest first. *)
Theorem rankCandidates_sorted (candidates : list builtCandidate) (preferred : option Z) :
  Permutation (rankCandidates candidates preferred) candidates
  /\ StronglySorted (rankedBefore preferred) (rankCandidates candidates preferred).
Proof.
  split; [unfold rankCandidates; destruct preferred; apply SortProofs.arraySort_perm|].
  unfold rankCandidates, rankedBefore. destruct preferred as [p|].
  - eapply SortProofs.StronglySorted_weaken; [|apply SortProofs.arraySort_sorted].
    + intros a b. unfold compareBySizeDelta. cbn zeta.
      generalize (Z.abs (candidateSize a - p)), (Z.abs (candidateSize b - p)).
      intros da db. destruct (da =? db) eqn:He; cbn [negb];
        [apply Z.eqb_eq in He|apply Z.eqb_neq in He]; lia.
    + intros a b. unfold compareBySizeDelta. cbn zeta.
      generalize (Z.abs (candidateSize a - p)), (Z.abs (candidateSize b - p)).
      intros da db.
      destruct (da =? db) eqn:He; [apply Z.eqb_eq in He|apply Z.eqb_neq in He];
        (destruct (db =? da) eqn:He'; [apply Z.eqb_eq in He'|apply Z.eqb_neq in He']);
        cbn [negb]; lia.
    + intros a b c. unfold compareBySizeDelta. cbn zeta.
      generalize (Z.abs (candidateSize a - p)), (Z.abs (candidateSize b - p)),
        (Z.abs (candidateSize c - p)).
      intros da db dc.
      destruct (da =? db) eqn:H1; [apply Z.eqb_eq in H1|apply Z.eqb_neq in H1];
        (destruct (db =? dc) eqn:H2; [apply Z.eqb_eq in H2|apply Z.eqb_neq in H2]);
        (destruct (da =? dc) eqn:H3; [apply Z.eqb_eq in H3|apply Z.eqb_neq in H3]);
        cbn [negb]; lia.
  - eapply SortProofs.StronglySorted_weaken; [|apply SortProofs.arraySort_sorted].
    + intros a b. unfold compareBySize. lia.
    + intros a b. unfold compareBySize. lia.
    + intros a b c. unfold compareBySize. lia.
Qed.

Lemma uniqueByTitle_sublist candidates : forall seenTitles,
  sublist (uniqueByTitle seenTitles candidates) candidates.
Proof.
  induction candidates as [|c rest IH]; intros seenTitles; cbn [uniqueByTitle];
    [reflexivity|].
  destruct (truthy _); [|apply sublist_skip, IH].
  destruct (bool_decide _); [apply sublist_cons, IH|apply sublist_skip, IH].
Qed.

Lemma uniqueByTitle_titles candidates : forall seenTitles,
  let out := uniqueByTitle seenTitles candidates in
  NoDup (filter (fun t => truthy t = true) (map titleOf out))
  /\ Forall (fun c => truthy (titleOf c) = true -> titleOf c ∉ seenTitles) out.
Proof.
  induction candidates as [|c rest IH]; intros seenTitles; cbn zeta; cbn [uniqueByTitle].
  - split; constructor.
  - destruct (truthy (titleOf c)) eqn:Ht.
    + destruct (bool_decide (titleOf c ∈ seenTitles)) eqn:Hseen; [apply IH|].
      apply bool_decide_eq_false in Hseen.
      destruct (IH ({[titleOf c]} ∪ seenTitles)) as [Hnd Hfresh].
      cbn [map]. rewrite (filter_cons_True (fun t => truthy t = true) (titleOf c) _ Ht).
      split.
      * apply NoDup_cons. split; [|exact Hnd]. intros Hin.
        apply list_elem_of_filter in Hin. destruct Hin as [Ht' Hin].
        apply list_elem_of_fmap in Hin. destruct Hin as (c' & Hc' & Hin).
        rewrite Forall_forall in Hfresh. apply (Hfresh c' Hin).
        -- rewrite <- Hc'. exact Ht.
        -- rewrite <- Hc'. apply elem_of_union_l, elem_of_singleton. reflexivity.
      * constructor; [intros _; exact Hseen|]. eapply Forall_impl; [exact Hfresh|].
        intros c' Hc' Ht' Hin. apply (Hc' Ht'), elem_of_union_r, Hin.
    + destruct (IH seenTitles) as [Hnd Hfresh]. cbn [map].
      rewrite (filter_cons_False (fun t => truthy t = true) (titleOf c))
        by (rewrite Ht; discriminate).
      split; [exact Hnd|].
      constructor; [intros H; congruence|exact Hfresh].
Qed.

Lemma rankCandidates_perm candidates preferred :
  Permutation (rankCandidates candidates preferred) candidates.
Proof.
  unfold rankCandidates. destruct preferred; apply SortProofs.arraySort_perm.
Qed.

Lemma candidateMatches_allowed c tokenSet :
  tokenSet <> ∅ -> candidateMatchesIndexerSet c tokenSet = true ->
  fromAllowedIndexer tokenSet (info c).
Proof.
  intros Hne. unfold candidateMatchesIndexerSet, fromAllowedIndexer, tokenIn.
  rewrite bool_decide_eq_false_2 by exact Hne. intros H. apply orb_prop in H.
  destruct H as [H | H]; [left|right];
    match type of H with
    | context [normalizeIndexerToken ?x] => destruct (normalizeIndexerToken x) as [t|]
    end; try discriminate; exists t; (split; [reflexivity|]);
    apply bool_decide_eq_true in H; exact H.
Qed.

(** What the selection passes on, before the candidate records are cut down
    to the members that the run reads. *)
Lemma selectCandidates_sub nzbResults options :
  exists constrained,
    sublist constrained (buildCandidates nzbResults)
    /\ (normalizeIndexerSet (allowedIndexerIds options) <> ∅ ->
        Forall (fun c => fromAllowedIndexer (normalizeIndexerSet (allowedIndexerIds options))
                           (info c)) constrained)
    /\ exists ranked, Permutation ranked constrained
                      /\ sublist (selectCandidates nzbResults options)
                                 (uniqueByTitle ∅ ranked).
Proof.
  unfold selectCandidates.
  set (allowed := normalizeIndexerSet (allowedIndexerIds options)).
  set (built := buildCandidates nzbResults).
  set (constrained := if bool_decide (allowed = ∅) then built else filter _ built).
  exists constrained. split; [|split].
  - unfold constrained. destruct (bool_decide (allowed = ∅)); [reflexivity|].
    apply sublist_filter.
  - intros Hne. unfold constrained. rewrite bool_decide_eq_false_2 by exact Hne.
    apply Forall_forall. intros c Hc. apply list_elem_of_filter in Hc.
    apply (candidateMatches_allowed c allowed Hne), Hc.
  - exists (rankCandidates constrained (preferredSizeBytes options)).
    split; [apply rankCandidates_perm|apply sublist_take].
Qed.

(** The candidates that [triageAndRank] selects have distinct URLs, the
    titled ones have distinct normalized titles, and there are at most
    [max(1, maxCandidates)] of them; each is made of a result that has its
    URL, and is of an allowed indexer when some are given.  The number of
    workers is at least one and, when candidates are selected, at most their
    number. *)
Theorem selectedCandidates_spec (nzbResults : list Result.nzbResult)
    (options : selectOptions) :
  let selected := selectedCandidates nzbResults options in
  let allowed := normalizeIndexerSet (allowedIndexerIds options) in
  NoDup (map downloadUrl selected)
  /\ NoDup (filter (fun t => truthy t = true) (map normalizedTitle selected))
  /\ Z.of_nat (length selected)
     <= Z.max 1 (default DEFAULT_MAX_CANDIDATES (maxCandidates options))
  /\ Forall (builtFrom nzbResults) selected
  /\ (allowed <> ∅ -> Forall (fromAllowedIndexer allowed) selected)
  /\ (1 <= workerCount (downloadConcurrency options) (length selected))%nat
  /\ (selected <> [] ->
      (workerCount (downloadConcurrency options) (length selected) <= length selected)%nat).
Proof.
  cbn zeta. unfold selectedCandidates.
  destruct (selectCandidates_sub nzbResults options)
    as (constrained & Hc & Hallowed & ranked & Hperm & Hsel).
  set (sel := selectCandidates nzbResults options) in *.
  destruct (buildLoop_facts nzbResults ∅ 0%nat) as (Hnd & _ & Hfrom).
  fold (buildCandidates nzbResults) in Hnd, Hfrom.
  pose proof (uniqueByTitle_sublist ranked ∅) as Hu.
  assert (Hin : forall c, c ∈ sel -> c ∈ constrained).
  { intros c Hc'. rewrite <- Hperm. eapply elem_of_sublist; [|exact Hu].
    eapply elem_of_sublist; [exact Hc'|exact Hsel]. }
  split; [|split; [|split; [|split; [|split; [|split]]]]].
  - rewrite map_map.
    apply (sublist_NoDup _ (map urlOf (uniqueByTitle ∅ ranked)));
      [|apply fmap_sublist; exact Hsel].
    apply (sublist_NoDup _ (map urlOf ranked)); [|apply fmap_sublist; exact Hu].
    rewrite Hperm.
    apply (sublist_NoDup _ (map urlOf (buildCandidates nzbResults)));
      [exact Hnd|apply fmap_sublist; exact Hc].
  - rewrite map_map.
    apply (sublist_NoDup _ (filter (fun t => truthy t = true)
                              (map titleOf (uniqueByTitle ∅ ranked)))).
    + apply uniqueByTitle_titles.
    + apply filter_sublist_mono, fmap_sublist. exact Hsel.
  - rewrite length_map. unfold sel, selectCandidates. rewrite length_take. lia.
  - apply Forall_forall. intros c Hc'. apply list_elem_of_fmap in Hc'.
    destruct Hc' as (b & -> & Hb). rewrite Forall_forall in Hfrom. apply Hfrom.
    eapply elem_of_sublist; [apply Hin; exact Hb|exact Hc].
  - intros Hne. apply Forall_forall. intros c Hc'. apply list_elem_of_fmap in Hc'.
    destruct Hc' as (b & -> & Hb). specialize (Hallowed Hne).
    rewrite Forall_forall in Hallowed. apply Hallowed, Hin, Hb.
  - unfold workerCount. lia.
  - intros Hne. unfold workerCount. destruct (map info sel) as [|c l]; [contradiction|].
    cbn [length]. lia.
Qed.

End TriageSelectProofs.

(** ** The response cache: what is stored is found again *)

Module StreamCacheRoundTrip.
Import JsString StreamCache StreamCacheProofs.
Local Open Scope Z_scope.

Section RoundTrip.
Context {Payload Meta : Type}.
Variable estimateCacheEntrySize : Payload -> option Meta -> Z.
Variable cfg : config.
Hypothesis max_bytes_pos : 0 < maxBytes cfg.
Hypothesis max_entries_pos : 0 < maxEntries cfg.
Hypothesis ttl_nonneg : 0 <= ttlMs cfg.

Abbreviation entries := (list (string * cacheEntry Payload Meta)).
Abbreviation state := (cacheState Payload Meta).





End RoundTrip.


End StreamCacheRoundTrip.

(** ** The cache of verified NZB payloads *)

Module VerifiedNzbCacheProofs.
Import JsString VerifiedNzbCache.
Local Open Scope Z_scope.

Section VerifiedFacts.
Variable ttlMs : Z.
Variable maxBytes : Z.
Hypothesis max_bytes_pos : 0 < maxBytes.

Abbreviation ventries := (list (string * verifiedEntry)).
Abbreviation cleanup := (cleanupVerifiedNzbCache ttlMs maxBytes).
Abbreviation getEntry := (getVerifiedNzbCacheEntry ttlMs maxBytes).
Abbreviation cachePayload := (cacheVerifiedNzbPayload ttlMs maxBytes).
Abbreviation wf := (wellFormed maxBytes).

Lemma vsum_cons x (l : ventries) : sumSizes (x :: l) = size (snd x) + sumSizes l.
Proof. reflexivity. Qed.

Lemma vsum_nil : sumSizes ([] : ventries) = 0.
Proof. reflexivity. Qed.

Lemma vsum_app (a b : ventries) : sumSizes (a ++ b) = sumSizes a + sumSizes b.
Proof.
  induction a as [|x a IH]; [rewrite vsum_nil; cbn [app]; lia|].
  cbn [app]. rewrite !vsum_cons, IH. lia.
Qed.

Lemma vget_In key (l : ventries) e : mapGet key l = Some e -> In (key, e) l.
Proof.
  induction l as [|[k x] rest IH]; cbn [mapGet]; [discriminate|].
  destruct (String.eqb k key) eqn:Hk.
  - apply String.eqb_eq in Hk. intros [= ->]. left. congruence.
  - intros H. right. apply IH, H.
Qed.

Lemma vget_None key (l : ventries) : mapGet key l = None -> ~ In key (map fst l).
Proof.
  induction l as [|[k x] rest IH]; cbn [mapGet map fst]; [intros _ []|].
  destruct (String.eqb k key) eqn:Hk; [discriminate|].
  apply String.eqb_neq in Hk. intros H [Hin | Hin]; [congruence|]. apply (IH H Hin).
Qed.

Lemma vget_Some_in key (l : ventries) :
  In key (map fst l) -> exists e, mapGet key l = Some e.
Proof.
  induction l as [|[k x] rest IH]; cbn [mapGet map fst]; [intros []|].
  destruct (String.eqb k key) eqn:Hk; [intros _; eexists; reflexivity|].
  apply String.eqb_neq in Hk. intros [Hin | Hin]; [congruence|]. apply IH, Hin.
Qed.

Lemma vget_sublist key (a b : ventries) e :
  a `sublist_of` b -> NoDup (map fst b) -> mapGet key a = Some e -> mapGet key b = Some e.
Proof.
  induction 1 as [|[k x] a b Hsub IH|[k x] a b Hsub IH]; intros Hnd Hget.
  - discriminate.
  - cbn [mapGet map fst] in *. apply NoDup_cons in Hnd. destruct Hnd as [_ Hnd].
    destruct (String.eqb k key); [exact Hget|]. apply IH; assumption.
  - cbn [mapGet map fst] in *. apply NoDup_cons in Hnd. destruct Hnd as [Hnotin Hnd].
    destruct (String.eqb k key) eqn:Hk; [|apply IH; assumption].
    apply String.eqb_eq in Hk. subst k. exfalso. apply Hnotin.
    apply vget_In in Hget.
    apply (elem_of_sublist (map fst a)); [|apply fmap_sublist; exact Hsub].
    apply list_elem_of_fmap. exists (key, e). split; [reflexivity|].
    apply list_elem_of_In. exact Hget.
Qed.

Lemma vget_app_last key (pre : ventries) e :
  ~ In key (map fst pre) -> mapGet key (pre ++ [(key, e)]) = Some e.
Proof.
  induction pre as [|[k x] rest IH]; intros Hn; cbn [app mapGet].
  - rewrite String.eqb_refl. reflexivity.
  - cbn [map fst] in Hn. destruct (String.eqb k key) eqn:Hk.
    + apply String.eqb_eq in Hk. exfalso. apply Hn. left. exact Hk.
    + apply IH. intros Hin. apply Hn. right. exact Hin.
Qed.

Lemma vdelete_sublist key (l : ventries) : mapDelete key l `sublist_of` l.
Proof.
  induction l as [|[k x] rest IH]; cbn [mapDelete]; [constructor|].
  destruct (String.eqb k key); [apply sublist_cons, IH|apply sublist_skip, IH].
Qed.

Lemma vdelete_absent key (l : ventries) : ~ In key (map fst l) -> mapDelete key l = l.
Proof.
  induction l as [|[k x] rest IH]; cbn [mapDelete map fst]; [reflexivity|]. intros Hn.
  destruct (String.eqb k key) eqn:Hk.
  - apply String.eqb_eq in Hk. exfalso. apply Hn. left. exact Hk.
  - f_equal. apply IH. intros Hin. apply Hn. right. exact Hin.
Qed.

Lemma vdelete_sum key (l : ventries) e :
  NoDup (map fst l) -> mapGet key l = Some e ->
  sumSizes (mapDelete key l) = sumSizes l - size e.
Proof.
  induction l as [|[k x] rest IH]; cbn [mapGet mapDelete map fst]; [discriminate|].
  intros Hnd Hget. apply NoDup_cons in Hnd. destruct Hnd as [Hnotin Hnd].
  destruct (String.eqb k key) eqn:Hk.
  - injection Hget as ->. apply String.eqb_eq in Hk. subst k.
    rewrite vdelete_absent, vsum_cons; [cbn [snd]; lia|].
    intros Hin. apply Hnotin, list_elem_of_In, Hin.
  - rewrite !vsum_cons, (IH Hnd Hget). cbn [snd]. lia.
Qed.

(** [map.set] keeps the place of a key that is present. *)
Lemma vset_keys key v (l : ventries) :
  map fst (mapSet key v l)
  = if bool_decide (key ∈ map fst l) then map fst l else map fst l ++ [key].
Proof.
  induction l as [|[k x] rest IH]; cbn [mapSet map fst].
  - rewrite bool_decide_eq_false_2 by (apply not_elem_of_nil). reflexivity.
  - destruct (String.eqb k key) eqn:Hk.
    + apply String.eqb_eq in Hk. subst k.
      rewrite bool_decide_eq_true_2 by (apply elem_of_cons; left; reflexivity). reflexivity.
    + apply String.eqb_neq in Hk. cbn [map fst]. rewrite IH.
      destruct (bool_decide (key ∈ map fst rest)) eqn:Hin.
      * apply bool_decide_eq_true in Hin.
        rewrite bool_decide_eq_true_2 by (apply elem_of_cons; right; exact Hin). reflexivity.
      * apply bool_decide_eq_false in Hin.
        rewrite bool_decide_eq_false_2; [reflexivity|].
        intros H. apply elem_of_cons in H. destruct H as [H | H]; [congruence|exact (Hin H)].
Qed.

Lemma vset_sum key v (l : ventries) :
  sumSizes (mapSet key v l)
  = sumSizes l - match mapGet key l with Some e => size e | None => 0 end + size v.
Proof.
  induction l as [|[k x] rest IH]; cbn [mapSet mapGet].
  - rewrite vsum_cons, vsum_nil. cbn [snd]. lia.
  - destruct (String.eqb k key); rewrite !vsum_cons; cbn [snd]; [lia|]. rewrite IH. lia.
Qed.

Lemma vset_get key v (l : ventries) : mapGet key (mapSet key v l) = Some v.
Proof.
  induction l as [|[k x] rest IH]; cbn [mapSet mapGet].
  - rewrite String.eqb_refl. reflexivity.
  - destruct (String.eqb k key) eqn:Hk; cbn [mapGet]; rewrite Hk; [reflexivity|exact IH].
Qed.

Lemma vset_Forall (P : string * verifiedEntry -> Prop) key v (l : ventries) :
  Forall P l -> P (key, v) -> Forall P (mapSet key v l).
Proof.
  induction l as [|[k x] rest IH]; cbn [mapSet]; intros Hl Hv.
  - constructor; [exact Hv|constructor].
  - apply Forall_cons in Hl. destruct Hl as [Hx Hl].
    destruct (String.eqb k key) eqn:Hk.
    + apply String.eqb_eq in Hk. subst k. constructor; assumption.
    + constructor; [exact Hx|apply IH; assumption].
Qed.

Lemma vset_fresh key v (l : ventries) :
  ~ In key (map fst l) -> mapSet key v l = l ++ [(key, v)].
Proof.
  induction l as [|[k x] rest IH]; cbn [mapSet map fst app]; [reflexivity|]. intros Hn.
  destruct (String.eqb k key) eqn:Hk.
  - apply String.eqb_eq in Hk. exfalso. apply Hn. left. exact Hk.
  - f_equal. apply IH. intros Hin. apply Hn. right. exact Hin.
Qed.

(** *** The two loops of the cleanup *)

Lemma vremoveExpired_spec now (l : ventries) : forall bytes,
  fst (removeExpired now l bytes) = filter (fun ke => expired now (snd ke) = false) l
  /\ snd (removeExpired now l bytes) - sumSizes (fst (removeExpired now l bytes))
     = bytes - sumSizes l.
Proof.
  induction l as [|[k e] rest IH]; intros bytes; cbn [removeExpired].
  - cbn [fst snd]. rewrite filter_nil, vsum_nil. split; [reflexivity|lia].
  - rewrite filter_cons. cbn [snd]. destruct (expired now e) eqn:He.
    + rewrite decide_False by discriminate.
      destruct (IH (bytes - size e)) as (Hs & Hb). split; [exact Hs|].
      rewrite vsum_cons. cbn [snd]. lia.
    + rewrite decide_True by reflexivity.
      destruct (IH bytes) as (Hs & Hb).
      destruct (removeExpired now rest bytes) as [kept bytes'] eqn:Hr. cbn [fst snd] in *.
      split; [congruence|]. rewrite !vsum_cons. cbn [snd]. lia.
Qed.

Lemma vevict_suffix (l : ventries) : forall bytes,
  exists evicted,
    l = evicted ++ fst (evictOldest maxBytes l bytes)
    /\ snd (evictOldest maxBytes l bytes) = bytes - sumSizes evicted.
Proof.
  induction l as [|[k e] rest IH]; intros bytes; cbn [evictOldest].
  - exists []. cbn [fst snd app]. rewrite vsum_nil. split; [reflexivity|lia].
  - destruct ((0 <? maxBytes) && (maxBytes <? bytes)).
    + destruct (truthy k).
      * destruct (IH (bytes - size e)) as (ev & Hl & Hb).
        exists ((k, e) :: ev). split; [cbn [app]; congruence|].
        rewrite Hb, vsum_cons. cbn [snd]. lia.
      * exists []. cbn [fst snd app]. rewrite vsum_nil. split; [reflexivity|lia].
    + exists []. cbn [fst snd app]. rewrite vsum_nil. split; [reflexivity|lia].
Qed.

Lemma vevict_within (l : ventries) : forall bytes,
  bytes = sumSizes l ->
  Forall (fun ke => truthy (fst ke) = true) l ->
  snd (evictOldest maxBytes l bytes) <= maxBytes.
Proof using max_bytes_pos.
  induction l as [|[k e] rest IH]; intros bytes Hb Ht; cbn [evictOldest].
  - cbn [snd]. rewrite vsum_nil in Hb. lia.
  - apply Forall_cons in Ht. destruct Ht as [Hk Ht]. cbn [fst] in Hk.
    destruct ((0 <? maxBytes) && (maxBytes <? bytes)) eqn:Ho.
    + rewrite Hk. apply IH; [|exact Ht]. rewrite vsum_cons in Hb. cbn [snd] in Hb. lia.
    + cbn [snd]. apply andb_false_iff in Ho. rewrite !Z.ltb_ge in Ho. lia.
Qed.

Lemma vevict_idle (l : ventries) bytes :
  bytes <= maxBytes -> evictOldest maxBytes l bytes = (l, bytes).
Proof.
  intros Hb. destruct l as [|[k e] rest]; [reflexivity|]. cbn [evictOldest].
  assert (H : (maxBytes <? bytes) = false) by (apply Z.ltb_ge; lia).
  rewrite H, andb_false_r. reflexivity.
Qed.

(** The entry at the end of the map is not evicted when it fits the cap. *)
Lemma vevict_keeps_last (pre : ventries) x : forall bytes,
  bytes = sumSizes (pre ++ [x]) -> size (snd x) <= maxBytes ->
  exists pre', fst (evictOldest maxBytes (pre ++ [x]) bytes) = pre' ++ [x].
Proof.
  induction pre as [|[k e] rest IH]; intros bytes Hb Hx.
  - cbn [app] in Hb |- *. rewrite vsum_cons, vsum_nil in Hb.
    rewrite vevict_idle by lia. exists []. reflexivity.
  - cbn [app evictOldest]. destruct ((0 <? maxBytes) && (maxBytes <? bytes)).
    + destruct (truthy k).
      * apply IH; [|exact Hx]. cbn [app] in Hb. rewrite vsum_cons in Hb.
        cbn [snd] in Hb. lia.
      * exists ((k, e) :: rest). reflexivity.
    + exists ((k, e) :: rest). reflexivity.
Qed.

Lemma Forall_of_sublist {A} (P : A -> Prop) (a b : list A) :
  a `sublist_of` b -> Forall P b -> Forall P a.
Proof.
  intros Hsub Hb. apply Forall_forall. intros x Hx. rewrite Forall_forall in Hb.
  apply Hb. eapply elem_of_sublist; eassumption.
Qed.

Lemma vsurvivors_sublist now (l : ventries) : survivors ttlMs now l `sublist_of` l.
Proof. unfold survivors. destruct (0 <? ttlMs); [apply sublist_filter|reflexivity]. Qed.

(** The cleanup, with its early return folded in. *)
Lemma vcleanup_unfold now (st : cacheState) :
  cleanup now st =
  let kept := survivors ttlMs now (verifiedNzbCacheByUrl st) in
  let bytes := verifiedNzbCacheBytes st
               - (sumSizes (verifiedNzbCacheByUrl st) - sumSizes kept) in
  {| verifiedNzbCacheByUrl := fst (evictOldest maxBytes kept bytes);
     verifiedNzbCacheBytes := snd (evictOldest maxBytes kept bytes) |}.
Proof.
  unfold cleanupVerifiedNzbCache, survivors. destruct st as [l b].
  cbn [verifiedNzbCacheByUrl verifiedNzbCacheBytes].
  destruct l as [|x l].
  - destruct (0 <? ttlMs); rewrite ?filter_nil; cbn [evictOldest fst snd];
      rewrite vsum_nil; f_equal; lia.
  - destruct (0 <? ttlMs).
    + destruct (vremoveExpired_spec now (x :: l) b) as (Hf & Hb). rewrite <- Hf.
      destruct (removeExpired now (x :: l) b) as [kept bytes]. cbn [fst snd] in *.
      replace (b - (sumSizes (x :: l) - sumSizes kept)) with bytes by lia.
      destruct (evictOldest maxBytes kept bytes). reflexivity.
    + replace (b - (sumSizes (x :: l) - sumSizes (x :: l))) with b by lia.
      destruct (evictOldest maxBytes (x :: l) b). reflexivity.
Qed.

Abbreviation urlShape :=
  (fun ke : string * verifiedEntry => truthy (fst ke) = true /\ downloadUrl (snd ke) = fst ke).
Abbreviation sizeShape :=
  (fun ke : string * verifiedEntry =>
     0 < size (snd ke) <= maxBytes /\ size (snd ke) = utf8Length (payloadBuffer (snd ke))).

(** A cleanup establishes the cap from the bookkeeping alone. *)
Lemma vcleanup_wellFormed now (st : cacheState) :
  verifiedNzbCacheBytes st = sumSizes (verifiedNzbCacheByUrl st) ->
  NoDup (map fst (verifiedNzbCacheByUrl st)) ->
  Forall urlShape (verifiedNzbCacheByUrl st) ->
  Forall sizeShape (verifiedNzbCacheByUrl st) ->
  wf (cleanup now st).
Proof using max_bytes_pos.
  intros Hb Hnd Hu Hs. rewrite vcleanup_unfold. cbn zeta.
  set (kept := survivors ttlMs now (verifiedNzbCacheByUrl st)).
  assert (Hk : kept `sublist_of` verifiedNzbCacheByUrl st) by apply vsurvivors_sublist.
  set (bytes := verifiedNzbCacheBytes st - (sumSizes (verifiedNzbCacheByUrl st) - sumSizes kept)).
  assert (Hbytes : bytes = sumSizes kept) by (unfold bytes; lia).
  destruct (vevict_suffix kept bytes) as (ev & Hl & Hsnd).
  assert (Hsub : fst (evictOldest maxBytes kept bytes) `sublist_of` verifiedNzbCacheByUrl st).
  { etransitivity; [|exact Hk]. rewrite Hl at 2. apply sublist_inserts_l. reflexivity. }
  constructor; cbn [verifiedNzbCacheByUrl verifiedNzbCacheBytes].
  - pose proof (f_equal sumSizes Hl) as Hsum. rewrite vsum_app in Hsum. lia.
  - eapply sublist_NoDup; [exact Hnd|]. apply fmap_sublist. exact Hsub.
  - eapply Forall_of_sublist; eassumption.
  - eapply Forall_of_sublist; eassumption.
  - apply (vevict_within kept bytes Hbytes).
    eapply Forall_impl; [eapply Forall_of_sublist; [exact Hk|exact Hu]|].
    intros ke H. apply H.
Qed.

Lemma vcleanup_preserves now (st : cacheState) : wf st -> wf (cleanup now st).
Proof using max_bytes_pos.
  intros [Hb Hnd Hu Hs _]. apply vcleanup_wellFormed; assumption.
Qed.

(** In a state within its cap the cleanup only drops what has expired. *)
Lemma vcleanup_survivors now (st : cacheState) :
  wf st ->
  verifiedNzbCacheByUrl (cleanup now st) = survivors ttlMs now (verifiedNzbCacheByUrl st).
Proof.
  intros [Hb _ _ Hs Hcap]. rewrite vcleanup_unfold. cbn zeta.
  cbn [verifiedNzbCacheByUrl].
  pose proof (vsurvivors_sublist now (verifiedNzbCacheByUrl st)) as Hsub.
  rewrite vevict_idle; [reflexivity|].
  assert (Hle : forall a b : ventries, a `sublist_of` b -> Forall sizeShape b ->
                                       sumSizes a <= sumSizes b).
  { clear. induction 1 as [|x a b Hsub IH|x a b Hsub IH]; intros Hpos.
    - lia.
    - apply Forall_cons in Hpos. destruct Hpos as [_ Hpos]. rewrite !vsum_cons.
      specialize (IH Hpos). lia.
    - apply Forall_cons in Hpos. destruct Hpos as [Hx Hpos]. rewrite vsum_cons.
      specialize (IH Hpos). lia. }
  pose proof (Hle _ _ Hsub Hs). lia.
Qed.

Lemma utf8Length_pos s : truthy s = true -> 0 < utf8Length s.
Proof.
  unfold truthy, utf8Length, chars. destruct s as [|c s]; [discriminate|]. intros _.
  cbn [list_ascii_of_string fold_right].
  assert (H : forall l, 0 <= fold_right
                (fun c acc => (if (code c <? 128)%nat then 1 else 2) + acc) 0 l).
  { induction l as [|a l IH]; cbn [fold_right]; [lia|]. destruct (code a <? 128)%nat; lia. }
  specialize (H (list_ascii_of_string s)). destruct (code c <? 128)%nat; lia.
Qed.

Lemma vget_preserves now1 now2 now3 url (st : cacheState) :
  wf st -> wf (snd (getEntry now1 now2 now3 url st)).
Proof using max_bytes_pos.
  intros Hwf. unfold getVerifiedNzbCacheEntry.
  destruct (negb (truthy url) || (maxBytes <=? 0)); [exact Hwf|].
  pose proof (vcleanup_preserves now1 st Hwf) as Hwf1.
  set (st1 := cleanup now1 st) in *.
  destruct (mapGet url (verifiedNzbCacheByUrl st1)) as [e|] eqn:Hget; [|exact Hwf1].
  destruct Hwf1 as [Hb Hnd Hu Hs Hcap].
  assert (Hin : (url, e) ∈ verifiedNzbCacheByUrl st1).
  { apply list_elem_of_In, vget_In. exact Hget. }
  assert (Hshape : sizeShape (url, e)) by (rewrite Forall_forall in Hs; apply Hs, Hin).
  assert (Hurl : urlShape (url, e)) by (rewrite Forall_forall in Hu; apply Hu, Hin).
  cbn [fst snd] in Hshape, Hurl.
  destruct (expired now2 e); cbn [snd].
  - pose proof (vdelete_sublist url (verifiedNzbCacheByUrl st1)) as Hsub.
    constructor; cbn [verifiedNzbCacheByUrl verifiedNzbCacheBytes].
    + rewrite (vdelete_sum url _ e Hnd Hget). lia.
    + eapply sublist_NoDup; [exact Hnd|]. apply fmap_sublist. exact Hsub.
    + eapply Forall_of_sublist; eassumption.
    + eapply Forall_of_sublist; eassumption.
    + lia.
  - constructor; cbn [verifiedNzbCacheByUrl verifiedNzbCacheBytes].
    + rewrite vset_sum, Hget. cbn [touched size]. lia.
    + rewrite vset_keys. rewrite bool_decide_eq_true_2; [exact Hnd|].
      apply list_elem_of_fmap. exists (url, e). split; [reflexivity|exact Hin].
    + apply vset_Forall; [exact Hu|]. cbn [fst snd touched downloadUrl]. exact Hurl.
    + apply vset_Forall; [exact Hs|]. cbn [fst snd touched size payloadBuffer]. exact Hshape.
    + exact Hcap.
Qed.

(** The state handed to the cleanup at the end of an accepted
    [cacheVerifiedNzbPayload]. *)
Lemma vcache_accepted now1 now2 now3 now4 url nzbPayload md (st : cacheState) :
  truthy url = true -> truthy nzbPayload = true -> utf8Length nzbPayload <= maxBytes ->
  cachePayload now1 now2 now3 now4 url nzbPayload md st
  = cleanup now4
      {| verifiedNzbCacheByUrl :=
           mapSet url {| downloadUrl := url; payloadBuffer := nzbPayload;
                         size := utf8Length nzbPayload; metadata := storedMetadata md;
                         expiresAt := if 0 <? ttlMs then Some (now1 + ttlMs) else None;
                         createdAt := now2; lastAccess := now3 |}
             (verifiedNzbCacheByUrl st);
         verifiedNzbCacheBytes :=
           match mapGet url (verifiedNzbCacheByUrl st) with
           | Some existing => verifiedNzbCacheBytes st - size existing
           | None => verifiedNzbCacheBytes st
           end + utf8Length nzbPayload |}.
Proof using max_bytes_pos.
  intros Hu Hp Hsz. unfold cacheVerifiedNzbPayload. rewrite Hu, Hp. cbn [negb orb].
  assert (H1 : (maxBytes <=? 0) = false) by (apply Z.leb_gt; lia).
  assert (H2 : (maxBytes <? utf8Length nzbPayload) = false) by (apply Z.ltb_ge; lia).
  rewrite H1, H2. reflexivity.
Qed.

Lemma vcache_rejected now1 now2 now3 now4 url nzbPayload md (st : cacheState) :
  truthy url = false \/ truthy nzbPayload = false \/ maxBytes < utf8Length nzbPayload ->
  cachePayload now1 now2 now3 now4 url nzbPayload md st = st.
Proof.
  intros H. unfold cacheVerifiedNzbPayload.
  destruct (truthy url); cbn [negb orb]; [|reflexivity].
  destruct (truthy nzbPayload); cbn [negb]; [|reflexivity].
  destruct (maxBytes <=? 0); [reflexivity|].
  destruct H as [H | [H | H]]; try discriminate.
  apply Z.ltb_lt in H. rewrite H. reflexivity.
Qed.

Lemma vcache_preserves now1 now2 now3 now4 url nzbPayload md (st : cacheState) :
  wf st -> wf (cachePayload now1 now2 now3 now4 url nzbPayload md st).
Proof using max_bytes_pos.
  intros Hwf.
  destruct (truthy url) eqn:Hu; [|rewrite vcache_rejected by (left; exact Hu); exact Hwf].
  destruct (truthy nzbPayload) eqn:Hp;
    [|rewrite vcache_rejected by (right; left; exact Hp); exact Hwf].
  destruct (Z.lt_ge_cases maxBytes (utf8Length nzbPayload)) as [Hbig | Hfit];
    [rewrite vcache_rejected by (right; right; exact Hbig); exact Hwf|].
  rewrite vcache_accepted by assumption.
  destruct Hwf as [Hb Hnd Hurls Hs Hcap].
  pose proof (utf8Length_pos nzbPayload Hp) as Hpos.
  apply vcleanup_wellFormed; cbn [verifiedNzbCacheByUrl verifiedNzbCacheBytes].
  - rewrite vset_sum. cbn [size].
    destruct (mapGet url (verifiedNzbCacheByUrl st)); lia.
  - rewrite vset_keys. destruct (bool_decide (url ∈ map fst (verifiedNzbCacheByUrl st))) eqn:Hin;
      [exact Hnd|].
    apply bool_decide_eq_false in Hin. apply NoDup_app. split; [exact Hnd|]. split.
    + intros x Hx Hx'. apply list_elem_of_singleton in Hx'. subst x. exact (Hin Hx).
    + apply NoDup_singleton.
  - apply vset_Forall; [exact Hurls|]. cbn. split; [exact Hu|reflexivity].
  - apply vset_Forall; [exact Hs|]. cbn. split; [lia|reflexivity].
Qed.

Lemma vreachable_wellFormed (st : cacheState) : reachable ttlMs maxBytes st -> wf st.
Proof using max_bytes_pos.
  induction 1 as [|st now1 now2 now3 now4 url p md _ IH|st now1 now2 now3 url _ IH
                  |st now _ IH|st _ IH].
  - constructor; cbn; try constructor; lia.
  - apply vcache_preserves. exact IH.
  - apply vget_preserves. exact IH.
  - apply vcleanup_preserves. exact IH.
  - constructor; cbn; try constructor; lia.
Qed.

Lemma vcleanup_sublist now (st : cacheState) :
  verifiedNzbCacheByUrl (cleanup now st) `sublist_of` verifiedNzbCacheByUrl st.
Proof.
  rewrite vcleanup_unfold. cbn zeta. cbn [verifiedNzbCacheByUrl].
  set (kept := survivors ttlMs now (verifiedNzbCacheByUrl st)).
  set (bytes := verifiedNzbCacheBytes st - _).
  destruct (vevict_suffix kept bytes) as (ev & Hl & _).
  transitivity kept; [|apply vsurvivors_sublist]. rewrite Hl at 2.
  apply sublist_inserts_l. reflexivity.
Qed.

Lemma vget_of_In key (l : ventries) e :
  NoDup (map fst l) -> In (key, e) l -> mapGet key l = Some e.
Proof.
  induction l as [|[k x] rest IH]; intros Hnd Hin; [destruct Hin|].
  cbn [map fst] in Hnd. apply NoDup_cons in Hnd. destruct Hnd as [Hnotin Hnd].
  cbn [mapGet]. destruct Hin as [Heq | Hin].
  - injection Heq as -> ->. rewrite String.eqb_refl. reflexivity.
  - destruct (String.eqb k key) eqn:Hk; [|apply IH; assumption].
    apply String.eqb_eq in Hk. subst k. exfalso. apply Hnotin.
    apply list_elem_of_In, in_map_iff. exists (key, e). split; [reflexivity|exact Hin].
Qed.

Lemma vsurvivors_app now (a b : ventries) :
  survivors ttlMs now (a ++ b) = survivors ttlMs now a ++ survivors ttlMs now b.
Proof. unfold survivors. destruct (0 <? ttlMs); [apply filter_app|reflexivity]. Qed.

Lemma vsurvivors_keep now (x : string * verifiedEntry) :
  expired now (snd x) = false -> survivors ttlMs now [x] = [x].
Proof.
  intros H. unfold survivors. destruct (0 <? ttlMs); [|reflexivity].
  rewrite (filter_cons_True (fun ke : string * verifiedEntry => expired now (snd ke) = false))
    by exact H.
  rewrite filter_nil. reflexivity.
Qed.

(** An entry stored at [stored] has not expired at a clock reading within
    the time to live. *)
Lemma vfresh_not_expired stored now (e : verifiedEntry) :
  expiresAt e = (if 0 <? ttlMs then Some (stored + ttlMs) else None) ->
  withinTtl ttlMs stored now -> expired now e = false.
Proof.
  unfold withinTtl, expired. intros -> Hin.
  destruct (0 <? ttlMs) eqn:Ht; [|reflexivity].
  apply Z.ltb_lt in Ht. specialize (Hin Ht).
  apply andb_false_iff. right. apply Z.leb_gt. lia.
Qed.

(** What an accepted [cacheVerifiedNzbPayload] leaves under the URL is the
    entry it built, if anything. *)
Lemma vcache_lookup now1 now2 now3 now4 g1 url nzbPayload md (st : cacheState) e :
  wf st ->
  truthy url = true -> truthy nzbPayload = true -> utf8Length nzbPayload <= maxBytes ->
  mapGet url (verifiedNzbCacheByUrl
                (cleanup g1 (cachePayload now1 now2 now3 now4 url nzbPayload md st)))
    = Some e ->
  payloadBuffer e = nzbPayload /\ metadata e = storedMetadata md
  /\ size e = utf8Length nzbPayload /\ createdAt e = now2
  /\ expiresAt e = (if 0 <? ttlMs then Some (now1 + ttlMs) else None).
Proof using max_bytes_pos.
  intros Hwf Hu Hp Hfit Hget.
  rewrite vcache_accepted in Hget by assumption.
  set (entry := {| downloadUrl := url; payloadBuffer := nzbPayload |}) in Hget.
  set (pre := {| verifiedNzbCacheByUrl := mapSet url entry (verifiedNzbCacheByUrl st) |}) in Hget.
  assert (Hsub : verifiedNzbCacheByUrl (cleanup g1 (cleanup now4 pre))
                 `sublist_of` mapSet url entry (verifiedNzbCacheByUrl st)).
  { etransitivity; [apply vcleanup_sublist|]. apply (vcleanup_sublist now4 pre). }
  assert (Hnd : NoDup (map fst (mapSet url entry (verifiedNzbCacheByUrl st)))).
  { rewrite vset_keys. destruct Hwf as [_ Hnd _ _ _].
    destruct (bool_decide (url ∈ map fst (verifiedNzbCacheByUrl st))) eqn:Hin; [exact Hnd|].
    apply bool_decide_eq_false in Hin. apply NoDup_app. split; [exact Hnd|]. split.
    - intros x Hx Hx'. apply list_elem_of_singleton in Hx'. subst x. exact (Hin Hx).
    - apply NoDup_singleton. }
  pose proof (vget_sublist _ _ _ _ Hsub Hnd Hget) as Hset.
  rewrite vset_get in Hset. injection Hset as <-.
  cbn. repeat split; reflexivity.
Qed.

(** After an accepted [cacheVerifiedNzbPayload] for a URL that was not in
    the cache, the entry stands last and stays through a later cleanup
    within the time to live. *)
Lemma vcache_fresh_present now1 now2 now3 now4 g1 url nzbPayload md (st : cacheState) :
  wf st ->
  truthy url = true -> truthy nzbPayload = true -> utf8Length nzbPayload <= maxBytes ->
  mapGet url (verifiedNzbCacheByUrl st) = None ->
  withinTtl ttlMs now1 now4 -> withinTtl ttlMs now1 g1 ->
  exists e,
    mapGet url (verifiedNzbCacheByUrl
                  (cleanup g1 (cachePayload now1 now2 now3 now4 url nzbPayload md st)))
      = Some e.
Proof using max_bytes_pos.
  intros Hwf Hu Hp Hfit Hnone H4 Hg1.
  pose proof (vcache_preserves now1 now2 now3 now4 url nzbPayload md st Hwf) as Hwf'.
  pose proof (vcleanup_preserves g1 _ Hwf') as Hwf''.
  rewrite (vcleanup_survivors g1 _ Hwf').
  rewrite vcache_accepted in * by assumption.
  set (entry := {| downloadUrl := url; payloadBuffer := nzbPayload |}) in *.
  assert (Hexp : forall now, withinTtl ttlMs now1 now -> expired now entry = false).
  { intros now Hnow. apply (vfresh_not_expired now1); [reflexivity|exact Hnow]. }
  rewrite Hnone in *.
  rewrite (vset_fresh url entry _ (vget_None _ _ Hnone)) in *.
  rewrite vcleanup_unfold in *. cbn zeta in *.
  cbn [verifiedNzbCacheByUrl verifiedNzbCacheBytes] in *.
  rewrite vsurvivors_app, (vsurvivors_keep now4 (url, entry)) by (apply Hexp, H4).
  set (kept := survivors ttlMs now4 (verifiedNzbCacheByUrl st)).
  match goal with |- context [evictOldest maxBytes (kept ++ [(url, entry)]) ?b] =>
    destruct (vevict_keeps_last kept (url, entry) b) as (pre' & Hkeep) end.
  { destruct Hwf as [Hb _ _ _ _]. rewrite !vsum_app. fold kept.
    rewrite !vsum_cons, !vsum_nil. cbn [snd size entry]. lia. }
  { cbn [snd size entry]. exact Hfit. }
  rewrite Hkeep, vsurvivors_app, (vsurvivors_keep g1 (url, entry)) by (apply Hexp, Hg1).
  apply vget_Some_in. rewrite map_app. apply in_or_app. right. left. reflexivity.
Qed.

(** The bookkeeping of the cache of verified payloads: in every state that the
    exported functions produce from the empty cache, with a positive size
    cap, the byte counter is the sum of the sizes of the entries and does
    not exceed the cap, no URL is held twice, and every entry is filed under
    its own URL with the byte length of its payload as its size. *)
Theorem verified_cache_invariant (st : cacheState) :
  reachable ttlMs maxBytes st ->
  verifiedNzbCacheBytes st = sumSizes (verifiedNzbCacheByUrl st)
  /\ verifiedNzbCacheBytes st <= maxBytes
  /\ NoDup (map fst (verifiedNzbCacheByUrl st))
  /\ Forall (fun ke => downloadUrl (snd ke) = fst ke
                       /\ size (snd ke) = utf8Length (payloadBuffer (snd ke)))
            (verifiedNzbCacheByUrl st).
Proof using max_bytes_pos.
  intros Hreach. destruct (vreachable_wellFormed st Hreach) as [Hb Hnd Hu Hs Hcap].
  split; [exact Hb|]. split; [exact Hcap|]. split; [exact Hnd|].
  apply Forall_forall. intros ke Hin. rewrite Forall_forall in Hu, Hs.
  split; [apply (Hu ke Hin)|apply (Hs ke Hin)].
Qed.

(** What
    [getVerifiedNzbCacheEntry] returns for a URL is an entry filed under
    that URL which has not expired at the time of the test, whose size is
    the byte length of its payload and within the cap, and whose last access
    is the time of the lookup; the cache then holds this entry under the
    URL, and the URLs that the cleanup of the lookup left. *)
Theorem get_returns_live_entry now1 now2 now3 url (st : cacheState) e :
  reachable ttlMs maxBytes st ->
  fst (getEntry now1 now2 now3 url st) = Some e ->
  downloadUrl e = url /\ expired now2 e = false /\ lastAccess e = now3
  /\ size e = utf8Length (payloadBuffer e) /\ size e <= maxBytes
  /\ mapGet url (verifiedNzbCacheByUrl (snd (getEntry now1 now2 now3 url st))) = Some e
  /\ map fst (verifiedNzbCacheByUrl (snd (getEntry now1 now2 now3 url st)))
     = map fst (verifiedNzbCacheByUrl (cleanup now1 st)).
Proof using max_bytes_pos.
  intros Hreach. pose proof (vreachable_wellFormed st Hreach) as Hwf.
  unfold getVerifiedNzbCacheEntry.
  destruct (negb (truthy url) || (maxBytes <=? 0)); [discriminate|].
  pose proof (vcleanup_preserves now1 st Hwf) as [Hb Hnd Hu Hs Hcap].
  destruct (mapGet url (verifiedNzbCacheByUrl (cleanup now1 st))) as [e0|] eqn:Hget;
    [|discriminate].
  destruct (expired now2 e0) eqn:Hexp; [discriminate|].
  cbn [fst snd verifiedNzbCacheByUrl]. intros [= <-].
  assert (Hin : (url, e0) ∈ verifiedNzbCacheByUrl (cleanup now1 st)).
  { apply list_elem_of_In, vget_In. exact Hget. }
  rewrite Forall_forall in Hu, Hs.
  destruct (Hu _ Hin) as [_ Hurl]. destruct (Hs _ Hin) as [[_ Hle] Hsz].
  cbn [fst snd] in Hurl, Hle, Hsz. cbn [touched downloadUrl lastAccess size payloadBuffer].
  split; [exact Hurl|]. split; [exact Hexp|]. split; [reflexivity|].
  split; [exact Hsz|]. split; [exact Hle|]. split; [apply vset_get|].
  rewrite vset_keys. rewrite bool_decide_eq_true_2; [reflexivity|].
  apply list_elem_of_fmap. exists (url, e0). split; [reflexivity|exact Hin].
Qed.

(** No stale payload: after
    [cacheVerifiedNzbPayload] has accepted a payload for a URL (the URL and
    the payload are not empty and the payload fits the cap), a lookup of
    that URL returns nothing or an entry with that payload, its metadata and
    its creation time: an older payload of the URL is never served. *)
Theorem get_after_cache_payload now1 now2 now3 now4 g1 g2 g3 url nzbPayload md
    (st : cacheState) e :
  reachable ttlMs maxBytes st ->
  truthy url = true -> truthy nzbPayload = true -> utf8Length nzbPayload <= maxBytes ->
  fst (getEntry g1 g2 g3 url (cachePayload now1 now2 now3 now4 url nzbPayload md st))
    = Some e ->
  payloadBuffer e = nzbPayload /\ metadata e = storedMetadata md /\ createdAt e = now2.
Proof using max_bytes_pos.
  intros Hreach Hu Hp Hfit. pose proof (vreachable_wellFormed st Hreach) as Hwf.
  unfold getVerifiedNzbCacheEntry. rewrite Hu. cbn [negb orb].
  assert (H1 : (maxBytes <=? 0) = false) by (apply Z.leb_gt; lia). rewrite H1.
  destruct (mapGet url _) as [e0|] eqn:Hget; [|discriminate].
  destruct (expired g2 e0); [discriminate|]. cbn [fst]. intros [= <-].
  destruct (vcache_lookup now1 now2 now3 now4 g1 url nzbPayload md st e0 Hwf Hu Hp Hfit Hget)
    as (H2 & H3 & _ & H4 & _).
  cbn [touched payloadBuffer metadata createdAt]. auto.
Qed.

(** The round trip of the cache: a payload accepted for a
    URL that the cache did not hold is found by a lookup of that URL for as
    long as the clock readings stay within the time to live (or for ever
    when the time to live is zero), whatever else the cache had to evict to
    make room. *)
Theorem get_after_cache_hit now1 now2 now3 now4 g1 g2 g3 url nzbPayload md
    (st : cacheState) :
  reachable ttlMs maxBytes st ->
  truthy url = true -> truthy nzbPayload = true -> utf8Length nzbPayload <= maxBytes ->
  mapGet url (verifiedNzbCacheByUrl st) = None ->
  withinTtl ttlMs now1 now4 -> withinTtl ttlMs now1 g1 -> withinTtl ttlMs now1 g2 ->
  exists e,
    fst (getEntry g1 g2 g3 url (cachePayload now1 now2 now3 now4 url nzbPayload md st))
      = Some e
    /\ payloadBuffer e = nzbPayload /\ size e = utf8Length nzbPayload.
Proof using max_bytes_pos.
  intros Hreach Hu Hp Hfit Hnone H4 Hg1 Hg2.
  pose proof (vreachable_wellFormed st Hreach) as Hwf.
  destruct (vcache_fresh_present now1 now2 now3 now4 g1 url nzbPayload md st
              Hwf Hu Hp Hfit Hnone H4 Hg1) as (e0 & Hget).
  destruct (vcache_lookup now1 now2 now3 now4 g1 url nzbPayload md st e0 Hwf Hu Hp Hfit Hget)
    as (H2 & _ & H3 & _ & H5).
  unfold getVerifiedNzbCacheEntry. rewrite Hu. cbn [negb orb].
  assert (H1 : (maxBytes <=? 0) = false) by (apply Z.leb_gt; lia). rewrite H1, Hget.
  rewrite (vfresh_not_expired now1 g2 e0 H5 Hg2). cbn [fst].
  eexists. split; [reflexivity|]. cbn [touched payloadBuffer size]. auto.
Qed.

End VerifiedFacts.

(** A cache of sixty-four bytes with a time to live of one minute, after one
    payload was stored at second one. *)
Lemma verified_cache_invariant_witness :
  let st := cacheVerifiedNzbPayload 60000 64 1000 1000 1000 1000 "u1" "<nzb/>" noMetadata
              emptyCache in
  verifiedNzbCacheBytes st = sumSizes (verifiedNzbCacheByUrl st)
  /\ verifiedNzbCacheBytes st <= 64.
Proof.
  intros st.
  destruct (verified_cache_invariant 60000 64 ltac:(lia) st
              ltac:(apply reach_cache, reach_empty)) as (H1 & H2 & _).
  split; assumption.
Defined.

Lemma get_returns_live_entry_witness :
  let st := cacheVerifiedNzbPayload 60000 64 1000 1000 1000 1000 "u1" "<nzb/>" noMetadata
              emptyCache in
  let e := {| downloadUrl := "u1"; payloadBuffer := "<nzb/>"; size := 6;
              metadata := noMetadata; expiresAt := Some 61000; createdAt := 1000;
              lastAccess := 2000 |} in
  fst (getVerifiedNzbCacheEntry 60000 64 2000 2000 2000 "u1" st) = Some e
  /\ expired 2000 e = false
  /\ mapGet "u1" (verifiedNzbCacheByUrl
                    (snd (getVerifiedNzbCacheEntry 60000 64 2000 2000 2000 "u1" st)))
     = Some e.
Proof.
  intros st e.
  assert (He : fst (getVerifiedNzbCacheEntry 60000 64 2000 2000 2000 "u1" st) = Some e)
    by reflexivity.
  destruct (get_returns_live_entry 60000 64 ltac:(lia) 2000 2000 2000 "u1" st e
              ltac:(apply reach_cache, reach_empty) He) as (_ & H1 & _ & _ & _ & H2 & _).
  split; [exact He|]. split; assumption.
Defined.

Lemma get_after_cache_payload_witness :
  let st := cacheVerifiedNzbPayload 60000 64 1000 1000 1000 1000 "u1" "<nzb/>" noMetadata
              emptyCache in
  let e := {| downloadUrl := "u1"; payloadBuffer := "<nzb>2</nzb>"; size := 12;
              metadata := noMetadata; expiresAt := Some 61500; createdAt := 1500;
              lastAccess := 2000 |} in
  fst (getVerifiedNzbCacheEntry 60000 64 2000 2000 2000 "u1"
         (cacheVerifiedNzbPayload 60000 64 1500 1500 1500 1500 "u1" "<nzb>2</nzb>"
            noMetadata st)) = Some e
  /\ payloadBuffer e = "<nzb>2</nzb>"%string.
Proof.
  intros st e.
  assert (Hfit : utf8Length "<nzb>2</nzb>" <= 64) by (vm_compute; discriminate).
  assert (He : fst (getVerifiedNzbCacheEntry 60000 64 2000 2000 2000 "u1"
                      (cacheVerifiedNzbPayload 60000 64 1500 1500 1500 1500 "u1"
                         "<nzb>2</nzb>" noMetadata st)) = Some e) by reflexivity.
  destruct (get_after_cache_payload 60000 64 ltac:(lia) 1500 1500 1500 1500 2000 2000 2000
              "u1" "<nzb>2</nzb>" noMetadata st e
              ltac:(apply reach_cache, reach_empty) eq_refl eq_refl Hfit He) as (H1 & _).
  split; [exact He|exact H1].
Defined.

Lemma get_after_cache_hit_witness :
  let st := cacheVerifiedNzbPayload 60000 64 1000 1000 1000 1000 "u1" "<nzb/>" noMetadata
              emptyCache in
  exists e,
    fst (getVerifiedNzbCacheEntry 60000 64 2000 2000 2000 "u2"
           (cacheVerifiedNzbPayload 60000 64 1500 1500 1500 1500 "u2" "<nzb>2</nzb>"
              noMetadata st)) = Some e
    /\ payloadBuffer e = "<nzb>2</nzb>"%string.
Proof.
  intros st.
  assert (Hfit : utf8Length "<nzb>2</nzb>" <= 64) by (vm_compute; discriminate).
  assert (Hin : forall now, now <= 2000 -> withinTtl 60000 1500 now)
    by (unfold withinTtl; intros; lia).
  destruct (get_after_cache_hit 60000 64 ltac:(lia) 1500 1500 1500 1500 2000 2000 2000
              "u2" "<nzb>2</nzb>" noMetadata st
              ltac:(apply reach_cache, reach_empty) eq_refl eq_refl Hfit eq_refl
              (Hin 1500 ltac:(lia)) (Hin 2000 ltac:(lia)) (Hin 2000 ltac:(lia)))
    as (e & H1 & H2 & _).
  exists e. split; assumption.
Defined.

(** *** The file name of a cached payload *)

Lemma dashRuns_safe l : forall inrun, Forall safeNameChar (dashRuns inrun l).
Proof.
  induction l as [|c t IH]; intros inrun; cbn [dashRuns]; [constructor|].
  destruct (is_alnum c) eqn:Hc.
  - constructor; [left; exact Hc|apply IH].
  - destruct inrun; [apply IH|]. constructor; [right; reflexivity|apply IH].
Qed.

Lemma dropDashes_sublist l : dropDashes l `sublist_of` l.
Proof.
  induction l as [|c t IH]; cbn [dropDashes]; [constructor|].
  destruct (Ascii.eqb c "-"); [apply sublist_cons, IH|reflexivity].
Qed.

Lemma dropDashes_head l : head (dropDashes l) <> Some "-"%char.
Proof.
  induction l as [|c t IH]; cbn [dropDashes]; [discriminate|].
  destruct (Ascii.eqb c "-") eqn:Hc; [exact IH|].
  cbn [head]. intros [= ->]. rewrite Ascii.eqb_refl in Hc. discriminate.
Qed.

Lemma dropDashes_keeps_last l c :
  c <> "-"%char -> exists l', dropDashes (l ++ [c]) = l' ++ [c].
Proof.
  intros Hc. induction l as [|a t IH]; cbn [app dropDashes].
  - destruct (Ascii.eqb c "-") eqn:E; [apply Ascii.eqb_eq in E; contradiction|].
    exists []. reflexivity.
  - destruct (Ascii.eqb a "-"); [exact IH|]. exists (a :: t). reflexivity.
Qed.

(** The two anchored replacements leave a list that is empty or starts with
    a letter or a digit. *)
Lemma stripped_shape (replaced : list ascii) :
  Forall safeNameChar replaced ->
  let stripped := rev (dropDashes (rev (dropDashes replaced))) in
  Forall safeNameChar stripped
  /\ (stripped = [] \/ exists c r, stripped = c :: r /\ is_alnum c = true).
Proof.
  intros Hsafe stripped. split.
  - unfold stripped. apply Forall_rev.
    eapply Forall_of_sublist; [apply dropDashes_sublist|]. apply Forall_rev.
    eapply Forall_of_sublist; [apply dropDashes_sublist|exact Hsafe].
  - pose proof (dropDashes_head replaced) as Hhead.
    assert (Hs : Forall safeNameChar (dropDashes replaced))
      by (eapply Forall_of_sublist; [apply dropDashes_sublist|exact Hsafe]).
    unfold stripped. destruct (dropDashes replaced) as [|c t]; [left; reflexivity|].
    right. cbn [head] in Hhead.
    assert (Hc : c <> "-"%char) by (intros ->; apply Hhead; reflexivity).
    cbn [rev]. destruct (dropDashes_keeps_last (rev t) c Hc) as (l' & ->).
    rewrite rev_app_distr. cbn [rev app]. exists c, (rev l'). split; [reflexivity|].
    apply Forall_cons in Hs. destruct Hs as [[Hal | Hd] _]; [exact Hal|contradiction].
Qed.

(** [buildVerifiedNzbFileName]: whatever
    the entry and the fallback title hold, the file name is not empty, has
    at most a hundred characters, consists of letters, digits and hyphens
    only, and starts with a letter or a digit. *)
Theorem buildVerifiedNzbFileName_safe (entry : option verifiedEntry)
    (fallbackTitle : option string) :
  let name := chars (buildVerifiedNzbFileName entry fallbackTitle) in
  (0 < length name <= 100)%nat
  /\ Forall safeNameChar name
  /\ exists c rest, name = c :: rest /\ is_alnum c = true.
Proof.
  unfold buildVerifiedNzbFileName.
  set (preferred := default _ _). clearbody preferred.
  unfold sanitizeFileName.
  destruct (stripped_shape (dashRuns false (chars preferred)) (dashRuns_safe _ false))
    as (Hsafe & Hshape).
  set (stripped := rev (dropDashes (rev (dropDashes (dashRuns false (chars preferred)))))) in *.
  destruct Hshape as [-> | (c & r & -> & Hc)].
  - cbn. split; [lia|]. split.
    + repeat constructor; (left; reflexivity) || (right; reflexivity).
    + eexists _, _. split; reflexivity.
  - replace (firstn 100 (c :: r)) with (c :: firstn 99 r) by reflexivity.
    assert (Ht : truthy (str (c :: firstn 99 r)) = true) by reflexivity.
    rewrite Ht. cbv zeta. unfold chars, str. rewrite list_ascii_of_string_of_list_ascii.
    split; [|split].
    + cbn [length]. pose proof (firstn_le_length 99 r). lia.
    + apply Forall_cons in Hsafe. destruct Hsafe as [H1 H2].
      constructor; [exact H1|]. apply Forall_take. exact H2.
    + exists c, (firstn 99 r). split; [reflexivity|exact Hc].
Qed.

End VerifiedNzbCacheProofs.
(** ** Deduplication: what the pass keeps on every input *)

Module DedupeInvariantProofs.
Import JsString PublishInfo Parsers Result Server DedupeSpec DedupeInvariant.
Local Open Scope Z_scope.

Section Links.
Variable PAID : gset string.

Abbreviation paid := (isResultFromPaidIndexer PAID).
Abbreviation wpm := withPublishMetadata.

Lemma titleKey_wpm r : titleKey (wpm r) = titleKey r.
Proof. unfold titleKey. rewrite DedupeProofs.title_withPublishMetadata. reflexivity. Qed.

Lemma paid_wpm r : paid (wpm r) = paid r.
Proof. apply DedupeProofs.paid_withPublishMetadata. Qed.

Lemma findMatchedEntry_lookup bucket cp : forall pos0 pos e,
  findMatchedEntry bucket cp pos0 = Some (pos, e) ->
  exists i, pos = (pos0 + i)%nat /\ bucket !! i = Some e.
Proof.
  induction bucket as [|e0 rest IH]; intros pos0 pos e H; [discriminate|].
  cbn [findMatchedEntry] in H.
  destruct (areReleasesWithinDays _ _ _).
  - injection H as <- <-. exists 0%nat. split; [lia|reflexivity].
  - destruct (IH _ _ _ H) as (i & -> & Hi). exists (S i). split; [lia|exact Hi].
Qed.

Lemma linked_initial : linked PAID initialState.
Proof.
  split; cbn [initialState buckets deduped]; intros key bucket.
  - intros e H. rewrite lookup_empty in H. discriminate.
  - intros H. rewrite lookup_empty in H. discriminate.
Qed.

(** A replacement keeps the links. *)
Lemma replaceMatched_linked st c bucket pos m flag cp :
  linked PAID st ->
  buckets st !! titleKey c = Some bucket -> bucket !! pos = Some m ->
  flag = paid (wpm c) ->
  linked PAID (replaceMatched st (titleKey c) bucket pos m flag cp (wpm c)).
Proof.
  intros [Hslot Hdist] Hb Hpos ->. unfold replaceMatched.
  destruct (Hslot _ _ m Hb (list_elem_of_lookup_2 _ _ _ Hpos)) as (rm & Hrm & Hkm & _).
  assert (Hlt : (listIndex m < length (deduped st))%nat)
    by (eapply lookup_lt_Some; exact Hrm).
  assert (Hposlt : (pos < length bucket)%nat) by (eapply lookup_lt_Some; exact Hpos).
  split; cbn [buckets deduped].
  - intros key bucket' e Hb' He.
    destruct (decide (key = titleKey c)) as [-> | Hne].
    + rewrite lookup_insert_eq in Hb'. injection Hb' as <-.
      apply list_elem_of_lookup in He. destruct He as (i & Hi).
      destruct (decide (i = pos)) as [-> | Hip].
      * rewrite list_lookup_insert_eq in Hi by exact Hposlt. injection Hi as <-.
        cbn [listIndex isPaid]. exists (wpm c).
        rewrite list_lookup_insert_eq by exact Hlt.
        split; [reflexivity|]. split; [apply titleKey_wpm|reflexivity].
      * rewrite list_lookup_insert_ne in Hi by congruence.
        destruct (Hslot _ _ e Hb (list_elem_of_lookup_2 _ _ _ Hi)) as (r & Hr & Hk & Hp).
        exists r. split; [|split; assumption].
        rewrite list_lookup_insert_ne; [exact Hr|].
        intros Heq. apply Hip.
        eapply (NoDup_lookup (listIndex <$> bucket)); [apply (Hdist _ _ Hb)| |].
        -- rewrite list_lookup_fmap, Hi. reflexivity.
        -- rewrite list_lookup_fmap, Hpos. cbn. rewrite Heq. reflexivity.
    + rewrite lookup_insert_ne in Hb' by congruence.
      destruct (Hslot _ _ e Hb' He) as (r & Hr & Hk & Hp).
      exists r. split; [|split; assumption].
      rewrite list_lookup_insert_ne; [exact Hr|].
      intros Heq. rewrite Heq in Hrm. rewrite Hrm in Hr. injection Hr as <-. congruence.
  - intros key bucket' Hb'.
    destruct (decide (key = titleKey c)) as [-> | Hne].
    + rewrite lookup_insert_eq in Hb'. injection Hb' as <-.
      rewrite list_fmap_insert. cbn [listIndex].
      rewrite list_insert_id; [apply (Hdist _ _ Hb)|].
      rewrite list_lookup_fmap, Hpos. reflexivity.
    + rewrite lookup_insert_ne in Hb' by congruence. apply (Hdist _ _ Hb').
Qed.

(** One step of the pass keeps the links and has one of the three shapes. *)
Lemma dedupeStep_linked st c :
  linked PAID st ->
  linked PAID (dedupeStep PAID st c) /\ stepShape PAID st c (dedupeStep PAID st c).
Proof.
  intros Hl. pose proof Hl as [Hslot Hdist]. unfold dedupeStep.
  fold (titleKey (wpm c)). rewrite titleKey_wpm.
  destruct (truthy (titleKey c)) eqn:Hk; cbn [negb].
  2:{ split; [|apply shape_append; reflexivity].
      split; cbn [buckets deduped].
      - intros key bucket e Hb He. destruct (Hslot _ _ _ Hb He) as (r & Hr & H).
        exists r. split; [|exact H]. apply lookup_app_l_Some. exact Hr.
      - exact Hdist. }
  destruct (findMatchedEntry _ _ 0) as [[pos m]|] eqn:Hm.
  - destruct (findMatchedEntry_lookup _ _ _ _ _ Hm) as (i & -> & Hpos). cbn [Nat.add] in *.
    destruct (buckets st !! titleKey c) as [bucket|] eqn:Hb; cbn [default] in *;
      [|rewrite lookup_nil in Hpos; discriminate].
    destruct (Hslot _ _ m Hb (list_elem_of_lookup_2 _ _ _ Hpos)) as (rm & Hrm & Hkm & Hpm).
    rewrite paid_wpm.
    destruct (paid c) eqn:Hc, (isPaid m) eqn:Hi; cbn [andb negb Bool.eqb].
    + (* both paid *)
      destruct (getPublishMetadataFromResult c) as [pc|].
      * destruct (entryPublishDateMs m) as [pe|]; [destruct (pc >? pe)|].
        -- split; [apply replaceMatched_linked; auto; rewrite paid_wpm; auto|].
           eapply shape_replace; eauto.
        -- split; [exact Hl|]. eapply shape_drop; eauto; intros _; congruence.
        -- split; [apply replaceMatched_linked; auto; rewrite paid_wpm; auto|].
           eapply shape_replace; eauto.
      * split; [exact Hl|]. eapply shape_drop; eauto; intros _; congruence.
    + split; [apply replaceMatched_linked; auto; rewrite paid_wpm; auto|].
      eapply shape_replace; eauto.
    + split; [exact Hl|]. eapply shape_drop; eauto; discriminate.
    + destruct (getPublishMetadataFromResult c) as [pc|].
      * destruct (entryPublishDateMs m) as [pe|]; [destruct (pc >? pe)|].
        -- split; [apply replaceMatched_linked; auto; rewrite paid_wpm; auto|].
           eapply shape_replace; eauto; congruence.
        -- split; [exact Hl|]. eapply shape_drop; eauto; discriminate.
        -- split; [apply replaceMatched_linked; auto; rewrite paid_wpm; auto|].
           eapply shape_replace; eauto; congruence.
      * split; [exact Hl|]. eapply shape_drop; eauto; discriminate.
  - split; [|apply shape_append; reflexivity].
    split; cbn [buckets deduped].
    + intros key bucket e Hb He.
      destruct (decide (key = titleKey c)) as [-> | Hne].
      * rewrite lookup_insert_eq in Hb. injection Hb as <-.
        apply elem_of_app in He. destruct He as [He | He].
        -- destruct (buckets st !! titleKey c) as [bucket|] eqn:Hb; cbn [default] in He;
             [|apply elem_of_nil in He; destruct He].
           destruct (Hslot _ _ _ Hb He) as (r & Hr & H).
           exists r. split; [|exact H]. apply lookup_app_l_Some. exact Hr.
        -- apply list_elem_of_singleton in He. subst e. cbn [listIndex isPaid].
           exists (wpm c). split; [|split; [apply titleKey_wpm|reflexivity]].
           rewrite lookup_app_r by lia. rewrite Nat.sub_diag. reflexivity.
      * rewrite lookup_insert_ne in Hb by congruence.
        destruct (Hslot _ _ _ Hb He) as (r & Hr & H).
        exists r. split; [|exact H]. apply lookup_app_l_Some. exact Hr.
    + intros key bucket Hb.
      destruct (decide (key = titleKey c)) as [-> | Hne].
      * rewrite lookup_insert_eq in Hb. injection Hb as <-.
        rewrite fmap_app. cbn [fmap list_fmap listIndex].
        apply NoDup_app.
        destruct (buckets st !! titleKey c) as [bucket|] eqn:Hb; cbn [default].
        -- split; [apply (Hdist _ _ Hb)|]. split; [|apply NoDup_singleton].
           intros x Hx Hx'. apply list_elem_of_singleton in Hx'. subst x.
           apply list_elem_of_fmap in Hx. destruct Hx as (e & He & Hin).
           destruct (Hslot _ _ _ Hb Hin) as (r & Hr & _).
           apply lookup_lt_Some in Hr. lia.
        -- split; [constructor|]. split; [|apply NoDup_singleton].
           intros x Hx. apply elem_of_nil in Hx. destruct Hx.
      * rewrite lookup_insert_ne in Hb by congruence. apply (Hdist _ _ Hb).
Qed.

Lemma accounted_initial : accounted PAID [] initialState.
Proof.
  split; cbn [initialState deduped].
  - intros r' H. apply elem_of_nil in H. destruct H.
  - constructor.
  - intros r H. apply elem_of_nil in H. destruct H.
  - intros r H. apply elem_of_nil in H. destruct H.
Qed.

Lemma elem_of_insert_cases {A} (l : list A) j x y :
  y ∈ <[j := x]> l -> y = x \/ exists i, i <> j /\ l !! i = Some y.
Proof.
  intros H. apply list_elem_of_lookup in H. destruct H as (i & Hi).
  destruct (decide (i = j)) as [-> | Hne].
  - left. assert (Hlt : (j < length l)%nat).
    { apply lookup_lt_Some in Hi. rewrite length_insert in Hi. exact Hi. }
    rewrite list_lookup_insert_eq in Hi by exact Hlt. congruence.
  - right. exists i. rewrite list_lookup_insert_ne in Hi by congruence. auto.
Qed.

Lemma elem_of_insert_other {A} (l : list A) i j x y :
  i <> j -> l !! i = Some y -> y ∈ <[j := x]> l.
Proof.
  intros Hne Hi. apply (list_elem_of_lookup_2 _ i).
  rewrite list_lookup_insert_ne by congruence. exact Hi.
Qed.

Lemma elem_of_insert_new {A} (l : list A) j x y :
  l !! j = Some y -> x ∈ <[j := x]> l.
Proof.
  intros Hj. apply (list_elem_of_lookup_2 _ j).
  apply list_lookup_insert_eq. eapply lookup_lt_Some. exact Hj.
Qed.

(** A step of one of the three shapes keeps the account of the releases
    that were read. *)
Lemma step_accounted processed st c st' :
  accounted PAID processed st -> stepShape PAID st c st' ->
  accounted PAID (processed ++ [c]) st'.
Proof.
  intros [Hfrom Horder Htitle Huntitled] [Happ | j r Hsame Hj Hk Ht Hp | j r Hrep Hj Hk Ht Hp].
  - split; rewrite Happ.
    + intros r' Hr'. apply elem_of_app in Hr'. destruct Hr' as [Hr' | Hr'].
      * destruct (Hfrom _ Hr') as (r & Hr & ->). exists r.
        split; [apply elem_of_app; left; exact Hr|reflexivity].
      * apply list_elem_of_singleton in Hr'. subst r'. exists c.
        split; [apply elem_of_app; right; apply list_elem_of_singleton; reflexivity|reflexivity].
    + rewrite !fmap_app. apply sublist_app; [exact Horder|]. cbn.
      rewrite titleKey_wpm. reflexivity.
    + intros r Hr. apply elem_of_app in Hr. destruct Hr as [Hr | Hr].
      * destruct (Htitle _ Hr) as (r' & Hr' & H). exists r'.
        split; [apply elem_of_app; left; exact Hr'|exact H].
      * apply list_elem_of_singleton in Hr. subst r. exists (wpm c).
        split; [apply elem_of_app; right; apply list_elem_of_singleton; reflexivity|].
        split; [apply titleKey_wpm|]. rewrite paid_wpm. auto.
    + intros r Hr Hu. apply elem_of_app in Hr. apply elem_of_app. destruct Hr as [Hr | Hr].
      * left. apply Huntitled; assumption.
      * right. apply list_elem_of_singleton in Hr. subst r.
        apply list_elem_of_singleton. reflexivity.
  - split; rewrite Hsame.
    + intros r' Hr'. destruct (Hfrom _ Hr') as (r0 & Hr0 & ->). exists r0.
      split; [apply elem_of_app; left; exact Hr0|reflexivity].
    + rewrite fmap_app. apply sublist_inserts_r. exact Horder.
    + intros r0 Hr0. apply elem_of_app in Hr0. destruct Hr0 as [Hr0 | Hr0].
      * apply Htitle, Hr0.
      * apply list_elem_of_singleton in Hr0. subst r0. exists r.
        split; [eapply list_elem_of_lookup_2; exact Hj|]. split; [exact Hk|exact Hp].
    + intros r0 Hr0 Hu. apply elem_of_app in Hr0. destruct Hr0 as [Hr0 | Hr0].
      * apply Huntitled; assumption.
      * apply list_elem_of_singleton in Hr0. subst r0. congruence.
  - split; rewrite Hrep.
    + intros r' Hr'. apply elem_of_insert_cases in Hr'.
      destruct Hr' as [-> | (i & _ & Hi)].
      * exists c. split; [|reflexivity].
        apply elem_of_app. right. apply list_elem_of_singleton. reflexivity.
      * destruct (Hfrom r' (list_elem_of_lookup_2 _ _ _ Hi)) as (r0 & Hr0 & ->). exists r0.
        split; [apply elem_of_app; left; exact Hr0|reflexivity].
    + rewrite list_fmap_insert, titleKey_wpm, fmap_app.
      rewrite list_insert_id by (rewrite list_lookup_fmap, Hj; cbn; congruence).
      apply sublist_inserts_r. exact Horder.
    + intros r0 Hr0. apply elem_of_app in Hr0. destruct Hr0 as [Hr0 | Hr0].
      * destruct (Htitle _ Hr0) as (r' & Hr' & Hk' & Hp').
        apply list_elem_of_lookup in Hr'. destruct Hr' as (i & Hi).
        destruct (decide (i = j)) as [-> | Hne].
        -- assert (r' = r) by congruence. subst r'. exists (wpm c).
           split; [eapply elem_of_insert_new; exact Hj|].
           split; [rewrite titleKey_wpm; congruence|].
           rewrite paid_wpm. auto.
        -- exists r'. split; [eapply elem_of_insert_other; eassumption|]. auto.
      * apply list_elem_of_singleton in Hr0. subst r0. exists (wpm c).
        split; [eapply elem_of_insert_new; exact Hj|].
        split; [apply titleKey_wpm|]. rewrite paid_wpm. auto.
    + intros r0 Hr0 Hu. apply elem_of_app in Hr0. destruct Hr0 as [Hr0 | Hr0].
      * pose proof (Huntitled _ Hr0 Hu) as Hin.
        apply list_elem_of_lookup in Hin. destruct Hin as (i & Hi).
        apply (elem_of_insert_other _ i); [|exact Hi].
        intros ->. assert (r = wpm r0) by congruence. subst r.
        rewrite titleKey_wpm in Hk. congruence.
      * apply list_elem_of_singleton in Hr0. subst r0. congruence.
Qed.

Lemma dedupe_fold rest : forall processed st,
  linked PAID st -> accounted PAID processed st ->
  accounted PAID (processed ++ rest) (fold_left (dedupeStep PAID) rest st).
Proof.
  induction rest as [|c rest IH]; intros processed st Hl Ha; cbn [fold_left].
  - rewrite app_nil_r. exact Ha.
  - destruct (dedupeStep_linked st c Hl) as (Hl' & Hshape).
    replace (processed ++ c :: rest) with ((processed ++ [c]) ++ rest)
      by (rewrite <- app_assoc; reflexivity).
    apply IH; [exact Hl'|]. eapply step_accounted; eassumption.
Qed.

Lemma dedupe_accounted results :
  accounted PAID results (fold_left (dedupeStep PAID) results initialState).
Proof. apply (dedupe_fold results [] initialState linked_initial accounted_initial). Qed.

End Links.

(** [dedupeResultsByTitle] on any input: the pass returns
    only releases of the input (with their publish instant written back), no
    more of them than it was given and with their normalized titles in the
    order of the input; every release of the input is still represented by
    a release of the same normalized title, and by one from a paid indexer
    if it came from a paid indexer itself; a release without a normalized
    title is always kept. *)
Theorem dedupe_keeps_every_title (PAID : gset string) (results : list nzbResult) :
  let out := dedupeResultsByTitle PAID results in
  (forall r', In r' out -> exists r, In r results /\ r' = withPublishMetadata r)
  /\ map titleKey out `sublist_of` map titleKey results
  /\ (length out <= length results)%nat
  /\ (forall r, In r results ->
        exists r', In r' out /\ titleKey r' = titleKey r
                   /\ (isResultFromPaidIndexer PAID r = true ->
                       isResultFromPaidIndexer PAID r' = true))
  /\ (forall r, In r results -> truthy (titleKey r) = false ->
        In (withPublishMetadata r) out).
Proof.
  intros out. destruct (dedupe_accounted PAID results) as [Hfrom Horder Htitle Huntitled].
  fold (dedupeResultsByTitle PAID results) in *. fold out in Hfrom, Horder, Htitle, Huntitled.
  split; [|split; [|split; [|split]]].
  - intros r' Hr'. apply list_elem_of_In in Hr'. destruct (Hfrom _ Hr') as (r & Hr & ->).
    exists r. split; [apply list_elem_of_In; exact Hr|reflexivity].
  - exact Horder.
  - apply sublist_length in Horder. rewrite !length_fmap in Horder. exact Horder.
  - intros r Hr. apply list_elem_of_In in Hr. destruct (Htitle _ Hr) as (r' & Hr' & H).
    exists r'. split; [apply list_elem_of_In; exact Hr'|exact H].
  - intros r Hr Hu. apply list_elem_of_In, Huntitled; [apply list_elem_of_In; exact Hr|exact Hu].
Qed.


End DedupeInvariantProofs.
(** ** The counters of a triage run *)

Module TriageCounterProofs.
Import JsString Triage TriageRunner TriageRun TriageCounters.

Section Counters.
Variable selectedCandidates : list candidate.
Variable startTs : Z.
Variable timeBudgetMs : Z.
Variable captureNzbPayloads : bool.
Variable downloadConcurrency : nat.

Abbreviation n := (length selectedCandidates).
Abbreviation loopHead' := (loopHead selectedCandidates startTs timeBudgetMs).
Abbreviation step' := (step selectedCandidates startTs timeBudgetMs captureNzbPayloads).
Abbreviation run' := (run selectedCandidates startTs timeBudgetMs captureNzbPayloads).
Abbreviation flag := (fun wk : worker => if inFlightWorker wk then 1 else 0)%nat.

Lemma inFlight_insert (ws : list worker) : forall w old new,
  ws !! w = Some old ->
  (list_sum (map flag (<[w := new]> ws)) + flag old = list_sum (map flag ws) + flag new)%nat.
Proof.
  induction ws as [|x ws IH]; intros w old new Hw; [discriminate|].
  destruct w as [|w]; simpl in Hw |- *.
  - injection Hw as ->. unfold list_sum. simpl. lia.
  - specialize (IH w old new Hw). unfold list_sum in IH |- *. simpl. lia.
Qed.

(** The head of the loop leaves the two counters as they are, and moves the
    cursor by at least one when it starts a download. *)
Lemma loopHead_counters now w (st : runState) old :
  workers st !! w = Some old -> (cursor st <= n)%nat ->
  evaluatedCount (loopHead' now w st) = evaluatedCount st
  /\ fetchFailures (loopHead' now w st) = fetchFailures st
  /\ (cursor (loopHead' now w st) <= n)%nat
  /\ (inFlightCount (loopHead' now w st) + flag old + cursor st
      <= inFlightCount st + cursor (loopHead' now w st))%nat.
Proof.
  intros Hw Hcur. unfold loopHead, inFlightCount.
  pose proof (TriageRunProofs.takeNext_spec selectedCandidates startTs timeBudgetMs now _
                (cursor st) (timedOut st) (decisionMap st) eq_refl Hcur) as Hspec.
  cbn zeta in Hspec.
  destruct (takeNext startTs timeBudgetMs now (drop (cursor st) selectedCandidates)
              (cursor st) (timedOut st) (decisionMap st)) as [[[wk cur'] expired'] dm'].
  cbn [fst snd] in Hspec. destruct Hspec as (Hrange & Hwk & _).
  cbn [cursor workers evaluatedCount fetchFailures].
  pose proof (inFlight_insert (workers st) w old wk Hw) as Hsum.
  split; [reflexivity|]. split; [reflexivity|]. split; [lia|].
  destruct Hwk as [[-> _] | (-> & Hlt & _)]; cbn [inFlightWorker] in Hsum; lia.
Qed.

(** The counted candidates and the ones in flight are all before the
    cursor, and stay so in every turn. *)
Lemma step_counters ev (st st' : runState) :
  (cursor st <= n)%nat ->
  (evaluatedCount st + fetchFailures st + inFlightCount st <= cursor st)%nat ->
  step' ev st = Some st' ->
  (cursor st' <= n)%nat
  /\ (evaluatedCount st' + fetchFailures st' + inFlightCount st' <= cursor st')%nat.
Proof.
  intros Hcur Hk Hstep.
  destruct ev as [w now | w now result | w now result]; cbn [step] in Hstep.
  - destruct (workers st !! w) as [[| | |]|] eqn:Hw; try discriminate.
    injection Hstep as <-.
    destruct (loopHead_counters now w st NotStarted Hw Hcur) as (-> & -> & Hn & H).
    cbn [inFlightWorker] in H. lia.
  - destruct (workers st !! w) as [[|index|index payload|]|] eqn:Hw; try discriminate.
    destruct (selectedCandidates !! index) as [c|] eqn:Hc; [|discriminate].
    injection Hstep as <-. unfold afterDownload.
    destruct result as [payload|message].
    + destruct (negb (truthy payload)).
      * destruct (loopHead_counters now w
                    (withDecision c (fetchErrorDecision c "Empty NZB payload")
                       (countFailure st)) _ Hw Hcur) as (-> & -> & Hn & H).
        cbn [inFlightWorker withDecision countFailure cursor evaluatedCount fetchFailures]
          in H |- *.
        unfold inFlightCount in *. cbn [workers withDecision countFailure] in H. lia.
      * cbn zeta. destruct (timeBudgetMs - (now - startTs) <=? 0)%Z.
        -- destruct (loopHead_counters now w
                       (withDecision c (makeTimeoutDecision c) (withTimedOut st))
                       _ Hw Hcur) as (-> & -> & Hn & H).
           cbn [inFlightWorker withDecision withTimedOut cursor evaluatedCount fetchFailures]
             in H |- *.
           unfold inFlightCount in *. cbn [workers withDecision withTimedOut] in H. lia.
        -- unfold setWorker, inFlightCount in *.
           cbn [cursor workers evaluatedCount fetchFailures].
           pose proof (inFlight_insert (workers st) w _ (Analyzing index payload) Hw) as H.
           cbn [inFlightWorker] in H. lia.
    + destruct (loopHead_counters now w
                  (withDecision c (fetchErrorDecision c message) (countFailure st))
                  _ Hw Hcur) as (-> & -> & Hn & H).
      cbn [inFlightWorker withDecision countFailure cursor evaluatedCount fetchFailures]
        in H |- *.
      unfold inFlightCount in *. cbn [workers withDecision countFailure] in H. lia.
  - destruct (workers st !! w) as [[|index|index payload|]|] eqn:Hw; try discriminate.
    destruct (selectedCandidates !! index) as [c|] eqn:Hc; [|discriminate].
    injection Hstep as <-. unfold afterAnalysis.
    destruct result as [d| |[|] message]; cbn zeta;
      match goal with
      | |- context [loopHead' now w ?st2] =>
          destruct (loopHead_counters now w st2 _ Hw Hcur) as (-> & -> & Hn & H)
      end;
      cbn [inFlightWorker withDecision withTimedOut countEvaluated cursor evaluatedCount
           fetchFailures] in H |- *;
      unfold inFlightCount in *;
      cbn [workers withDecision withTimedOut countEvaluated] in H; lia.
Qed.

Lemma run_counters evs : forall st st' : runState,
  (cursor st <= n)%nat ->
  (evaluatedCount st + fetchFailures st + inFlightCount st <= cursor st)%nat ->
  run' evs st = Some st' ->
  (cursor st' <= n)%nat
  /\ (evaluatedCount st' + fetchFailures st' + inFlightCount st' <= cursor st')%nat.
Proof.
  induction evs as [|ev evs IH]; intros st st' Hcur Hk Hrun; cbn [run] in Hrun.
  - injection Hrun as <-. auto.
  - destruct (step' ev st) as [st1|] eqn:Hstep; [|discriminate].
    destruct (step_counters ev st st1 Hcur Hk Hstep) as (Hcur1 & Hk1).
    apply (IH st1 st' Hcur1 Hk1 Hrun).
Qed.

Lemma initial_counters :
  inFlightCount (initialState downloadConcurrency) = 0%nat.
Proof.
  unfold inFlightCount, initialState. cbn [workers].
  induction downloadConcurrency as [|k IH]; [reflexivity|].
  cbn [replicate map inFlightWorker]. unfold list_sum in *. simpl. exact IH.
Qed.

(** The counters of [triageAndRank]: at
    every turn of a run the candidates counted as evaluated, those counted as
    fetch failures and those a worker is busy with are all before the cursor,
    which stays within the list; so the [evaluatedCount] and the
    [fetchFailures] that [triageAndRank] reports never add up to more than
    its [candidatesConsidered]. *)
Theorem triage_counters_bounded (evs : list event) (st : runState) :
  run' evs (initialState downloadConcurrency) = Some st ->
  (evaluatedCount st + fetchFailures st + inFlightCount st <= cursor st <= n)%nat
  /\ forall out,
       triageAndRank selectedCandidates startTs timeBudgetMs captureNzbPayloads
         downloadConcurrency evs = Some out ->
       (outcomeEvaluatedCount out + outcomeFetchFailures out <= candidatesConsidered out)%nat.
Proof.
  intros Hrun.
  destruct (run_counters evs (initialState downloadConcurrency) st) as (Hcur & Hk);
    [cbn; lia|rewrite initial_counters; cbn; lia|exact Hrun|].
  split; [lia|].
  intros out Hout. unfold triageAndRank in Hout.
  destruct selectedCandidates as [|c0 cs] eqn:Hsel.
  - injection Hout as <-. cbn. lia.
  - rewrite <- Hsel in *. rewrite Hrun in Hout.
    destruct (allFinished st); [|discriminate]. injection Hout as <-.
    cbn [finish outcomeEvaluatedCount outcomeFetchFailures candidatesConsidered]. lia.
Qed.

End Counters.

(** Two workers on three candidates: one analysis, one fetch failure. *)
Lemma triage_counters_bounded_witness :
  exists out,
    triageAndRank threeCandidates 0 100 false 2 mixedSchedule = Some out
    /\ outcomeEvaluatedCount out = 1%nat /\ outcomeFetchFailures out = 1%nat
    /\ (outcomeEvaluatedCount out + outcomeFetchFailures out <= candidatesConsidered out)%nat.
Proof.
  destruct (run threeCandidates 0 100 false mixedSchedule (initialState 2)) as [st|] eqn:Hrun;
    [|vm_compute in Hrun; discriminate].
  destruct (triage_counters_bounded threeCandidates 0 100 false 2 mixedSchedule st Hrun)
    as (_ & Hout).
  destruct (triageAndRank threeCandidates 0 100 false 2 mixedSchedule) as [out|] eqn:Hres;
    [|vm_compute in Hres; discriminate].
  exists out. split; [reflexivity|].
  pose proof (Hout out eq_refl) as Hle.
  vm_compute in Hres. injection Hres as <-.
  split; [reflexivity|]. split; [reflexivity|]. exact Hle.
Defined.

End TriageCounterProofs.
(** ** The list of preferred languages *)

Module LanguageListProofs.
Import JsString Result Helpers.

Lemma existsb_eqb_seen key seen :
  existsb (String.eqb key) seen = true <-> In key seen.
Proof.
  rewrite existsb_exists. split.
  - intros (k & Hk & Heq). apply String.eqb_eq in Heq. subst k. exact Hk.
  - intros Hk. exists key. split; [exact Hk|apply String.eqb_refl].
Qed.

(** The values kept are new to [seen] and differ from each other, letter
    case apart. *)
Lemma collectPreferred_distinct entries : forall seen,
  NoDup (map toLowerCase (collectPreferred seen entries))
  /\ forall v, In v (collectPreferred seen entries) -> ~ In (toLowerCase v) seen.
Proof.
  induction entries as [|e rest IH]; intros seen; cbn [collectPreferred].
  - split; [constructor|intros v []].
  - destruct (truthy (trim e)); cbn [negb]; [|apply IH].
    destruct (existsb (String.eqb (toLowerCase (trim e))) seen) eqn:Hseen; [apply IH|].
    destruct (IH (toLowerCase (trim e) :: seen)) as (Hnd & Hnew).
    split.
    + cbn [map]. apply NoDup_cons. split; [|exact Hnd].
      intros Hin. apply list_elem_of_In, in_map_iff in Hin. destruct Hin as (v & Hv & Hin).
      apply (Hnew v Hin). left. symmetry. exact Hv.
    + intros v [<- | Hv].
      * intros Hin. apply existsb_eqb_seen in Hin. congruence.
      * intros Hin. apply (Hnew v Hv). right. exact Hin.
Qed.

Lemma collectPreferred_sublist entries : forall seen,
  collectPreferred seen entries `sublist_of` map trim entries.
Proof.
  induction entries as [|e rest IH]; intros seen; cbn [collectPreferred map]; [constructor|].
  destruct (truthy (trim e)); cbn [negb]; [|apply sublist_cons, IH].
  destruct (existsb _ seen); [apply sublist_cons, IH|apply sublist_skip, IH].
Qed.

(** [normalizePreferredLanguageList]: the list of
    preferences holds trimmed, non-empty values that differ from each other
    even when letter case is ignored; for an array argument they are
    entries of the array in their order, and every entry that is not blank
    is represented by a value that equals it up to letter case. *)
Theorem normalizePreferredLanguageList_distinct (preferredLanguages : preferredInput) :
  let out := normalizePreferredLanguageList preferredLanguages in
  NoDup (map toLowerCase out)
  /\ Forall (fun v => trim v = v /\ truthy v = true) out
  /\ forall entries, preferredLanguages = PrefArray entries ->
       out `sublist_of` map trim entries
       /\ forall e, In e entries -> truthy (trim e) = true ->
            exists v, In v out /\ toLowerCase v = toLowerCase (trim e).
Proof.
  intros out. split; [|split].
  - unfold out. destruct preferredLanguages as [|entries|csv];
      cbn [normalizePreferredLanguageList].
    + constructor.
    + apply collectPreferred_distinct.
    + destruct (truthy csv); [apply collectPreferred_distinct|constructor].
  - apply Forall_forall. intros v Hv. apply list_elem_of_In in Hv.
    apply (SortProofs.normalize_elem preferredLanguages v Hv).
  - intros entries ->. unfold out. cbn [normalizePreferredLanguageList]. split.
    + apply collectPreferred_sublist.
    + intros e He Ht.
      destruct (SortProofs.collectPreferred_cover entries [] e He Ht) as [[] | H]. exact H.
Qed.

End LanguageListProofs.
(** ** Paths *)

Module PathParserProofs.
Import JsString PathParsers.

Lemma last_rev_head {A} (l : list A) : last (rev l) = head l.
Proof. destruct l as [|c t]; [reflexivity|]. cbn [rev head]. apply last_snoc. Qed.

Lemma slashes_clean l : Forall (fun c => is_backslash c = false) (slashes l).
Proof.
  induction l as [|c t IH]; cbn [slashes map]; constructor; [|exact IH].
  destruct (is_backslash c) eqn:Hc; [reflexivity|exact Hc].
Qed.

Lemma slashes_id l : Forall (fun c => is_backslash c = false) l -> slashes l = l.
Proof.
  induction 1 as [|c t Hc _ IH]; cbn [slashes map]; [reflexivity|].
  rewrite Hc. f_equal. exact IH.
Qed.

(** The path in its normal form: it starts with a slash and holds no
    backslash. *)
Lemma normalizeNzbdavPath_form pathValue :
  exists l, normalizeNzbdavPath pathValue = str ("/"%char :: l)
            /\ Forall (fun c => is_backslash c = false) l.
Proof.
  destruct pathValue as [p|]; cbn [normalizeNzbdavPath]; [|exists []; split; [reflexivity|constructor]].
  destruct (truthy p); cbn [negb]; [|exists []; split; [reflexivity|constructor]].
  pose proof (slashes_clean (chars p)) as Hclean. unfold startsWith. rewrite SortProofs.chars_str.
  destruct (slashes (chars p)) as [|c t] eqn:Hl; cbn [prefix_at chars list_ascii_of_string].
  - exists []. split; [reflexivity|constructor].
  - destruct (Ascii.eqb "/" c) eqn:Hc; cbn [andb].
    + apply Ascii.eqb_eq in Hc. subst c. exists t. split; [reflexivity|].
      apply Forall_cons in Hclean. apply Hclean.
    + exists (c :: t). split; [reflexivity|exact Hclean].
Qed.

(** [normalizeNzbdavPath]: the normalized path starts
    with a slash and holds no backslash, and normalizing it again changes
    nothing. *)
Theorem normalizeNzbdavPath_idempotent (pathValue : option string) :
  let out := normalizeNzbdavPath pathValue in
  startsWith out "/" = true
  /\ Forall (fun c => is_backslash c = false) (chars out)
  /\ normalizeNzbdavPath (Some out) = out.
Proof.
  intros out. destruct (normalizeNzbdavPath_form pathValue) as (l & Hout & Hclean).
  fold out in Hout. rewrite Hout.
  assert (Hall : Forall (fun c => is_backslash c = false) ("/"%char :: l))
    by (constructor; [reflexivity|exact Hclean]).
  split; [reflexivity|]. split; [rewrite SortProofs.chars_str; exact Hall|].
  cbn [normalizeNzbdavPath]. rewrite SortProofs.chars_str, (slashes_id _ Hall).
  reflexivity.
Qed.

Lemma drop_slashes_split l :
  exists pre, l = pre ++ drop_slashes l /\ Forall (fun c => is_slash c = true) pre.
Proof.
  induction l as [|c t IH]; cbn [drop_slashes]; [exists []; split; [reflexivity|constructor]|].
  destruct (is_slash c) eqn:Hc.
  - destruct IH as (pre & Hl & Hpre). exists (c :: pre). split.
    + cbn [app]. rewrite <- Hl. reflexivity.
    + constructor; assumption.
  - exists []. split; [reflexivity|constructor].
Qed.

Lemma drop_slashes_stop l :
  match drop_slashes l with c :: _ => is_slash c = false | [] => True end.
Proof.
  induction l as [|c t IH]; cbn [drop_slashes]; [exact I|].
  destruct (is_slash c) eqn:Hc; [exact IH|exact Hc].
Qed.

Lemma drop_slashes_id l :
  match l with c :: _ => is_slash c = false | [] => True end -> drop_slashes l = l.
Proof. destruct l as [|c t]; [reflexivity|]. cbn [drop_slashes]. intros ->. reflexivity. Qed.

(** [stripTrailingSlashes]: the result is the URL
    without the slashes at its end, and nothing else is removed: the URL is
    the result followed by slashes only, the result does not end with a
    slash, and stripping it again changes nothing. *)
Theorem stripTrailingSlashes_spec (url : string) :
  let out := stripTrailingSlashes url in
  (exists tail, chars url = chars out ++ tail /\ Forall (fun c => is_slash c = true) tail)
  /\ last (chars out) <> Some "/"%char
  /\ stripTrailingSlashes out = out.
Proof.
  intros out. unfold out, stripTrailingSlashes. rewrite SortProofs.chars_str.
  destruct (drop_slashes_split (rev (chars url))) as (pre & Hsplit & Hpre).
  pose proof (drop_slashes_stop (rev (chars url))) as Hstop.
  set (kept := drop_slashes (rev (chars url))) in *.
  split; [|split].
  - exists (rev pre). split.
    + rewrite <- (rev_involutive (chars url)), Hsplit, rev_app_distr. reflexivity.
    + apply Forall_rev. exact Hpre.
  - rewrite last_rev_head. destruct kept as [|c t]; [discriminate|].
    cbn [head]. intros [= ->]. discriminate Hstop.
  - rewrite rev_involutive, (drop_slashes_id kept Hstop). reflexivity.
Qed.

End PathParserProofs.
(** ** The shape of a normalized title *)

Module TitleShapeProofs.
Import JsString Parsers TitleShape.

Abbreviation plainChar := (fun c : ascii => is_alnum c || is_ws c = true).

(** What the character classes of [normalizeReleaseTitle] do on each of the
    256 characters. *)
Lemma char_facts (c : ascii) :
  is_ws (lower_char c) = is_ws c
  /\ (plainChar c -> titleChar (lower_char c))
  /\ (titleChar c ->
      lower_char c = c /\ is_sep c = false /\ is_quote c = false
      /\ is_bracket c = false /\ is_other c = false /\ ascii_eqb_ci "." c = false).
Proof.
  unfold titleChar.
  destruct c as [[] [] [] [] [] [] [] []]; vm_compute;
    (split; [reflexivity|split; [intros H; first [reflexivity|discriminate H]|]]);
    intros H; first [discriminate H|repeat split; reflexivity].
Qed.

Lemma replace_runs_other l : forall inrun,
  Forall plainChar (replace_runs is_other inrun l).
Proof.
  induction l as [|c t IH]; intros inrun; cbn [replace_runs]; [constructor|].
  destruct (is_other c) eqn:Hc.
  - destruct inrun; [apply IH|]. constructor; [reflexivity|apply IH].
  - constructor; [|apply IH]. unfold is_other in Hc.
    apply negb_false_iff in Hc. exact Hc.
Qed.

Lemma singleSpaced_cons c rest :
  is_ws c = false -> singleSpaced rest -> singleSpaced (c :: rest).
Proof.
  intros Hc Hrest. destruct rest as [|b t]; [exact I|].
  split; [|exact Hrest]. intros H. congruence.
Qed.

Lemma collapse_ws_shape l : forall pending many,
  Forall plainChar l ->
  (forall c0, pending = Some c0 -> is_ws c0 = true) ->
  Forall plainChar (collapse_ws pending many l)
  /\ singleSpaced (collapse_ws pending many l).
Proof.
  induction l as [|c t IH]; intros pending many Hl Hp; cbn [collapse_ws].
  - destruct pending as [c0|]; cbn [flush_ws]; [|split; [constructor|exact I]].
    split; [|exact I]. constructor; [|constructor].
    destruct many; [reflexivity|]. rewrite (Hp c0 eq_refl). apply orb_true_r.
  - apply Forall_cons in Hl. destruct Hl as [Hc Hl].
    destruct (is_ws c) eqn:Hws.
    + destruct pending as [c0|]; apply IH; try exact Hl.
      * intros c1 [= <-]. apply (Hp c0 eq_refl).
      * intros c1 [= <-]. exact Hws.
    + destruct (IH None false Hl ltac:(discriminate)) as (Hall & Hsp).
      assert (Hc' : plainChar c) by (cbn beta; rewrite Hws; exact Hc).
      pose proof (singleSpaced_cons c _ Hws Hsp) as Hsp'.
      destruct pending as [c0|]; cbn [flush_ws app].
      * split.
        -- constructor; [|constructor; assumption].
           destruct many; [reflexivity|]. rewrite (Hp c0 eq_refl). apply orb_true_r.
        -- split; [intros _; exact Hws|exact Hsp'].
      * split; [constructor; assumption|exact Hsp'].
Qed.

Lemma singleSpaced_app a : forall b,
  singleSpaced (a ++ b) -> singleSpaced a /\ singleSpaced b.
Proof.
  induction a as [|x a IH]; intros b H; cbn [app] in *; [split; [exact I|exact H]|].
  destruct a as [|y a].
  - cbn [app] in H. split; [exact I|]. destruct b as [|z b]; [exact I|]. apply H.
  - cbn [app] in H, IH. destruct H as (Hxy & H). destruct (IH b H) as (Ha & Hb).
    split; [split; assumption|exact Hb].
Qed.

Lemma drop_ws_split l : exists pre, l = pre ++ drop_ws l.
Proof.
  induction l as [|c t IH]; cbn [drop_ws]; [exists []; reflexivity|].
  destruct (is_ws c); [|exists []; reflexivity].
  destruct IH as (pre & Hl). exists (c :: pre). cbn [app]. rewrite <- Hl. reflexivity.
Qed.

Lemma trim_chars_split l : exists pre post, l = pre ++ trim_chars l ++ post.
Proof.
  unfold trim_chars. destruct (drop_ws_split l) as (pre & Hl).
  destruct (drop_ws_split (rev (drop_ws l))) as (pre2 & Hr).
  exists pre, (rev pre2). rewrite <- rev_app_distr, <- Hr, rev_involutive. exact Hl.
Qed.

Lemma head_rev_last {A} (l : list A) : head (rev l) = last l.
Proof.
  rewrite <- (rev_involutive l) at 2. symmetry. apply PathParserProofs.last_rev_head.
Qed.

Lemma drop_ws_notSpace l : notSpace (head (drop_ws l)).
Proof.
  destruct (SortProofs.drop_ws_head l) as [-> | (c & t & -> & Hc)]; [exact I|exact Hc].
Qed.

Lemma trim_chars_ends l : notSpace (head (trim_chars l)) /\ notSpace (last (trim_chars l)).
Proof.
  split.
  - unfold trim_chars.
    destruct (SortProofs.drop_ws_head l) as [-> | (c & t & -> & Hc)]; [exact I|].
    cbn [rev]. rewrite (SortProofs.drop_ws_snoc _ _ Hc), rev_app_distr. exact Hc.
  - unfold trim_chars. rewrite PathParserProofs.last_rev_head. apply drop_ws_notSpace.
Qed.

Lemma drop_ws_id l : notSpace (head l) -> drop_ws l = l.
Proof. destruct l as [|c t]; [reflexivity|]. cbn [head notSpace drop_ws]. intros ->. reflexivity. Qed.

Lemma trim_chars_id l : notSpace (head l) -> notSpace (last l) -> trim_chars l = l.
Proof.
  intros Hh Hl. unfold trim_chars. rewrite (drop_ws_id l Hh).
  rewrite drop_ws_id by (rewrite head_rev_last; exact Hl). apply rev_involutive.
Qed.

Lemma lower_chars_shape l :
  Forall plainChar l -> singleSpaced l -> notSpace (head l) -> notSpace (last l) ->
  normalTitle (lower_chars l).
Proof.
  intros Hall Hsp Hh Hl. unfold lower_chars. split.
  - clear Hsp Hh Hl. induction Hall as [|c t Hc _ IH]; cbn [map]; [constructor|].
    constructor; [apply (char_facts c), Hc|exact IH].
  - clear Hall Hh Hl. induction l as [|a t IH]; [exact I|].
    destruct t as [|b t]; [exact I|]. cbn [map] in *. destruct Hsp as (Hab & Hsp).
    split; [|apply IH, Hsp].
    destruct (char_facts a) as (-> & _), (char_facts b) as (-> & _). exact Hab.
  - destruct l as [|c t]; [exact I|]. cbn [map head notSpace] in *.
    destruct (char_facts c) as (-> & _). exact Hh.
  - clear Hall Hsp Hh. induction l as [|a t IH]; [exact I|].
    destruct t as [|b t].
    + cbn in *. destruct (char_facts a) as (-> & _). exact Hl.
    + cbn [map] in *. rewrite last_cons_cons in *. apply IH, Hl.
Qed.

Lemma normalTitle_nil : normalTitle [].
Proof. split; try exact I. constructor. Qed.

Lemma Forall_app_inv {A} (P : A -> Prop) (a b : list A) :
  Forall P (a ++ b) -> Forall P a /\ Forall P b.
Proof. apply Forall_app. Qed.

Lemma normalizeReleaseTitle_shape title :
  normalTitle (chars (normalizeReleaseTitle title)).
Proof.
  destruct title as [t|]; cbn [normalizeReleaseTitle]; [|apply normalTitle_nil].
  destruct (trim_chars (chars t)) as [|c0 raw]; [apply normalTitle_nil|].
  set (passes := replace_each is_bracket _).
  destruct (collapse_ws_shape (replace_runs is_other false passes) None false
              (replace_runs_other _ false) ltac:(discriminate)) as (Hall & Hsp).
  set (w := collapse_ws None false _) in *.
  unfold chars, str. rewrite list_ascii_of_string_of_list_ascii.
  destruct (trim_chars_split w) as (pre & post & Hw).
  destruct (trim_chars_ends w) as (Hh & Hl).
  rewrite Hw in Hall, Hsp.
  apply Forall_app_inv in Hall. destruct Hall as (_ & Hall).
  apply Forall_app_inv in Hall. destruct Hall as (Hall & _).
  apply singleSpaced_app in Hsp. destruct Hsp as (_ & Hsp).
  apply singleSpaced_app in Hsp. destruct Hsp as (Hsp & _).
  apply lower_chars_shape; assumption.
Qed.

Lemma replace_runs_id p l :
  Forall (fun c => p c = false) l -> forall inrun, replace_runs p inrun l = l.
Proof.
  induction 1 as [|c t Hc _ IH]; intros inrun; cbn [replace_runs]; [reflexivity|].
  rewrite Hc. f_equal. apply IH.
Qed.

Lemma replace_each_id p l : Forall (fun c => p c = false) l -> replace_each p l = l.
Proof.
  induction 1 as [|c t Hc _ IH]; cbn [replace_each map]; [reflexivity|].
  rewrite Hc. f_equal. exact IH.
Qed.

Lemma collapse_ws_id l :
  singleSpaced l ->
  collapse_ws None false l = l
  /\ forall c0, notSpace (head l) -> collapse_ws (Some c0) false l = c0 :: l.
Proof.
  induction l as [|c t IH]; intros Hsp; cbn [collapse_ws flush_ws].
  - split; [reflexivity|intros c0 _; reflexivity].
  - assert (Ht : singleSpaced t) by (destruct t; [exact I|apply Hsp]).
    destruct (IH Ht) as (IH1 & IH2).
    destruct (is_ws c) eqn:Hc.
    + split.
      * rewrite IH2; [reflexivity|]. destruct t as [|b t]; [exact I|]. apply Hsp, Hc.
      * intros c0 Hh. cbn [head notSpace] in Hh. congruence.
    + cbn [app]. rewrite IH1. split; [reflexivity|intros c0 _; reflexivity].
Qed.

Lemma ext_suffix_title l : Forall titleChar l -> ext_suffix l = false.
Proof.
  intros Hall. unfold ext_suffix.
  assert (Hrev : Forall titleChar (rev l)) by (apply Forall_rev; exact Hall).
  destruct (rev l) as [|a [|b [|c [|d r]]]]; cbn [chars list_ascii_of_string rev app prefix_at];
    rewrite ?andb_false_r; try reflexivity.
  assert (Hd : ascii_eqb_ci "." d = false).
  { apply Forall_cons in Hrev. destruct Hrev as (_ & Hrev).
    apply Forall_cons in Hrev. destruct Hrev as (_ & Hrev).
    apply Forall_cons in Hrev. destruct Hrev as (_ & Hrev).
    apply Forall_cons in Hrev. destruct Hrev as (Hd & _).
    apply (char_facts d), Hd. }
  rewrite Hd, !andb_false_r. reflexivity.
Qed.

Lemma normalizeReleaseTitle_fixed l :
  normalTitle l -> normalizeReleaseTitle (Some (str l)) = str l.
Proof.
  intros [Hall Hsp Hh Hl]. cbn [normalizeReleaseTitle].
  unfold chars, str. rewrite list_ascii_of_string_of_list_ascii.
  rewrite (trim_chars_id l Hh Hl).
  destruct l as [|c0 t] eqn:El; [reflexivity|]. rewrite <- El in *. clear El c0 t.
  unfold strip_ext. rewrite (ext_suffix_title l Hall).
  assert (Hclass : forall p : ascii -> bool,
            (forall c, titleChar c -> p c = false) -> Forall (fun c => p c = false) l).
  { intros p Hp. eapply Forall_impl; [exact Hall|]. intros c Hc. apply Hp, Hc. }
  rewrite (replace_runs_id is_sep l) by (apply Hclass; intros c Hc; apply (char_facts c), Hc).
  rewrite (replace_runs_id is_quote l) by (apply Hclass; intros c Hc; apply (char_facts c), Hc).
  rewrite (replace_each_id is_bracket l) by (apply Hclass; intros c Hc; apply (char_facts c), Hc).
  rewrite (replace_runs_id is_other l) by (apply Hclass; intros c Hc; apply (char_facts c), Hc).
  destruct (collapse_ws_id l Hsp) as (-> & _).
  rewrite (trim_chars_id l Hh Hl). f_equal.
  unfold lower_chars. clear Hsp Hh Hl Hclass.
  induction Hall as [|c t Hc _ IH]; cbn [map]; [reflexivity|].
  destruct (char_facts c) as (_ & _ & Hfix). destruct (Hfix Hc) as (-> & _).
  f_equal. exact IH.
Qed.

(** [normalizeReleaseTitle], and [normalizeTitle] of the triage runner,
    which has the same text: a normalized title holds
    only lower-case letters, digits and white space, has no white space at
    either end and no two white-space characters in a row; normalizing it
    again changes nothing. *)
Theorem normalizeReleaseTitle_idempotent (title : option string) :
  let key := normalizeReleaseTitle title in
  Forall titleChar (chars key)
  /\ singleSpaced (chars key)
  /\ notSpace (head (chars key)) /\ notSpace (last (chars key))
  /\ normalizeReleaseTitle (Some key) = key.
Proof.
  intros key. pose proof (normalizeReleaseTitle_shape title) as Hshape. fold key in Hshape.
  pose proof (normalizeReleaseTitle_fixed _ Hshape) as Hfix.
  unfold chars, str in Hfix. rewrite string_of_list_ascii_of_string in Hfix.
  destruct Hshape as [H1 H2 H3 H4].
  split; [exact H1|]. split; [exact H2|]. split; [exact H3|]. split; [exact H4|exact Hfix].
Qed.

End TitleShapeProofs.
(** ** The strict search phrase *)

Module StrictSearchProofs.
Import JsString StrictSearch.

Lemma matchAt_iff p : forall c,
  matchAt p c = true <-> exists after, c = p ++ after.
Proof.
  induction p as [|x ps IH]; intros c; cbn [matchAt].
  - split; [intros _; exists c; reflexivity|reflexivity].
  - destruct c as [|y cs].
    + split; [discriminate|]. intros (after & H). discriminate H.
    + rewrite andb_true_iff, String.eqb_eq, IH. split.
      * intros (-> & after & ->). exists after. reflexivity.
      * intros (after & H). injection H as -> ->. split; [reflexivity|]. exists after. reflexivity.
Qed.

Lemma scanFrom_iff p c fuel : forall i,
  scanFrom fuel i p c = true
  <-> exists k, (i <= k < i + fuel)%nat /\ matchAt p (skipn k c) = true.
Proof.
  induction fuel as [|fuel IH]; intros i; cbn [scanFrom].
  - split; [discriminate|]. intros (k & Hk & _). lia.
  - destruct (matchAt p (skipn i c)) eqn:Hm.
    + split; [|reflexivity]. intros _. exists i. split; [lia|exact Hm].
    + rewrite IH. split.
      * intros (k & Hk & H). exists k. split; [lia|exact H].
      * intros (k & Hk & H). exists k. split; [|exact H].
        destruct (decide (k = i)) as [-> | Hne]; [congruence|lia].
Qed.

(** The two loops find the phrase exactly when its tokens form a run of the
    tokens of the candidate. *)
Lemma scan_tokenRun p c :
  scanFrom (length c + 1 - length p) 0 p c = true <-> tokenRun p c.
Proof.
  rewrite scanFrom_iff. unfold tokenRun. split.
  - intros (k & Hk & Hm). apply matchAt_iff in Hm. destruct Hm as (after & Hm).
    exists (firstn k c), after. rewrite <- Hm. symmetry. apply firstn_skipn.
  - intros (before & after & ->). exists (length before). split.
    + rewrite !length_app. lia.
    + apply matchAt_iff. exists after. rewrite drop_app_length. reflexivity.
Qed.

(** [matchesStrictSearch]: with a phrase that is not empty,
    a title matches exactly when its sanitized form is not empty and the
    tokens of the phrase stand next to each other, in their order, among
    the tokens of the sanitized title; with an empty phrase every title
    matches. *)
Theorem matchesStrictSearch_token_run (title : option string) (strictPhrase : string) :
  matchesStrictSearch title strictPhrase = true
  <-> truthy strictPhrase = false
      \/ (truthy (sanitizeStrictSearchPhrase title) = true
          /\ tokenRun (tokensOf strictPhrase)
                      (tokensOf (sanitizeStrictSearchPhrase title))).
Proof.
  unfold matchesStrictSearch.
  destruct (truthy strictPhrase) eqn:Hp; cbn [negb]; [|split; [left; reflexivity|reflexivity]].
  destruct (truthy (sanitizeStrictSearchPhrase title)) eqn:Hc; cbn [negb].
  2:{ split; [discriminate|]. intros [H | (H & _)]; discriminate H. }
  destruct (String.eqb (sanitizeStrictSearchPhrase title) strictPhrase) eqn:Heq.
  - apply String.eqb_eq in Heq. rewrite Heq. split; [|reflexivity].
    intros _. right. split; [reflexivity|]. exists [], []. rewrite app_nil_r. reflexivity.
  - destruct (tokensOf strictPhrase) as [|p0 ps] eqn:Hps.
    + split; [|reflexivity]. intros _. right. split; [reflexivity|].
      exists [], (tokensOf (sanitizeStrictSearchPhrase title)). reflexivity.
    + rewrite scan_tokenRun. split.
      * intros H. right. split; [reflexivity|exact H].
      * intros [H | (_ & H)]; [discriminate H|exact H].
Qed.

End StrictSearchProofs.
(** ** Variable-length integers and yEnc bodies *)

Module ArchiveInspectProofs.
Import JsString ArchiveInspect.
Local Open Scope Z_scope.

Lemma toDouble_exact x : 0 <= x < 2 ^ 53 -> toDouble x = x.
Proof.
  intros Hx. unfold toDouble.
  assert (H : (Z.log2 x + 1 <=? 53) = true).
  { apply Z.leb_le. destruct (Z.eq_dec x 0) as [-> | Hne]; [cbn; lia|].
    assert (Z.log2 x < 53) by (apply Z.log2_lt_pow2; lia). lia. }
  rewrite H. reflexivity.
Qed.

Lemma low7_range b : 0 <= Z.land b 127 <= 127.
Proof.
  split; [apply Z.land_nonneg; right; lia|].
  assert (H : Z.land b 127 = b mod 2 ^ 7) by (apply (Z.land_ones b 7); lia).
  rewrite H. pose proof (Z.mod_pos_bound b (2 ^ 7) ltac:(lia)). change (2 ^ 7) with 128 in *. lia.
Qed.

Lemma pow7_step (k : nat) : 2 ^ (7 * Z.of_nat (S k)) = 2 ^ (7 * Z.of_nat k) * 128.
Proof.
  replace (7 * Z.of_nat (S k)) with (7 * Z.of_nat k + 7) by lia.
  rewrite Z.pow_add_r by lia. reflexivity.
Qed.

Lemma vintShape_cons b t :
  t <> [] -> (vintShape (b :: t) <-> Z.land b 128 <> 0 /\ vintShape t).
Proof. destruct t as [|c t]; [congruence|]. intros _. reflexivity. Qed.

Lemma vintFrom_spec rest : forall (k : nat) acc v n,
  (k <= 7)%nat -> 0 <= acc < 2 ^ (7 * Z.of_nat k) ->
  vintFrom rest acc (7 * Z.of_nat k) k = Some (v, n)
  <-> exists m : nat,
        n = (k + m)%nat /\ (1 <= m)%nat /\ (n <= 8)%nat /\ (m <= length rest)%nat
        /\ vintShape (firstn m rest)
        /\ v = toDouble (acc + 2 ^ (7 * Z.of_nat k) * vintValue (firstn m rest)).
Proof.
  induction rest as [|b rest IH]; intros k acc v n Hk Hacc; cbn [vintFrom].
  - split; [discriminate|]. intros (m & _ & Hm & _ & Hlen & _). cbn in Hlen. lia.
  - pose proof (low7_range b) as Hb.
    pose proof (pow7_step k) as Hstep.
    assert (Hmono : 2 ^ (7 * Z.of_nat (S k)) <= 2 ^ 49 \/ (7 <= k)%nat).
    { destruct (le_lt_dec 7 k); [right; assumption|left].
      apply Z.pow_le_mono_r; lia. }
    assert (Hp : 0 < 2 ^ (7 * Z.of_nat k)) by (apply Z.pow_pos_nonneg; lia).
    set (p := 2 ^ (7 * Z.of_nat k)) in *. clearbody p.
    destruct (Z.land b 128 =? 0) eqn:Hterm.
    + apply Z.eqb_eq in Hterm. split.
      * intros [= <- <-]. exists 1%nat. cbn [firstn vintShape vintValue length].
        rewrite firstn_O. cbn [vintShape vintValue].
        split; [lia|]. split; [lia|]. split; [lia|]. split; [lia|]. split; [exact Hterm|].
        f_equal. lia.
      * intros (m & -> & Hm & Hn & Hlen & Hshape & ->).
        destruct m as [|[|m]]; [lia| |].
        -- cbn [firstn vintValue]. rewrite firstn_O. cbn [vintValue].
           replace (k + 1)%nat with (S k) by lia.
           replace (p * (Z.land b 127 + 128 * 0)) with (Z.land b 127 * p) by ring.
           reflexivity.
        -- exfalso. cbn [length] in Hlen. destruct rest as [|c rest]; [cbn in Hlen; lia|].
           cbn [firstn vintShape] in Hshape. destruct Hshape as (Hc & _). contradiction.
    + apply Z.eqb_neq in Hterm.
      destruct (50 <? 7 * Z.of_nat k + 7) eqn:Hbreak.
      * apply Z.ltb_lt in Hbreak. split; [discriminate|].
        intros (m & -> & Hm & Hn & Hlen & Hshape & _).
        destruct m as [|[|m]]; [lia| |lia].
        cbn [firstn] in Hshape. rewrite firstn_O in Hshape. cbn [vintShape] in Hshape.
        contradiction.
      * apply Z.ltb_ge in Hbreak. assert (Hk6 : (k <= 6)%nat) by lia.
        assert (Hs : 0 <= acc + Z.land b 127 * p < p * 128) by nia.
        assert (Hp49 : p * 128 <= 2 ^ 49) by (destruct Hmono; lia).
        rewrite toDouble_exact by (change (2 ^ 53) with (16 * 2 ^ 49); lia).
        replace (7 * Z.of_nat k + 7) with (7 * Z.of_nat (S k)) by lia.
        rewrite (IH (S k) _ v n ltac:(lia)) by (rewrite Hstep; lia).
        rewrite Hstep. split.
        -- intros (m & -> & Hm & Hn & Hlen & Hshape & ->).
           exists (S m). cbn [length firstn vintValue].
           split; [lia|]. split; [lia|]. split; [lia|]. split; [lia|]. split.
           ++ apply vintShape_cons; [|split; assumption].
              destruct m; [lia|]. destruct rest; [cbn in Hlen; lia|discriminate].
           ++ f_equal. lia.
        -- intros (m & -> & Hm & Hn & Hlen & Hshape & ->).
           destruct m as [|m]; [lia|]. cbn [length firstn vintValue] in *.
           destruct m as [|m];
             [rewrite firstn_O in Hshape; cbn [vintShape] in Hshape; contradiction|].
           apply vintShape_cons in Hshape;
             [|destruct rest; [cbn in Hlen; lia|discriminate]].
           exists (S m). split; [lia|]. split; [lia|]. split; [lia|]. split; [lia|].
           split; [apply Hshape|]. f_equal. lia.
Qed.

Lemma vintValue_bound l : 0 <= vintValue l < 2 ^ (7 * Z.of_nat (length l)).
Proof.
  induction l as [|b t IH]; [cbn; lia|].
  cbn [vintValue length]. rewrite pow7_step. pose proof (low7_range b). lia.
Qed.

(** [readRar5Vint]: the function returns a
    value exactly when, from the offset on, the buffer holds at most seven
    bytes with the high bit set followed by a byte without it; it then
    reports the number of these bytes, which lie within the buffer, and
    the number spelled by their low seven bits, least significant group
    first, as the nearest double; up to seven bytes the value is exact. *)
Theorem readRar5Vint_spec (buffer : list Z) (offset : nat) (v : Z) (n : nat) :
  (readRar5Vint buffer offset = Some (v, n)
   <-> (1 <= n <= 8)%nat /\ (offset + n <= length buffer)%nat
       /\ vintShape (firstn n (skipn offset buffer))
       /\ v = toDouble (vintValue (firstn n (skipn offset buffer))))
  /\ (readRar5Vint buffer offset = Some (v, n) -> (n <= 7)%nat ->
      v = vintValue (firstn n (skipn offset buffer)) /\ 0 <= v < 2 ^ 49).
Proof.
  assert (Hiff : readRar5Vint buffer offset = Some (v, n)
                 <-> (1 <= n <= 8)%nat /\ (offset + n <= length buffer)%nat
                     /\ vintShape (firstn n (skipn offset buffer))
                     /\ v = toDouble (vintValue (firstn n (skipn offset buffer)))).
  { unfold readRar5Vint.
    rewrite (vintFrom_spec (skipn offset buffer) 0 0 v n ltac:(lia) ltac:(cbn; lia)).
    rewrite length_skipn. change (2 ^ (7 * Z.of_nat 0)) with 1. split.
    - intros (m & -> & Hm & Hn & Hlen & Hshape & ->). cbn [Nat.add].
      split; [lia|]. split; [lia|]. split; [exact Hshape|]. f_equal. lia.
    - intros (Hn & Hlen & Hshape & ->). exists n. cbn [Nat.add].
      split; [reflexivity|]. split; [lia|]. split; [lia|]. split; [lia|].
      split; [exact Hshape|]. f_equal. lia. }
  split; [exact Hiff|].
  intros Hread Hn7. apply Hiff in Hread. destruct Hread as (Hn & Hlen & _ & ->).
  pose proof (vintValue_bound (firstn n (skipn offset buffer))) as Hb.
  assert (Hpow : 2 ^ (7 * Z.of_nat (length (firstn n (skipn offset buffer)))) <= 2 ^ 49).
  { apply Z.pow_le_mono_r; [lia|]. rewrite length_firstn. lia. }
  rewrite toDouble_exact by (change (2 ^ 53) with (16 * 2 ^ 49); lia).
  split; [reflexivity|lia].
Qed.

(** *** yEnc bodies *)

Abbreviation isByte := (fun b : Z => 0 <= b <= 255).

Lemma land255_byte x : isByte (Z.land x 255).
Proof.
  cbn beta. assert (H : Z.land x 255 = x mod 2 ^ 8) by (apply (Z.land_ones x 8); lia).
  rewrite H. pose proof (Z.mod_pos_bound x (2 ^ 8) ltac:(lia)).
  change (2 ^ 8) with 256 in *. lia.
Qed.

(** What the loop over a line does to the bytes written so far. *)
Lemma decodeLine_facts maxBytes (bound : nat) : forall src written w full,
  (length src <= bound)%nat ->
  decodeLine maxBytes src written = (w, full) ->
  (length w <= length written + length src)%nat
  /\ (Forall isByte written -> Forall isByte w)
  /\ (full = true -> (maxBytes <= length w)%nat /\ w <> [])
  /\ (full = false -> w = written \/ (length w < maxBytes)%nat).
Proof.
  induction bound as [|bound IH]; intros src written w full Hlen Hrun.
  - destruct src; [|cbn in Hlen; lia]. cbn in Hrun. injection Hrun as <- <-.
    split; [cbn; lia|]. split; [auto|]. split; [discriminate|]. intros _. left. reflexivity.
  - destruct src as [|byte rest]; cbn [decodeLine] in Hrun.
    { injection Hrun as <- <-.
      split; [cbn; lia|]. split; [auto|]. split; [discriminate|]. intros _. left. reflexivity. }
    cbn [length] in Hlen.
    assert (Hstep : forall b src',
              (length src' <= bound)%nat -> (length src' < length (byte :: rest))%nat ->
              (if (maxBytes <=? length (written ++ [Z.land b 255]))%nat
               then (written ++ [Z.land b 255], true)
               else decodeLine maxBytes src' (written ++ [Z.land b 255])) = (w, full) ->
              (length w <= length written + length (byte :: rest))%nat
              /\ (Forall isByte written -> Forall isByte w)
              /\ (full = true -> (maxBytes <= length w)%nat /\ w <> [])
              /\ (full = false -> w = written \/ (length w < maxBytes)%nat)).
    { intros b src' Hb Hlt Hrun'.
      destruct (maxBytes <=? length (written ++ [Z.land b 255]))%nat eqn:Hfull.
      - injection Hrun' as <- <-. apply Nat.leb_le in Hfull.
        rewrite length_app in *. cbn [length] in *.
        split; [lia|]. split.
        + intros Hw. apply Forall_app. split; [exact Hw|].
          constructor; [apply land255_byte|constructor].
        + split; [|discriminate]. intros _. split; [lia|].
          destruct written; discriminate.
      - apply Nat.leb_gt in Hfull.
        destruct (IH src' _ w full Hb Hrun') as (H1 & H2 & H3 & H4).
        rewrite length_app in *. cbn [length] in *.
        split; [lia|]. split.
        + intros Hw. apply H2. apply Forall_app. split; [exact Hw|].
          constructor; [apply land255_byte|constructor].
        + split; [exact H3|]. intros Hf. right.
          destruct (H4 Hf) as [-> | Hlt']; [rewrite length_app; cbn [length]; lia|exact Hlt']. }
    destruct (byte =? 61).
    + destruct rest as [|escaped rest'].
      * injection Hrun as <- <-.
        split; [cbn; lia|]. split; [auto|]. split; [discriminate|]. intros _. left. reflexivity.
      * cbn [length] in Hlen. apply (Hstep (Z.land (escaped - 64) 255 - 42) rest');
          [lia|cbn [length]; lia|exact Hrun].
    + apply (Hstep (byte - 42) rest); [lia|cbn [length]; lia|exact Hrun].
Qed.

Lemma splitCRLF_total (bound : nat) : forall l cur,
  (length l <= bound)%nat ->
  (list_sum (map (@length Z) (splitCRLF cur l)) <= length cur + length l)%nat.
Proof.
  assert (Hend : forall cur : list Z,
            list_sum (map (@length Z) [rev cur]) = length cur).
  { intros cur. unfold list_sum. cbn [map fold_right]. rewrite length_rev. lia. }
  induction bound as [|bound IH]; intros l cur Hlen.
  - destruct l; [|cbn in Hlen; lia]. cbn [splitCRLF]. rewrite Hend. lia.
  - destruct l as [|a t]; [cbn [splitCRLF]; rewrite Hend; lia|].
    cbn [splitCRLF]. cbn [length] in Hlen. destruct t as [|b t'].
    + cbn [splitCRLF]. rewrite Hend. cbn [length]. lia.
    + cbn [length] in Hlen. destruct ((a =? 13) && (b =? 10)).
      * pose proof (IH t' [] ltac:(lia)) as H. cbn [length] in H |- *.
        unfold list_sum in H |- *. cbn [map fold_right]. rewrite length_rev. lia.
      * pose proof (IH (b :: t') (a :: cur) ltac:(cbn [length]; lia)) as H.
        cbn [length] in H |- *. lia.
Qed.

(** The bounds of the loop over the lines; nothing is written before a line
    that starts with [=ybegin]. *)
Lemma decodeLines_bounds maxBytes lines : forall decoding written,
  (written = [] \/ (length written < maxBytes)%nat) ->
  Forall isByte written ->
  match decodeLines maxBytes lines decoding written with
  | Decoded out =>
      (length out <= maxBytes)%nat
      /\ (length out <= length written + list_sum (map (@length Z) lines))%nat
      /\ ((0 < maxBytes)%nat -> out <> [])
      /\ Forall isByte out
  | DecodeError => True
  end.
Proof.
  assert (Hslice : forall written,
            (written = [] \/ (length written < maxBytes)%nat) -> Forall isByte written ->
            forall more : nat,
            match sliceWritten written with
            | Decoded out =>
                (length out <= maxBytes)%nat
                /\ (length out <= length written + more)%nat
                /\ ((0 < maxBytes)%nat -> out <> [])
                /\ Forall isByte out
            | DecodeError => True
            end).
  { intros written Hinv Hbytes more. destruct written as [|x t]; [exact I|].
    cbn [sliceWritten]. destruct Hinv as [Hinv | Hinv]; [discriminate|].
    split; [lia|]. split; [lia|]. split; [discriminate|exact Hbytes]. }
  induction lines as [|line rest IH]; intros decoding written Hinv Hbytes;
    cbn [decodeLines].
  - apply Hslice; assumption.
  - cbn [map]. replace (list_sum (length line :: map (@length Z) rest))
      with (length line + list_sum (map (@length Z) rest))%nat by reflexivity.
    destruct decoding; cbn [negb].
    + destruct (startsWithBytes (bytesOf "=ypart") line).
      { specialize (IH true written Hinv Hbytes).
        destruct (decodeLines maxBytes rest true written); [|exact I].
        destruct IH as (H1 & H2 & H3 & H4). repeat split; try assumption. lia. }
      destruct (startsWithBytes (bytesOf "=yend") line); [apply Hslice; assumption|].
      destruct (decodeLine maxBytes line written) as [w full] eqn:Hline.
      destruct (decodeLine_facts maxBytes (length line) line written w full (le_n _) Hline)
        as (Hlen & Hb & Hfull & Hnot).
      destruct full.
      * destruct (Hfull eq_refl) as (Hmax & Hne).
        split; [rewrite length_firstn; lia|]. split; [rewrite length_firstn; lia|].
        split.
        -- intros Hpos. destruct w as [|x w]; [congruence|].
           destruct maxBytes; [lia|]. discriminate.
        -- apply Forall_take. apply Hb, Hbytes.
      * specialize (IH true w).
        assert (Hinv' : w = [] \/ (length w < maxBytes)%nat).
        { destruct (Hnot eq_refl) as [-> | H]; [exact Hinv|right; exact H]. }
        specialize (IH Hinv' (Hb Hbytes)).
        destruct (decodeLines maxBytes rest true w); [|exact I].
        destruct IH as (H1 & H2 & H3 & H4). repeat split; try assumption. lia.
    + specialize (IH (startsWithBytes (bytesOf "=ybegin") line) written Hinv Hbytes).
      destruct (decodeLines maxBytes rest _ written); [|exact I].
      destruct IH as (H1 & H2 & H3 & H4). repeat split; try assumption. lia.
Qed.

Lemma decodeLines_no_begin maxBytes lines :
  Forall (fun line => startsWithBytes (bytesOf "=ybegin") line = false) lines ->
  decodeLines maxBytes lines false [] = DecodeError.
Proof.
  induction 1 as [|line rest Hline _ IH]; cbn [decodeLines negb]; [reflexivity|].
  rewrite Hline. exact IH.
Qed.

(** [decodeYencBuffer]: a decoded body is
    never longer than [maxBytes] nor than the body it was read from, holds
    bytes only, and is not empty when [maxBytes] is positive; a body in
    which no line starts with [=ybegin] is refused with the decode error. *)
Theorem decodeYencBuffer_bounds (bodyBuffer : list Z) (maxBytes : nat) :
  match decodeYencBuffer bodyBuffer maxBytes with
  | Decoded out =>
      (length out <= maxBytes)%nat /\ (length out <= length bodyBuffer)%nat
      /\ ((0 < maxBytes)%nat -> out <> [])
      /\ Forall (fun b => 0 <= b <= 255) out
  | DecodeError => True
  end
  /\ (Forall (fun line => startsWithBytes (bytesOf "=ybegin") line = false)
        (splitCRLF [] bodyBuffer) ->
      decodeYencBuffer bodyBuffer maxBytes = DecodeError).
Proof.
  split; [|apply decodeLines_no_begin].
  unfold decodeYencBuffer.
  pose proof (decodeLines_bounds maxBytes (splitCRLF [] bodyBuffer) false []
                (or_introl eq_refl) (Forall_nil_2 _)) as H.
  pose proof (splitCRLF_total (length bodyBuffer) bodyBuffer [] (le_n _)) as Htotal.
  destruct (decodeLines maxBytes (splitCRLF [] bodyBuffer) false []); [|exact I].
  destruct H as (H1 & H2 & H3 & H4). cbn [length] in H2, Htotal.
  split; [exact H1|]. split; [lia|]. split; [exact H3|exact H4].
Qed.

End ArchiveInspectProofs.
(** ** Publish instants *)

Module PublishInfoProofs.
Import JsString PublishInfo Result Server DedupeSpec PublishSamples.
Local Open Scope Z_scope.

Lemma firstPublishDate_nonzero candidates ms :
  firstPublishDate candidates = Some ms -> ms <> 0.
Proof.
  induction candidates as [|c rest IH]; cbn [firstPublishDate]; [discriminate|].
  destruct (normalizePublishDate c) as [v|]; [|exact IH].
  destruct (v =? 0) eqn:Hv; [exact IH|].
  intros [= <-]. apply Z.eqb_neq in Hv. exact Hv.
Qed.

(** What [getPublishMetadataFromResult] finds in a result after the
    write-back of the deduplication pass. *)
Lemma publishOf_written r ms :
  publishOf r = Some ms ->
  publishOf (withPublishMetadata r) = Some ms
  \/ (publishOf (withPublishMetadata r) = Some (ms * 1000)
      /\ ms < 10 ^ 12
      /\ (publishDateMs r = None \/ publishDateMs r = Some 0)).
Proof.
  unfold publishOf, withPublishMetadata. intros Hms. rewrite Hms.
  pose proof (firstPublishDate_nonzero _ _ Hms) as Hnz.
  assert (Hwrite : getPublishMetadataFromResult (set_publishDateMs r (Some ms)) = Some ms
                   \/ (getPublishMetadataFromResult (set_publishDateMs r (Some ms))
                       = Some (ms * 1000) /\ ms < 10 ^ 12)).
  { unfold getPublishMetadataFromResult, set_publishDateMs.
    cbn [publishDateMs publishAliases rawOfNumber firstPublishDate normalizePublishDate].
    destruct (10 ^ 12 <=? ms) eqn:Hbig.
    - left. apply Z.eqb_neq in Hnz. rewrite Hnz. reflexivity.
    - right. apply Z.leb_gt in Hbig.
      assert (H : (ms * 1000 =? 0) = false) by (apply Z.eqb_neq; lia).
      rewrite H. split; [reflexivity|exact Hbig]. }
  destruct (publishDateMs r) as [old|] eqn:Hold.
  - destruct (old =? 0) eqn:Hz.
    + apply Z.eqb_eq in Hz. subst old.
      destruct Hwrite as [H | (H & Hlt)]; [left; exact H|].
      right. split; [exact H|]. split; [exact Hlt|right; reflexivity].
    + left. exact Hms.
  - destruct Hwrite as [H | (H & Hlt)]; [left; exact H|].
    right. split; [exact H|]. split; [exact Hlt|left; reflexivity].
Qed.

(** The write-back of [dedupeResultsByTitle] and the next reading of the
    result: a publish instant of at least [10 ^ 12] milliseconds
    (9 September 2001) is found again as it is; an earlier one that was
    written into [publishDateMs] is then read as a number of seconds, and
    found a thousandfold. *)
Theorem publish_instant_read_back (r : nzbResult) (ms : Z) :
  publishOf r = Some ms ->
  (10 ^ 12 <= ms -> publishOf (withPublishMetadata r) = Some ms)
  /\ (publishOf (withPublishMetadata r) = Some ms
      \/ publishOf (withPublishMetadata r) = Some (ms * 1000))
  /\ (ms < 10 ^ 12 -> publishDateMs r = None ->
      publishOf (withPublishMetadata r) = Some (ms * 1000)).
Proof.
  intros Hms. pose proof (publishOf_written r ms Hms) as Hcases.
  split; [|split].
  - intros Hbig. destruct Hcases as [H | (_ & Hlt & _)]; [exact H|lia].
  - destruct Hcases as [H | (H & _)]; [left; exact H|right; exact H].
  - intros Hlt Hnone. unfold publishOf, withPublishMetadata in *.
    rewrite Hms, Hnone.
    unfold getPublishMetadataFromResult, set_publishDateMs.
    cbn [publishDateMs publishAliases rawOfNumber firstPublishDate normalizePublishDate].
    assert (H1 : (10 ^ 12 <=? ms) = false) by (apply Z.leb_gt; exact Hlt).
    pose proof (firstPublishDate_nonzero _ _ Hms) as Hnz.
    assert (H2 : (ms * 1000 =? 0) = false) by (apply Z.eqb_neq; lia).
    rewrite H1, H2. reflexivity.
Qed.

(** A release of 1 January 1999 and one of 14 November 2023. *)
Lemma publish_instant_read_back_witness :
  publishOf (withPublishMetadata (datedByText 915148800000)) = Some 915148800000000
  /\ publishOf (withPublishMetadata (datedByText 1700000000000)) = Some 1700000000000.
Proof.
  destruct (publish_instant_read_back (datedByText 915148800000) 915148800000 eq_refl)
    as (_ & _ & Hold).
  destruct (publish_instant_read_back (datedByText 1700000000000) 1700000000000 eq_refl)
    as (Hnew & _).
  split; [apply Hold; reflexivity|apply Hnew; vm_compute; discriminate].
Defined.

(** [areReleasesWithinDays]: the test does not depend on the order of the
    two instants, holds whenever an instant is missing or the number of days
    is zero or less, and among positive numbers of days a larger one accepts
    whatever a smaller one accepts. *)
Theorem areReleasesWithinDays_laws (a b : option Z) (days days' : Z) :
  areReleasesWithinDays a b days = areReleasesWithinDays b a days
  /\ (days <= 0 \/ a = None \/ b = None -> areReleasesWithinDays a b days = true)
  /\ areReleasesWithinDays a a days = true
  /\ (0 < days <= days' -> areReleasesWithinDays a b days = true ->
      areReleasesWithinDays a b days' = true)
  /\ (forall x y, 0 < days ->
        (areReleasesWithinDays (Some x) (Some y) days = true
         <-> Z.abs (x - y) <= days * MS_PER_DAY)).
Proof.
  unfold areReleasesWithinDays, MS_PER_DAY. split; [|split; [|split; [|split]]].
  - destruct (days <=? 0); [reflexivity|]. destruct a as [x|], b as [y|]; try reflexivity.
    replace (y - x) with (- (x - y)) by lia. rewrite Z.abs_opp. reflexivity.
  - intros H. destruct (days <=? 0) eqn:Hd; [reflexivity|].
    apply Z.leb_gt in Hd. destruct H as [H | [-> | ->]]; [lia|reflexivity|].
    destruct a; reflexivity.
  - destruct (days <=? 0) eqn:Hd; [reflexivity|]. apply Z.leb_gt in Hd.
    destruct a as [x|]; [|reflexivity].
    apply Z.leb_le. rewrite Z.sub_diag. change (Z.abs 0) with 0. lia.
  - intros Hd. assert (H1 : (days <=? 0) = false) by (apply Z.leb_gt; lia).
    assert (H2 : (days' <=? 0) = false) by (apply Z.leb_gt; lia). rewrite H1, H2.
    destruct a as [x|], b as [y|]; try reflexivity.
    rewrite !Z.leb_le. lia.
  - intros x y Hd. assert (H1 : (days <=? 0) = false) by (apply Z.leb_gt; lia).
    rewrite H1. apply Z.leb_le.
Qed.

End PublishInfoProofs.
